(** * Hunger Games Simulator: the game state machine, the round simulator,
      the event templates and the message composer.

    A shallow embedding of [eventMessage.ts], [events.ts], [utils.ts],
    [tribute.ts], [types.ts] and [game.ts].

    Conventions of the embedding.
    - A JavaScript string is the [string] of the UTF-8 bytes of its text.
      The composer and the regular expression of the participant count look
      for ASCII characters only, each of which is one byte and part of no
      other character: there [m[i]] is [String.get i m] ([None] is
      [undefined]) and [m.slice(a, b)] is [slice m a b], with positions
      counted in bytes.
    - A [throw] is the outcome [Throw]; the message of the error is abstracted
      to a constructor of [Error].
    - Objects that are mutated while shared (tributes, the round being
      simulated) live in the game record and are referred to by position:
      a tribute by its position in [tributes], a round by its [index].
    - A number is the rational that it is. [Math.random()] reads the next
      entry of a stream of outcomes, each a rational of [[0,1)]. The
      arithmetic of the constructor is rounded to double precision
      ([round64]); the products of a random outcome are not rounded. *)

From Stdlib Require Import QArith Qround Lqa Ascii String.
From stdpp Require Import base tactics option list strings pretty.

Local Open Scope string_scope.
Local Open Scope list_scope.
Local Open Scope nat_scope.

(** ** Outcomes of a computation *)

Inductive Error : Type :=
  | IndexOutOfBounds (index players : nat)  (* check_bounds *)
  | TypeError                               (* property access on undefined *)
  | EmptyMessage                            (* Event message cannot be empty! *)
  | IllFormedEvent (players : nat)          (* must be between 1 and 9 *)
  | InvalidDeaths
  | InvalidKillers
  | InvalidRequirement
  | InternalError.                          (* An internal error has occurred *)

Inductive Outcome (A : Type) : Type :=
  | Ok (a : A)
  | Throw (e : Error)
  | OutOfFuel.
Arguments Ok {A} a.
Arguments Throw {A} e.
Arguments OutOfFuel {A}.

Definition is_Ok {A} (o : Outcome A) : bool :=
  match o with Ok _ => true | _ => false end.

(** ** utils.ts *)

Definition char_zero : nat := nat_of_ascii "0".
Definition char_nine : nat := nat_of_ascii "9".

(** The test [c >= char_zero && c <= char_nine] on the code of a character. *)
Definition is_digit_char (ch : ascii) : bool :=
  let c := nat_of_ascii ch in
  (char_zero <=? c) && (c <=? char_nine).

(** [isdigit(char)]: [char.charCodeAt(0)] throws when [char] is [undefined]. *)
Definition isdigit (char : option ascii) : Outcome bool :=
  match char with
  | None => Throw TypeError
  | Some ch => Ok (is_digit_char ch)
  end.

Definition slice (m : string) (from to : nat) : string :=
  substring from (to - from) m.

Definition slice_from (m : string) (from : nat) : string :=
  substring from (String.length m - from) m.

(** ** tribute.ts *)

Record NameSpan : Type := { value : string }.

Record TributePronouns : Type := {
  nominative : string;
  accusative : string;
  genitive : string;
  reflexive : string
}.

Definition Tag : Type := nat.          (* a tag is compared by its id *)

Record Tribute : Type := {
  raw_name : string;
  name : NameSpan;
  pronouns : option TributePronouns;
  uses_pronouns : bool;
  plural : bool;
  kills : nat;
  died_in_round : option nat;          (* index of the round, if any *)
  tags : list Tag
}.

Definition new_Tribute (nm : string) (uses : bool)
    (pr : option TributePronouns) (pl : bool) (tgs : list Tag) : Tribute :=
  {| raw_name := nm;
     name := {| value := nm |};
     pronouns := if uses then pr else None;
     uses_pronouns := uses;
     plural := pl;
     kills := 0;
     died_in_round := None;
     tags := tgs |}.

(** [Tribute.has]: some tag of the tribute equals [t] (by id). *)
Definition has (tr : Tribute) (t : Tag) : bool :=
  existsb (Nat.eqb t) (tags tr).

Definition set_died_in_round (r : nat) (tr : Tribute) : Tribute :=
  {| raw_name := raw_name tr; name := name tr; pronouns := pronouns tr;
     uses_pronouns := uses_pronouns tr; plural := plural tr;
     kills := kills tr; died_in_round := Some r; tags := tags tr |}.

Definition add_kills (n : nat) (tr : Tribute) : Tribute :=
  {| raw_name := raw_name tr; name := name tr; pronouns := pronouns tr;
     uses_pronouns := uses_pronouns tr; plural := plural tr;
     kills := kills tr + n; died_in_round := died_in_round tr;
     tags := tags tr |}.

(** ** tag.ts *)

(** The tag objects created so far and the static array
    [Tag.registered_tags]. A tag object is known by its id; ids are given
    in the order of creation, so [tag_names] holds the [__name] of the
    object of each id and [Tag.__next_id] is its length. *)
Record Tags : Type := {
  tag_names : list string;
  registered_tags : list Tag
}.

Definition next_id (s : Tags) : nat := length (tag_names s).

(** [t.name]. *)
Definition Tag_name (s : Tags) (t : Tag) : option string := tag_names s !! t.

Definition has_name (s : Tags) (name : string) (t : Tag) : bool :=
  match Tag_name s t with
  | Some n => String.eqb name n
  | None => false
  end.

(** [new Tag(name)]. *)
Definition new_Tag (name : string) (s : Tags) : Tag * Tags :=
  (next_id s,
   {| tag_names := tag_names s ++ [name];
      registered_tags := registered_tags s ++ [next_id s] |}).

(** [t.name = name]; [None] is the error that is thrown. *)
Definition set_name (t : Tag) (name : string) (s : Tags) : option Tags :=
  if existsb (has_name s name) (registered_tags s) then None
  else Some {| tag_names := <[t := name]> (tag_names s);
               registered_tags := registered_tags s |}.

(** [Tag.equal(a, b)]. *)
Definition Tag_equal (a b : Tag) : bool := a =? b.

(** [Tag.for(name)]. *)
Definition Tag_for (name : string) (s : Tags) : Tag * Tags :=
  match find (has_name s name) (registered_tags s) with
  | Some t => (t, s)
  | None => new_Tag name s
  end.

(** [tribute.tag(t)]. *)
Definition Tribute_tag (t : Tag) (tr : Tribute) : Tribute :=
  if has tr t then tr else
  {| raw_name := raw_name tr; name := name tr; pronouns := pronouns tr;
     uses_pronouns := uses_pronouns tr; plural := plural tr;
     kills := kills tr; died_in_round := died_in_round tr;
     tags := tags tr ++ [t] |}.

(** ** eventMessage.ts *)

(** An element of a [FormattedMessage]. [Undefined] is what the code pushes
    when a tribute that uses pronouns carries no pronoun record. *)
Inductive Segment : Type :=
  | Lit (s : string)
  | Span (n : NameSpan)
  | Undefined.

Definition FormattedMessage : Type := list Segment.

(** The letters of the second [case] group of the composer. *)
Definition is_specifier (c : ascii) : bool :=
  existsb (Ascii.eqb c)
    ["N"; "A"; "G"; "R"; "s"; "y"; "i"; "h"; "e"; "!"; "w"]%char.

(** The possessive suffix, as the bytes of the literal in the source. *)
Definition possessive_suffix : string :=
  String (ascii_of_nat 195) (String (ascii_of_nat 162)
  (String (ascii_of_nat 226) (String (ascii_of_nat 130)
  (String (ascii_of_nat 172) (String (ascii_of_nat 226)
  (String (ascii_of_nat 132) (String (ascii_of_nat 162) "s"))))))).

Definition pronoun (tribute : Tribute) (sel : TributePronouns -> string)
    : Segment :=
  match pronouns tribute with
  | Some p => Lit (sel p)
  | None => Undefined
  end.

(** The inner [switch (c)]; [None] is its [default: continue]. *)
Definition specifier_text (c : ascii) (tribute : Tribute) : option Segment :=
  if Ascii.eqb c "N" then
    Some (if uses_pronouns tribute then pronoun tribute nominative
          else Lit (raw_name tribute))
  else if Ascii.eqb c "A" then
    Some (if uses_pronouns tribute then pronoun tribute accusative
          else Lit (raw_name tribute))
  else if Ascii.eqb c "G" then
    Some (if uses_pronouns tribute then pronoun tribute genitive
          else Lit (raw_name tribute +:+ possessive_suffix))
  else if Ascii.eqb c "R" then
    Some (if uses_pronouns tribute then pronoun tribute reflexive
          else Lit (raw_name tribute))
  else if Ascii.eqb c "e" then Some (Lit (if plural tribute then "" else "es"))
  else if Ascii.eqb c "s" then Some (Lit (if plural tribute then "" else "s"))
  else if Ascii.eqb c "y" then Some (Lit (if plural tribute then "y" else "ies"))
  else if Ascii.eqb c "i" then Some (Lit (if plural tribute then "are" else "is"))
  else if Ascii.eqb c "h" then Some (Lit (if plural tribute then "have" else "has"))
  else if Ascii.eqb c "!" then
    Some (Lit (if plural tribute then "aren't" else "isn't"))
  else if Ascii.eqb c "w" then Some (Lit (if plural tribute then "were" else "was"))
  else None.

(** [check_bounds(event, index)]. *)
Definition check_bounds (players_involved index : nat) : Outcome unit :=
  if players_involved <=? index
  then Throw (IndexOutOfBounds index players_involved)
  else Ok tt.

(** [while (i < m.length && m[i] !== '%') i++]. *)
Fixpoint scan_literal (fuel : nat) (m : string) (i : nat) : nat :=
  match fuel with
  | 0 => i
  | S fuel' =>
      match String.get i m with
      | None => i
      | Some c => if Ascii.eqb c "%" then i else scan_literal fuel' m (S i)
      end
  end.

(** The statement after the loop: [if (prev < m.length) composed.push(m.slice(prev))]. *)
Definition flush (m : string) (prev : nat) (composed : FormattedMessage)
    : FormattedMessage :=
  if prev <? String.length m then composed ++ [Lit (slice_from m prev)]
  else composed.

(** The [outer: for (;;)] loop. [event_players] is
    [event.event.players_involved], [players] is [event.players_involved]
    (an entry [None] is [undefined]). *)
Fixpoint compose_loop (fuel : nat) (m : string) (event_players : nat)
    (players : list (option Tribute)) (prev i : nat)
    (composed : FormattedMessage) : Outcome FormattedMessage :=
  match fuel with
  | 0 => OutOfFuel
  | S fuel' =>
      let i := scan_literal (String.length m - i) m i in
      let composed := composed ++ [Lit (slice m prev i)] in
      let prev := i in
      if String.length m <=? i then Ok (flush m prev composed) else
      let i := S i in
      if String.length m <=? i then Ok (flush m prev composed) else
      match String.get i m with
      | None =>                       (* [default: continue] *)
          compose_loop fuel' m event_players players prev i composed
      | Some ch =>
          if is_digit_char ch then    (* [case '0': ... case '9':] *)
            let index := nat_of_ascii ch - char_zero in
            match check_bounds event_players index with
            | Ok _ =>
                match mjoin (players !! index) with
                | None => Throw TypeError
                | Some tribute =>
                    let composed := composed ++ [Span (name tribute)] in
                    let i := S i in
                    if String.length m <=? i then Ok (flush m prev composed)
                    else compose_loop fuel' m event_players players i i composed
                end
            | Throw e => Throw e
            | OutOfFuel => OutOfFuel
            end
          else if is_specifier ch then   (* [case 'N': ... case 'w':] *)
            let c := ch in
            let i := S i in
            match isdigit (String.get i m) with
            | Ok true =>
                let index :=
                  match String.get i m with
                  | Some d => nat_of_ascii d - char_zero
                  | None => 0
                  end in
                match check_bounds event_players index with
                | Ok _ =>
                    match mjoin (players !! index) with
                    | None => Throw TypeError
                    | Some tribute =>
                        match specifier_text c tribute with
                        | Some text =>
                            let composed := composed ++ [text] in
                            let i := S i in
                            compose_loop fuel' m event_players players i i composed
                        | None =>
                            compose_loop fuel' m event_players players prev i composed
                        end
                    end
                | Throw e => Throw e
                | OutOfFuel => OutOfFuel
                end
            | Ok false =>
                compose_loop fuel' m event_players players prev i composed
            | Throw e => Throw e
            | OutOfFuel => OutOfFuel
            end
          else                         (* [default: continue] *)
            compose_loop fuel' m event_players players prev i composed
      end
  end.

(** [ComposeEventMessage(event)], on the three things it reads from the
    [GameEvent]: the template, the event's participant count and the bound
    participants. Every turn of the outer loop moves [i] forward, so
    [S (length m)] turns are enough (lemma [compose_loop_fuel]). *)
Definition ComposeEventMessage (m : string) (event_players : nat)
    (players : list (option Tribute)) : Outcome FormattedMessage :=
  compose_loop (S (String.length m)) m event_players players 0 0 [].

(** ** events.ts *)

(** The character class [[NAGRsyih!]] of the regular expression in
    [CalculateTributesInvolved]. *)
Definition in_regex_class (c : ascii) : bool :=
  existsb (Ascii.eqb c) ["N"; "A"; "G"; "R"; "s"; "y"; "i"; "h"; "!"]%char.

Definition digit_value (c : ascii) : nat := nat_of_ascii c - char_zero.

(** [raw_message.match(/%[NAGRsyih!]?(\d)/g)?.map(x => +x.slice(-1))]: the
    last character of every match, scanning left to right; a match is
    [%], an optional class letter, and a digit, and the scan resumes after a
    match, or one character further where none starts. [None] is the [null]
    of [match] on no match at all. *)
Fixpoint regex_digits (s : string) : list nat :=
  match s with
  | EmptyString => []
  | String a s1 =>
      if Ascii.eqb a "%" then
        match s1 with
        | EmptyString => []
        | String c s2 =>
            if in_regex_class c then
              match s2 with
              | EmptyString => []
              | String d s3 =>
                  if is_digit_char d then digit_value d :: regex_digits s3
                  else regex_digits s1
              end
            else if is_digit_char c then digit_value c :: regex_digits s2
            else regex_digits s1
        end
      else regex_digits s1
  end.

Definition regex_match (s : string) : option (list nat) :=
  match regex_digits s with
  | [] => None
  | ds => Some ds
  end.

(** [CalculateTributesInvolved(raw_message)]. *)
Definition CalculateTributesInvolved (raw_message : string) : nat :=
  match regex_match raw_message with
  | None => 0
  | Some ds => foldl Nat.max 0 ds + 1
  end.

(** [String.prototype.trim] removes the white space and the line terminators
    of ECMAScript from both ends of the text. These are their UTF-8 bytes. *)
Definition bytes (codes : list nat) : string :=
  foldr (fun c s => String (ascii_of_nat c) s) EmptyString codes.

Definition white_space : list string :=
  map bytes
    [[9]; [10]; [11]; [12]; [13]; [32];      (* U+0009 .. U+000D, U+0020 *)
     [194; 160];                             (* U+00A0 *)
     [225; 154; 128];                        (* U+1680 *)
     [226; 128; 128]; [226; 128; 129]; [226; 128; 130]; [226; 128; 131];
     [226; 128; 132]; [226; 128; 133]; [226; 128; 134]; [226; 128; 135];
     [226; 128; 136]; [226; 128; 137]; [226; 128; 138];
                                             (* U+2000 .. U+200A *)
     [226; 128; 168]; [226; 128; 169];       (* U+2028, U+2029 *)
     [226; 128; 175];                        (* U+202F *)
     [226; 129; 159];                        (* U+205F *)
     [227; 128; 128];                        (* U+3000 *)
     [239; 187; 191]].                       (* U+FEFF *)

(** The rest of [s] after [p], when [s] starts with [p]. *)
Fixpoint strip_prefix (p s : string) : option string :=
  match p, s with
  | EmptyString, _ => Some s
  | String a p', String b s' =>
      if Ascii.eqb a b then strip_prefix p' s' else None
  | String _ _, EmptyString => None
  end.

Fixpoint skip_one (ps : list string) (s : string) : option string :=
  match ps with
  | [] => None
  | p :: ps' =>
      match strip_prefix p s with
      | Some rest => Some rest
      | None => skip_one ps' s
      end
  end.

(** The rest of [s] after the white-space character that it starts with. *)
Definition skip_white_space (s : string) : option string :=
  skip_one white_space s.

(** White space is skipped as long as there is some; every skip makes the
    text shorter, so that its length bounds the number of skips. *)
Fixpoint trim_start_from (fuel : nat) (s : string) : string :=
  match fuel with
  | 0 => s
  | S fuel' =>
      match skip_white_space s with
      | Some rest => trim_start_from fuel' rest
      | None => s
      end
  end.

Definition trim_start (s : string) : string :=
  trim_start_from (String.length s) s.

(** The text is cut where nothing but white space follows. *)
Fixpoint trim_end (s : string) : string :=
  match s with
  | EmptyString => EmptyString
  | String c s' =>
      if String.eqb (trim_start s) "" then EmptyString
      else String c (trim_end s')
  end.

Definition trim (s : string) : string := trim_end (trim_start s).

Record TagRequirement : Type := {
  tag : Tag;
  player_index : nat
}.

Record Event : Type := {
  message : string;
  players_involved : nat;
  fatalities : list nat;
  killers : list nat;
  enabled : bool;
  type : string;
  requirements : list TagRequirement
}.

(** [Math.max(...xs) >= n]; [Math.max()] of no argument is [-Infinity]. *)
Definition max_ge (xs : list nat) (n : nat) : bool :=
  match xs with
  | [] => false
  | _ => n <=? foldl Nat.max 0 xs
  end.

(** [new Event(message, fatalities, killers, type)]. The [id] drawn from the
    class counter is left out: nothing reads it. *)
Definition new_Event (msg : string) (fatal killrs : list nat) (ty : string)
    : Outcome Event :=
  let trimmed := trim msg in
  if String.length trimmed =? 0 then Throw EmptyMessage else
  let players := CalculateTributesInvolved msg in
  if (players <? 1) || (9 <? players) then Throw (IllFormedEvent players) else
  if max_ge fatal players then Throw InvalidDeaths else
  if max_ge killrs players then Throw InvalidKillers else
  Ok {| message := trimmed;
        players_involved := players;
        fatalities := fatal;
        killers := killrs;
        enabled := true;
        type := ty;
        requirements := [] |}.

Definition same_requirement (a b : TagRequirement) : bool :=
  (tag a =? tag b) && (player_index a =? player_index b).

(** [event.require(tag, player_index)]. *)
Definition require (e : Event) (t : Tag) (idx : nat) : Outcome Event :=
  if players_involved e <=? idx then Throw InvalidRequirement else
  let r := {| tag := t; player_index := idx |} in
  Ok {| message := message e;
        players_involved := players_involved e;
        fatalities := fatalities e;
        killers := killers e;
        enabled := enabled e;
        type := type e;
        requirements :=
          if existsb (same_requirement r) (requirements e)
          then requirements e else requirements e ++ [r] |}.

(** [TitleCase(str)]: lower-case everything, then upper-case the first
    character of every word. *)
Definition to_lower (c : ascii) : ascii :=
  let n := nat_of_ascii c in
  if (65 <=? n) && (n <=? 90) then ascii_of_nat (n + 32) else c.

Definition to_upper (c : ascii) : ascii :=
  let n := nat_of_ascii c in
  if (97 <=? n) && (n <=? 122) then ascii_of_nat (n - 32) else c.

Definition is_word_char (c : ascii) : bool :=
  let n := nat_of_ascii c in
  ((65 <=? n) && (n <=? 90)) || ((97 <=? n) && (n <=? 122))
  || ((48 <=? n) && (n <=? 57)) || (n =? 95).

Fixpoint title_case_from (in_word : bool) (s : string) : string :=
  match s with
  | EmptyString => EmptyString
  | String c s' =>
      let l := to_lower c in
      String (if is_word_char l && negb in_word then to_upper l else l)
             (title_case_from (is_word_char l) s')
  end.

Definition TitleCase (str : string) : string := title_case_from false str.

(** ** gameOptions.ts *)

Record GreyscaleSettings : Type := {
  in_events : bool;
  end_of_day_summary : bool;
  end_of_game_summary : bool
}.

Inductive RequiredFatalitiesMode : Type := Disable | Percent | Absolute.

(** A JavaScript number, as far as [isFinite] tells. *)
Inductive Number : Type :=
  | Finite (q : Q)
  | NotFinite.

Record GameOptions : Type := {
  required_fatalities_mode : RequiredFatalitiesMode;
  opt_required_fatalities : Number;
  starting_day : option Q;
  opt_greyscale_settings : GreyscaleSettings
}.

(** ** types.ts *)

Inductive GameStage : Type := BLOODBATH | DAY | NIGHT | FEAST.

#[global] Instance GameStage_eq_dec : EqDecision GameStage.
Proof. solve_decision. Defined.

Definition stage_string (s : GameStage) : string :=
  match s with
  | BLOODBATH => "bloodbath"
  | DAY => "day"
  | NIGHT => "night"
  | FEAST => "feast"
  end.

Definition stage_eqb (a b : GameStage) : bool :=
  match a, b with
  | BLOODBATH, BLOODBATH | DAY, DAY | NIGHT, NIGHT | FEAST, FEAST => true
  | _, _ => false
  end.

Record GameEventList : Type := {
  bloodbath : list Event;
  day : list Event;
  night : list Event;
  feast : list Event
}.

(** [EventList]: every list is optional. *)
Record EventList : Type := {
  el_bloodbath : option (list Event);
  el_day : option (list Event);
  el_night : option (list Event);
  el_feast : option (list Event);
  el_all : option (list Event)
}.

(** A tribute object is referred to by its position in [Game.tributes]. *)
Abbreviation TributeRef := nat (only parsing).

(** [GameEvent]: the fields [event], [players_involved] (an entry [None] is
    [undefined]) and [message]. *)
Record GameEvent : Type := {
  ge_event : Event;
  ge_players_involved : list (option TributeRef);
  ge_message : FormattedMessage
}.

(** [GameRound]; the field [stage] is [round_stage] here. *)
Record GameRound : Type := {
  game_events : list GameEvent;
  died_this_round : list TributeRef;
  index : nat;
  round_stage : GameStage
}.

(** ** game.ts *)

Inductive GameState : Type :=
  | DEAD
  | NEW_ROUND
  | IN_ROUND
  | THE_FALLEN
  | END_RESULTS
  | END_WINNER
  | END_SUMMARY_FATALITIES
  | END_SUMMARY_STATS
  | END.

Definition INITIAL : GameState := NEW_ROUND.

#[global] Instance GameState_eq_dec : EqDecision GameState.
Proof. solve_decision. Defined.

Inductive RenderState : Type :=
  | GAME_OVER
  | ROUND_EVENTS
  | ROUND_DEATHS
  | WINNERS
  | GAME_DEATHS
  | STATS.

(** [GameRenderState]; its fields carry the prefix [rs_]. *)
Record GameRenderState : Type := {
  rs_state : RenderState;
  rs_game_title : string;
  rs_rounds : list GameRound;
  rs_tributes_died : list TributeRef;
  rs_tributes_alive : list TributeRef;
  rs_greyscale_settings : GreyscaleSettings
}.

Definition deaths (s : GameRenderState) : nat := length (rs_tributes_died s).
Definition has_alive (s : GameRenderState) : bool := 0 <? length (rs_tributes_alive s).
Definition has_deaths (s : GameRenderState) : bool := 0 <? deaths s.
Definition round (s : GameRenderState) : option GameRound := last (rs_rounds s).

(** The [Game] object. [tributes] holds the tribute objects themselves;
    every other list of tributes holds references into it. *)
Record Game : Type := {
  tributes : list Tribute;
  tributes_alive : list TributeRef;
  tributes_died : list TributeRef;          (* #tributes_died *)
  state : GameState;                        (* #state *)
  game_title : string;                      (* #game_title *)
  last_feast : nat;
  stage : GameStage;
  fatality_reroll_rate : Q;
  all_won : bool;
  rounds : list GameRound;
  days_passed : nat;
  nights_passed : nat;
  event_list : GameEventList;
  required_fatalities : option Q;
  greyscale_settings : GreyscaleSettings    (* #greyscale_settings *)
}.

Definition set_tributes (v : list Tribute) (g : Game) : Game :=
  {| tributes := v; tributes_alive := tributes_alive g;
     tributes_died := tributes_died g; state := state g;
     game_title := game_title g; last_feast := last_feast g; stage := stage g;
     fatality_reroll_rate := fatality_reroll_rate g; all_won := all_won g;
     rounds := rounds g; days_passed := days_passed g;
     nights_passed := nights_passed g; event_list := event_list g;
     required_fatalities := required_fatalities g;
     greyscale_settings := greyscale_settings g |}.

Definition set_tributes_alive (v : list TributeRef) (g : Game) : Game :=
  {| tributes := tributes g; tributes_alive := v;
     tributes_died := tributes_died g; state := state g;
     game_title := game_title g; last_feast := last_feast g; stage := stage g;
     fatality_reroll_rate := fatality_reroll_rate g; all_won := all_won g;
     rounds := rounds g; days_passed := days_passed g;
     nights_passed := nights_passed g; event_list := event_list g;
     required_fatalities := required_fatalities g;
     greyscale_settings := greyscale_settings g |}.

Definition set_tributes_died (v : list TributeRef) (g : Game) : Game :=
  {| tributes := tributes g; tributes_alive := tributes_alive g;
     tributes_died := v; state := state g;
     game_title := game_title g; last_feast := last_feast g; stage := stage g;
     fatality_reroll_rate := fatality_reroll_rate g; all_won := all_won g;
     rounds := rounds g; days_passed := days_passed g;
     nights_passed := nights_passed g; event_list := event_list g;
     required_fatalities := required_fatalities g;
     greyscale_settings := greyscale_settings g |}.

Definition set_state (v : GameState) (g : Game) : Game :=
  {| tributes := tributes g; tributes_alive := tributes_alive g;
     tributes_died := tributes_died g; state := v;
     game_title := game_title g; last_feast := last_feast g; stage := stage g;
     fatality_reroll_rate := fatality_reroll_rate g; all_won := all_won g;
     rounds := rounds g; days_passed := days_passed g;
     nights_passed := nights_passed g; event_list := event_list g;
     required_fatalities := required_fatalities g;
     greyscale_settings := greyscale_settings g |}.

Definition set_game_title (v : string) (g : Game) : Game :=
  {| tributes := tributes g; tributes_alive := tributes_alive g;
     tributes_died := tributes_died g; state := state g;
     game_title := v; last_feast := last_feast g; stage := stage g;
     fatality_reroll_rate := fatality_reroll_rate g; all_won := all_won g;
     rounds := rounds g; days_passed := days_passed g;
     nights_passed := nights_passed g; event_list := event_list g;
     required_fatalities := required_fatalities g;
     greyscale_settings := greyscale_settings g |}.

Definition set_last_feast (v : nat) (g : Game) : Game :=
  {| tributes := tributes g; tributes_alive := tributes_alive g;
     tributes_died := tributes_died g; state := state g;
     game_title := game_title g; last_feast := v; stage := stage g;
     fatality_reroll_rate := fatality_reroll_rate g; all_won := all_won g;
     rounds := rounds g; days_passed := days_passed g;
     nights_passed := nights_passed g; event_list := event_list g;
     required_fatalities := required_fatalities g;
     greyscale_settings := greyscale_settings g |}.

Definition set_stage (v : GameStage) (g : Game) : Game :=
  {| tributes := tributes g; tributes_alive := tributes_alive g;
     tributes_died := tributes_died g; state := state g;
     game_title := game_title g; last_feast := last_feast g; stage := v;
     fatality_reroll_rate := fatality_reroll_rate g; all_won := all_won g;
     rounds := rounds g; days_passed := days_passed g;
     nights_passed := nights_passed g; event_list := event_list g;
     required_fatalities := required_fatalities g;
     greyscale_settings := greyscale_settings g |}.

Definition set_rounds (v : list GameRound) (g : Game) : Game :=
  {| tributes := tributes g; tributes_alive := tributes_alive g;
     tributes_died := tributes_died g; state := state g;
     game_title := game_title g; last_feast := last_feast g; stage := stage g;
     fatality_reroll_rate := fatality_reroll_rate g; all_won := all_won g;
     rounds := v; days_passed := days_passed g;
     nights_passed := nights_passed g; event_list := event_list g;
     required_fatalities := required_fatalities g;
     greyscale_settings := greyscale_settings g |}.

Definition set_days_passed (v : nat) (g : Game) : Game :=
  {| tributes := tributes g; tributes_alive := tributes_alive g;
     tributes_died := tributes_died g; state := state g;
     game_title := game_title g; last_feast := last_feast g; stage := stage g;
     fatality_reroll_rate := fatality_reroll_rate g; all_won := all_won g;
     rounds := rounds g; days_passed := v;
     nights_passed := nights_passed g; event_list := event_list g;
     required_fatalities := required_fatalities g;
     greyscale_settings := greyscale_settings g |}.

Definition set_nights_passed (v : nat) (g : Game) : Game :=
  {| tributes := tributes g; tributes_alive := tributes_alive g;
     tributes_died := tributes_died g; state := state g;
     game_title := game_title g; last_feast := last_feast g; stage := stage g;
     fatality_reroll_rate := fatality_reroll_rate g; all_won := all_won g;
     rounds := rounds g; days_passed := days_passed g;
     nights_passed := v; event_list := event_list g;
     required_fatalities := required_fatalities g;
     greyscale_settings := greyscale_settings g |}.

(** *** The random source *)

(** An outcome of [Math.random()]: the rational
    [rand_num / (rand_num + rand_gap + 1)], which lies in [[0,1)]; every
    rational of [[0,1)] has this form. *)
Record Rand : Type := {
  rand_num : nat;
  rand_gap : nat
}.

Definition rand_value (r : Rand) : Q :=
  Qmake (Z.of_nat (rand_num r)) (Pos.of_succ_nat (rand_num r + rand_gap r)).

Definition Qltb (a b : Q) : bool := negb (Qle_bool b a).

(** [Math.floor(Math.random() * (to - from)) + from], on the outcome [r]. *)
Definition randomInt (from to : Z) (r : Rand) : Z :=
  (Qfloor (rand_value r * inject_Z (to - from)) + from)%Z.

(** [array[z]] for a number [z]. *)
Definition at_index {A} (array : list A) (z : Z) : option A :=
  if (z <? 0)%Z then None else array !! Z.to_nat z.

(** *** State and exceptions *)

(** What a method call can read and write: the game object and the random
    source, of which [random_pos] outcomes have been consumed. *)
Record World : Type := {
  game : Game;
  random_source : nat -> Rand;
  random_pos : nat
}.

(** A computation returns an outcome and the world it leaves behind:
    a [throw] does not undo the writes made before it. *)
Definition M (A : Type) : Type := World -> Outcome A * World.

Definition ret {A} (a : A) : M A := fun w => (Ok a, w).

Definition bind {A B} (m : M A) (k : A -> M B) : M B :=
  fun w =>
    match m w with
    | (Ok a, w') => k a w'
    | (Throw e, w') => (Throw e, w')
    | (OutOfFuel, w') => (OutOfFuel, w')
    end.

Definition throw {A} (e : Error) : M A := fun w => (Throw e, w).

Definition out_of_fuel {A} : M A := fun w => (OutOfFuel, w).

Definition get_game : M Game := fun w => (Ok (game w), w).

Definition modify_game (f : Game -> Game) : M unit :=
  fun w =>
    (Ok tt, {| game := f (game w);
               random_source := random_source w;
               random_pos := random_pos w |}).

(** [Math.random()]. *)
Definition Math_random : M Rand :=
  fun w =>
    (Ok (random_source w (random_pos w)),
     {| game := game w;
        random_source := random_source w;
        random_pos := S (random_pos w) |}).

Declare Scope game_scope.
Delimit Scope game_scope with game.
Notation "'let*' x ':=' m 'in' k" := (bind m (fun x => k))
  (at level 10, x name, m at level 100, k at level 200) : game_scope.
Notation "'let*' ' p ':=' m 'in' k" := (bind m (fun p => k))
  (at level 10, p pattern, m at level 100, k at level 200) : game_scope.
Notation "m '>>>' k" := (bind m (fun _ => k))
  (at level 100, k at level 200, right associativity) : game_scope.
Local Open Scope game_scope.

(** [Game.#Try]: a thrown error becomes the returned value. *)
Definition Try {A} (m : M A) : M (A + Error) :=
  fun w =>
    match m w with
    | (Ok a, w') => (Ok (inl a), w')
    | (Throw e, w') => (Ok (inr e), w')
    | (OutOfFuel, w') => (OutOfFuel, w')
    end.

(** [shuffle(array)]: the loop [for (let i = array.length - 1; i > 0; i--)],
    entered at [i]. Both positions of the exchange exist, since
    [0 <= j < i < array.length]. *)
Fixpoint shuffle_from {A} (i : nat) (array : list A) : M (list A) :=
  match i with
  | 0 => ret array
  | S i' =>
      let* r := Math_random in
      let j := Z.to_nat (randomInt 0 (Z.of_nat i) r) in
      match array !! i, array !! j with
      | Some k, Some aj => shuffle_from i' (<[j := k]> (<[i := aj]> array))
      | _, _ => shuffle_from i' array
      end
  end.

Definition shuffle {A} (array : list A) : M (list A) :=
  if length array <? 2 then ret array
  else shuffle_from (length array - 1) array.

(** *** The game *)

Definition clamp (x lo hi : Q) : Q :=
  let m := if Qle_bool x lo then lo else x in     (* Math.max(x, lo) *)
  if Qle_bool m hi then m else hi.                (* Math.min(_, hi) *)

Definition enabled_of (l : option (list Event)) : list Event :=
  filter (fun e => enabled e = true) (default [] l).

(** [#AddEvents(event_option_list)] on the empty lists of the constructor. *)
Definition AddEvents (l : EventList) : GameEventList :=
  {| bloodbath := enabled_of (el_all l) ++ enabled_of (el_bloodbath l);
     day := enabled_of (el_all l) ++ enabled_of (el_day l);
     night := enabled_of (el_all l) ++ enabled_of (el_night l);
     feast := enabled_of (el_all l) ++ enabled_of (el_feast l) |}.

(** *** Double-precision arithmetic *)

(** Whether [2^e <= n/d]. *)
Definition pow2_le (e : Z) (n : Z) (d : positive) : bool :=
  if (0 <=? e)%Z then (2 ^ e * Z.pos d <=? n)%Z
  else (Z.pos d <=? n * 2 ^ (- e))%Z.

(** The exponent of a positive rational [n/d]: the [e] with
    [2^e <= n/d < 2^(e+1)]. *)
Definition exponent (n : Z) (d : positive) : Z :=
  let e := (Z.log2 n - Z.log2 (Z.pos d))%Z in
  if pow2_le e n d then e else (e - 1)%Z.

(** The integer nearest to [a/b], the even one of two that are equally
    near. *)
Definition nearest_even (a b : Z) : Z :=
  let q := (a / b)%Z in
  let r := (a mod b)%Z in
  if (2 * r <? b)%Z then q
  else if (b <? 2 * r)%Z then (q + 1)%Z
  else if Z.even q then q else (q + 1)%Z.

(** The binary64 number nearest to a positive rational [n/d]: a mantissa of
    53 bits, and no unit in the last place below [2^-1074]. *)
Definition round64_pos (n : Z) (d : positive) : Q :=
  let u := Z.max (exponent n d - 52) (- 1074) in
  if (0 <=? u)%Z
  then inject_Z (nearest_even n (Z.pos d * 2 ^ u) * 2 ^ u)
  else Qmake (nearest_even (n * 2 ^ (- u)) (Z.pos d))
             (Z.to_pos (2 ^ (- u))).

(** The result of an arithmetic operation on numbers: the binary64 number
    nearest to the exact result. The exact results rounded in this file are
    far below [2^1024], where a result becomes [Infinity]. *)
Definition round64 (q : Q) : Q :=
  match Qnum q with
  | Z0 => 0
  | Zpos n => round64_pos (Zpos n) (Qden q)
  | Zneg n => - round64_pos (Zpos n) (Qden q)
  end.

(** [array.length], as a number: an array has fewer than [2^32] elements. *)
Definition array_length (n : nat) : Q :=
  inject_Z (Z.min (Z.of_nat n) (2 ^ 32 - 1)).

(** The required number of fatalities of the constructor; [opts] is
    [GameSettings.value]. The quotient and the product of [Percent] are
    rounded as the numbers of the language are; the number that results is
    finite, so that the last test of the constructor never applies. *)
Definition required_fatalities_of (opts : GameOptions) (count : nat)
    : option Q :=
  match required_fatalities_mode opts with
  | Disable => None
  | Percent =>
      match opt_required_fatalities opts with
      | Finite v =>
          Some (inject_Z (Qceiling
                  (round64 (round64 (clamp v 0 100 / 100)
                            * array_length count))))
      | NotFinite => None
      end
  | Absolute =>
      match opt_required_fatalities opts with
      | Finite v => Some (if Qle_bool v 0 then 0%Q else v)   (* Math.max(0, v) *)
      | NotFinite => None
      end
  end.

Definition starting_days (opts : GameOptions) : nat :=
  match starting_day opts with
  | None => 0
  | Some d => Z.to_nat (Z.max 0 (Qfloor (d - 1)))
  end.

(** [new Game(tributes, events, fatality_reroll_rate)], for an array of
    pairwise distinct tribute objects: [tributes] holds the objects, and the
    roster [tributes_alive], a copy of the array, starts as their places in
    order. An array that holds one object in two places gives a roster that
    names a place twice; such a state is a [Game] of this model, though not
    one that [new_Game] builds, and what is proved of rosters makes the
    condition on the roster explicit. *)
Definition new_Game (opts : GameOptions) (trs : list Tribute)
    (events : EventList) (rate : Q) : Game :=
  {| tributes := trs;
     tributes_alive := seq 0 (length trs);
     tributes_died := [];
     state := INITIAL;
     game_title := "";
     last_feast := 0;
     stage := BLOODBATH;
     fatality_reroll_rate := rate;
     all_won := false;
     rounds := [];
     days_passed := starting_days opts;
     nights_passed := starting_days opts;
     event_list := AddEvents events;
     required_fatalities := required_fatalities_of opts (length trs);
     greyscale_settings := opt_greyscale_settings opts |}.

(** [#TickRenderState()]. *)
Definition TickRenderState : M RenderState :=
  let* g := get_game in
  ret match state g with
      | NEW_ROUND | IN_ROUND => ROUND_EVENTS
      | THE_FALLEN | END_RESULTS => ROUND_DEATHS
      | END_WINNER => WINNERS
      | END_SUMMARY_FATALITIES => GAME_DEATHS
      | END_SUMMARY_STATS => STATS
      | DEAD | END => GAME_OVER
      end.

(** [#StartNewRound()]. *)
Definition StartNewRound : M unit := modify_game (set_tributes_died []).

(** [#AdvanceGameStage()]. *)
Definition AdvanceGameStage : M GameStage :=
  let* g := get_game in
  if length (rounds g) =? 0 then ret BLOODBATH else
  if stage_eqb (stage g) FEAST || stage_eqb (stage g) BLOODBATH then
    modify_game (set_days_passed (S (days_passed g))) >>> ret DAY
  else if stage_eqb (stage g) NIGHT then
    let rounds_since_feast :=
      (Z.of_nat (length (rounds g)) - Z.of_nat (last_feast g))%Z in
    let since := inject_Z (rounds_since_feast - 4) in
    if (5 <=? rounds_since_feast)%Z then
      let* r := Math_random in
      let break_block :=
        if (7 <=? rounds_since_feast)%Z then Qltb ((50 # 100) * since) (rand_value r)
        else if (6 <=? rounds_since_feast)%Z then Qltb ((33 # 100) * since) (rand_value r)
        else Qltb ((25 # 100) * since) (rand_value r) in
      if break_block then
        modify_game (set_days_passed (S (days_passed g))) >>> ret DAY
      else
        modify_game (set_last_feast (length (rounds g))) >>> ret FEAST
    else
      modify_game (set_days_passed (S (days_passed g))) >>> ret DAY
  else
    modify_game (set_nights_passed (S (nights_passed g))) >>> ret NIGHT.

(** [#CheckGameShouldEnd()]. *)
Definition CheckGameShouldEnd : M bool :=
  let* g := get_game in
  if (length (tributes_alive g) <? 2) || all_won g then
    modify_game (set_state END_RESULTS) >>> ret true
  else ret false.

(** [this.tributes_alive[i]], together with the object it refers to. *)
Definition alive_at (g : Game) (i : nat) : option (TributeRef * Tribute) :=
  ref ← tributes_alive g !! i;
  tribute ← tributes g !! ref;
  Some (ref, tribute).

(** The loop over [event.requirements] of [#RequirementsSatisfied]. *)
Fixpoint requirements_hold (reqs : list TagRequirement) (current_tribute : nat)
    : M bool :=
  match reqs with
  | [] => ret true
  | r :: reqs' =>
      let* g := get_game in
      match alive_at g (current_tribute + player_index r) with
      | None => throw TypeError
      | Some (_, tribute) =>
          if has tribute (tag r)
          then requirements_hold reqs' current_tribute
          else ret false
      end
  end.

(** A number used as a condition: [undefined] and [0] are false. *)
Definition truthy (n : option Q) : bool :=
  match n with
  | None => false
  | Some q => negb (Qeq_bool q 0)
  end.

(** [#RequirementsSatisfied(event, current_tribute, tributes_left, died_this_round)]. *)
Definition RequirementsSatisfied (event : Event)
    (current_tribute tributes_left died_this_round : nat) : M bool :=
  let* g := get_game in
  if tributes_left <? players_involved event then ret false else
  let died := inject_Z (Z.of_nat died_this_round) in
  let has_fatalities := negb (length (fatalities event) =? 0) in
  let* rejected :=
    if truthy (required_fatalities g) then
      let required := default 0%Q (required_fatalities g) in
      if Qltb died required && negb has_fatalities then ret true
      else if Qle_bool required died && has_fatalities then ret true
      else ret false
    else if has_fatalities then
      let* r := Math_random in
      ret (Qltb (rand_value r) (fatality_reroll_rate g))
    else ret false in
  if rejected then ret false
  else requirements_hold (requirements event) current_tribute.

(** The [do ... while] loop that draws an event, entered with [tries];
    [None] is [break outer]. *)
Fixpoint draw_event (fuel : nat) (event_list : list Event)
    (current_tribute tributes_left died_this_round tries : nat)
    : M (option Event) :=
  match fuel with
  | 0 => out_of_fuel
  | S fuel' =>
      if Nat.max 100 (length event_list * 10) <? tries then ret None else
      let tries := S tries in
      let* r := Math_random in
      match at_index event_list (randomInt 0 (Z.of_nat (length event_list)) r) with
      | None => throw TypeError
      | Some event =>
          let* ok := RequirementsSatisfied event current_tribute
                       tributes_left died_this_round in
          if ok then ret (Some event)
          else draw_event fuel' event_list current_tribute tributes_left
                 died_this_round tries
      end
  end.

Definition set_round_died (v : list TributeRef) (r : GameRound) : GameRound :=
  {| game_events := game_events r; died_this_round := v;
     index := index r; round_stage := round_stage r |}.

Definition set_round_events (v : list GameEvent) (r : GameRound) : GameRound :=
  {| game_events := v; died_this_round := died_this_round r;
     index := index r; round_stage := round_stage r |}.

(** [tribute.died_in_round = round; round.died_this_round.push(tribute)]
    for the tribute [ref] and the round stored at [round_index]. *)
Definition record_death (round_index : nat) (ref : TributeRef) (g : Game) : Game :=
  set_rounds
    (alter (fun r => set_round_died (died_this_round r ++ [ref]) r)
       round_index (rounds g))
    (set_tributes (alter (set_died_in_round round_index) ref (tributes g)) g).

(** [for (const f of event.fatalities)]. *)
Fixpoint handle_fatalities (round_index current_tribute : nat)
    (fs : list nat) (tributes_alive_n : Z) (died_this_round : nat)
    : M (Z * nat) :=
  match fs with
  | [] => ret (tributes_alive_n, died_this_round)
  | f :: fs' =>
      let* g := get_game in
      match alive_at g (current_tribute + f) with
      | None => throw TypeError
      | Some (ref, _) =>
          modify_game (record_death round_index ref) >>>
          handle_fatalities round_index current_tribute fs'
            (tributes_alive_n - 1)%Z (S died_this_round)
      end
  end.

(** [for (const k of event.killers)]. *)
Fixpoint credit_killers (current_tribute : nat) (ks : list nat)
    (fatality_count : nat) : M unit :=
  match ks with
  | [] => ret tt
  | k :: ks' =>
      let* g := get_game in
      match alive_at g (current_tribute + k) with
      | None => throw TypeError
      | Some (ref, _) =>
          modify_game (fun g =>
            set_tributes (alter (add_kills fatality_count) ref (tributes g)) g) >>>
          credit_killers current_tribute ks' fatality_count
      end
  end.

(** [new GameEvent(event, players_involved)], which composes the message. *)
Definition new_GameEvent (event : Event) (involved : list (option TributeRef))
    : M GameEvent :=
  let* g := get_game in
  let players := map (fun o => ref ← o; tributes g !! ref) involved in
  match ComposeEventMessage (message event) (players_involved event) players with
  | Ok msg =>
      ret {| ge_event := event;
             ge_players_involved := involved;
             ge_message := msg |}
  | Throw e => throw e
  | OutOfFuel => out_of_fuel
  end.

(** The [outer: while (tributes_left)] loop of [#DoRoundImpl]. Each draw
    loop is given [draw_fuel] turns. *)
Fixpoint round_loop (draw_fuel fuel : nat) (round_index : nat)
    (event_list : list Event) (tributes_left : nat) (tributes_alive_n : Z)
    (current_tribute died_this_round : nat) : M unit :=
  match fuel with
  | 0 => out_of_fuel
  | S fuel' =>
      if tributes_left =? 0 then ret tt else
      let* drawn := draw_event draw_fuel event_list current_tribute
                      tributes_left died_this_round 0 in
      match drawn with
      | None => ret tt
      | Some event =>
          let tributes_left := tributes_left - players_involved event in
          let* '(tributes_alive_n, died_this_round) :=
            handle_fatalities round_index current_tribute (fatalities event)
              tributes_alive_n died_this_round in
          credit_killers current_tribute (killers event)
            (length (fatalities event)) >>>
          let* g := get_game in
          let tributes_involved :=
            map (fun i => tributes_alive g !! i)
                (seq current_tribute (players_involved event)) in
          let current_tribute := current_tribute + players_involved event in
          let* game_event := new_GameEvent event tributes_involved in
          modify_game (fun g =>
            set_rounds
              (alter (fun r => set_round_events (game_events r ++ [game_event]) r)
                 round_index (rounds g)) g) >>>
          if (tributes_alive_n <? 2)%Z then ret tt
          else round_loop draw_fuel fuel' round_index event_list tributes_left
                 tributes_alive_n current_tribute died_this_round
      end
  end.

Definition round_title (g : Game) : string :=
  match stage g with
  | DAY => "Day " +:+ pretty (days_passed g)
  | NIGHT => "Night " +:+ pretty (nights_passed g)
  | s => TitleCase (stage_string s)
  end.

Definition is_alive (g : Game) (ref : TributeRef) : bool :=
  match tributes g !! ref with
  | Some t => match died_in_round t with None => true | Some _ => false end
  | None => true
  end.

(** [#DoRoundImpl()]. *)
Definition DoRoundImpl (fuel : nat) : M unit :=
  let* g := get_game in
  let tributes_left := length (tributes_alive g) in
  let tributes_alive_n := Z.of_nat tributes_left in
  let current_tribute := 0 in
  modify_game (set_game_title (round_title g)) >>>
  let round_index := length (rounds g) in
  let new_round :=
    {| game_events := []; died_this_round := [];
       index := round_index; round_stage := stage g |} in
  modify_game (fun g => set_rounds (rounds g ++ [new_round]) g) >>>
  let* shuffled := shuffle (tributes_alive g) in
  modify_game (set_tributes_alive shuffled) >>>
  let event_list :=
    match stage g with        (* the [default: throw] cannot be reached *)
    | BLOODBATH => bloodbath (event_list g)
    | DAY => day (event_list g)
    | NIGHT => night (event_list g)
    | FEAST => feast (event_list g)
    end in
  if length event_list =? 0 then ret tt else
  round_loop fuel fuel round_index event_list tributes_left tributes_alive_n
    current_tribute 0 (* died_this_round *) >>>
  let* g := get_game in
  let events := default [] (game_events <$> rounds g !! round_index) in
  let* events := shuffle events in
  modify_game (fun g =>
    set_rounds (alter (set_round_events events) round_index (rounds g)) g) >>>
  modify_game (fun g =>
    set_tributes_alive (filter (fun t => is_alive g t = true) (tributes_alive g)) g) >>>
  modify_game (fun g =>
    set_tributes_died
      (tributes_died g ++
       default [] (died_this_round <$> rounds g !! round_index)) g).

(** [#DoRound()]. *)
Definition DoRound (fuel : nat) : M unit :=
  let* s := AdvanceGameStage in
  modify_game (set_stage s) >>>
  DoRoundImpl fuel >>>
  let* ended := CheckGameShouldEnd in
  let* g := get_game in
  if negb ended && stage_eqb (stage g) NIGHT
  then modify_game (set_state THE_FALLEN)
  else ret tt.

(** [this.tributes.filter(t => t.died_in_round !== undefined)], as references. *)
Definition all_dead (g : Game) : list TributeRef :=
  filter (fun ref => is_alive g ref = false) (seq 0 (length (tributes g))).

(** [#AdvanceGame()]. *)
Definition AdvanceGame_private (fuel : nat) : M GameRenderState :=
  let* render := TickRenderState in
  let* g := get_game in
  match state g with
  | NEW_ROUND =>
      modify_game (set_state IN_ROUND) >>>
      StartNewRound >>>
      DoRound fuel
  | IN_ROUND => DoRound fuel
  | THE_FALLEN =>
      modify_game (set_game_title "The Fallen") >>>
      modify_game (set_state NEW_ROUND)
  | END_RESULTS =>
      modify_game (set_game_title "The Fallen") >>>
      modify_game (set_state END_WINNER)
  | END_WINNER =>
      modify_game (set_game_title "The Games Have Ended") >>>
      modify_game (set_state END_SUMMARY_FATALITIES)
  | END_SUMMARY_FATALITIES =>
      modify_game (set_game_title "Deaths") >>>
      modify_game (set_state END_SUMMARY_STATS)
  | END_SUMMARY_STATS =>
      modify_game (set_game_title
        (if length (tributes_alive g) =? 0 then "The Fallen" else "Winners")) >>>
      modify_game (set_state END)
  | END => ret tt
  | DEAD =>
      modify_game (set_state DEAD) >>>
      throw InternalError
  end >>>
  let* g := get_game in
  ret {| rs_state := render;
         rs_game_title := game_title g;
         rs_rounds := rounds g;
         rs_tributes_died :=
           match state g with
           | END => all_dead g
           | _ => tributes_died g
           end;
         rs_tributes_alive := tributes_alive g;
         rs_greyscale_settings := greyscale_settings g |}.

(** [AdvanceGame()]: the snapshot, or the error that was thrown. *)
Definition AdvanceGame (fuel : nat) : M (GameRenderState + Error) :=
  Try (AdvanceGame_private fuel).

(** ** configuration.ts *)

(** [ArraysEqual(ts, us, predicate)] (utils.ts). *)
Fixpoint arrays_equal_from {T U} (predicate : T -> U -> bool)
    (ts : list T) (us : list U) : bool :=
  match ts, us with
  | t :: ts', u :: us' =>
      if negb (predicate t u) then false
      else arrays_equal_from predicate ts' us'
  | _, _ => true
  end.

Definition ArraysEqual {T U} (ts : list T) (us : list U)
    (predicate : T -> U -> bool) : bool :=
  if negb (length ts =? length us) then false
  else arrays_equal_from predicate ts us.

(** The keys of an event list, and [Event.list_keys]. *)
Inductive EventListKey : Type :=
  | key_bloodbath | key_day | key_night | key_feast | key_all.

#[global] Instance EventListKey_eq_dec : EqDecision EventListKey.
Proof. solve_decision. Defined.

Definition list_keys : list EventListKey :=
  [key_day; key_all; key_feast; key_night; key_bloodbath].

(** [into[key]] and [into[key] = events]. *)
Definition get_list (key : EventListKey) (into : EventList)
    : option (list Event) :=
  match key with
  | key_bloodbath => el_bloodbath into
  | key_day => el_day into
  | key_night => el_night into
  | key_feast => el_feast into
  | key_all => el_all into
  end.

Definition set_list (key : EventListKey) (events : list Event)
    (into : EventList) : EventList :=
  match key with
  | key_bloodbath =>
      {| el_bloodbath := Some events; el_day := el_day into;
         el_night := el_night into; el_feast := el_feast into;
         el_all := el_all into |}
  | key_day =>
      {| el_bloodbath := el_bloodbath into; el_day := Some events;
         el_night := el_night into; el_feast := el_feast into;
         el_all := el_all into |}
  | key_night =>
      {| el_bloodbath := el_bloodbath into; el_day := el_day into;
         el_night := Some events; el_feast := el_feast into;
         el_all := el_all into |}
  | key_feast =>
      {| el_bloodbath := el_bloodbath into; el_day := el_day into;
         el_night := el_night into; el_feast := Some events;
         el_all := el_all into |}
  | key_all =>
      {| el_bloodbath := el_bloodbath into; el_day := el_day into;
         el_night := el_night into; el_feast := el_feast into;
         el_all := Some events |}
  end.

(** [EventList<T>], the lists of a configuration file. *)
Record StoredLists (T : Type) : Type := {
  stored_bloodbath : option (list T);
  stored_day : option (list T);
  stored_night : option (list T);
  stored_feast : option (list T);
  stored_all : option (list T)
}.
Arguments stored_bloodbath {T} _.
Arguments stored_day {T} _.
Arguments stored_night {T} _.
Arguments stored_feast {T} _.
Arguments stored_all {T} _.

Definition get_stored {T} (key : EventListKey) (lists : StoredLists T)
    : option (list T) :=
  match key with
  | key_bloodbath => stored_bloodbath lists
  | key_day => stored_day lists
  | key_night => stored_night lists
  | key_feast => stored_feast lists
  | key_all => stored_all lists
  end.

(** [Legacy.StoredEvent]. *)
Record LegacyStoredEvent : Type := {
  legacy_message : string;
  legacy_players_involved : nat;
  legacy_fatalities : list nat;
  legacy_killers : list nat;
  legacy_enabled : bool;
  legacy_id : nat;
  legacy_type : string
}.

(** [V1.StoredTag], [V1.StoredTagRequirement] and [V1.StoredEvent]. *)
Record StoredTag : Type := { stored_name : string }.

Record StoredTagRequirement : Type := {
  req_name : string;
  req_player_index : nat
}.

Record StoredEvent : Type := {
  stored_message : string;
  stored_fatalities : list nat;
  stored_killers : list nat;
  stored_enabled : bool;
  stored_type : string;
  tag_requirements : list StoredTagRequirement
}.

(** A configuration, as [Legacy.is] and [V1.is] tell them apart: without a
    version, of version 1, of any other version. *)
Inductive MaybeConfig : Type :=
  | LegacyConfig (lists : StoredLists LegacyStoredEvent)
  | V1Config (events : StoredLists StoredEvent) (tags : list StoredTag)
  | OtherConfig.

(** What [Load] acts on: the list [into] and the static members of [Tag]. *)
Record Store : Type := {
  store_into : EventList;
  store_tags : Tags
}.

(** [event.enabled = b]. *)
Definition set_enabled (b : bool) (e : Event) : Event :=
  {| message := message e; players_involved := players_involved e;
     fatalities := fatalities e; killers := killers e; enabled := b;
     type := type e; requirements := requirements e |}.

(** [Legacy.EventsEqual(stored, event)]. *)
Definition Legacy_EventsEqual (s : Tags) (stored : LegacyStoredEvent)
    (event : Event) : bool :=
  String.eqb (legacy_message stored) (message event).

(** [Legacy.LoadEvent(stored, list)]; the result is the list after the
    push. *)
Definition Legacy_LoadEvent (stored : LegacyStoredEvent) (into_list : list Event)
    (s : Tags) : Outcome (list Event) * Tags :=
  match new_Event (legacy_message stored) (legacy_fatalities stored)
          (legacy_killers stored) (legacy_type stored) with
  | Ok event => (Ok (into_list ++ [set_enabled (legacy_enabled stored) event]), s)
  | Throw e => (Throw e, s)
  | OutOfFuel => (OutOfFuel, s)
  end.

(** [V1.EventsEqual(stored, event)]. *)
Definition V1_EventsEqual (s : Tags) (stored : StoredEvent) (event : Event)
    : bool :=
  String.eqb (stored_message stored) (message event)
  && ArraysEqual (tag_requirements stored) (requirements event)
       (fun sr e => has_name s (req_name sr) (tag e)
                    && (req_player_index sr =? player_index e)).

(** [reqs.forEach(t => event.require(Tag.for(t.name), t.player_index))]. *)
Fixpoint require_each (reqs : list StoredTagRequirement) (event : Event)
    (s : Tags) : Outcome Event * Tags :=
  match reqs with
  | [] => (Ok event, s)
  | t :: reqs' =>
      let (tg, s') := Tag_for (req_name t) s in
      match require event tg (req_player_index t) with
      | Ok event' => require_each reqs' event' s'
      | o => (o, s')
      end
  end.

(** [V1.LoadEvent(stored, list)]. *)
Definition V1_LoadEvent (stored : StoredEvent) (into_list : list Event)
    (s : Tags)
    : Outcome (list Event) * Tags :=
  match new_Event (stored_message stored) (stored_fatalities stored)
          (stored_killers stored) (stored_type stored) with
  | Ok event =>
      let event :=
        set_enabled (stored_enabled stored
                     && negb (String.eqb (stored_type stored) "BIG LANG"))
          event in
      match require_each (tag_requirements stored) event s with
      | (Ok event', s') => (Ok (into_list ++ [event']), s')
      | (Throw e, s') => (Throw e, s')
      | (OutOfFuel, s') => (OutOfFuel, s')
      end
  | Throw e => (Throw e, s)
  | OutOfFuel => (OutOfFuel, s)
  end.

(** [V1.LoadTag(data)] and [V1.TagExists(data)]. *)
Definition V1_LoadTag (data : StoredTag) (s : Tags) : Tags :=
  (Tag_for (stored_name data) s).2.

Definition V1_TagExists (_ : StoredTag) : bool := true.

(** [EventExists(into_list, conf_event, equal)]. *)
Definition EventExists {T} (into_list : list Event) (conf_event : T)
    (equal : T -> Event -> bool) : bool :=
  existsb (equal conf_event) into_list.

(** [.forEach(e => loader(e, into[key]))]. *)
Fixpoint load_each {T}
    (loader : T -> list Event -> Tags -> Outcome (list Event) * Tags)
    (key : EventListKey) (es : list T) (st : Store) : Outcome unit * Store :=
  match es with
  | [] => (Ok tt, st)
  | e :: es' =>
      match loader e (default [] (get_list key (store_into st)))
              (store_tags st) with
      | (Ok pushed, s') =>
          load_each loader key es'
            {| store_into := set_list key pushed (store_into st);
               store_tags := s' |}
      | (Throw err, s') =>
          (Throw err, {| store_into := store_into st; store_tags := s' |})
      | (OutOfFuel, s') =>
          (OutOfFuel, {| store_into := store_into st; store_tags := s' |})
      end
  end.

(** The body of the loop of [LoadEvents]. *)
Definition load_key {T} (lists : StoredLists T)
    (equal : Tags -> T -> Event -> bool)
    (loader : T -> list Event -> Tags -> Outcome (list Event) * Tags)
    (key : EventListKey) (st : Store) : Outcome unit * Store :=
  let into_list := default [] (get_list key (store_into st)) in  (* ??= [] *)
  let st := {| store_into := set_list key into_list (store_into st);
               store_tags := store_tags st |} in
  match get_stored key lists with
  | None => (Ok tt, st)
  | Some l =>
      load_each loader key
        (filter (fun e => EventExists into_list e (equal (store_tags st))
                          = false)
           l) st
  end.

Fixpoint load_keys {T} (lists : StoredLists T)
    (equal : Tags -> T -> Event -> bool)
    (loader : T -> list Event -> Tags -> Outcome (list Event) * Tags)
    (keys : list EventListKey) (st : Store) : Outcome unit * Store :=
  match keys with
  | [] => (Ok tt, st)
  | key :: keys' =>
      match load_key lists equal loader key st with
      | (Ok _, st') => load_keys lists equal loader keys' st'
      | r => r
      end
  end.

(** [LoadEvents(into, lists, equal, loader)]. *)
Definition LoadEvents {T} (lists : StoredLists T)
    (equal : Tags -> T -> Event -> bool)
    (loader : T -> list Event -> Tags -> Outcome (list Event) * Tags)
    (st : Store) : Outcome unit * Store :=
  load_keys lists equal loader list_keys st.

(** [LoadTags(tags, exists, loader)]. *)
Definition LoadTags {T} (tags : list T) (exists_ : T -> bool)
    (loader : T -> Tags -> Tags) (s : Tags) : Tags :=
  foldl (fun s t => loader t s) s (filter (fun t => exists_ t = false) tags).

(** [for (const key of Event.list_keys) into[key] = []]. *)
Definition clear_lists (into : EventList) : EventList :=
  foldl (fun into key => set_list key [] into) into list_keys.

(** The outcome of [Load]: that of the loading, or the error of a
    configuration of another version. *)
Inductive Loaded : Type :=
  | Finished (o : Outcome unit)
  | InvalidConfigVersion.

(** [Load(into, configuration, overwrite, from_local_storage)]. *)
Definition Load (configuration : MaybeConfig)
    (overwrite from_local_storage : bool) (st : Store) : Loaded * Store :=
  match configuration with
  | LegacyConfig lists =>
      let st := if overwrite
                then {| store_into := clear_lists (store_into st);
                        store_tags := store_tags st |}
                else st in
      let (o, st') := LoadEvents lists Legacy_EventsEqual Legacy_LoadEvent st in
      (Finished o, st')
  | V1Config events tags =>
      let st := if overwrite
                then {| store_into := clear_lists (store_into st);
                        store_tags :=
                          {| tag_names := tag_names (store_tags st);
                             registered_tags := [] |} |}
                else st in
      let st := {| store_into := store_into st;
                   store_tags :=
                     LoadTags tags V1_TagExists V1_LoadTag (store_tags st) |} in
      let (o, st') := LoadEvents events V1_EventsEqual V1_LoadEvent st in
      (Finished o, st')
  | OtherConfig =>
      if from_local_storage then (Finished (Ok tt), st)
      else (InvalidConfigVersion, st)
  end.

(** The stored form of an event in [SaveEvents]. The name of a tag that is
    no object has no counterpart in the program; the model has no stored
    form then. *)
Definition store_requirement (s : Tags) (req : TagRequirement)
    : option StoredTagRequirement :=
  name ← Tag_name s (tag req);
  Some {| req_name := name; req_player_index := player_index req |}.

Definition store_event (s : Tags) (e : Event) : option StoredEvent :=
  reqs ← mapM (store_requirement s) (requirements e);
  Some {| stored_message := message e;
          stored_fatalities := fatalities e;
          stored_killers := killers e;
          stored_enabled := enabled e;
          stored_type := type e;
          tag_requirements := reqs |}.

(** [SaveEvents(event_list)]; [None] is the [TypeError] of the loop over a
    list that is [undefined]. *)
Definition SaveEvents (event_list : EventList) (s : Tags)
    : option (StoredLists StoredEvent) :=
  day ← get_list key_day event_list ≫= mapM (store_event s);
  all ← get_list key_all event_list ≫= mapM (store_event s);
  feast ← get_list key_feast event_list ≫= mapM (store_event s);
  night ← get_list key_night event_list ≫= mapM (store_event s);
  bloodbath ← get_list key_bloodbath event_list ≫= mapM (store_event s);
  Some {| stored_bloodbath := Some bloodbath; stored_day := Some day;
          stored_night := Some night; stored_feast := Some feast;
          stored_all := Some all |}.

(** [SaveTags()]. *)
Definition SaveTags (s : Tags) : option (list StoredTag) :=
  mapM (fun t => name ← Tag_name s t; Some {| stored_name := name |})
    (registered_tags s).

(** [Save(event_list)]. *)
Definition Save (event_list : EventList) (s : Tags) : option MaybeConfig :=
  events ← SaveEvents event_list s;
  tags ← SaveTags s;
  Some (V1Config events tags).

(** [MakeStoredEvent(message, fatalities, killers, type, reqs)]. *)
Definition MakeStoredEvent (message : string) (fatalities killers : list nat)
    (type : string) (reqs : list StoredTagRequirement) : StoredEvent :=
  {| stored_message := message; stored_fatalities := fatalities;
     stored_killers := killers; stored_enabled := true; stored_type := type;
     tag_requirements := reqs |}.

(** * Sample data and vocabulary *)

(** ** Sample data *)

Definition they : TributePronouns :=
  {| nominative := "they"; accusative := "them";
     genitive := "their"; reflexive := "themself" |}.

Definition Ann : Tribute := new_Tribute "Ann" true (Some they) true [].
Definition Kai : Tribute := new_Tribute "Kai" false None false [].
Definition Zed : Tribute := new_Tribute "Zed" false None false [].

Definition default_options : GameOptions :=
  {| required_fatalities_mode := Disable;
     opt_required_fatalities := Finite 0;
     starting_day := None;
     opt_greyscale_settings :=
       {| in_events := false;
          end_of_day_summary := true;
          end_of_game_summary := false |} |}.

(** The random source whose every outcome is [0]. *)
Definition zeros : nat -> Rand := fun _ => {| rand_num := 0; rand_gap := 0 |}.

Definition start (g : Game) (source : nat -> Rand) : World :=
  {| game := g; random_source := source; random_pos := 0 |}.

(** [n] calls of [AdvanceGame], each with [fuel]; the world they leave. *)
Fixpoint advance_n (fuel n : nat) (w : World) : World :=
  match n with
  | 0 => w
  | S n' => advance_n fuel n' (AdvanceGame fuel w).2
  end.

(** ** Vocabulary of the properties *)

(** The world after one more outcome of the random source has been read. *)
Definition consume (w : World) : World :=
  {| game := game w;
     random_source := random_source w;
     random_pos := S (random_pos w) |}.

(** The part of the game that only the state machine and the head and tail
    of [#DoRoundImpl] write: the stages of the rounds so far, the current
    stage, the last feast, the state, the buffer of the dead and the
    roster. *)
Definition skeleton (g : Game) :=
  (map round_stage (rounds g), stage g, last_feast g, state g,
   tributes_died g, tributes_alive g).

(** The part of it that no step of [#DoRoundImpl] after the new round has
    been appended writes. *)
Definition core (g : Game) :=
  (map round_stage (rounds g), stage g, last_feast g, state g).

(** [leaves R m]: whatever its outcome, [m] leaves a game related by [R]
    to the one it found. *)
Definition leaves {A} (R : Game -> Game -> Prop) (m : M A) : Prop :=
  forall w, R (game w) (game (m w).2).

(** The games that agree on [proj]. *)
Definition same {B} (proj : Game -> B) : Game -> Game -> Prop :=
  fun g g' => proj g' = proj g.

(** [keeps proj m]: whatever its outcome, [m] leaves [proj] of the game as
    it found it. *)
Definition keeps {A B} (proj : Game -> B) (m : M A) : Prop :=
  leaves (same proj) m.

(** The world after [modify_game f]. *)
Definition update (f : Game -> Game) (w : World) : World :=
  {| game := f (game w);
     random_source := random_source w;
     random_pos := random_pos w |}.

(** The display kind that [#TickRenderState] returns in the state [s]. *)
Definition render_of (s : GameState) : RenderState :=
  match s with
  | NEW_ROUND | IN_ROUND => ROUND_EVENTS
  | THE_FALLEN | END_RESULTS => ROUND_DEATHS
  | END_WINNER => WINNERS
  | END_SUMMARY_FATALITIES => GAME_DEATHS
  | END_SUMMARY_STATS => STATS
  | DEAD | END => GAME_OVER
  end.

(** The [GameRenderState] that [#AdvanceGame] builds from the game [g]. *)
Definition snapshot (render : RenderState) (g : Game) : GameRenderState :=
  {| rs_state := render;
     rs_game_title := game_title g;
     rs_rounds := rounds g;
     rs_tributes_died :=
       match state g with
       | END => all_dead g
       | _ => tributes_died g
       end;
     rs_tributes_alive := tributes_alive g;
     rs_greyscale_settings := greyscale_settings g |}.

(** The [switch] of [#AdvanceGame], as the definition has it. *)
Definition transition (fuel : nat) (g : Game) : M unit :=
  match state g with
  | NEW_ROUND =>
      modify_game (set_state IN_ROUND) >>>
      StartNewRound >>>
      DoRound fuel
  | IN_ROUND => DoRound fuel
  | THE_FALLEN =>
      modify_game (set_game_title "The Fallen") >>>
      modify_game (set_state NEW_ROUND)
  | END_RESULTS =>
      modify_game (set_game_title "The Fallen") >>>
      modify_game (set_state END_WINNER)
  | END_WINNER =>
      modify_game (set_game_title "The Games Have Ended") >>>
      modify_game (set_state END_SUMMARY_FATALITIES)
  | END_SUMMARY_FATALITIES =>
      modify_game (set_game_title "Deaths") >>>
      modify_game (set_state END_SUMMARY_STATS)
  | END_SUMMARY_STATS =>
      modify_game (set_game_title
        (if length (tributes_alive g) =? 0 then "The Fallen" else "Winners")) >>>
      modify_game (set_state END)
  | END => ret tt
  | DEAD =>
      modify_game (set_state DEAD) >>>
      throw InternalError
  end.

(** The transitions other than a round, in one table. *)
Definition next_state (s : GameState) : GameState :=
  match s with
  | THE_FALLEN => NEW_ROUND
  | END_RESULTS => END_WINNER
  | END_WINNER => END_SUMMARY_FATALITIES
  | END_SUMMARY_FATALITIES => END_SUMMARY_STATS
  | END_SUMMARY_STATS => END
  | s => s
  end.

(** The world in which [#DoRound] starts: a call in [NEW_ROUND] has moved
    to [IN_ROUND] and emptied the buffer of the dead. *)
Definition enter_round (w : World) : World :=
  match state (game w) with
  | NEW_ROUND => update (set_tributes_died []) (update (set_state IN_ROUND) w)
  | _ => w
  end.

(** The stages of rounds 0 to 3. *)
Definition first_stages : list GameStage := [BLOODBATH; DAY; NIGHT; DAY].

(** The stages of the rounds simulated so far. *)
Definition stages_of (g : Game) : list GameStage := map round_stage (rounds g).

(** What holds of the stages in every game played from the start: no feast
    has been recorded during the first four rounds, these rounds have the
    stages of [first_stages], and the current stage is that of the last
    round. *)
Definition stage_rule (ss : list GameStage) (st : GameStage) (lf : nat) : Prop :=
  (length ss <= 4 -> lf = 0) /\
  take 4 ss = take (length ss) first_stages /\
  (ss <> [] -> last ss = Some st).

Definition stages_inv (g : Game) : Prop :=
  stage_rule (stages_of g) (stage g) (last_feast g).

(** The death record of the tribute [ref], if there is such a tribute. *)
Definition death_of (g : Game) (ref : TributeRef) : option (option nat) :=
  died_in_round <$> tributes g !! ref.

(** No tribute on the alive roster has a death record. *)
Definition roster_alive (g : Game) : Prop :=
  forall ref, ref ∈ tributes_alive g -> is_alive g ref = true.

(** Every death record of [g] is still there, unchanged, in [g']. *)
Definition deaths_kept (g g' : Game) : Prop :=
  forall ref r, death_of g ref = Some (Some r) -> death_of g' ref = Some (Some r).

(** What the loop of round [idx] does to the death records: it leaves the
    roster as it is, and a record that changes is that of a tribute on the
    roster, set to [idx]. *)
Definition round_deaths (idx : nat) (g g' : Game) : Prop :=
  tributes_alive g' = tributes_alive g /\
  forall ref,
    death_of g' ref = death_of g ref \/
    (ref ∈ tributes_alive g /\ death_of g' ref = Some (Some idx)).

(** [returns P m]: from every world, [m] comes to an outcome before its fuel
    is used up, and a value it returns satisfies [P]. *)
Definition returns {A} (P : A -> Prop) (m : M A) : Prop :=
  forall w,
    match (m w).1 with
    | Ok a => P a
    | Throw _ => True
    | OutOfFuel => False
    end.

(** The postcondition that asks nothing of the value. *)
Definition any {A} : A -> Prop := fun _ => True.

(** The cap of the draw loop: [Math.max(100, event_list.length * 10)]. *)
Definition attempt_cap (pool : list Event) : nat :=
  Nat.max 100 (length pool * 10).

(** The pool of the current stage. *)
Definition stage_pool (g : Game) : list Event :=
  match stage g with
  | BLOODBATH => bloodbath (event_list g)
  | DAY => day (event_list g)
  | NIGHT => night (event_list g)
  | FEAST => feast (event_list g)
  end.

(** The four pools together. *)
Definition all_pools (g : Game) : list Event :=
  bloodbath (event_list g) ++ day (event_list g)
  ++ night (event_list g) ++ feast (event_list g).

(** The events of the sample games, as the constructor builds them (lemma
    [sample_events_constructed]). *)
Definition kill : Event :=
  {| message := "%0 kills %1."; players_involved := 2;
     fatalities := [1]; killers := [0]; enabled := true;
     type := "BUILTIN"; requirements := [] |}.

Definition rest : Event :=
  {| message := "%0 rests."; players_involved := 1;
     fatalities := []; killers := []; enabled := true;
     type := "BUILTIN"; requirements := [] |}.

(** An event that the constructor accepts with one participant although
    its template refers to participant 1 through [%w1]. *)
Definition faulty : Event :=
  {| message := "%0 falls, %w1 near."; players_involved := 1;
     fatalities := [0]; killers := []; enabled := true;
     type := "BUILTIN"; requirements := [] |}.

(** The random source whose every outcome is [3/4]. *)
Definition three_quarters : nat -> Rand :=
  fun _ => {| rand_num := 3; rand_gap := 0 |}.

(** Three tributes; only the day has an event, a killing. *)
Definition day_kill_game : Game :=
  new_Game default_options [Ann; Kai; Zed]
    {| el_bloodbath := None; el_day := Some [kill]; el_night := None;
       el_feast := None; el_all := None |} (6 # 10).

(** [day_kill_game] after its first four calls: bloodbath, day 1 (Zed
    dies), night 1, the fallen. *)
Definition second_cycle : World :=
  Eval vm_compute in advance_n 200 4 (start day_kill_game three_quarters).

(** Two tributes; the bloodbath has the faulty event only. *)
Definition faulty_bloodbath_game : Game :=
  new_Game default_options [Ann; Kai]
    {| el_bloodbath := Some [faulty]; el_day := None; el_night := None;
       el_feast := None; el_all := None |} (6 # 10).

(** Two tributes; every stage has the faulty event only. *)
Definition faulty_game : Game :=
  new_Game default_options [Ann; Kai]
    {| el_bloodbath := None; el_day := None; el_night := None;
       el_feast := None; el_all := Some [faulty] |} (6 # 10).

(** The default options with the required fatalities set to [v] under
    [mode]. *)
Definition quota (mode : RequiredFatalitiesMode) (v : Q) : GameOptions :=
  {| required_fatalities_mode := mode;
     opt_required_fatalities := Finite v;
     starting_day := None;
     opt_greyscale_settings := opt_greyscale_settings default_options |}.

(** Two tributes, a killing and a rest at every stage, under [opts]. *)
Definition quota_game (opts : GameOptions) : Game :=
  new_Game opts [Ann; Kai]
    {| el_bloodbath := None; el_day := None; el_night := None;
       el_feast := None; el_all := Some [kill; rest] |} (6 # 10).

(** [n] tributes (up to 26), named by the letters from [A] on. *)
Definition roster (n : nat) : list Tribute :=
  map (fun i => new_Tribute (String (ascii_of_nat (65 + i)) "") false None
                  false [])
      (seq 0 n).

Definition no_events : EventList :=
  {| el_bloodbath := None; el_day := None; el_night := None;
     el_feast := None; el_all := None |}.

(** A game of [n] tributes that requires the fatalities of [v] percent of
    them. *)
Definition percent_game (v : Q) (n : nat) : Game :=
  new_Game (quota Percent v) (roster n) no_events (6 # 10).

(** ** Vocabulary of the further properties *)

(** A byte that is no part of a placeholder: neither [%], nor a letter of
    the regular expression, nor a digit. *)
Definition plain_char (c : ascii) : bool :=
  negb (Ascii.eqb c "%") && negb (in_regex_class c) && negb (is_digit_char c).

Fixpoint all_plain (s : string) : bool :=
  match s with
  | EmptyString => true
  | String c s' => plain_char c && all_plain s'
  end.

(** The requirements that [require] maintains on an event: no requirement
    twice, and every one on a participant of the event. *)
Definition requirements_valid (e : Event) : Prop :=
  NoDup (requirements e) /\
  Forall (fun r => player_index r < players_involved e) (requirements e).

(** What the participant count of the constructor takes for granted of a
    template: after every [%] followed by a specifier letter comes one more
    character, and after [%e] and [%w] no digit (the regular expression of
    [CalculateTributesInvolved] has neither letter). *)
Definition placeholder_counted (m : string) (i : nat) : bool :=
  match String.get i m, String.get (S i) m with
  | Some a, Some c =>
      if Ascii.eqb a "%" && is_specifier c then
        match String.get (S (S i)) m with
        | None => false
        | Some d =>
            negb (is_digit_char d && (Ascii.eqb c "e" || Ascii.eqb c "w"))
        end
      else true
  | _, _ => true
  end.

Definition placeholders_counted (m : string) : bool :=
  forallb (placeholder_counted m) (seq 0 (String.length m)).

(** The name references of a message are names of the first [n]
    participants. *)
Definition names_participants (n : nat) (players : list (option Tribute))
    (segs : FormattedMessage) : Prop :=
  forall nm, Span nm ∈ segs ->
    exists idx t, idx < n /\ players !! idx = Some (Some t) /\ nm = name t.

(** The name references of a message, in order. *)
Fixpoint spans (segs : FormattedMessage) : list NameSpan :=
  match segs with
  | [] => []
  | Span nm :: segs' => nm :: spans segs'
  | _ :: segs' => spans segs'
  end.

(** The digits that directly follow a [%] in a template, in order: its
    plain placeholders. *)
Fixpoint percent_digits (m : string) : list nat :=
  match m with
  | EmptyString => []
  | String a m' =>
      match m' with
      | EmptyString => []
      | String b _ =>
          if Ascii.eqb a "%" && is_digit_char b
          then digit_value b :: percent_digits m'
          else percent_digits m'
      end
  end.

(** Name [nm] is the name of the participant bound to slot [d]. *)
Definition names_slot (n : nat) (players : list (option Tribute))
    (nm : NameSpan) (d : nat) : Prop :=
  d < n /\ exists t, players !! d = Some (Some t) /\ nm = name t.

(** The games that keep the property [Inv], if they had it. *)
Definition preserves (Inv : Game -> Prop) : Game -> Game -> Prop :=
  fun g g' => Inv g -> Inv g'.

(** What a tribute is for the whole game: everything but the kill count
    and the death record. *)
Definition identity_of (t : Tribute) :=
  (raw_name t, name t, pronouns t, uses_pronouns t, plural t, tags t).

(** What a game is set up with: its tributes, as far as their identity
    goes, the four pools, and the options. *)
Definition configuration (g : Game) :=
  (map identity_of (tributes g), event_list g, required_fatalities g,
   fatality_reroll_rate g, all_won g, greyscale_settings g).

(** A tribute of [g] is still there in [g'], with at least as many kills,
    and with a death record if it had one. *)
Definition tributes_gain (g g' : Game) : Prop :=
  forall ref t, tributes g !! ref = Some t ->
    exists t',
      tributes g' !! ref = Some t' /\ kills t <= kills t' /\
      (died_in_round t <> None -> died_in_round t' <> None).

(** Whoever is listed as dead, in the buffer or in a round, has a death
    record. *)
Definition listed_dead (g : Game) : Prop :=
  (forall ref, ref ∈ tributes_died g -> is_alive g ref = false) /\
  (forall r ref, r ∈ rounds g -> ref ∈ died_this_round r ->
     is_alive g ref = false).

(** The roster of [g'] is taken from the roster of [g]. *)
Definition roster_shrinks (g g' : Game) : Prop :=
  tributes_alive g' ⊆+ tributes_alive g.

(** Every round sits at its index. *)
Definition rounds_indexed (g : Game) : Prop :=
  forall k r, rounds g !! k = Some r -> index r = k.

(** The states of the end of a game. *)
Definition is_end_state (s : GameState) : bool :=
  match s with
  | END_RESULTS | END_WINNER | END_SUMMARY_FATALITIES | END_SUMMARY_STATS
  | END => true
  | _ => false
  end.

(** The state after a round that completed, read off the game it leaves. *)
Definition state_after_round (g : Game) : GameState :=
  if (length (tributes_alive g) <? 2) || all_won g then END_RESULTS
  else if stage_eqb (stage g) NIGHT then THE_FALLEN
  else IN_ROUND.

(** The stage [b] may come after the stage [a]. *)
Definition follows (a b : GameStage) : Prop :=
  match a with
  | BLOODBATH | FEAST => b = DAY
  | DAY => b = NIGHT
  | NIGHT => b = DAY \/ b = FEAST
  end.

(** The order of the stages [ss] of a game whose current stage is [st] and
    whose last feast was recorded at [lf]. *)
Definition stage_order (ss : list GameStage) (st : GameStage) (lf : nat)
    : Prop :=
  (forall a, ss !! 0 = Some a -> a = BLOODBATH) /\
  (forall k a b, ss !! k = Some a -> ss !! S k = Some b -> follows a b) /\
  (ss <> [] -> last ss = Some st) /\
  (forall k, ss !! k = Some FEAST -> 5 <= k <= lf) /\
  (forall j k, j < k -> ss !! j = Some FEAST -> ss !! k = Some FEAST ->
     j + 5 <= k).

(** The requirements of [e] hold of the roster window that starts at
    [cur]: each asks a tag of a participant who carries it. *)
Definition requirements_met (g : Game) (cur : nat) (e : Event) : Prop :=
  forall r, r ∈ requirements e ->
    exists ref t,
      alive_at g (cur + player_index r) = Some (ref, t) /\
      has t (tag r) = true.

(** The event [e] agrees with a required number of fatalities other than
    zero, [died] tributes having died in the round: it has a fatality
    exactly while the number is not reached. *)
Definition quota_met (g : Game) (died : nat) (e : Event) : Prop :=
  forall target,
    required_fatalities g = Some target -> ~ (target == 0)%Q ->
    (fatalities e = [] -> (target <= inject_Z (Z.of_nat died))%Q) /\
    (fatalities e <> [] -> (inject_Z (Z.of_nat died) < target)%Q).

(** The registry refers to tags that exist, to none twice, and no two of
    its tags have the same name. *)
Definition registry_valid (s : Tags) : Prop :=
  NoDup (registered_tags s) /\
  Forall (fun t => t < next_id s) (registered_tags s) /\
  NoDup (map (Tag_name s) (registered_tags s)).

(** The events recorded so far in the round at [idx]. *)
Definition events_of (idx : nat) (g : Game) : list GameEvent :=
  default [] (game_events <$> rounds g !! idx).

(** The participants of a list of events, in order. *)
Definition participants (evs : list GameEvent) : list (option TributeRef) :=
  evs ≫= ge_players_involved.

(** The slot [i] of the roster refers to a tribute of the game. *)
Definition slot_bound (g : Game) (i : nat) : Prop :=
  exists ref, tributes_alive g !! i = Some ref /\ ref < length (tributes g).

(** What the loop of the round at [idx] leaves as it is while a single
    event is carried out. *)
Definition frame (idx : nat) (g : Game) :=
  (tributes_alive g, length (tributes g), length (rounds g), events_of idx g).

(** An event that a round can carry out: its template refers to
    participants of the event only, in the forms that the participant count
    knows, and so do its fatalities, killers and requirements. *)
Definition event_sound (e : Event) : Prop :=
  1 <= players_involved e /\
  Forall (fun d => d < players_involved e) (regex_digits (message e)) /\
  placeholders_counted (message e) = true /\
  Forall (fun i => i < players_involved e) (fatalities e) /\
  Forall (fun i => i < players_involved e) (killers e) /\
  Forall (fun r => player_index r < players_involved e) (requirements e).

(** The pool of the stage [s]. *)
Definition pool_of (l : GameEventList) (s : GameStage) : list Event :=
  match s with
  | BLOODBATH => bloodbath l
  | DAY => day l
  | NIGHT => night l
  | FEAST => feast l
  end.

(** What a recorded event is: an event of the pool with a participant for
    each of its slots. *)
Definition drawn_from (pool : list Event) (ge : GameEvent) : Prop :=
  ge_event ge ∈ pool /\
  length (ge_players_involved ge) = players_involved (ge_event ge).

(** A recorded round: no participant takes part twice, every participant
    is a tribute of the game, and every event comes from the pool of the
    stage of the round, with a participant for each of its slots. *)
Definition round_ok (g : Game) (r : GameRound) : Prop :=
  NoDup (participants (game_events r)) /\
  Forall (fun o => exists ref, o = Some ref /\ ref < length (tributes g))
    (participants (game_events r)) /\
  Forall (drawn_from (pool_of (event_list g) (round_stage r)))
    (game_events r).

(** A game whose roster names tributes of the game, none twice, and whose
    rounds are as [round_ok] says. *)
Definition game_ok (g : Game) : Prop :=
  NoDup (tributes_alive g) /\
  Forall (fun ref => ref < length (tributes g)) (tributes_alive g) /\
  Forall (round_ok g) (rounds g).

(** A game whose roster holds its one tribute in two places, as an array
    that holds one tribute object twice gives. *)
Definition twice_in_the_roster : Game :=
  set_tributes_alive [0; 0]
    (new_Game default_options [Ann]
       {| el_bloodbath := Some [kill]; el_day := None; el_night := None;
          el_feast := None; el_all := None |} (6 # 10)).

(** A game that no call can make fail: it is not in [DEAD], its roster and
    rounds are as [game_ok] says, and every event of its pools is sound. *)
Definition game_sound (g : Game) : Prop :=
  state g <> DEAD /\ game_ok g /\ Forall event_sound (all_pools g).

(** An event as the constructor and [require] leave it. *)
Definition well_formed (e : Event) : Prop :=
  message e <> "" /\ trim (message e) = message e /\
  players_involved e = CalculateTributesInvolved (message e) /\
  1 <= players_involved e <= 9 /\
  Forall (fun i => i < players_involved e) (fatalities e) /\
  Forall (fun i => i < players_involved e) (killers e) /\
  requirements_valid e.

(** The registry [s'] extends [s]: the tag objects of [s] are there, with
    their names, and the registered tags of [s] are registered, in front. *)
Definition registry_grows (s s' : Tags) : Prop :=
  tag_names s `prefix_of` tag_names s' /\
  registered_tags s `prefix_of` registered_tags s'.

(** The stored event [t] is in the list [key] of the file. *)
Definition in_file {T} (lists : StoredLists T) (key : EventListKey) (t : T)
    : Prop :=
  exists l, get_stored key lists = Some l /\ t ∈ l.

(** The event [e] is what [V1.LoadEvent] makes of [stored], in the registry
    [s]: well formed, with the fields of the stored event, disabled if
    the stored event is or if it is of type [BIG LANG], and with the
    stored requirements, on registered tags of the stored names. *)
Definition loaded_from (stored : StoredEvent) (s : Tags) (e : Event) : Prop :=
  well_formed e /\
  message e = trim (stored_message stored) /\
  fatalities e = stored_fatalities stored /\
  killers e = stored_killers stored /\
  type e = stored_type stored /\
  enabled e = stored_enabled stored
              && negb (String.eqb (stored_type stored) "BIG LANG") /\
  Forall (fun r => tag r ∈ registered_tags s /\
            exists sr, sr ∈ tag_requirements stored /\
              Tag_name s (tag r) = Some (req_name sr) /\
              player_index r = req_player_index sr) (requirements e) /\
  forall sr, sr ∈ tag_requirements stored ->
    exists r, r ∈ requirements e /\
      Tag_name s (tag r) = Some (req_name sr) /\
      player_index r = req_player_index sr.

(** From [s] to [s'] the registry has grown, by tags of the given names
    only. *)
Definition registers (names : string -> Prop) (s s' : Tags) : Prop :=
  registry_grows s s' /\
  forall t, t ∈ registered_tags s' ->
    t ∈ registered_tags s \/ exists n, names n /\ Tag_name s' t = Some n.

(** The names that the requirements of the stored events give. *)
Definition required_names (events : StoredLists StoredEvent) (n : string)
    : Prop :=
  exists key stored sr,
    in_file events key stored /\ sr ∈ tag_requirements stored /\
    req_name sr = n.

(** A stored event that [Save] gives back after a load: its message is
    trimmed, the constructor accepts it, it is disabled if its type is
    [BIG LANG], and its requirements are on participants, none twice. *)
Definition reloadable (stored : StoredEvent) : Prop :=
  trim (stored_message stored) = stored_message stored /\
  is_Ok (new_Event (stored_message stored) (stored_fatalities stored)
           (stored_killers stored) (stored_type stored)) = true /\
  (stored_type stored = "BIG LANG" -> stored_enabled stored = false) /\
  Forall (fun sr => req_player_index sr
                    < CalculateTributesInvolved (stored_message stored))
    (tag_requirements stored) /\
  NoDup (tag_requirements stored).

(** A registry with one tag, lists with one event that requires it of the
    killer, and the stored form of these lists. *)
Definition career_registry : Tags :=
  {| tag_names := ["career"]; registered_tags := [0] |}.

Definition career_lists : EventList :=
  {| el_bloodbath := Some [];
     el_day :=
       Some [{| message := "%0 kills %1."; players_involved := 2;
                fatalities := [1]; killers := [0]; enabled := true;
                type := "BUILTIN";
                requirements := [{| tag := 0; player_index := 0 |}] |}];
     el_night := Some []; el_feast := Some []; el_all := Some [] |}.

Definition career_file : StoredLists StoredEvent :=
  {| stored_bloodbath := Some [];
     stored_day :=
       Some [MakeStoredEvent "%0 kills %1." [1] [0] "BUILTIN"
               [{| req_name := "career"; req_player_index := 0 |}]];
     stored_night := Some []; stored_feast := Some [];
     stored_all := Some [] |}.

(** The store [st'] extends [st]: every list starts with what it held, and
    the registry extends the former one. *)
Definition store_grows (st st' : Store) : Prop :=
  (forall key, default [] (get_list key (store_into st))
               `prefix_of` default [] (get_list key (store_into st'))) /\
  registry_grows (store_tags st) (store_tags st').

(** * Properties *)

(** ** The message composer on examples *)

(** C6, as the code has it: composing ["%0 kills %1."] with [[A; B]] yields
    the empty literal segment first (the template starts with a
    placeholder), then the reference to [A], [" kills "], the reference to
    [B] and ["."]. *)
Theorem compose_kills_segments (A B : Tribute) :
  ComposeEventMessage "%0 kills %1."
    (CalculateTributesInvolved "%0 kills %1.") [Some A; Some B]
  = Ok [Lit ""; Span (name A); Lit " kills "; Span (name B); Lit "."].
Proof. reflexivity. Qed.

(** C6 as stated fails: the sequence is not the four-segment one. *)
Lemma compose_kills_not_four_segments :
  ComposeEventMessage "%0 kills %1."
    (CalculateTributesInvolved "%0 kills %1.") [Some Ann; Some Kai]
  <> Ok [Span (name Ann); Lit " kills "; Span (name Kai); Lit "."].
Proof. vm_compute. discriminate. Qed.

(** ** Strings as arrays of characters *)

Lemma get_Some_lt (m : string) (i : nat) (c : ascii) :
  String.get i m = Some c -> i < String.length m.
Proof.
  revert i; induction m as [|a m IH]; intros [|i] H; simpl in *;
    try discriminate; try lia.
  apply IH in H. lia.
Qed.

Lemma get_lt_Some (m : string) (i : nat) :
  i < String.length m -> exists c, String.get i m = Some c.
Proof.
  revert i; induction m as [|a m IH]; intros [|i] H; simpl in *;
    try lia; eauto.
  apply IH. lia.
Qed.

Lemma get_None_ge (m : string) (i : nat) :
  String.get i m = None -> String.length m <= i.
Proof.
  intros H. destruct (le_lt_dec (String.length m) i) as [|Hlt]; [done|].
  apply get_lt_Some in Hlt as [c Hc]. congruence.
Qed.

Lemma get_append_r (p s : string) (i : nat) :
  String.get (String.length p + i) (p +:+ s) = String.get i s.
Proof. induction p as [|a p IH]; simpl; auto. Qed.

Lemma length_append (p s : string) :
  String.length (p +:+ s) = String.length p + String.length s.
Proof. induction p as [|a p IH]; simpl; auto. Qed.

Lemma substring_all (s : string) : substring 0 (String.length s) s = s.
Proof. induction s as [|a s IH]; simpl; [done|]. by rewrite IH. Qed.

Lemma substring_append_r (p s : string) (n : nat) :
  substring (String.length p) n (p +:+ s) = substring 0 n s.
Proof. induction p as [|a p IH]; simpl; auto. Qed.

Lemma substring_append_l (p s : string) :
  substring 0 (String.length p) (p +:+ s) = p.
Proof.
  induction p as [|a p IH]; simpl; [by destruct s|]. by rewrite IH.
Qed.

(** The scan stops at the first [%] at or after [i], or at the end. *)
Lemma scan_literal_spec (m : string) (fuel i : nat) :
  String.length m <= fuel + i ->
  let j := scan_literal fuel m i in
  i <= j /\
  (j < String.length m -> String.get j m = Some "%"%char) /\
  (String.length m <= i -> j = i) /\
  (forall k, i <= k -> String.get k m = Some "%"%char -> j <= k).
Proof.
  revert i; induction fuel as [|fuel IH]; intros i Hfuel; simpl.
  - repeat split; lia.
  - destruct (String.get i m) as [c|] eqn:Hg.
    + destruct (Ascii.eqb c "%") eqn:Hc.
      * apply Ascii.eqb_eq in Hc; subst c. repeat split; auto; lia.
      * destruct (IH (S i)) as (H1 & H2 & H3 & H4); [lia|].
        apply get_Some_lt in Hg as Hlt.
        repeat split; [lia | done | lia |].
        intros k Hk Hget.
        destruct (decide (k = i)) as [->|Hne].
        -- rewrite Hg in Hget. injection Hget as ->.
           rewrite Ascii.eqb_refl in Hc. discriminate.
        -- apply H4; [lia | done].
    + apply get_None_ge in Hg. repeat split; lia.
Qed.

Lemma scan_literal_le (m : string) (i : nat) :
  i <= String.length m ->
  scan_literal (String.length m - i) m i <= String.length m.
Proof.
  intros Hi.
  destruct (scan_literal_spec m (String.length m - i) i) as (H1 & H2 & H3 & H4);
    [lia|].
  destruct (le_lt_dec (scan_literal (String.length m - i) m i) (String.length m))
    as [|Hgt]; [done|].
  exfalso. clear H2 H3 H4.
  assert (Hgen : forall fuel k, k <= String.length m ->
            scan_literal fuel m k <= String.length m).
  { clear. induction fuel as [|fuel IH]; intros k Hk; simpl; [done|].
    destruct (String.get k m) as [c|] eqn:Hg; [|done].
    destruct (Ascii.eqb c "%"); [done|].
    apply IH. apply get_Some_lt in Hg. lia. }
  specialize (Hgen (String.length m - i) i Hi). lia.
Qed.

(** ** The composer returns *)

(** Every turn of the outer loop moves [i] forward, so the loop comes to
    its end before the fuel does. *)
Lemma compose_loop_fuel (fuel : nat) (m : string) (n : nat)
    (players : list (option Tribute)) (prev i : nat) (composed : FormattedMessage) :
  i <= String.length m -> String.length m < fuel + i ->
  compose_loop fuel m n players prev i composed <> OutOfFuel.
Proof.
  revert prev i composed.
  induction fuel as [|fuel IH]; intros prev i composed Hi Hfuel; [lia|].
  simpl.
  pose proof (scan_literal_le m i Hi) as Hle.
  destruct (scan_literal_spec m (String.length m - i) i) as (Hge & _); [lia|].
  set (j := scan_literal (String.length m - i) m i) in *.
  destruct (String.length m <=? j) eqn:E1; [done|].
  apply Nat.leb_gt in E1.
  destruct (String.length m <=? S j) eqn:E2; [done|].
  apply Nat.leb_gt in E2.
  destruct (String.get (S j) m) as [ch|]; [|apply IH; lia].
  destruct (is_digit_char ch).
  - destruct (check_bounds n (nat_of_ascii ch - char_zero)) eqn:Hcb; try done.
    + destruct (mjoin (players !! (nat_of_ascii ch - char_zero))); [|done].
      destruct (String.length m <=? S (S j)) eqn:E3; [done|].
      apply Nat.leb_gt in E3. apply IH; lia.
    + unfold check_bounds in Hcb. destruct (n <=? _); discriminate.
  - destruct (is_specifier ch).
    + destruct (String.get (S (S j)) m) as [d|] eqn:Hd; simpl; [|done].
      apply get_Some_lt in Hd.
      destruct (is_digit_char d).
      * destruct (check_bounds n (nat_of_ascii d - char_zero)) eqn:Hcb; try done.
        -- destruct (mjoin (players !! (nat_of_ascii d - char_zero))); [|done].
           destruct (specifier_text ch t); apply IH; lia.
        -- unfold check_bounds in Hcb. destruct (n <=? _); discriminate.
      * apply IH; lia.
    + apply IH; lia.
Qed.

Lemma ComposeEventMessage_returns (m : string) (n : nat)
    (players : list (option Tribute)) :
  ComposeEventMessage m n players <> OutOfFuel.
Proof. apply compose_loop_fuel; lia. Qed.

(** ** A placeholder at the end of the template *)

Lemma get_append_l (q s : string) (k : nat) :
  k < String.length q -> String.get k (q +:+ s) = String.get k q.
Proof.
  revert k; induction q as [|a q IH]; intros k Hk; simpl in Hk; [lia|].
  destruct k as [|k]; [done|]. simpl. apply IH. lia.
Qed.

Lemma substring_append_before (q s : string) (a len : nat) :
  a + len <= String.length q ->
  substring a len (q +:+ s) = substring a len q.
Proof.
  revert a len; induction q as [|c q IH]; intros a len H; simpl in H.
  - assert (a = 0) as -> by lia. assert (len = 0) as -> by lia.
    by destruct s.
  - destruct a as [|a]; simpl.
    + destruct len as [|len]; [done|]. f_equal. apply IH. simpl. lia.
    + apply IH. lia.
Qed.

Lemma specifier_not_digit (c : ascii) :
  is_specifier c = true ->
  is_digit_char c = false /\ Ascii.eqb c "%" = false.
Proof.
  destruct c as [[] [] [] [] [] [] [] []]; vm_compute; intros H;
    try discriminate H; done.
Qed.

Lemma digit_not_percent (c : ascii) :
  is_digit_char c = true -> c <> "%"%char.
Proof.
  destruct c as [[] [] [] [] [] [] [] []]; vm_compute; intros H;
    try discriminate H; done.
Qed.

Lemma specifier_text_Some (c : ascii) (t : Tribute) :
  is_specifier c = true -> exists text, specifier_text c t = Some text.
Proof.
  destruct c as [[] [] [] [] [] [] [] []]; vm_compute; intros H;
    try discriminate H; by eexists.
Qed.

Lemma substring_zero (q : string) (k : nat) : substring k 0 q = "".
Proof. revert k; induction q as [|c q IH]; intros [|k]; simpl; auto. Qed.

(** The loop does the same with any fuel that is enough. *)
Lemma compose_loop_enough (fuel fuel' : nat) (m : string) (n : nat)
    (players : list (option Tribute)) (prev i : nat)
    (composed : FormattedMessage) :
  i <= String.length m ->
  String.length m < fuel + i -> String.length m < fuel' + i ->
  compose_loop fuel m n players prev i composed
  = compose_loop fuel' m n players prev i composed.
Proof.
  revert fuel' prev i composed.
  induction fuel as [|fuel IH]; intros fuel' prev i composed Hi Hf Hf';
    [lia|].
  destruct fuel' as [|fuel']; [lia|]. simpl.
  pose proof (scan_literal_le m i Hi) as Hle.
  destruct (scan_literal_spec m (String.length m - i) i) as (Hge & _); [lia|].
  set (j := scan_literal (String.length m - i) m i) in *.
  destruct (String.length m <=? j) eqn:E1; [done|].
  apply Nat.leb_gt in E1.
  destruct (String.length m <=? S j) eqn:E2; [done|].
  apply Nat.leb_gt in E2.
  destruct (String.get (S j) m) as [ch|]; [|apply IH; lia].
  destruct (is_digit_char ch).
  - destruct (check_bounds n (nat_of_ascii ch - char_zero)); try done.
    destruct (mjoin (players !! (nat_of_ascii ch - char_zero))); [|done].
    destruct (String.length m <=? S (S j)) eqn:E3; [done|].
    apply Nat.leb_gt in E3. apply IH; lia.
  - destruct (is_specifier ch); [|apply IH; lia].
    destruct (String.get (S (S j)) m) as [d|] eqn:Hd; simpl; [|done].
    apply get_Some_lt in Hd.
    destruct (is_digit_char d); [|apply IH; lia].
    destruct (check_bounds n (nat_of_ascii d - char_zero)); try done.
    destruct (mjoin (players !! (nat_of_ascii d - char_zero))); [|done].
    destruct (specifier_text ch t); apply IH; lia.
Qed.

Section BeforeTheLast.
Variables (p s : string) (n : nat) (players : list (option Tribute)).
Abbreviation m0 := (p +:+ "%").
Abbreviation m1 := ((p +:+ "%") +:+ s).
Abbreviation L := (String.length p).

Lemma length_m0 : String.length m0 = L + 1.
Proof. by rewrite length_append. Qed.

Lemma length_m1 : String.length m1 = L + 1 + String.length s.
Proof. by rewrite !length_append. Qed.

Lemma get_m1 (k : nat) : k <= L -> String.get k m1 = String.get k m0.
Proof. intros Hk. apply get_append_l. rewrite length_m0. lia. Qed.

Lemma get_last_percent : String.get L m0 = Some "%"%char.
Proof. replace L with (L + 0) by lia. by rewrite get_append_r. Qed.

Lemma slice_m1 (a b : nat) : b <= L + 1 -> slice m1 a b = slice m0 a b.
Proof.
  intros Hb. unfold slice. destruct (decide (a <= b)) as [Hab|Hab].
  - apply substring_append_before. rewrite length_m0. lia.
  - replace (b - a) with 0 by lia.
    assert (forall q k, substring k 0 q = "") as Hzero.
    { induction q as [|c q IH]; intros [|k]; simpl; auto. }
    by rewrite !Hzero.
Qed.

Lemma scan_m1 (i : nat) :
  i <= L ->
  scan_literal (String.length m1 - i) m1 i
  = scan_literal (String.length m0 - i) m0 i /\
  scan_literal (String.length m0 - i) m0 i <= L.
Proof.
  intros Hi.
  destruct (scan_literal_spec m0 (String.length m0 - i) i)
    as (H0 & Hp0 & _ & Hmin0); [lia|].
  destruct (scan_literal_spec m1 (String.length m1 - i) i)
    as (H1 & Hp1 & _ & Hmin1); [lia|].
  set (j0 := scan_literal (String.length m0 - i) m0 i) in *.
  set (j1 := scan_literal (String.length m1 - i) m1 i) in *.
  pose proof (Hmin0 L Hi get_last_percent) as Hj0.
  assert (j1 <= L) as Hj1.
  { apply Hmin1; [done|]. rewrite get_m1 by done. apply get_last_percent. }
  split; [|done].
  assert (j0 <= j1).
  { apply Hmin0; [done|]. rewrite <- get_m1 by done. apply Hp1.
    rewrite length_m1. lia. }
  assert (j1 <= j0).
  { apply Hmin1; [done|]. rewrite get_m1 by done. apply Hp0.
    rewrite length_m0. lia. }
  lia.
Qed.

(** The loop on the template [p%s] does what it does on [p%], up to the
    turn that finds the last [%]. *)
Lemma compose_loop_before_last (fuel prev i : nat)
    (composed : FormattedMessage) :
  i <= L -> String.length m1 < fuel + i ->
  match compose_loop fuel m0 n players prev i composed with
  | Ok segs =>
      exists f prev' i' composed',
        i' <= L /\ scan_literal (String.length m1 - i') m1 i' = L /\
        String.length s < f /\
        segs = composed' ++ [Lit (slice m0 prev' L); Lit "%"] /\
        compose_loop fuel m1 n players prev i composed
        = compose_loop (S f) m1 n players prev' i' composed'
  | Throw e => compose_loop fuel m1 n players prev i composed = Throw e
  | OutOfFuel => False
  end.
Proof.
  pose proof length_m0 as Hl0. pose proof length_m1 as Hl1.
  revert prev i composed.
  induction fuel as [|fuel IH]; intros prev i composed Hi Hfuel; [lia|].
  destruct (scan_m1 i Hi) as [Hscan HjL].
  destruct (scan_literal_spec m0 (String.length m0 - i) i)
    as (Hge & Hpc & _); [lia|].
  destruct (decide (scan_literal (String.length m0 - i) m0 i = L)) as [Hj|Hj].
  - (* the turn that finds the last [%] *)
    simpl compose_loop at 1. rewrite Hj.
    assert ((String.length m0 <=? L) = false) as -> by (apply Nat.leb_gt; lia).
    assert ((String.length m0 <=? S L) = true) as -> by (apply Nat.leb_le; lia).
    unfold flush.
    assert ((L <? String.length m0) = true) as -> by (apply Nat.ltb_lt; lia).
    exists fuel, prev, i, composed.
    split; [done|]. split; [by rewrite Hscan|]. split; [lia|].
    split; [|done]. rewrite <- app_assoc. simpl. do 3 f_equal.
    unfold slice_from. rewrite Hl0. replace (L + 1 - L) with 1 by lia.
    by rewrite substring_append_r.
  - (* an earlier turn *)
    simpl compose_loop. rewrite Hscan.
    set (j := scan_literal (String.length m0 - i) m0 i) in *.
    assert (j < L) as HjL' by lia.
    rewrite (slice_m1 prev j) by lia.
    assert ((String.length m0 <=? j) = false) as -> by (apply Nat.leb_gt; lia).
    assert ((String.length m1 <=? j) = false) as -> by (apply Nat.leb_gt; lia).
    assert ((String.length m0 <=? S j) = false) as ->
      by (apply Nat.leb_gt; lia).
    assert ((String.length m1 <=? S j) = false) as ->
      by (apply Nat.leb_gt; lia).
    rewrite (get_m1 (S j)) by lia.
    destruct (String.get (S j) m0) as [ch|] eqn:Hch.
    2: { apply IH; lia. }
    destruct (is_digit_char ch) eqn:Hdc.
    + assert (S j < L) as Hlt.
      { destruct (decide (S j = L)) as [Heq|]; [|lia].
        rewrite Heq, get_last_percent in Hch. injection Hch as <-.
        discriminate. }
      unfold check_bounds.
      destruct (n <=? nat_of_ascii ch - char_zero); [done|].
      destruct (mjoin (players !! (nat_of_ascii ch - char_zero))); [|done].
      assert ((String.length m0 <=? S (S j)) = false) as ->
        by (apply Nat.leb_gt; lia).
      assert ((String.length m1 <=? S (S j)) = false) as ->
        by (apply Nat.leb_gt; lia).
      apply IH; lia.
    + destruct (is_specifier ch) eqn:Hsp.
      * assert (S j < L) as Hlt.
        { destruct (decide (S j = L)) as [Heq|]; [|lia].
          rewrite Heq, get_last_percent in Hch. injection Hch as <-.
          discriminate. }
        rewrite (get_m1 (S (S j))) by lia.
        destruct (String.get (S (S j)) m0) as [c|] eqn:Hc; simpl; [|done].
        destruct (is_digit_char c) eqn:Hcd.
        -- assert (S (S j) < L) as Hlt2.
           { destruct (decide (S (S j) = L)) as [Heq|]; [|lia].
             rewrite Heq, get_last_percent in Hc. injection Hc as <-.
             discriminate. }
           unfold check_bounds.
           destruct (n <=? nat_of_ascii c - char_zero); [done|].
           destruct (mjoin (players !! (nat_of_ascii c - char_zero)));
             [|done].
           destruct (specifier_text ch t); apply IH; lia.
        -- apply IH; lia.
      * apply IH; lia.
Qed.
End BeforeTheLast.

(** C10, as the code has it. A template that ends in a plain placeholder
    [%d], for a participant [d] that is bound, composes as the template
    without the final digit does, up to the last [%]: it throws the error
    that an earlier placeholder throws, if one does, and otherwise returns
    the same segments with, in the place of the final literal ["%"], the
    reference to the name of participant [d] followed by the literal
    ["%d"], the placeholder once more. A template that ends in a specifier
    and a digit, [%cd], does not repeat its placeholder: in the place of
    the literal ["%"] it has the text of the specifier followed by the
    empty literal. *)
Theorem compose_trailing_plain_placeholder
    (p : string) (d : ascii) (n : nat) (players : list (option Tribute))
    (tribute : Tribute) :
  is_digit_char d = true ->
  digit_value d < n ->
  players !! digit_value d = Some (Some tribute) ->
  match ComposeEventMessage (p +:+ "%") n players with
  | Ok segs =>
      exists pre,
        segs = pre ++ [Lit "%"] /\
        ComposeEventMessage (p +:+ String "%" (String d "")) n players
        = Ok (pre ++ [Span (name tribute); Lit (String "%" (String d ""))]) /\
        forall c, is_specifier c = true ->
          exists text,
            specifier_text c tribute = Some text /\
            ComposeEventMessage (p +:+ String "%" (String c (String d "")))
              n players
            = Ok (pre ++ [text; Lit ""])
  | Throw e =>
      ComposeEventMessage (p +:+ String "%" (String d "")) n players
      = Throw e /\
      forall c, is_specifier c = true ->
        ComposeEventMessage (p +:+ String "%" (String c (String d "")))
          n players
        = Throw e
  | OutOfFuel => False
  end.
Proof.
  intros Hd Hn Hpl.
  assert (forall s, p +:+ String "%" s = (p +:+ "%") +:+ s) as Happ.
  { intros s. induction p as [|a q IH]; [done|].
    change (String a (q +:+ String "%" s) = String a ((q +:+ "%") +:+ s)).
    by rewrite IH. }
  assert (forall s k,
            String.get (String.length p + 1 + k) ((p +:+ "%") +:+ s)
            = String.get k s) as Hget.
  { intros s k. rewrite <- (Nat.add_0_r (String.length p)) at 1.
    replace (String.length p + 0 + 1 + k)
      with (String.length (p +:+ "%") + k)
      by (rewrite length_append; simpl; lia).
    apply get_append_r. }
  assert (forall s,
            String.get (String.length p) ((p +:+ "%") +:+ s) = Some "%"%char)
    as Hpercent.
  { intros s. rewrite get_m1 by done. apply get_last_percent. }
  (* the two tails, from the turn that finds the last [%] on *)
  assert (forall f prev' i' composed',
            scan_literal
              (String.length ((p +:+ "%") +:+ String d "") - i')
              ((p +:+ "%") +:+ String d "") i' = String.length p ->
            compose_loop (S f) ((p +:+ "%") +:+ String d "") n players prev'
              i' composed'
            = Ok (composed'
                  ++ [Lit (slice (p +:+ "%") prev' (String.length p));
                      Span (name tribute); Lit (String "%" (String d ""))]))
    as Hplain.
  { intros f prev' i' composed' Hscan. simpl compose_loop. rewrite Hscan.
    pose proof (length_m1 p (String d "")) as Hl1. simpl in Hl1.
    assert ((String.length ((p +:+ "%") +:+ String d "")
             <=? String.length p) = false) as ->
      by (apply Nat.leb_gt; lia).
    assert ((String.length ((p +:+ "%") +:+ String d "")
             <=? S (String.length p)) = false) as ->
      by (apply Nat.leb_gt; lia).
    replace (S (String.length p)) with (String.length p + 1 + 0) by lia.
    rewrite Hget. simpl String.get. cbv beta iota. rewrite Hd.
    fold (digit_value d). unfold check_bounds.
    assert ((n <=? digit_value d) = false) as -> by (apply Nat.leb_gt; lia).
    rewrite Hpl. simpl mjoin. cbv iota.
    assert ((String.length ((p +:+ "%") +:+ String d "")
             <=? S (String.length p + 1 + 0)) = true) as ->
      by (apply Nat.leb_le; lia).
    unfold flush.
    assert ((String.length p <? String.length ((p +:+ "%") +:+ String d ""))
            = true) as -> by (apply Nat.ltb_lt; lia).
    rewrite slice_m1 by lia. rewrite <- !app_assoc. simpl. do 4 f_equal.
    unfold slice_from. rewrite Hl1.
    replace (String.length p + 1 + 1 - String.length p) with 2 by lia.
    by rewrite <- Happ, substring_append_r. }
  assert (forall c, is_specifier c = true ->
          exists text, specifier_text c tribute = Some text /\
          forall f prev' i' composed',
            scan_literal
              (String.length ((p +:+ "%") +:+ String c (String d "")) - i')
              ((p +:+ "%") +:+ String c (String d "")) i' = String.length p ->
            2 < S f ->
            compose_loop (S f) ((p +:+ "%") +:+ String c (String d "")) n
              players prev' i' composed'
            = Ok (composed'
                  ++ [Lit (slice (p +:+ "%") prev' (String.length p));
                      text; Lit ""]))
    as Hspec.
  { intros c Hc. destruct (specifier_text_Some c tribute Hc) as [text Ht].
    exists text. split; [done|].
    intros f prev' i' composed' Hscan Hf.
    destruct (specifier_not_digit c Hc) as [Hcd _].
    destruct f as [|f]; [lia|].
    pose proof (length_m1 p (String c (String d ""))) as Hl1. simpl in Hl1.
    set (m := (p +:+ "%") +:+ String c (String d "")) in *.
    cbn [compose_loop]. rewrite Hscan.
    assert ((String.length m <=? String.length p) = false) as ->
      by (apply Nat.leb_gt; lia).
    assert ((String.length m <=? S (String.length p)) = false) as ->
      by (apply Nat.leb_gt; lia).
    replace (S (String.length p)) with (String.length p + 1 + 0) by lia.
    unfold m at 1. rewrite Hget. simpl String.get. cbv beta iota.
    rewrite Hcd, Hc.
    replace (S (String.length p + 1 + 0)) with (String.length p + 1 + 1)
      by lia.
    assert (String.get (String.length p + 1 + 1) m = Some d) as Hg2
      by (unfold m; by rewrite Hget).
    rewrite !Hg2. unfold isdigit. rewrite Hd. unfold check_bounds.
    fold (digit_value d).
    assert ((n <=? digit_value d) = false) as -> by (apply Nat.leb_gt; lia).
    rewrite Hpl. simpl mjoin. cbv iota. rewrite Ht.
    (* the turn that follows finds the end of the template *)
    assert (String.length m = S (String.length p + 1 + 1)) as Hlen by lia.
    assert (scan_literal (String.length m - S (String.length p + 1 + 1)) m
              (S (String.length p + 1 + 1)) = String.length m) as ->
      by (by rewrite Hlen, Nat.sub_diag).
    rewrite Nat.leb_refl. unfold flush. rewrite Nat.ltb_irrefl.
    rewrite Hlen at 1.
    unfold m. rewrite slice_m1 by lia. rewrite <- !app_assoc. simpl.
    do 4 f_equal. unfold slice. by rewrite Nat.sub_diag, substring_zero. }
  (* the loop on [p%], with the fuel of the longer template *)
  assert (forall s,
            ComposeEventMessage (p +:+ "%") n players
            = compose_loop (S (String.length ((p +:+ "%") +:+ s)))
                (p +:+ "%") n players 0 0 []) as Hfuel.
  { intros s. unfold ComposeEventMessage.
    apply compose_loop_enough; [lia|lia|]. rewrite !length_append. lia. }
  pose proof (compose_loop_before_last p (String d "") n players
                (S (String.length ((p +:+ "%") +:+ String d ""))) 0 0 []
                ltac:(lia) ltac:(lia)) as Hd1.
  rewrite <- Hfuel in Hd1.
  destruct (ComposeEventMessage (p +:+ "%") n players) as [segs|e|] eqn:Hrun;
    [| |done].
  - destruct Hd1 as (f & prev' & i' & composed' & Hi' & Hscan & Hf & -> & Hd1).
    exists (composed' ++ [Lit (slice (p +:+ "%") prev' (String.length p))]).
    split; [by rewrite <- app_assoc|]. split.
    + rewrite Happ. unfold ComposeEventMessage. rewrite Hd1, Hplain by done.
      by rewrite <- app_assoc.
    + intros c Hc. destruct (Hspec c Hc) as (text & Ht & Htail).
      exists text. split; [done|].
      pose proof (compose_loop_before_last p (String c (String d "")) n
                    players
                    (S (String.length
                          ((p +:+ "%") +:+ String c (String d ""))))
                    0 0 [] ltac:(lia) ltac:(lia)) as Hc1.
      rewrite <- Hfuel in Hc1.
      destruct Hc1 as (f2 & prev2 & i2 & composed2 & Hi2 & Hscan2 & Hf2
                       & Hsegs & Hc1).
      assert (composed' ++ [Lit (slice (p +:+ "%") prev' (String.length p))]
              = composed2
                ++ [Lit (slice (p +:+ "%") prev2 (String.length p))])
        as Hsame.
      { assert ((composed'
                 ++ [Lit (slice (p +:+ "%") prev' (String.length p))])
                ++ [Lit "%"]
                = (composed2
                   ++ [Lit (slice (p +:+ "%") prev2 (String.length p))])
                  ++ [Lit "%"]) as Hboth by (by rewrite <- !app_assoc).
        by apply app_inj_tail in Hboth as [Hboth _]. }
      rewrite Happ. unfold ComposeEventMessage.
      rewrite Hc1, Htail by (done || (simpl in Hf2; lia)).
      by rewrite Hsame, <- app_assoc.
  - split.
    + rewrite Happ. unfold ComposeEventMessage. exact Hd1.
    + intros c Hc.
      pose proof (compose_loop_before_last p (String c (String d "")) n
                    players
                    (S (String.length
                          ((p +:+ "%") +:+ String c (String d ""))))
                    0 0 [] ltac:(lia) ltac:(lia)) as Hc1.
      rewrite <- Hfuel in Hc1.
      rewrite Happ. exact Hc1.
Qed.

(** The example of C10: the template ["A kills %1"], and the same template
    with the specifier [N] before the digit. *)
Lemma compose_trailing_plain_placeholder_witness :
  ComposeEventMessage "A kills %1" 2 [Some Ann; Some Kai]
  = Ok [Lit "A kills "; Span (name Kai); Lit "%1"] /\
  ComposeEventMessage "A kills %N1" 2 [Some Ann; Some Kai]
  = Ok [Lit "A kills "; Lit "Kai"; Lit ""].
Proof.
  pose proof (compose_trailing_plain_placeholder "A kills " "1" 2
                [Some Ann; Some Kai] Kai
                ltac:(reflexivity) ltac:(vm_compute; lia) ltac:(reflexivity))
    as H.
  change (ComposeEventMessage ("A kills " +:+ "%") 2 [Some Ann; Some Kai])
    with (Ok ([Lit "A kills "] ++ [Lit "%"])) in H.
  cbv beta iota in H.
  destruct H as (pre & Hpre & Hplain & Hspec).
  apply app_inj_tail in Hpre as [<- _].
  split; [exact Hplain|].
  destruct (Hspec "N"%char ltac:(reflexivity)) as (text & Htext & Hrun).
  injection Htext as <-. exact Hrun.
Defined.

Lemma compose_trailing_plain_example (A B : Tribute) :
  ComposeEventMessage "A kills %1" 2 [Some A; Some B]
  = Ok [Lit "A kills "; Span (name B); Lit "%1"].
Proof. reflexivity. Qed.

(** C10 as stated fails for the specifier forms: after [%s0] at the end of
    the template the loop runs once more and pushes the empty literal; the
    placeholder is not repeated. *)
Lemma compose_trailing_specifier_not_repeated :
  ~ exists pre text,
      ComposeEventMessage "%0 hit%s0" 1 [Some Kai]
      = Ok (pre ++ [text; Lit "%s0"]).
Proof.
  intros (pre & text & H).
  change (ComposeEventMessage "%0 hit%s0" 1 [Some Kai])
    with (Ok ([Lit ""; Span (name Kai); Lit " hit"] ++ [Lit "s"; Lit ""])) in H.
  injection H as H.
  apply (f_equal (@rev Segment)) in H.
  rewrite !rev_app_distr in H. simpl in H. discriminate.
Qed.

(** ** Event templates *)

Lemma new_Event_players_involved (msg : string) (fatal killrs : list nat)
    (ty : string) (e : Event) :
  new_Event msg fatal killrs ty = Ok e ->
  players_involved e = CalculateTributesInvolved msg /\
  1 <= players_involved e <= 9.
Proof.
  unfold new_Event. intros H.
  destruct (String.length (trim msg) =? 0); [done|].
  destruct ((CalculateTributesInvolved msg <? 1)
            || (9 <? CalculateTributesInvolved msg)) eqn:E; [done|].
  destruct (max_ge fatal _); [done|]. destruct (max_ge killrs _); [done|].
  injection H as <-. simpl.
  apply orb_false_elim in E as [E1 E2].
  apply Nat.ltb_ge in E1, E2. lia.
Qed.

Lemma CalculateTributesInvolved_examples :
  CalculateTributesInvolved "%0 and %2 fight" = 3 /\
  CalculateTributesInvolved "no placeholders" = 0 /\
  new_Event "no placeholders" [] [] "BUILTIN" = Throw (IllFormedEvent 0).
Proof. repeat split. Qed.

(** C3 fails on the code: the regular expression of
    [CalculateTributesInvolved] knows the letters [N A G R s y i h !] but
    not [e] and [w], which the composer resolves. The template below refers
    to participant 1 through [%w1]; the count is 1, the event is constructed
    with one participant, and composing its message throws the bounds
    error. *)
Theorem CalculateTributesInvolved_misses_w (A : Tribute) :
  CalculateTributesInvolved "%0 and %w1" = 1 /\
  new_Event "%0 and %w1" [] [] "BUILTIN"
  = Ok {| message := "%0 and %w1"; players_involved := 1;
          fatalities := []; killers := []; enabled := true;
          type := "BUILTIN"; requirements := [] |} /\
  ComposeEventMessage "%0 and %w1" 1 [Some A] = Throw (IndexOutOfBounds 1 1).
Proof. repeat split. Qed.

(** C4 fails on the code: a specifier letter that ends the template makes
    [isdigit] read the code of [undefined], which throws, although every
    slot the template refers to is bound. *)
Theorem compose_trailing_letter_throws (A : Tribute) :
  new_Event "%0 sees %N" [] [] "BUILTIN"
  = Ok {| message := "%0 sees %N"; players_involved := 1;
          fatalities := []; killers := []; enabled := true;
          type := "BUILTIN"; requirements := [] |} /\
  ComposeEventMessage "%0 sees %N" 1 [Some A] = Throw TypeError.
Proof. repeat split. Qed.

(** The example of C4: an unknown specifier stays in the text. *)
Lemma compose_unknown_specifier (A : Tribute) :
  ComposeEventMessage "100%Q0 sure" 1 [Some A]
  = Ok [Lit "100"; Lit "%Q0 sure"].
Proof. reflexivity. Qed.

(** ** The fatality policy of event selection *)

Lemma Qltb_lt (a b : Q) : Qltb a b = true <-> (a < b)%Q.
Proof.
  unfold Qltb. rewrite negb_true_iff.
  split.
  - intros H. apply Qnot_le_lt. intros Hle.
    apply Qle_bool_iff in Hle. congruence.
  - intros H. destruct (Qle_bool b a) eqn:E; [|done].
    apply Qle_bool_iff in E. exfalso. by apply (Qlt_not_le a b).
Qed.

Lemma truthy_Some (q : Q) : truthy (Some q) = true <-> ~ (q == 0)%Q.
Proof.
  simpl. rewrite negb_true_iff. split.
  - intros H Heq. apply Qeq_bool_iff in Heq. congruence.
  - intros H. destruct (Qeq_bool q 0) eqn:E; [|done].
    apply Qeq_bool_iff in E. contradiction.
Qed.

Lemma length_eqb_nil {A} (l : list A) : (length l =? 0) = true <-> l = [].
Proof. destruct l; simpl; split; (done || discriminate). Qed.

(** *** Rounding to double precision *)

Lemma nearest_even_bounds (a b K : Z) :
  (0 < b)%Z -> (0 <= a)%Z -> (a <= K * b)%Z ->
  (0 <= nearest_even a b <= K)%Z.
Proof.
  intros Hb Ha HK. unfold nearest_even.
  pose proof (Z.div_mod a b ltac:(lia)) as Hdm.
  pose proof (Z.mod_pos_bound a b Hb) as Hr.
  pose proof (Z.div_pos a b Ha Hb) as Hq.
  set (q := (a / b)%Z) in *. set (r := (a mod b)%Z) in *.
  assert (q <= K)%Z as HqK by nia.
  assert (q = K -> r = 0)%Z as Hfull by nia.
  destruct (2 * r <? b)%Z eqn:E1; [lia|]. apply Z.ltb_ge in E1.
  assert (q < K)%Z by lia.
  destruct (b <? 2 * r)%Z; [lia|]. destruct (Z.even q); lia.
Qed.

(** The nearest integer is at most one half away. *)
Lemma nearest_even_error (a b : Z) :
  (0 < b)%Z ->
  (- b <= 2 * (nearest_even a b * b - a) <= b)%Z.
Proof.
  intros Hb. unfold nearest_even.
  pose proof (Z.div_mod a b ltac:(lia)) as Hdm.
  pose proof (Z.mod_pos_bound a b Hb) as Hr.
  set (q := (a / b)%Z) in *. set (r := (a mod b)%Z) in *.
  destruct (2 * r <? b)%Z eqn:E1.
  { apply Z.ltb_lt in E1. nia. }
  apply Z.ltb_ge in E1.
  destruct (b <? 2 * r)%Z eqn:E2.
  { apply Z.ltb_lt in E2. nia. }
  apply Z.ltb_ge in E2. destruct (Z.even q); nia.
Qed.

(** The exponent of [n/d] is not above [n/d]. *)
Lemma exponent_le (n : positive) (d : positive) :
  pow2_le (exponent (Z.pos n) d) (Z.pos n) d = true.
Proof.
  unfold exponent.
  destruct (pow2_le (Z.log2 (Z.pos n) - Z.log2 (Z.pos d)) (Z.pos n) d) eqn:E;
    [done|].
  clear E.
  destruct (Z.log2_spec (Z.pos n) ltac:(lia)) as [Hn _].
  destruct (Z.log2_spec (Z.pos d) ltac:(lia)) as [_ Hd].
  pose proof (Z.log2_nonneg (Z.pos n)) as Hln.
  pose proof (Z.log2_nonneg (Z.pos d)) as Hld.
  set (ln := Z.log2 (Z.pos n)) in *. set (ld := Z.log2 (Z.pos d)) in *.
  unfold pow2_le. destruct (0 <=? ln - ld - 1)%Z eqn:E.
  - apply Z.leb_le in E. apply Z.leb_le.
    assert (2 ^ ln = 2 ^ (ln - ld - 1) * 2 ^ Z.succ ld)%Z as Hsplit.
    { rewrite <- Z.pow_add_r by lia. f_equal. lia. }
    assert (0 < 2 ^ (ln - ld - 1))%Z by (apply Z.pow_pos_nonneg; lia).
    nia.
  - apply Z.leb_gt in E. apply Z.leb_le.
    replace (- (ln - ld - 1))%Z with (Z.succ ld - ln)%Z by lia.
    assert (2 ^ Z.succ ld = 2 ^ ln * 2 ^ (Z.succ ld - ln))%Z as Hsplit.
    { rewrite <- Z.pow_add_r by lia. f_equal. lia. }
    assert (0 < 2 ^ (Z.succ ld - ln))%Z by (apply Z.pow_pos_nonneg; lia).
    nia.
Qed.

(** A positive rational that is at most [2^(52-j)] has its unit in the last
    place at most [2^-j]. *)
Lemma unit_in_the_last_place (n d : positive) (j : Z) :
  (0 <= j <= 52)%Z ->
  (Z.pos n * 2 ^ j <= 2 ^ 52 * Z.pos d)%Z ->
  (Z.max (exponent (Z.pos n) d - 52) (- 1074) <= - j)%Z.
Proof.
  intros Hj Hle. pose proof (exponent_le n d) as He.
  set (e := exponent (Z.pos n) d) in *.
  assert (e <= 52 - j)%Z; [|lia].
  destruct (Z.le_gt_cases e (52 - j)) as [|Hgt]; [done|]. exfalso.
  unfold pow2_le in He. destruct (0 <=? e)%Z eqn:E0; [|lia].
  apply Z.leb_le in He.
  assert (2 ^ 52 < 2 ^ (e + j))%Z as Hpow
    by (apply Z.pow_lt_mono_r; lia).
  rewrite Z.pow_add_r in Hpow by lia.
  assert (0 < 2 ^ j)%Z by (apply Z.pow_pos_nonneg; lia).
  nia.
Qed.

(** The number of double precision nearest to [n/d], as a fraction of
    integers. *)
Lemma round64_pos_fraction (n d : positive) :
  let u := Z.max (exponent (Z.pos n) d - 52) (- 1074) in
  (u <= 0)%Z ->
  round64_pos (Z.pos n) d
  = Qmake (nearest_even (Z.pos n * 2 ^ (- u)) (Z.pos d))
          (Z.to_pos (2 ^ (- u))).
Proof.
  intros u Hu. unfold round64_pos. fold u.
  destruct (0 <=? u)%Z eqn:E; [|done].
  apply Z.leb_le in E. assert (u = 0)%Z as -> by lia.
  change (- 0)%Z with 0%Z. change (2 ^ 0)%Z with 1%Z.
  by rewrite !Z.mul_1_r.
Qed.

Lemma round64_pos_bounds (n d : positive) (k : Z) :
  (Z.pos n <= k * Z.pos d)%Z -> (k < 2 ^ 53)%Z ->
  (0 <= round64_pos (Z.pos n) d)%Q /\
  (round64_pos (Z.pos n) d <= inject_Z k)%Q.
Proof.
  intros Hk Hsmall.
  pose proof (exponent_le n d) as He.
  assert (exponent (Z.pos n) d <= 52)%Z as He52.
  { set (e := exponent (Z.pos n) d) in *.
    destruct (Z.le_gt_cases e 52) as [|Hgt]; [done|]. exfalso.
    unfold pow2_le in He. destruct (0 <=? e)%Z eqn:E0; [|lia].
    apply Z.leb_le in He.
    assert (2 ^ 53 <= 2 ^ e)%Z by (apply Z.pow_le_mono_r; lia).
    nia. }
  rewrite round64_pos_fraction by lia.
  set (u := Z.max (exponent (Z.pos n) d - 52) (- 1074)).
  assert (0 < 2 ^ (- u))%Z as HP by (apply Z.pow_pos_nonneg; lia).
  set (P := (2 ^ (- u))%Z) in *.
  destruct (nearest_even_bounds (Z.pos n * P) (Z.pos d) (k * P))
    as [H0 H1]; [lia|lia|nia|].
  unfold Qle. simpl. rewrite Z2Pos.id by done. lia.
Qed.

Lemma round64_pos_error (n d : positive) (j : Z) :
  (0 <= j <= 52)%Z ->
  (Z.pos n * 2 ^ j <= 2 ^ 52 * Z.pos d)%Z ->
  (Qmake (Z.pos n) d - Qmake 1 (Z.to_pos (2 ^ (j + 1)))
   <= round64_pos (Z.pos n) d)%Q /\
  (round64_pos (Z.pos n) d
   <= Qmake (Z.pos n) d + Qmake 1 (Z.to_pos (2 ^ (j + 1))))%Q.
Proof.
  intros Hj Hle. pose proof (unit_in_the_last_place n d j Hj Hle) as Hu.
  rewrite round64_pos_fraction by lia.
  set (u := Z.max (exponent (Z.pos n) d - 52) (- 1074)) in *.
  assert (0 < 2 ^ (- u))%Z as HP by (apply Z.pow_pos_nonneg; lia).
  assert (2 ^ j <= 2 ^ (- u))%Z as HjP by (apply Z.pow_le_mono_r; lia).
  assert (0 < 2 ^ j)%Z as Hj0 by (apply Z.pow_pos_nonneg; lia).
  assert (2 ^ (j + 1) = 2 * 2 ^ j)%Z as HK.
  { rewrite Z.pow_add_r by lia. change (2 ^ 1)%Z with 2%Z. lia. }
  set (P := (2 ^ (- u))%Z) in *. set (J := (2 ^ j)%Z) in *.
  pose proof (nearest_even_error (Z.pos n * P) (Z.pos d) ltac:(lia)) as Herr.
  set (m := nearest_even (Z.pos n * P) (Z.pos d)) in *.
  unfold Qle, Qminus, Qplus, Qopp. simpl.
  rewrite !Pos2Z.inj_mul, !Z2Pos.id by lia. rewrite HK.
  split; nia.
Qed.

Lemma round64_bounds (x : Q) (k : Z) :
  (0 <= x)%Q -> (x <= inject_Z k)%Q -> (k < 2 ^ 53)%Z ->
  (0 <= round64 x)%Q /\ (round64 x <= inject_Z k)%Q.
Proof.
  destruct x as [n d]. intros H0 Hk Hsmall. unfold Qle in H0, Hk.
  simpl in H0, Hk. rewrite Z.mul_1_r in H0, Hk. unfold round64. simpl Qnum.
  simpl Qden. destruct n as [|n|n]; [|by apply round64_pos_bounds|lia].
  split; [done|]. unfold Qle. simpl. lia.
Qed.

(** The error of a rounding: a number between zero and [2^(52-j)] is
    rounded to a number at most [2^-(j+1)] away. *)
Lemma round64_error (x : Q) (j : Z) :
  (0 <= j <= 52)%Z ->
  (0 <= x)%Q -> (x <= inject_Z (2 ^ (52 - j)))%Q ->
  (x - Qmake 1 (Z.to_pos (2 ^ (j + 1))) <= round64 x)%Q /\
  (round64 x <= x + Qmake 1 (Z.to_pos (2 ^ (j + 1))))%Q.
Proof.
  intros Hj H0 Hle. destruct x as [n d]. unfold Qle in H0, Hle.
  simpl in H0, Hle. rewrite Z.mul_1_r in H0, Hle. unfold round64. simpl Qnum.
  simpl Qden. destruct n as [|n|n]; [| |lia].
  - unfold Qle, Qminus, Qplus, Qopp. simpl. lia.
  - apply round64_pos_error; [done|].
    assert (2 ^ 52 = 2 ^ (52 - j) * 2 ^ j)%Z as ->.
    { rewrite <- Z.pow_add_r by lia. f_equal. lia. }
    assert (0 < 2 ^ j)%Z by (apply Z.pow_pos_nonneg; lia).
    nia.
Qed.

Lemma clamp_0_100 (v : Q) :
  (0 <= clamp v 0 100)%Q /\ (clamp v 0 100 <= 100)%Q.
Proof.
  unfold clamp. destruct (Qle_bool v 0) eqn:E1.
  - change (Qle_bool 0 100) with true. by cbv iota.
  - assert (0 < v)%Q as Hv.
    { apply Qnot_le_lt. intros C. apply Qle_bool_iff in C. congruence. }
    destruct (Qle_bool v 100) eqn:E2.
    + apply Qle_bool_iff in E2. split; [by apply Qlt_le_weak|done].
    + done.
Qed.

Lemma array_length_bounds (n : nat) :
  exists k, array_length n = inject_Z k /\
    (0 <= k <= Z.of_nat n)%Z /\ (k < 2 ^ 32)%Z.
Proof.
  unfold array_length. eexists. split; [done|]. split; lia.
Qed.

(** The required number under [Percent] is at most one away from the
    number that exact arithmetic gives. *)
Lemma percent_target_near (v : Q) (count : nat) :
  (Qceiling (clamp v 0 100 / 100 * array_length count) - 1
   <= Qceiling (round64 (round64 (clamp v 0 100 / 100) * array_length count))
   <= Qceiling (clamp v 0 100 / 100 * array_length count) + 1)%Z.
Proof.
  destruct (clamp_0_100 v) as [H0 H100]. set (c := clamp v 0 100) in *.
  assert (0 <= c / 100)%Q as Hlo.
  { apply Qle_shift_div_l; [done|]. by rewrite Qmult_0_l. }
  assert (c / 100 <= 1)%Q as Hhi.
  { apply Qle_shift_div_r; [done|]. by rewrite Qmult_1_l. }
  set (x := (c / 100)%Q) in *.
  destruct (round64_bounds x 1 Hlo Hhi ltac:(done)) as [Hy0 Hy1].
  destruct (round64_error x 52 ltac:(lia) Hlo Hhi) as [Hx1 Hx2].
  set (y := round64 x) in *.
  destruct (array_length_bounds count) as (k & -> & Hk & Hsmall).
  assert (0 <= inject_Z k)%Q as HN0.
  { change 0%Q with (inject_Z 0). rewrite <- Zle_Qle. lia. }
  assert (inject_Z k <= inject_Z (2 ^ 32))%Q as HN1.
  { rewrite <- Zle_Qle. lia. }
  set (N := inject_Z k) in *.
  assert (0 <= y * N)%Q as Hp0 by by apply Qmult_le_0_compat.
  assert (y * N <= inject_Z (2 ^ (52 - 20)))%Q as Hp1.
  { apply (Qle_trans _ N); [|exact HN1]. rewrite <- (Qmult_1_l N) at 2.
    by apply Qmult_le_compat_r. }
  destruct (round64_error (y * N) 20 ltac:(lia) Hp0 Hp1) as [Hr1 Hr2].
  set (p := round64 (y * N)) in *.
  change (Qmake 1 (Z.to_pos (2 ^ (52 + 1)))) with (1 # 9007199254740992)%Q
    in Hx1, Hx2.
  change (Qmake 1 (Z.to_pos (2 ^ (20 + 1)))) with (1 # 2097152)%Q in Hr1, Hr2.
  change (inject_Z (2 ^ 32)) with (4294967296 # 1)%Q in HN1.
  assert (x * N - 1 <= p)%Q as Hlow by nra.
  assert (p <= x * N + 1)%Q as Hupp by nra.
  pose proof (Qle_ceiling p) as Hcp.
  pose proof (Qle_ceiling (x * N)) as Hce.
  split.
  - assert (x * N <= inject_Z (Qceiling p + 1))%Q as H.
    { rewrite inject_Z_plus. change (inject_Z 1) with 1%Q. lra. }
    apply Qceiling_resp_le in H. rewrite Qceiling_Z in H. lia.
  - assert (p <= inject_Z (Qceiling (x * N) + 1))%Q as H.
    { rewrite inject_Z_plus. change (inject_Z 1) with 1%Q. lra. }
    apply Qceiling_resp_le in H. rewrite Qceiling_Z in H. lia.
Qed.

Lemma requirements_hold_world (reqs : list TagRequirement) (cur : nat)
    (w : World) :
  (requirements_hold reqs cur w).2 = w.
Proof.
  induction reqs as [|r reqs IH]; [done|]. simpl.
  unfold bind, get_game.
  destruct (alive_at (game w) (cur + player_index r)) as [[ref t]|]; [|done].
  destruct (has t (tag r)); [apply IH|done].
Qed.

(** C5, as the code has it. The constructor stores as the required number
    of fatalities, under [Percent], the ceiling of the product of the
    clamped percentage and the number of tributes, where the quotient by
    100 and the product are rounded to double precision: a whole number at
    most one away from the one that exact arithmetic gives; under
    [Absolute] the option or zero; none under [Disable] or for an option
    that is not finite. With a required number other than zero, an event
    without a fatality is rejected while the count of the round is below it
    and an event with a fatality is rejected once the count has reached it;
    an event that fits the remaining roster is rejected for its fatalities
    in no other case, and the random source is never read. With no required
    number, or with the required number 0, an event with a fatality that
    fits the remaining roster is rejected exactly when the next random
    outcome is below [fatality_reroll_rate], and an event without a
    fatality is not rejected for it. *)
Theorem RequirementsSatisfied_fatality_policy (opts : GameOptions)
    (trs : list Tribute) (events : EventList) (rate : Q) (w : World)
    (event : Event) (current_tribute tributes_left died_this_round : nat) :
  (* the required number that the constructor stores *)
  match required_fatalities_mode opts, opt_required_fatalities opts with
  | Percent, Finite v =>
      exists z,
        required_fatalities (new_Game opts trs events rate)
        = Some (inject_Z z) /\
        z = Qceiling (round64 (round64 (clamp v 0 100 / 100)
                               * array_length (length trs))) /\
        (Qceiling (clamp v 0 100 / 100 * array_length (length trs)) - 1 <= z
         <= Qceiling (clamp v 0 100 / 100 * array_length (length trs)) + 1)%Z
  | Absolute, Finite v =>
      required_fatalities (new_Game opts trs events rate)
      = Some (if Qle_bool v 0 then 0%Q else v)
  | _, _ => required_fatalities (new_Game opts trs events rate) = None
  end /\
  let g := game w in
  let died := inject_Z (Z.of_nat died_this_round) in
  let run := RequirementsSatisfied event current_tribute tributes_left
               died_this_round w in
  let check := requirements_hold (requirements event) current_tribute in
  (* a required number other than 0 *)
  (forall target,
      required_fatalities g = Some target -> ~ (target == 0)%Q ->
      ((died < target)%Q -> fatalities event = [] -> run = (Ok false, w)) /\
      ((target <= died)%Q -> fatalities event <> [] -> run = (Ok false, w)) /\
      (players_involved event <= tributes_left ->
       (died < target)%Q /\ fatalities event <> [] \/
       (target <= died)%Q /\ fatalities event = [] ->
       run = check w) /\
      run.2 = w)
  /\
  (* no required number, or the required number 0 *)
  (truthy (required_fatalities g) = false ->
   players_involved event <= tributes_left ->
   (fatalities event <> [] ->
    let r := rand_value (random_source w (random_pos w)) in
    ((r < fatality_reroll_rate g)%Q -> run = (Ok false, consume w)) /\
    (~ (r < fatality_reroll_rate g)%Q -> run = check (consume w))) /\
   (fatalities event = [] -> run = check w)).
Proof.
  split.
  { unfold new_Game, required_fatalities_of. simpl.
    destruct (required_fatalities_mode opts); [done| |];
      destruct (opt_required_fatalities opts) as [v|]; try done.
    eexists. split; [done|]. split; [done|]. apply percent_target_near. }
  intros g died run check.
  assert (forall l : list nat, l <> [] -> (length l =? 0) = false) as Hlen.
  { by intros [|x l]. }
  split.
  - intros target Hreq Hnz.
    assert (Htruthy : truthy (required_fatalities g) = true).
    { rewrite Hreq. by apply truthy_Some. }
    assert (run = (Ok false, w) \/ run = check w) as Hrun.
    { subst run. unfold RequirementsSatisfied, bind, get_game, ret.
      destruct (tributes_left <? players_involved event);
        [left; by destruct w|].
      fold g. rewrite Htruthy.
      destruct (_ && _); [left; by destruct w|].
      destruct (_ && _); [left; by destruct w|]. right. by destruct w. }
    split; [|split; [|split]].
    + intros Hlt Hnil. subst run.
      unfold RequirementsSatisfied, bind, get_game, ret.
      destruct (tributes_left <? players_involved event); [by destruct w|].
      fold g. rewrite Htruthy, Hreq.
      change (default 0%Q (Some target)) with target.
      apply Qltb_lt in Hlt. fold died. rewrite Hlt, Hnil. simpl.
      by destruct w.
    + intros Hle Hcons. subst run.
      unfold RequirementsSatisfied, bind, get_game, ret.
      destruct (tributes_left <? players_involved event); [by destruct w|].
      fold g. rewrite Htruthy, Hreq.
      change (default 0%Q (Some target)) with target. fold died.
      rewrite (Hlen _ Hcons). simpl negb. rewrite andb_false_r.
      apply Qle_bool_iff in Hle. rewrite Hle. simpl. by destruct w.
    + intros Hfit Hcase. subst run.
      unfold RequirementsSatisfied, bind, get_game, ret.
      assert ((tributes_left <? players_involved event) = false) as ->
        by (apply Nat.ltb_ge; lia).
      fold g. rewrite Htruthy, Hreq.
      change (default 0%Q (Some target)) with target. fold died.
      destruct Hcase as [[Hlt Hcons]|[Hle Hnil]].
      * rewrite (Hlen _ Hcons). simpl negb. rewrite andb_false_r.
        assert (Qle_bool target died = false) as ->.
        { destruct (Qle_bool target died) eqn:E; [|done].
          apply Qle_bool_iff in E. by destruct (Qlt_not_le _ _ Hlt). }
        simpl. by destruct w.
      * rewrite Hnil. simpl. rewrite andb_false_r.
        assert (Qltb died target = false) as ->.
        { destruct (Qltb died target) eqn:E; [|done].
          apply Qltb_lt in E. by destruct (Qlt_not_le _ _ E). }
        simpl. by destruct w.
    + destruct Hrun as [-> | ->]; [done|apply requirements_hold_world].
  - intros Hfalsy Hfit.
    assert (Hp : (tributes_left <? players_involved event) = false)
      by (apply Nat.ltb_ge; lia).
    split.
    + intros Hcons r. split.
      * intros Hlt. subst run.
        unfold RequirementsSatisfied, bind, get_game, ret, Math_random.
        rewrite Hp. fold g. rewrite Hfalsy, (Hlen _ Hcons). cbn [negb].
        cbv beta iota. fold r. apply Qltb_lt in Hlt. by rewrite Hlt.
      * intros Hge. subst run.
        unfold RequirementsSatisfied, bind, get_game, ret, Math_random.
        rewrite Hp. fold g. rewrite Hfalsy, (Hlen _ Hcons). cbn [negb].
        cbv beta iota. fold r.
        destruct (Qltb r (fatality_reroll_rate g)) eqn:E.
        -- apply Qltb_lt in E. contradiction.
        -- reflexivity.
    + intros Hnil. subst run.
      unfold RequirementsSatisfied, bind, get_game, ret.
      rewrite Hp. fold g. rewrite Hfalsy, Hnil. simpl. by destruct w.
Qed.

(** ** What the loops of a round leave untouched *)

Lemma bind_get_game {A} (k : Game -> M A) (w : World) :
  bind get_game k w = k (game w) w.
Proof. reflexivity. Qed.

Lemma bind_modify_game {A} (f : Game -> Game) (k : unit -> M A) (w : World) :
  bind (modify_game f) k w = k tt (update f w).
Proof. reflexivity. Qed.

Lemma bind_ret {A B} (a : A) (k : A -> M B) (w : World) :
  bind (ret a) k w = k a w.
Proof. reflexivity. Qed.

#[global] Instance same_preorder {B} (proj : Game -> B) : PreOrder (same proj).
Proof.
  split.
  - by intros g.
  - intros g1 g2 g3 H1 H2. unfold same in *. congruence.
Qed.

Section Leaves.
Context (R : Game -> Game -> Prop) `{!PreOrder R}.

Lemma leaves_ret {A} (a : A) : leaves R (ret a).
Proof. by intros w. Qed.

Lemma leaves_throw {A} (e : Error) : leaves R (@throw A e).
Proof. by intros w. Qed.

Lemma leaves_out_of_fuel {A} : leaves R (@out_of_fuel A).
Proof. by intros w. Qed.

Lemma leaves_get_game : leaves R get_game.
Proof. by intros w. Qed.

Lemma leaves_Math_random : leaves R Math_random.
Proof. by intros w. Qed.

Lemma leaves_modify_game (f : Game -> Game) :
  (forall g, R g (f g)) -> leaves R (modify_game f).
Proof. intros H w. apply H. Qed.

Lemma leaves_bind {A A'} (m : M A) (k : A -> M A') :
  leaves R m -> (forall a, leaves R (k a)) -> leaves R (bind m k).
Proof.
  intros Hm Hk w. unfold bind. specialize (Hm w).
  destruct (m w) as [[a|e|] w1]; simpl in *; [|done..].
  etrans; [exact Hm|apply Hk].
Qed.

Ltac leaves_step :=
  first
    [ apply leaves_ret | apply leaves_throw | apply leaves_out_of_fuel
    | apply leaves_get_game | apply leaves_Math_random
    | apply leaves_bind; [|intros ?] ].

Lemma leaves_shuffle_from {A} (i : nat) (array : list A) :
  leaves R (shuffle_from i array).
Proof.
  revert array; induction i as [|i IH]; intros array; simpl; [leaves_step|].
  apply leaves_bind; [leaves_step|]. intros r.
  destruct (array !! S i); [destruct (array !! _)|]; apply IH.
Qed.

Lemma leaves_shuffle {A} (array : list A) : leaves R (shuffle array).
Proof.
  unfold shuffle. destruct (length array <? 2); [leaves_step|].
  apply leaves_shuffle_from.
Qed.

Lemma leaves_requirements_hold (reqs : list TagRequirement) (cur : nat) :
  leaves R (requirements_hold reqs cur).
Proof.
  induction reqs as [|r reqs IH]; simpl; [leaves_step|].
  apply leaves_bind; [leaves_step|]. intros g.
  destruct (alive_at g _) as [[ref t]|]; [|leaves_step].
  destruct (has t (tag r)); [done|leaves_step].
Qed.

Lemma leaves_RequirementsSatisfied (e : Event) (cur left died : nat) :
  leaves R (RequirementsSatisfied e cur left died).
Proof.
  unfold RequirementsSatisfied.
  apply leaves_bind; [leaves_step|]. intros g.
  destruct (left <? players_involved e); [leaves_step|].
  apply leaves_bind.
  - destruct (truthy _).
    + destruct (_ && _); [leaves_step|]. destruct (_ && _); leaves_step.
    + destruct (negb _); [|leaves_step].
      apply leaves_bind; [leaves_step|]. intros r. leaves_step.
  - intros [|]; [leaves_step|]. apply leaves_requirements_hold.
Qed.

Lemma leaves_draw_event (fuel : nat) (pool : list Event)
    (cur left died tries : nat) :
  leaves R (draw_event fuel pool cur left died tries).
Proof.
  revert tries; induction fuel as [|fuel IH]; intros tries; simpl;
    [leaves_step|].
  destruct (_ <? tries); [leaves_step|].
  apply leaves_bind; [leaves_step|]. intros r.
  destruct (at_index pool _) as [e|]; [|leaves_step].
  apply leaves_bind; [apply leaves_RequirementsSatisfied|].
  intros [|]; [leaves_step|apply IH].
Qed.

Lemma leaves_new_GameEvent (e : Event) (involved : list (option TributeRef)) :
  leaves R (new_GameEvent e involved).
Proof.
  unfold new_GameEvent. apply leaves_bind; [leaves_step|]. intros g.
  destruct (ComposeEventMessage _ _ _); leaves_step.
Qed.

(** The three writes of the loop body, on the round stored at [idx]. *)
Variable idx : nat.
Hypothesis R_death :
  forall g i ref t,
    alive_at g i = Some (ref, t) -> R g (record_death idx ref g).
Hypothesis R_kills :
  forall g ref n, R g (set_tributes (alter (add_kills n) ref (tributes g)) g).
Hypothesis R_event :
  forall g ge,
    R g (set_rounds
           (alter (fun r => set_round_events (game_events r ++ [ge]) r) idx
              (rounds g)) g).

Lemma leaves_handle_fatalities (cur : nat) (fs : list nat) (n : Z)
    (died : nat) :
  leaves R (handle_fatalities idx cur fs n died).
Proof using R PreOrder0 idx R_death.
  revert n died; induction fs as [|f fs IH]; intros n died; simpl;
    [leaves_step|].
  intros w. rewrite bind_get_game.
  destruct (alive_at (game w) _) as [[ref t]|] eqn:Hat; [|done].
  rewrite bind_modify_game.
  etrans; [exact (R_death _ _ _ _ Hat)|].
  apply (IH _ _ (update (record_death idx ref) w)).
Qed.

Lemma leaves_credit_killers (cur : nat) (ks : list nat) (n : nat) :
  leaves R (credit_killers cur ks n).
Proof using R PreOrder0 R_kills.
  induction ks as [|k ks IH]; simpl; [leaves_step|].
  apply leaves_bind; [leaves_step|]. intros g.
  destruct (alive_at g _) as [[ref t]|]; [|leaves_step].
  apply leaves_bind; [|intros _; apply IH].
  apply leaves_modify_game. intros g0. apply R_kills.
Qed.

Lemma leaves_round_loop (draw_fuel fuel : nat) (pool : list Event)
    (left : nat) (n : Z) (cur died : nat) :
  leaves R (round_loop draw_fuel fuel idx pool left n cur died).
Proof using All.
  revert left n cur died; induction fuel as [|fuel IH];
    intros left n cur died; simpl; [leaves_step|].
  destruct (left =? 0); [leaves_step|].
  apply leaves_bind; [apply leaves_draw_event|].
  intros [e|]; [|leaves_step].
  apply leaves_bind; [apply leaves_handle_fatalities|]. intros [n' died'].
  apply leaves_bind; [apply leaves_credit_killers|]. intros _.
  apply leaves_bind; [leaves_step|]. intros g.
  apply leaves_bind; [apply leaves_new_GameEvent|]. intros ge.
  apply leaves_bind.
  - apply leaves_modify_game. intros g0. apply R_event.
  - intros _. destruct (n' <? 2)%Z; [leaves_step|apply IH].
Qed.

End Leaves.

(** The same, for a projection kept equal. *)
Lemma keeps_ret {A B} (proj : Game -> B) (a : A) : keeps proj (ret a).
Proof. apply (leaves_ret (same proj)). Qed.

Lemma keeps_throw {A B} (proj : Game -> B) (e : Error) :
  keeps proj (@throw A e).
Proof. apply (leaves_throw (same proj) (A:=A)). Qed.

Lemma keeps_out_of_fuel {A B} (proj : Game -> B) : keeps proj (@out_of_fuel A).
Proof. apply (leaves_out_of_fuel (same proj) (A:=A)). Qed.

Lemma keeps_get_game {B} (proj : Game -> B) : keeps proj get_game.
Proof. apply (leaves_get_game (same proj)). Qed.

Lemma keeps_Math_random {B} (proj : Game -> B) : keeps proj Math_random.
Proof. apply (leaves_Math_random (same proj)). Qed.

Lemma keeps_modify_game {B} (proj : Game -> B) (f : Game -> Game) :
  (forall g, proj (f g) = proj g) -> keeps proj (modify_game f).
Proof. apply (leaves_modify_game (same proj)). Qed.

Lemma keeps_bind {A A' B} (proj : Game -> B) (m : M A) (k : A -> M A') :
  keeps proj m -> (forall a, keeps proj (k a)) -> keeps proj (bind m k).
Proof. apply (leaves_bind (same proj)). Qed.

Lemma keeps_shuffle {A B} (proj : Game -> B) (array : list A) :
  keeps proj (shuffle array).
Proof. apply (leaves_shuffle (same proj)). Qed.

Lemma keeps_core {A} (m : M A) : keeps skeleton m -> keeps core m.
Proof.
  intros H w. specialize (H w). unfold same, skeleton in H.
  unfold same, core. congruence.
Qed.

Ltac keeps_step :=
  first
    [ apply keeps_ret | apply keeps_throw | apply keeps_out_of_fuel
    | apply keeps_get_game | apply keeps_Math_random
    | apply keeps_bind; [|intros ?] ].

Lemma map_round_stage_alter (f : GameRound -> GameRound) (i : nat)
    (rs : list GameRound) :
  (forall r, round_stage (f r) = round_stage r) ->
  map round_stage (alter f i rs) = map round_stage rs.
Proof.
  intros Hf. revert i; induction rs as [|r rs IH]; intros [|i]; simpl;
    try done.
  - by rewrite Hf.
  - f_equal. apply IH.
Qed.

Lemma keeps_round_loop (draw_fuel fuel idx : nat) (pool : list Event)
    (left : nat) (n : Z) (cur died : nat) :
  keeps skeleton (round_loop draw_fuel fuel idx pool left n cur died).
Proof.
  apply (leaves_round_loop (same skeleton)).
  - intros g i ref t _. unfold same, skeleton, record_death. simpl.
    by rewrite map_round_stage_alter.
  - done.
  - intros g ge. unfold same, skeleton. simpl.
    by rewrite map_round_stage_alter.
Qed.

(** ** One round *)

(** Whatever its outcome, [#DoRoundImpl] has appended one round, of the
    current stage, and has left the stage, the last feast and the state as
    they were. *)
Lemma DoRoundImpl_core (fuel : nat) (w : World) :
  core (game (DoRoundImpl fuel w).2)
  = (map round_stage (rounds (game w)) ++ [stage (game w)],
     stage (game w), last_feast (game w), state (game w)).
Proof.
  unfold DoRoundImpl. rewrite bind_get_game, !bind_modify_game.
  match goal with
  | |- core (game (?m ?w2).2) = _ =>
      transitivity (core (game w2)); [|by unfold core; simpl; rewrite map_app]
  end.
  match goal with |- core (game (?m ?w2).2) = _ => generalize w2 end.
  apply keeps_bind; [apply keeps_shuffle|]. intros shuffled.
  apply keeps_bind; [by apply keeps_modify_game|]. intros _.
  destruct (length _ =? 0); [keeps_step|].
  apply keeps_bind; [apply keeps_core, keeps_round_loop|]. intros _.
  apply keeps_bind; [keeps_step|]. intros g.
  apply keeps_bind; [apply keeps_shuffle|]. intros events.
  apply keeps_bind.
  { apply keeps_modify_game. intros g0. unfold core. simpl.
    by rewrite map_round_stage_alter. }
  intros _. apply keeps_bind; [by apply keeps_modify_game|].
  intros _. by apply keeps_modify_game.
Qed.

Lemma shuffle_game {A} (array : list A) (w : World) :
  game (shuffle array w).2 = game w.
Proof. apply (keeps_shuffle (fun g => g)). Qed.


(** ** The stage of the next round *)

(** [#AdvanceGameStage] always returns a stage, by the rule of the source:
    bloodbath first; day after feast and bloodbath; night after day; after
    night a day, or a feast when at least five rounds have passed since the
    last one. It writes the counters of days and nights, and the last feast
    when it chooses a feast. *)
Lemma AdvanceGameStage_spec (w : World) :
  exists s w1,
    AdvanceGameStage w = (Ok s, w1) /\
    rounds (game w1) = rounds (game w) /\
    stage (game w1) = stage (game w) /\
    state (game w1) = state (game w) /\
    tributes_died (game w1) = tributes_died (game w) /\
    (s <> FEAST -> last_feast (game w1) = last_feast (game w)) /\
    (rounds (game w) = [] -> s = BLOODBATH) /\
    (rounds (game w) <> [] ->
       match stage (game w) with
       | FEAST | BLOODBATH => s = DAY
       | DAY => s = NIGHT
       | NIGHT =>
           s = DAY \/
           (s = FEAST /\
            (5 <= Z.of_nat (length (rounds (game w)))
                  - Z.of_nat (last_feast (game w)))%Z)
       end).
Proof.
  unfold AdvanceGameStage. rewrite bind_get_game.
  destruct (length (rounds (game w)) =? 0) eqn:E0.
  { apply length_eqb_nil in E0. eexists _, _. split; [reflexivity|].
    repeat split; auto; done. }
  assert (Hr : rounds (game w) <> []).
  { intros Hnil. rewrite Hnil in E0. discriminate. }
  destruct (stage (game w)) eqn:Hs; cbn [stage_eqb orb].
  - rewrite bind_modify_game. eexists _, _. split; [reflexivity|]. simpl.
    rewrite Hs. repeat split; auto; done.
  - rewrite bind_modify_game. eexists _, _. split; [reflexivity|]. simpl.
    rewrite Hs. repeat split; auto; done.
  - destruct (5 <=? _)%Z eqn:E5.
    + apply Z.leb_le in E5. unfold bind at 1, Math_random.
      match goal with |- context [if ?c then _ else _] => destruct c end.
      * rewrite bind_modify_game. eexists _, _. split; [reflexivity|]. simpl.
        rewrite Hs. repeat split; auto; done.
      * rewrite bind_modify_game. eexists _, _. split; [reflexivity|]. simpl.
        rewrite Hs. repeat split; auto; try done.
    + rewrite bind_modify_game. eexists _, _. split; [reflexivity|]. simpl.
      rewrite Hs. repeat split; auto; done.
  - rewrite bind_modify_game. eexists _, _. split; [reflexivity|]. simpl.
    rewrite Hs. repeat split; auto; done.
Qed.

Lemma CheckGameShouldEnd_spec (w : World) :
  exists b w1,
    CheckGameShouldEnd w = (Ok b, w1) /\
    (forall B (proj : Game -> B),
        (forall v g, proj (set_state v g) = proj g) ->
        proj (game w1) = proj (game w)) /\
    (b = false -> w1 = w) /\
    (b = true -> state (game w1) = END_RESULTS).
Proof.
  unfold CheckGameShouldEnd. rewrite bind_get_game.
  destruct (_ || _).
  - rewrite bind_modify_game. eexists _, _. split; [reflexivity|].
    repeat split; try done. intros B proj Hproj. apply Hproj.
  - eexists _, _. split; [reflexivity|]. repeat split; done.
Qed.

(** Whatever its outcome, [#DoRound] has appended one round of the stage
    that [#AdvanceGameStage] returned. *)
Lemma DoRound_stages (fuel : nat) (w w1 w' : World) (s : GameStage)
    (o : Outcome unit) :
  AdvanceGameStage w = (Ok s, w1) ->
  DoRound fuel w = (o, w') ->
  map round_stage (rounds (game w'))
  = map round_stage (rounds (game w1)) ++ [s] /\
  stage (game w') = s /\
  last_feast (game w') = last_feast (game w1).
Proof.
  intros Hs. unfold DoRound. unfold bind at 1. rewrite Hs.
  rewrite bind_modify_game. unfold bind at 1.
  pose proof (DoRoundImpl_core fuel (update (set_stage s) w1)) as Hcore.
  destruct (DoRoundImpl fuel (update (set_stage s) w1)) as [[[]|e|] w2];
    unfold core in Hcore; simpl in Hcore; injection Hcore as H1 H2 H3 H4;
    try (by intros [= <- <-]).
  unfold bind at 1.
  destruct (CheckGameShouldEnd_spec w2) as (b & w3 & -> & Hproj & _).
  rewrite bind_get_game.
  pose proof (Hproj _ (fun g => (map round_stage (rounds g), stage g, last_feast g))
                (fun _ _ => eq_refl)) as Hw3.
  simpl in Hw3. injection Hw3 as H5 H6 H7.
  destruct (negb b && _); intros [= <- <-]; simpl; by rewrite ?H5, ?H6, ?H7.
Qed.

(** A throw inside a round leaves the state of the machine as it was. *)
Lemma DoRound_Throw_state (fuel : nat) (w w' : World) (e : Error) :
  DoRound fuel w = (Throw e, w') -> state (game w') = state (game w).
Proof.
  unfold DoRound. unfold bind at 1.
  destruct (AdvanceGameStage_spec w) as (s & w1 & -> & _ & _ & Hst & _).
  rewrite bind_modify_game. unfold bind at 1.
  pose proof (DoRoundImpl_core fuel (update (set_stage s) w1)) as Hcore.
  destruct (DoRoundImpl fuel (update (set_stage s) w1)) as [[[]|e'|] w2];
    unfold core in Hcore; simpl in Hcore; injection Hcore as H1 H2 H3 H4.
  - unfold bind at 1.
    destruct (CheckGameShouldEnd_spec w2) as (b & w3 & -> & _).
    rewrite bind_get_game. by destruct (negb b && _).
  - intros [= _ <-]. congruence.
  - discriminate.
Qed.


(** ** The state machine *)

(** A call of [AdvanceGame] is its transition, then the snapshot of the
    game the transition leaves, under the display kind of the state on
    entry; a throw of the transition is the error returned. *)
Lemma AdvanceGame_unfold (fuel : nat) (w : World) :
  AdvanceGame fuel w =
  match transition fuel (game w) w with
  | (Ok _, w') => (Ok (inl (snapshot (render_of (state (game w))) (game w'))), w')
  | (Throw e, w') => (Ok (inr e), w')
  | (OutOfFuel, w') => (OutOfFuel, w')
  end.
Proof.
  unfold AdvanceGame, Try, AdvanceGame_private, TickRenderState, transition.
  unfold bind at 1 2 3 4. unfold get_game at 1 2, ret at 1. cbv beta iota.
  destruct (state (game w)) eqn:Hs;
    match goal with
    | |- (let (_, _) := (let (_, _) := ?m w in _) in _) = _ =>
        destruct (m w) as [[[]|e|] w']
    end; reflexivity.
Qed.

Lemma transition_no_round (fuel : nat) (w : World) :
  state (game w) <> NEW_ROUND -> state (game w) <> IN_ROUND ->
  exists o w',
    transition fuel (game w) w = (o, w') /\
    (o = Ok tt \/ (o = Throw InternalError /\ state (game w) = DEAD)) /\
    state (game w') = next_state (state (game w)) /\
    rounds (game w') = rounds (game w) /\
    stage (game w') = stage (game w) /\
    last_feast (game w') = last_feast (game w) /\
    tributes_died (game w') = tributes_died (game w) /\
    tributes (game w') = tributes (game w) /\
    tributes_alive (game w') = tributes_alive (game w).
Proof.
  intros H1 H2. unfold transition.
  destruct (state (game w)) eqn:Hs; try done;
    rewrite ?bind_modify_game;
    eexists _, _; (split; [reflexivity|]); simpl; rewrite ?Hs;
    repeat split; auto.
Qed.

Lemma transition_round (fuel : nat) (w : World) :
  state (game w) = NEW_ROUND \/ state (game w) = IN_ROUND ->
  transition fuel (game w) w = DoRound fuel (enter_round w).
Proof.
  intros [H|H]; unfold transition, enter_round; rewrite H; [|done].
  by rewrite bind_modify_game.
Qed.


(** C2, as the code has it. The machine in [DEAD] stays in [DEAD] and every
    call returns the internal error. A call that returns any other error
    was simulating a round and leaves the machine in [IN_ROUND]: no error
    of a round takes the machine to [DEAD]. *)
Theorem DEAD_is_permanent (fuel : nat) (w : World) :
  (state (game w) = DEAD ->
   forall n,
     state (game (advance_n fuel n w)) = DEAD /\
     (AdvanceGame fuel (advance_n fuel n w)).1 = Ok (inr InternalError)) /\
  (forall e w',
     AdvanceGame fuel w = (Ok (inr e), w') ->
     state (game w) <> DEAD ->
     (state (game w) = NEW_ROUND \/ state (game w) = IN_ROUND) /\
     state (game w') = IN_ROUND).
Proof.
  split.
  - intros Hd n. revert w Hd. induction n as [|n IH]; intros w Hd; simpl.
    + split; [done|]. rewrite AdvanceGame_unfold. unfold transition.
      by rewrite Hd.
    + apply IH. rewrite AdvanceGame_unfold. unfold transition.
      by rewrite Hd.
  - intros e w'. rewrite AdvanceGame_unfold.
    destruct (transition fuel (game w) w) as [[[]|e'|] w1] eqn:Ht;
      try discriminate.
    intros [= <- <-] Hnd.
    destruct (decide (state (game w) = NEW_ROUND)) as [Hn|Hn].
    { split; [by left|]. rewrite transition_round in Ht by auto.
      apply DoRound_Throw_state in Ht. rewrite Ht.
      unfold enter_round. by rewrite Hn. }
    destruct (decide (state (game w) = IN_ROUND)) as [Hi|Hi].
    { split; [by right|]. rewrite transition_round in Ht by auto.
      apply DoRound_Throw_state in Ht. rewrite Ht.
      unfold enter_round. by rewrite Hi. }
    destruct (transition_no_round fuel w Hn Hi)
      as (o & w2 & Ht2 & [Ho|[_ Hdead]] & _); [|done].
    rewrite Ht in Ht2. injection Ht2 as <- <-. discriminate.
Qed.

(** ** The stages of the first rounds *)

Lemma stage_rule_step (ss : list GameStage) (st s : GameStage) (lf lf1 : nat) :
  stage_rule ss st lf ->
  (s <> FEAST -> lf1 = lf) ->
  (ss = [] -> s = BLOODBATH) ->
  (ss <> [] ->
     match st with
     | FEAST | BLOODBATH => s = DAY
     | DAY => s = NIGHT
     | NIGHT =>
         s = DAY \/
         (s = FEAST /\ (5 <= Z.of_nat (length ss) - Z.of_nat lf)%Z)
     end) ->
  stage_rule (ss ++ [s]) s lf1.
Proof.
  intros (Hlf & Htake & Hlast) Hlf1 Hnil Hcons.
  unfold stage_rule. rewrite last_snoc.
  split; [|split; [|done]].
  - rewrite length_app. simpl. intros Hlen.
    assert (Hlen' : length ss <= 4) by lia. specialize (Hlf Hlen'). subst lf.
    assert (s <> FEAST); [|by auto].
    destruct ss as [|a ss]; [by rewrite Hnil|].
    specialize (Hcons ltac:(done)). specialize (Hlast ltac:(done)).
    intros ->. destruct st; try done.
    destruct Hcons as [|[_ H5]]; [done|]. lia.
  - destruct ss as [|a [|b [|c [|d rest]]]]; simpl in *.
    + by rewrite Hnil.
    + injection Htake as ->. specialize (Hlast ltac:(done)).
      injection Hlast as <-. by rewrite Hcons.
    + injection Htake as -> ->. specialize (Hlast ltac:(done)).
      injection Hlast as <-. by rewrite Hcons.
    + injection Htake as -> -> ->. specialize (Hlast ltac:(done)).
      injection Hlast as <-. specialize (Hlf ltac:(lia)). subst lf.
      destruct Hcons as [->|[_ H5]]; [done|done|lia].
    + injection Htake as -> -> -> ->. by destruct rest.
Qed.

Lemma stages_inv_new_Game (opts : GameOptions) (trs : list Tribute)
    (events : EventList) (rate : Q) :
  stages_inv (new_Game opts trs events rate).
Proof. by repeat split. Qed.

(** Every call of [AdvanceGame], whatever its outcome, keeps the rule. *)
Lemma stages_inv_AdvanceGame (fuel : nat) (w : World) :
  stages_inv (game w) -> stages_inv (game (AdvanceGame fuel w).2).
Proof.
  intros Hinv.
  assert (Hw' : game (AdvanceGame fuel w).2
                = game (transition fuel (game w) w).2).
  { rewrite AdvanceGame_unfold.
    by destruct (transition fuel (game w) w) as [[[]|e|] w1]. }
  rewrite Hw'. clear Hw'.
  destruct (decide (state (game w) = NEW_ROUND \/ state (game w) = IN_ROUND))
    as [Hr|Hr].
  - rewrite transition_round by done.
    assert (Hent : stages_of (game (enter_round w)) = stages_of (game w) /\
                   stage (game (enter_round w)) = stage (game w) /\
                   last_feast (game (enter_round w)) = last_feast (game w)).
    { unfold enter_round. by destruct (state (game w)). }
    destruct Hent as (He1 & He2 & He3).
    destruct (AdvanceGameStage_spec (enter_round w))
      as (s & w1 & Hs & Hrounds & _ & _ & _ & Hlf & Hnil & Hcons).
    destruct (DoRound fuel (enter_round w)) as [o w2] eqn:Hdo.
    destruct (DoRound_stages fuel _ _ _ _ _ Hs Hdo) as (H1 & H2 & H3).
    unfold stages_inv, stages_of. simpl. rewrite H1, H2, H3, Hrounds.
    fold (stages_of (game (enter_round w))). rewrite He1.
    apply (stage_rule_step _ (stage (game w)) _ (last_feast (game w))).
    + exact Hinv.
    + intros Hne. rewrite Hlf by done. exact He3.
    + intros Hss. apply Hnil. unfold stages_of in He1, Hss.
      rewrite <- He1 in Hss. by apply map_eq_nil in Hss.
    + intros Hss. rewrite <- He2, <- He3.
      replace (length (stages_of (game w)))
        with (length (rounds (game (enter_round w)))).
      * apply Hcons. intros Hnil'. apply Hss.
        unfold stages_of in *. by rewrite <- He1, Hnil'.
      * rewrite <- He1. unfold stages_of. by rewrite length_map.
  - destruct (transition_no_round fuel w ltac:(tauto) ltac:(tauto))
      as (o & w2 & -> & _ & _ & H1 & H2 & H3 & _).
    unfold stages_inv, stages_of in *. simpl. by rewrite H1, H2, H3.
Qed.

Lemma stages_inv_advance_n (fuel n : nat) (w : World) :
  stages_inv (game w) -> stages_inv (game (advance_n fuel n w)).
Proof.
  revert w; induction n as [|n IH]; intros w Hinv; simpl; [done|].
  by apply IH, stages_inv_AdvanceGame.
Qed.

(** C7. In every game played from the start, with any options, roster,
    pools and random source, and after any number of calls, the rounds 0 to
    3 that have been simulated have the stages bloodbath, day, night, day;
    and [#AdvanceGameStage] returns a feast only when at least five rounds
    have passed since the last feast (or the start). *)
Theorem first_four_stages (opts : GameOptions) (trs : list Tribute)
    (events : EventList) (rate : Q) (source : nat -> Rand) (fuel n : nat) :
  (forall k r,
     rounds (game (advance_n fuel n
                     (start (new_Game opts trs events rate) source))) !! k
     = Some r ->
     k < 4 ->
     first_stages !! k = Some (round_stage r)) /\
  (forall w w1,
     AdvanceGameStage w = (Ok FEAST, w1) ->
     (5 <= Z.of_nat (length (rounds (game w)))
           - Z.of_nat (last_feast (game w)))%Z).
Proof.
  split.
  - intros k r Hk Hlt.
    pose proof (stages_inv_advance_n fuel n
                  (start (new_Game opts trs events rate) source)
                  (stages_inv_new_Game opts trs events rate))
      as (_ & Htake & _).
    set (g := game (advance_n fuel n _)) in *.
    assert (Hs : stages_of g !! k = Some (round_stage r)).
    { unfold stages_of. by rewrite list_lookup_fmap, Hk. }
    rewrite <- (lookup_take_lt _ 4) in Hs by done.
    rewrite Htake in Hs. apply lookup_take_Some in Hs as [Hs _]. done.
  - intros w w1 Hs.
    destruct (AdvanceGameStage_spec w)
      as (s & w2 & Hs' & _ & _ & _ & _ & _ & Hnil & Hcons).
    rewrite Hs in Hs'. injection Hs' as <- <-.
    destruct (rounds (game w)) as [|r0 rs] eqn:Hr; [by specialize (Hnil eq_refl)|].
    specialize (Hcons ltac:(done)).
    destruct (stage (game w)); try done.
    by destruct Hcons as [|[_ H5]].
Qed.

(** ** Round simulation returns *)

Lemma returns_ret {A} (P : A -> Prop) (a : A) : P a -> returns P (ret a).
Proof. by intros H w. Qed.

Lemma returns_throw {A} (P : A -> Prop) (e : Error) : returns P (throw e).
Proof. by intros w. Qed.

Lemma returns_get_game (P : Game -> Prop) :
  (forall g, P g) -> returns P get_game.
Proof. intros H w. apply H. Qed.

Lemma returns_modify_game (P : unit -> Prop) (f : Game -> Game) :
  P tt -> returns P (modify_game f).
Proof. by intros H w. Qed.

Lemma returns_Math_random (P : Rand -> Prop) :
  (forall r, P r) -> returns P Math_random.
Proof. intros H w. apply H. Qed.

Lemma returns_bind {A B} (P : A -> Prop) (Q : B -> Prop) (m : M A)
    (k : A -> M B) :
  returns P m -> (forall a, P a -> returns Q (k a)) -> returns Q (bind m k).
Proof.
  intros Hm Hk w. unfold bind. specialize (Hm w).
  destruct (m w) as [[a|e|] w1]; simpl in *; [|done..].
  by apply Hk.
Qed.

Lemma returns_weaken {A} (P Q : A -> Prop) (m : M A) :
  (forall a, P a -> Q a) -> returns P m -> returns Q m.
Proof.
  intros H Hm w. specialize (Hm w). destruct ((m w).1); auto.
Qed.

Lemma returns_shuffle_from {A} (i : nat) (array : list A) :
  returns any (shuffle_from i array).
Proof.
  revert array; induction i as [|i IH]; intros array; simpl.
  - by apply returns_ret.
  - apply (returns_bind any); [by apply returns_Math_random|]. intros r _.
    destruct (array !! S i); [destruct (array !! _)|]; apply IH.
Qed.

Lemma returns_shuffle {A} (array : list A) : returns any (shuffle array).
Proof.
  unfold shuffle. destruct (length array <? 2); [by apply returns_ret|].
  apply returns_shuffle_from.
Qed.

Lemma returns_requirements_hold (reqs : list TagRequirement) (cur : nat) :
  returns any (requirements_hold reqs cur).
Proof.
  induction reqs as [|r reqs IH]; simpl; [by apply returns_ret|].
  apply (returns_bind any); [by apply returns_get_game|]. intros g _.
  destruct (alive_at g _) as [[ref t]|]; [|apply returns_throw].
  destruct (has t (tag r)); [done|by apply returns_ret].
Qed.

(** An event that is accepted fits the roster that is left. *)
Lemma returns_RequirementsSatisfied (e : Event) (cur left died : nat) :
  returns (fun ok => ok = true -> players_involved e <= left)
    (RequirementsSatisfied e cur left died).
Proof.
  unfold RequirementsSatisfied.
  apply (returns_bind any); [by apply returns_get_game|]. intros g _.
  destruct (left <? players_involved e) eqn:E; [by apply returns_ret|].
  apply Nat.ltb_ge in E.
  apply (returns_bind any).
  - destruct (truthy _).
    + destruct (_ && _); [by apply returns_ret|].
      destruct (_ && _); by apply returns_ret.
    + destruct (negb _); [|by apply returns_ret].
      apply (returns_bind any); [by apply returns_Math_random|].
      intros r _. by apply returns_ret.
  - intros [|] _; [by apply returns_ret|].
    eapply returns_weaken; [|apply returns_requirements_hold]. done.
Qed.

Lemma at_index_elem_of {A} (l : list A) (z : Z) (x : A) :
  at_index l z = Some x -> x ∈ l.
Proof.
  unfold at_index. destruct (z <? 0)%Z; [done|].
  apply list_elem_of_lookup_2.
Qed.

(** The draw loop takes at most [attempt_cap pool + 2 - tries] turns, and
    an event it returns is one of the pool that fits the roster left. *)
Lemma returns_draw_event (fuel : nat) (pool : list Event)
    (cur left died tries : nat) :
  0 < fuel -> attempt_cap pool + 1 < fuel + tries ->
  returns (fun drawn => forall e, drawn = Some e ->
                                  e ∈ pool /\ players_involved e <= left)
    (draw_event fuel pool cur left died tries).
Proof.
  revert tries; induction fuel as [|fuel IH]; intros tries Hpos Hfuel; simpl.
  - lia.
  - fold (attempt_cap pool).
    destruct (attempt_cap pool <? tries) eqn:E; [by apply returns_ret|].
    apply Nat.ltb_ge in E.
    apply (returns_bind any); [by apply returns_Math_random|]. intros r _.
    destruct (at_index pool _) as [e|] eqn:He; [|apply returns_throw].
    apply at_index_elem_of in He.
    eapply returns_bind; [apply returns_RequirementsSatisfied|].
    intros [|] Hok.
    + apply returns_ret. intros e' [= <-]. auto.
    + apply IH; lia.
Qed.

Lemma returns_handle_fatalities (idx cur : nat) (fs : list nat) (n : Z)
    (died : nat) :
  returns any (handle_fatalities idx cur fs n died).
Proof.
  revert n died; induction fs as [|f fs IH]; intros n died; simpl;
    [by apply returns_ret|].
  apply (returns_bind any); [by apply returns_get_game|]. intros g _.
  destruct (alive_at g _) as [[ref t]|]; [|apply returns_throw].
  apply (returns_bind any); [by apply returns_modify_game|].
  intros _ _. apply IH.
Qed.

Lemma returns_credit_killers (cur : nat) (ks : list nat) (n : nat) :
  returns any (credit_killers cur ks n).
Proof.
  induction ks as [|k ks IH]; simpl; [by apply returns_ret|].
  apply (returns_bind any); [by apply returns_get_game|]. intros g _.
  destruct (alive_at g _) as [[ref t]|]; [|apply returns_throw].
  apply (returns_bind any); [by apply returns_modify_game|].
  intros _ _. apply IH.
Qed.

Lemma returns_new_GameEvent (e : Event) (involved : list (option TributeRef)) :
  returns any (new_GameEvent e involved).
Proof.
  unfold new_GameEvent.
  apply (returns_bind any); [by apply returns_get_game|]. intros g _.
  destruct (ComposeEventMessage _ _ _) eqn:Hc.
  - by apply returns_ret.
  - apply returns_throw.
  - by apply ComposeEventMessage_returns in Hc.
Qed.

(** Every event that is accepted takes at least one slot of the roster, so
    the outer loop takes at most [tributes_left + 1] turns. *)
Lemma returns_round_loop (draw_fuel fuel idx : nat) (pool : list Event)
    (left : nat) (n : Z) (cur died : nat) :
  Forall (fun e => 1 <= players_involved e) pool ->
  attempt_cap pool + 1 < draw_fuel ->
  left < fuel ->
  returns any (round_loop draw_fuel fuel idx pool left n cur died).
Proof.
  intros Hpool Hdraw.
  revert left n cur died; induction fuel as [|fuel IH];
    intros left n cur died Hfuel; simpl; [lia|].
  destruct (left =? 0) eqn:E0; [by apply returns_ret|].
  apply Nat.eqb_neq in E0.
  eapply returns_bind; [apply returns_draw_event; lia|].
  intros [e|] He; [|by apply returns_ret].
  destruct (He e eq_refl) as [Hin Hfit].
  rewrite Forall_forall in Hpool. specialize (Hpool e Hin).
  apply (returns_bind any); [apply returns_handle_fatalities|].
  intros [n' died'] _.
  apply (returns_bind any); [apply returns_credit_killers|]. intros _ _.
  apply (returns_bind any); [by apply returns_get_game|]. intros g _.
  apply (returns_bind any); [apply returns_new_GameEvent|]. intros ge _.
  apply (returns_bind any); [by apply returns_modify_game|]. intros _ _.
  destruct (n' <? 2)%Z; [by apply returns_ret|].
  apply IH. lia.
Qed.

Lemma returns_DoRoundImpl (fuel : nat) (w : World) :
  Forall (fun e => 1 <= players_involved e) (stage_pool (game w)) ->
  attempt_cap (stage_pool (game w)) + 1 < fuel ->
  length (tributes_alive (game w)) < fuel ->
  (DoRoundImpl fuel w).1 <> OutOfFuel.
Proof.
  intros Hpool Hcap Hfuel.
  unfold DoRoundImpl. rewrite bind_get_game, !bind_modify_game.
  fold (stage_pool (game w)).
  match goal with
  | |- (?m ?w2).1 <> _ =>
      assert (Hret : returns any m); [|by specialize (Hret w2); destruct (m w2).1]
  end.
  apply (returns_bind any); [apply returns_shuffle|]. intros shuffled _.
  apply (returns_bind any); [by apply returns_modify_game|]. intros _ _.
  destruct (length _ =? 0); [by apply returns_ret|].
  apply (returns_bind any); [by apply returns_round_loop|]. intros _ _.
  apply (returns_bind any); [by apply returns_get_game|]. intros g _.
  apply (returns_bind any); [apply returns_shuffle|]. intros events _.
  apply (returns_bind any); [by apply returns_modify_game|]. intros _ _.
  apply (returns_bind any); [by apply returns_modify_game|]. intros _ _.
  by apply returns_modify_game.
Qed.

Lemma stage_pool_all_pools (g : Game) :
  stage_pool g ⊆ all_pools g /\ length (stage_pool g) <= length (all_pools g).
Proof.
  unfold stage_pool, all_pools. split.
  - intros e He. rewrite !elem_of_app. destruct (stage g); auto.
  - rewrite !length_app. destruct (stage g); lia.
Qed.

Lemma keeps_AdvanceGameStage :
  keeps (fun g => (event_list g, tributes_alive g)) AdvanceGameStage.
Proof.
  unfold AdvanceGameStage. apply keeps_bind; [keeps_step|]. intros g.
  destruct (_ =? 0); [keeps_step|].
  destruct (_ || _).
  { apply keeps_bind; [by apply keeps_modify_game|]. intros _. keeps_step. }
  destruct (stage_eqb _ _).
  - destruct (5 <=? _)%Z.
    + apply keeps_bind; [keeps_step|]. intros r.
      match goal with |- context [if ?c then _ else _] => destruct c end;
        (apply keeps_bind; [by apply keeps_modify_game|]; intros _; keeps_step).
    + apply keeps_bind; [by apply keeps_modify_game|]. intros _. keeps_step.
  - apply keeps_bind; [by apply keeps_modify_game|]. intros _. keeps_step.
Qed.

(** A call of [AdvanceGame] returns, a snapshot or an error, when its
    budget of turns is above the size of the roster and above the cap of
    the draw loop. *)
Lemma AdvanceGame_returns (fuel : nat) (w : World) :
  Forall (fun e => 1 <= players_involved e) (all_pools (game w)) ->
  attempt_cap (all_pools (game w)) + 1 < fuel ->
  length (tributes_alive (game w)) < fuel ->
  (AdvanceGame fuel w).1 <> OutOfFuel.
Proof.
  intros Hpool Hcap Hfuel. rewrite AdvanceGame_unfold.
  assert (Ht : (transition fuel (game w) w).1 <> OutOfFuel);
    [|by destruct (transition fuel (game w) w) as [[[]|e|] w']].
  destruct (decide (state (game w) = NEW_ROUND \/ state (game w) = IN_ROUND))
    as [Hr|Hr].
  - rewrite transition_round by done.
    assert (Hent : event_list (game (enter_round w)) = event_list (game w) /\
                   tributes_alive (game (enter_round w))
                   = tributes_alive (game w)).
    { unfold enter_round. by destruct (state (game w)). }
    destruct Hent as [He Ha].
    unfold DoRound. unfold bind at 1.
    pose proof (keeps_AdvanceGameStage (enter_round w)) as Hk.
    destruct (AdvanceGameStage_spec (enter_round w)) as (s & w1 & Hs & _).
    rewrite Hs in Hk |- *. simpl in Hk. injection Hk as Hk1 Hk2.
    rewrite bind_modify_game. unfold bind at 1.
    pose proof (returns_DoRoundImpl fuel (update (set_stage s) w1)) as Himpl.
    destruct (stage_pool_all_pools (game (update (set_stage s) w1)))
      as [Hsub Hlen].
    assert (Hall : all_pools (game (update (set_stage s) w1))
                   = all_pools (game w)).
    { unfold all_pools. simpl. by rewrite Hk1, He. }
    rewrite Hall in Hsub, Hlen.
    destruct (DoRoundImpl fuel (update (set_stage s) w1)) as [[[]|e|] w2];
      simpl; try done.
    + unfold bind at 1.
      destruct (CheckGameShouldEnd_spec w2) as (b & w3 & -> & _).
      rewrite bind_get_game. by destruct (negb b && _).
    + apply Himpl.
      * rewrite Forall_forall in Hpool |- *. auto.
      * unfold attempt_cap in *. lia.
      * simpl. by rewrite Hk2, Ha.
  - destruct (transition_no_round fuel w ltac:(tauto) ltac:(tauto))
      as (o & w2 & -> & [->|[-> _]] & _); done.
Qed.

Lemma draw_event_accepts (fuel : nat) (pool : list Event)
    (cur left died tries : nat) (w w' : World) (e : Event) :
  draw_event fuel pool cur left died tries w = (Ok (Some e), w') ->
  e ∈ pool /\ players_involved e <= left.
Proof.
  revert tries w; induction fuel as [|fuel IH]; intros tries w; simpl;
    [done|].
  destruct (_ <? tries); [done|].
  unfold bind at 1, Math_random.
  destruct (at_index pool _) as [e0|] eqn:He; [|done].
  apply at_index_elem_of in He.
  unfold bind at 1.
  match goal with
  | |- context [RequirementsSatisfied e0 cur left died ?w1] =>
      pose proof (returns_RequirementsSatisfied e0 cur left died w1) as Hok;
      destruct (RequirementsSatisfied e0 cur left died w1) as [[[|]|err|] w2]
  end; simpl in Hok; try done.
  - intros [= <- <-]. auto.
  - apply IH.
Qed.

Lemma draw_event_abandons (fuel : nat) (pool : list Event)
    (cur left died tries : nat) (w : World) :
  attempt_cap pool < tries ->
  draw_event (S fuel) pool cur left died tries w = (Ok None, w).
Proof.
  intros H. simpl. fold (attempt_cap pool).
  apply Nat.ltb_lt in H. by rewrite H.
Qed.

(** C9. A round returns (normally or by a throw) for every roster, every
    pool of events that each involve at least one participant, as the
    constructor grants, and every random source: a budget of turns above
    the size of the roster and above the cap of the draw loop is never used
    up. The draw loop takes at most [max(100, pool_size * 10) + 2] turns,
    abandoning the round once [tries] is above the cap, and an event it
    accepts takes away at least one of the roster slots that are left. *)
Theorem round_simulation_returns (fuel : nat) (w : World) :
  (Forall (fun e => 1 <= players_involved e) (stage_pool (game w)) ->
   attempt_cap (stage_pool (game w)) + 1 < fuel ->
   length (tributes_alive (game w)) < fuel ->
   (DoRoundImpl fuel w).1 <> OutOfFuel) /\
  (forall pool cur left died,
     (draw_event (attempt_cap pool + 2) pool cur left died 0 w).1
     <> OutOfFuel) /\
  (forall pool cur left died tries,
     attempt_cap pool < tries ->
     draw_event (S fuel) pool cur left died tries w = (Ok None, w)) /\
  (forall pool cur left died tries e w',
     Forall (fun e => 1 <= players_involved e) pool ->
     draw_event fuel pool cur left died tries w = (Ok (Some e), w') ->
     left - players_involved e < left).
Proof.
  split; [apply returns_DoRoundImpl|].
  split; [|split].
  - intros pool cur left died.
    pose proof (returns_draw_event (attempt_cap pool + 2) pool cur left died 0
                  ltac:(lia) ltac:(lia) w) as H.
    by destruct (draw_event _ _ _ _ _ _ _).1.
  - intros pool cur left died tries. apply draw_event_abandons.
  - intros pool cur left died tries e w' Hpool Hdraw.
    apply draw_event_accepts in Hdraw as [Hin Hfit].
    rewrite Forall_forall in Hpool. specialize (Hpool e Hin). lia.
Qed.

(** The constructor grants what the theorem asks of a pool. *)
Lemma new_Event_takes_a_slot (msg : string) (fatal killrs : list nat)
    (ty : string) (e : Event) :
  new_Event msg fatal killrs ty = Ok e -> 1 <= players_involved e.
Proof. intros H. apply new_Event_players_involved in H. lia. Qed.

(** ** Death records and the roster *)

#[global] Instance round_deaths_preorder (idx : nat) : PreOrder (round_deaths idx).
Proof.
  split.
  - intros g. split; [done|]. intros ref. by left.
  - intros g1 g2 g3 [Ha1 Hd1] [Ha2 Hd2]. split; [congruence|].
    intros ref. destruct (Hd2 ref) as [H2|[Hin H2]].
    + rewrite H2. apply Hd1.
    + right. split; [by rewrite <- Ha1|done].
Qed.

Lemma is_alive_death_of (g : Game) (ref : TributeRef) :
  is_alive g ref = true <-> forall r, death_of g ref <> Some (Some r).
Proof.
  unfold is_alive, death_of.
  destruct (tributes g !! ref) as [t|]; simpl; [|by split].
  destruct (died_in_round t) as [r|]; split; try done.
  intros H. by destruct (H r).
Qed.

Lemma alive_at_Some (g : Game) (i : nat) (ref : TributeRef) (t : Tribute) :
  alive_at g i = Some (ref, t) ->
  tributes_alive g !! i = Some ref /\ tributes g !! ref = Some t.
Proof.
  unfold alive_at. intros H.
  destruct (tributes_alive g !! i) as [ref'|]; simpl in H; [|done].
  destruct (tributes g !! ref') as [t'|] eqn:Ht; simpl in H; [|done].
  by injection H as -> ->.
Qed.

Lemma round_deaths_round_loop (draw_fuel fuel idx : nat) (pool : list Event)
    (left : nat) (n : Z) (cur died : nat) :
  leaves (round_deaths idx)
    (round_loop draw_fuel fuel idx pool left n cur died).
Proof.
  apply (leaves_round_loop (round_deaths idx)).
  - intros g i ref t [Hi Ht]%alive_at_Some. split; [done|].
    intros ref'. unfold death_of, record_death. simpl.
    destruct (decide (ref' = ref)) as [->|Hne].
    + right. split; [by eapply list_elem_of_lookup_2|].
      by rewrite list_lookup_alter_eq, Ht.
    + left. by rewrite list_lookup_alter_ne.
  - intros g ref k. split; [done|]. intros ref'. left.
    unfold death_of. simpl.
    destruct (decide (ref' = ref)) as [->|Hne].
    + rewrite list_lookup_alter_eq. by destruct (tributes g !! ref).
    + by rewrite list_lookup_alter_ne.
  - intros g ge. split; [done|]. intros ref. by left.
Qed.

(** [shuffle] returns a permutation of the array. *)
Lemma returns_shuffle_from_Permutation {A} (i : nat) (array : list A) :
  returns (fun l => l ≡ₚ array) (shuffle_from i array).
Proof.
  revert array; induction i as [|i IH]; intros array; simpl.
  - by apply returns_ret.
  - apply (returns_bind any); [by apply returns_Math_random|]. intros r _.
    destruct (array !! S i) as [k|] eqn:Hk; [|apply IH].
    destruct (array !! Z.to_nat _) as [aj|] eqn:Hj; [|apply IH].
    eapply returns_weaken; [|apply IH].
    intros l Hl. rewrite Hl. by apply Permutation_insert_swap.
Qed.

Lemma returns_shuffle_Permutation {A} (array : list A) :
  returns (fun l => l ≡ₚ array) (shuffle array).
Proof.
  unfold shuffle. destruct (length array <? 2); [by apply returns_ret|].
  apply returns_shuffle_from_Permutation.
Qed.

(** A round that completes leaves no dead tribute on the roster and keeps
    the death records it found, when it starts from such a roster. *)
Lemma DoRoundImpl_roster (fuel : nat) (w w' : World) :
  DoRoundImpl fuel w = (Ok tt, w') ->
  roster_alive (game w) ->
  roster_alive (game w') /\ deaths_kept (game w) (game w').
Proof.
  unfold DoRoundImpl. rewrite bind_get_game, !bind_modify_game.
  set (w2 := update _ (update _ w)).
  unfold bind at 1.
  pose proof (shuffle_game (tributes_alive (game w)) w2) as Hsh.
  pose proof (returns_shuffle_Permutation (tributes_alive (game w)) w2) as Hperm.
  destruct (shuffle (tributes_alive (game w)) w2) as [[shuffled|e|] w3];
    try discriminate.
  simpl in Hsh, Hperm. rewrite bind_modify_game.
  destruct (length _ =? 0).
  - intros [= <-] Hroster. split.
    + intros ref Hin. simpl in Hin. rewrite Hperm in Hin.
      apply Hroster in Hin. unfold is_alive in *. simpl. by rewrite Hsh.
    + intros ref r Hd. unfold death_of in *. simpl. by rewrite Hsh.
  - unfold bind at 1.
    match goal with
    | |- context [round_loop ?a ?b ?c ?d ?e ?f ?g ?h ?w] =>
        pose proof (round_deaths_round_loop a b c d e f g h w) as Hloop;
        destruct (round_loop a b c d e f g h w) as [[[]|e'|] w4]
    end; try discriminate.
    simpl in Hloop. rewrite Hsh in Hloop. destruct Hloop as [_ Hdeaths].
    rewrite bind_get_game. unfold bind at 1.
    match goal with
    | |- context [shuffle ?l w4] =>
        pose proof (shuffle_game l w4) as Hsh2;
        destruct (shuffle l w4) as [[events|e'|] w5]
    end; try discriminate.
    simpl in Hsh2. rewrite !bind_modify_game.
    intros [= <-] Hroster. simpl. rewrite Hsh2. split.
    + intros ref Hin. simpl in Hin.
      apply list_elem_of_filter in Hin as [Halive _]. exact Halive.
    + intros ref r Hr. unfold death_of in *. simpl.
      destruct (Hdeaths ref) as [Heq|[Hin Hnew]].
      * unfold death_of in Heq. simpl in Heq. by rewrite Heq.
      * simpl in Hin. rewrite Hperm in Hin. apply Hroster in Hin.
        apply is_alive_death_of with (r := r) in Hin. done.
Qed.

Lemma keeps_tributes_AdvanceGameStage :
  keeps (fun g => (tributes g, tributes_alive g)) AdvanceGameStage.
Proof.
  unfold AdvanceGameStage. apply keeps_bind; [keeps_step|]. intros g.
  destruct (_ =? 0); [keeps_step|].
  destruct (_ || _).
  { apply keeps_bind; [by apply keeps_modify_game|]. intros _. keeps_step. }
  destruct (stage_eqb _ _).
  - destruct (5 <=? _)%Z.
    + apply keeps_bind; [keeps_step|]. intros r.
      match goal with |- context [if ?c then _ else _] => destruct c end;
        (apply keeps_bind; [by apply keeps_modify_game|]; intros _; keeps_step).
    + apply keeps_bind; [by apply keeps_modify_game|]. intros _. keeps_step.
  - apply keeps_bind; [by apply keeps_modify_game|]. intros _. keeps_step.
Qed.

Lemma DoRound_roster (fuel : nat) (w w' : World) :
  DoRound fuel w = (Ok tt, w') ->
  roster_alive (game w) ->
  roster_alive (game w') /\ deaths_kept (game w) (game w').
Proof.
  unfold DoRound. unfold bind at 1.
  pose proof (keeps_tributes_AdvanceGameStage w) as Hk.
  destruct (AdvanceGameStage_spec w) as (s & w1 & Hs & _).
  rewrite Hs in Hk |- *. unfold same in Hk. simpl in Hk.
  injection Hk as Hk1 Hk2.
  rewrite bind_modify_game. unfold bind at 1.
  destruct (DoRoundImpl fuel (update (set_stage s) w1)) as [[[]|e'|] w2] eqn:Himpl;
    try discriminate.
  pose proof (DoRoundImpl_roster _ _ _ Himpl) as Hround.
  unfold bind at 1.
  destruct (CheckGameShouldEnd_spec w2) as (b & w3 & -> & Hproj & _).
  rewrite bind_get_game.
  pose proof (Hproj _ (fun g => (tributes g, tributes_alive g))
                (fun _ _ => eq_refl)) as Hw3.
  simpl in Hw3. injection Hw3 as H5 H6.
  intros Hend Hroster.
  assert (Hroster1 : roster_alive (game (update (set_stage s) w1))).
  { intros ref Hin. simpl in Hin. rewrite Hk2 in Hin.
    apply Hroster in Hin. unfold is_alive in *. simpl. by rewrite Hk1. }
  destruct (Hround Hroster1) as [Hr2 Hd2].
  assert (Hgame : tributes (game w') = tributes (game w2) /\
                  tributes_alive (game w') = tributes_alive (game w2)).
  { destruct (negb b && _); injection Hend as <-; simpl; by rewrite H5, H6. }
  destruct Hgame as [Ht Ha]. split.
  - intros ref Hin. rewrite Ha in Hin. apply Hr2 in Hin.
    unfold is_alive in *. by rewrite Ht.
  - intros ref r Hr. unfold death_of in *. rewrite Ht.
    apply Hd2. unfold death_of. simpl. by rewrite Hk1.
Qed.

(** A game built by the constructor from fresh tributes starts with such a
    roster. *)
Lemma roster_alive_new_Game (opts : GameOptions) (trs : list Tribute)
    (events : EventList) (rate : Q) :
  Forall (fun t => died_in_round t = None) trs ->
  roster_alive (new_Game opts trs events rate).
Proof.
  intros Hfresh ref _. unfold is_alive. simpl.
  destruct (trs !! ref) as [t|] eqn:Ht; [|done].
  rewrite Forall_lookup in Hfresh. by rewrite (Hfresh _ _ Ht).
Qed.

(** What C8 states holds along the calls that return a snapshot: such a call
    leaves no tribute with a death record on the alive roster and keeps
    every death record as it found it. *)
Lemma roster_alive_AdvanceGame (fuel : nat) (w w' : World)
    (snap : GameRenderState) :
  AdvanceGame fuel w = (Ok (inl snap), w') ->
  roster_alive (game w) ->
  roster_alive (game w') /\ deaths_kept (game w) (game w').
Proof.
  rewrite AdvanceGame_unfold.
  destruct (transition fuel (game w) w) as [[[]|e|] w1] eqn:Ht;
    try discriminate.
  intros [= _ <-] Hroster.
  destruct (decide (state (game w) = NEW_ROUND \/ state (game w) = IN_ROUND))
    as [Hr|Hr].
  - rewrite transition_round in Ht by done.
    assert (Hent : tributes (game (enter_round w)) = tributes (game w) /\
                   tributes_alive (game (enter_round w))
                   = tributes_alive (game w)).
    { unfold enter_round. by destruct (state (game w)). }
    destruct Hent as [Het Hea].
    destruct (DoRound_roster _ _ _ Ht) as [H1 H2].
    + intros ref Hin. rewrite Hea in Hin. apply Hroster in Hin.
      unfold is_alive in *. by rewrite Het.
    + split; [done|]. intros ref r Hd. apply H2.
      unfold death_of in *. by rewrite Het.
  - destruct (transition_no_round fuel w ltac:(tauto) ltac:(tauto))
      as (o & w2 & Ht2 & _ & _ & _ & _ & _ & _ & Htr & Hal).
    rewrite Ht in Ht2. injection Ht2 as <- <-. split.
    + intros ref Hin. rewrite Hal in Hin. apply Hroster in Hin.
      unfold is_alive in *. by rewrite Htr.
    + intros ref r Hd. unfold death_of in *. by rewrite Htr.
Qed.

(** ** Sample games *)

Lemma sample_events_constructed :
  new_Event "%0 kills %1." [1] [0] "BUILTIN" = Ok kill /\
  new_Event "%0 rests." [] [] "BUILTIN" = Ok rest /\
  new_Event "%0 falls, %w1 near." [0] [] "BUILTIN" = Ok faulty.
Proof. repeat split. Qed.

(** ** The claims on the sample games *)



(** C2 as stated fails. The first call on [faulty_bloodbath_game] returns
    the bounds error of the composer; the machine is then in [IN_ROUND],
    and the next call returns a snapshot. *)
Lemma error_does_not_reach_DEAD :
  ~ (forall e w',
       AdvanceGame 200 (start faulty_bloodbath_game three_quarters)
       = (Ok (inr e), w') ->
       state (game w') = DEAD /\
       exists e', (AdvanceGame 200 w').1 = Ok (inr e')).
Proof.
  intros H.
  destruct (AdvanceGame 200 (start faulty_bloodbath_game three_quarters))
    as [o w'] eqn:E.
  vm_compute in E. injection E as <- <-.
  destruct (H _ _ eq_refl) as [Hdead _]. vm_compute in Hdead. discriminate.
Qed.

Lemma error_then_snapshot :
  let w1 := (AdvanceGame 200 (start faulty_bloodbath_game three_quarters)).2 in
  (AdvanceGame 200 (start faulty_bloodbath_game three_quarters)).1
  = Ok (inr (IndexOutOfBounds 1 1)) /\
  state (game w1) = IN_ROUND /\
  is_Ok (AdvanceGame 200 w1).1 = true /\
  (forall e, (AdvanceGame 200 w1).1 <> Ok (inr e)).
Proof.
  split; [vm_compute; reflexivity|].
  split; [vm_compute; reflexivity|].
  split; [vm_compute; reflexivity|].
  intros e. vm_compute. discriminate.
Qed.

Lemma DEAD_is_permanent_witness :
  (state (game (advance_n 200 3
                  (start (set_state DEAD day_kill_game) zeros))) = DEAD /\
   (AdvanceGame 200
      (advance_n 200 3 (start (set_state DEAD day_kill_game) zeros))).1
   = Ok (inr InternalError)) /\
  ((state faulty_bloodbath_game = NEW_ROUND
    \/ state faulty_bloodbath_game = IN_ROUND) /\
   state (game (AdvanceGame 200
                  (start faulty_bloodbath_game three_quarters)).2)
   = IN_ROUND).
Proof.
  destruct (DEAD_is_permanent 200 (start (set_state DEAD day_kill_game) zeros))
    as [Hdead _].
  destruct (DEAD_is_permanent 200 (start faulty_bloodbath_game three_quarters))
    as [_ Herr].
  split.
  - apply Hdead. reflexivity.
  - apply (Herr (IndexOutOfBounds 1 1)).
    + vm_compute. reflexivity.
    + vm_compute. discriminate.
Defined.

(** C5 as stated fails for the target 0. Under the mode Absolute with the
    value 0 the constructor stores the target 0; the count of the round, 0,
    has reached it, yet the killing is accepted when the random outcome is
    not below the reroll rate. *)
Lemma target_zero_accepts_fatal_event :
  ~ (forall target,
       required_fatalities (quota_game (quota Absolute 0)) = Some target ->
       (target <= inject_Z (Z.of_nat 0))%Q ->
       fatalities kill <> [] ->
       (RequirementsSatisfied kill 0 2 0
          (start (quota_game (quota Absolute 0)) three_quarters)).1
       = Ok false).
Proof.
  intros H.
  specialize (H 0%Q eq_refl ltac:(vm_compute; discriminate) ltac:(done)).
  vm_compute in H. discriminate.
Qed.

(** 28% of 25 tributes are 7 tributes; the constructor requires 8
    fatalities, since the quotient 28/100 is rounded up and its product
    with 25 as well. *)
Lemma percent_target_is_rounded :
  required_fatalities (percent_game 28 25) = Some 8%Q /\
  Qceiling (clamp 28 0 100 / 100 * inject_Z (Z.of_nat 25)) = 7%Z.
Proof. split; vm_compute; reflexivity. Qed.

(** C5 as stated fails on both counts: the required number under [Percent]
    is not the ceiling of the exact product, and the target 0 does not
    reject an event with a fatality. *)
Lemma fatality_policy_as_stated_fails :
  required_fatalities (percent_game 28 25)
  <> Some (inject_Z (Qceiling (clamp 28 0 100 / 100
                               * inject_Z (Z.of_nat 25)))) /\
  ~ (forall target,
       required_fatalities (quota_game (quota Absolute 0)) = Some target ->
       (target <= inject_Z (Z.of_nat 0))%Q ->
       fatalities kill <> [] ->
       (RequirementsSatisfied kill 0 2 0
          (start (quota_game (quota Absolute 0)) three_quarters)).1
       = Ok false).
Proof.
  split.
  - vm_compute. discriminate.
  - intros H.
    specialize (H 0%Q eq_refl ltac:(vm_compute; discriminate) ltac:(done)).
    vm_compute in H. discriminate.
Qed.

Lemma RequirementsSatisfied_fatality_policy_witness :
  (* 28% of 25 tributes: the required number is 8 *)
  required_fatalities (percent_game 28 25) = Some 8%Q /\
  (* the target 1: a rest is rejected first, a killing once one has died,
     and a killing is accepted before, with no random outcome read *)
  (RequirementsSatisfied rest 0 2 0
     (start (quota_game (quota Absolute 1)) three_quarters)
   = (Ok false, start (quota_game (quota Absolute 1)) three_quarters) /\
   RequirementsSatisfied kill 0 2 1
     (start (quota_game (quota Absolute 1)) three_quarters)
   = (Ok false, start (quota_game (quota Absolute 1)) three_quarters) /\
   RequirementsSatisfied kill 0 2 0
     (start (quota_game (quota Absolute 1)) three_quarters)
   = (Ok true, start (quota_game (quota Absolute 1)) three_quarters)) /\
  (* no target: a killing is rejected on the outcome 0 < 6/10 *)
  RequirementsSatisfied kill 0 2 0 (start (quota_game default_options) zeros)
  = (Ok false, consume (start (quota_game default_options) zeros)).
Proof.
  split; [|split; [split; [|split]|]].
  - unfold percent_game.
    destruct (RequirementsSatisfied_fatality_policy (quota Percent 28)
                (roster 25) no_events (6 # 10)
                (start (quota_game default_options) zeros) kill 0 2 0)
      as [(z & -> & -> & _) _].
    vm_compute. reflexivity.
  - destruct (RequirementsSatisfied_fatality_policy default_options [] 
                no_events (6 # 10)
                (start (quota_game (quota Absolute 1)) three_quarters)
                rest 0 2 0) as (_ & H & _).
    destruct (H 1%Q eq_refl ltac:(vm_compute; discriminate)) as [Hbelow _].
    apply Hbelow; [vm_compute; reflexivity | reflexivity].
  - destruct (RequirementsSatisfied_fatality_policy default_options []
                no_events (6 # 10)
                (start (quota_game (quota Absolute 1)) three_quarters)
                kill 0 2 1) as (_ & H & _).
    destruct (H 1%Q eq_refl ltac:(vm_compute; discriminate))
      as (_ & Hreached & _).
    apply Hreached; [vm_compute; discriminate | discriminate].
  - destruct (RequirementsSatisfied_fatality_policy default_options []
                no_events (6 # 10)
                (start (quota_game (quota Absolute 1)) three_quarters)
                kill 0 2 0) as (_ & H & _).
    destruct (H 1%Q eq_refl ltac:(vm_compute; discriminate))
      as (_ & _ & Hother & _).
    rewrite Hother; [reflexivity|simpl; lia|].
    left. split; [vm_compute; reflexivity|discriminate].
  - destruct (RequirementsSatisfied_fatality_policy default_options []
                no_events (6 # 10)
                (start (quota_game default_options) zeros)
                kill 0 2 0) as (_ & _ & H).
    destruct (H eq_refl ltac:(simpl; lia)) as [Hfatal _].
    destruct (Hfatal ltac:(discriminate)) as [Hlow _].
    apply Hlow. vm_compute. reflexivity.
Defined.

(** The required number of the constructor, on examples: a percentage of
    the roster rounded up, an absolute number, none when disabled. *)
Lemma required_fatalities_examples :
  required_fatalities (quota_game (quota Percent 50)) = Some 1%Q /\
  required_fatalities (quota_game (quota Percent 1)) = Some 1%Q /\
  required_fatalities (quota_game (quota Percent 250)) = Some 2%Q /\
  required_fatalities (quota_game (quota Absolute 3)) = Some 3%Q /\
  required_fatalities (quota_game (quota Absolute (-3))) = Some 0%Q /\
  required_fatalities (quota_game default_options) = None.
Proof. repeat split. Qed.

Lemma first_four_stages_witness :
  exists r,
    rounds (game (advance_n 200 5 (start day_kill_game three_quarters))) !! 3
    = Some r /\
    first_stages !! 3 = Some (round_stage r).
Proof.
  eexists. split; [vm_compute; reflexivity|].
  destruct (first_four_stages default_options [Ann; Kai; Zed]
              {| el_bloodbath := None; el_day := Some [kill];
                 el_night := None; el_feast := None; el_all := None |}
              (6 # 10) three_quarters 200 5) as [H _].
  apply (H 3); [vm_compute; reflexivity | lia].
Defined.

Lemma round_simulation_returns_witness :
  (DoRoundImpl 200 (start (quota_game default_options) three_quarters)).1
  <> OutOfFuel /\
  2 - players_involved rest < 2.
Proof.
  destruct (round_simulation_returns 200
              (start (quota_game default_options) three_quarters))
    as (Hround & _ & _ & Hdraw).
  split.
  - apply Hround.
    + vm_compute. repeat constructor.
    + vm_compute. lia.
    + vm_compute. lia.
  - apply (Hdraw [kill; rest] 0 2 0 0 rest
             (consume (start (quota_game default_options) three_quarters))).
    + repeat constructor.
    + vm_compute. reflexivity.
Defined.

(** C8 fails on the code. In [faulty_game] the first call marks Kai dead in
    round 0 and then throws while composing the message, before the dead
    are taken off the roster: at the boundary of the call Kai has a death
    record and is on the alive roster. The third call picks Kai again and
    assigns the death record anew, to round 2. *)
Theorem dead_tribute_left_on_roster :
  let w0 := start faulty_game three_quarters in
  let w1 := advance_n 200 1 w0 in
  let w3 := advance_n 200 3 w0 in
  (AdvanceGame 200 w0).1 = Ok (inr (IndexOutOfBounds 1 1)) /\
  died_in_round <$> tributes (game w1) !! 1 = Some (Some 0) /\
  1 ∈ tributes_alive (game w1) /\
  died_in_round <$> tributes (game w3) !! 1 = Some (Some 2).
Proof.
  split; [vm_compute; reflexivity|].
  split; [vm_compute; reflexivity|].
  split; [vm_compute; apply list_elem_of_here|].
  vm_compute. reflexivity.
Qed.

(** * Further properties *)

(** ** Random integers *)

Lemma rand_value_range (r : Rand) : (0 <= rand_value r)%Q /\ (rand_value r < 1)%Q.
Proof.
  unfold rand_value, Qle, Qlt. simpl. split; lia.
Qed.

Lemma Qfloor_scaled (v : Q) (n : Z) :
  (0 <= v)%Q -> (v < 1)%Q -> (0 < n)%Z -> (0 <= Qfloor (v * inject_Z n) < n)%Z.
Proof.
  intros H0 H1 Hn. split.
  - change 0%Z with (Qfloor 0). apply Qfloor_resp_le.
    apply Qmult_le_0_compat; [done|]. change 0%Q with (inject_Z 0).
    rewrite <- Zle_Qle. lia.
  - rewrite Zlt_Qlt. eapply Qle_lt_trans; [apply Qfloor_le|].
    rewrite <- (Qmult_1_l (inject_Z n)) at 2.
    apply Qmult_lt_compat_r; [|done]. change 0%Q with (inject_Z 0).
    rewrite <- Zlt_Qlt. lia.
Qed.



(** ** Clamping *)

Lemma clamp_between (x lo hi : Q) :
  (lo <= hi)%Q ->
  (lo <= clamp x lo hi)%Q /\ (clamp x lo hi <= hi)%Q /\
  ((lo <= x)%Q -> (x <= hi)%Q -> (clamp x lo hi == x)%Q).
Proof.
  intros H. unfold clamp.
  destruct (Qle_bool x lo) eqn:E1.
  - apply Qle_bool_iff in E1.
    pose proof (proj2 (Qle_bool_iff lo hi) H) as ->.
    split; [apply Qle_refl|split; [done|]].
    intros. by apply Qle_antisym.
  - assert (lo < x)%Q as Hx.
    { apply Qnot_le_lt. intros C. apply Qle_bool_iff in C. congruence. }
    destruct (Qle_bool x hi) eqn:E2.
    + apply Qle_bool_iff in E2. split; [by apply Qlt_le_weak|split; [done|reflexivity]].
    + split; [done|split; [apply Qle_refl|]].
      intros _ C. apply Qle_bool_iff in C. congruence.
Qed.



(** ** Shuffling *)

Lemma shuffle_from_S {A} (i : nat) (array : list A) (w : World) :
  shuffle_from (S i) array w =
  let j := Z.to_nat (randomInt 0 (Z.of_nat (S i))
                       (random_source w (random_pos w))) in
  match array !! S i, array !! j with
  | Some k, Some aj =>
      shuffle_from i (<[j := k]> (<[S i := aj]> array)) (consume w)
  | _, _ => shuffle_from i array (consume w)
  end.
Proof.
  simpl. unfold bind. simpl.
  destruct (array !! S i); [|done]. by destruct (array !! Z.to_nat _).
Qed.

Lemma shuffle_index (i : nat) (r : Rand) :
  Z.to_nat (randomInt 0 (Z.of_nat (S i)) r) < S i.
Proof.
  unfold randomInt. destruct (rand_value_range r) as [H0 H1].
  pose proof (Qfloor_scaled (rand_value r) (Z.of_nat (S i) - 0) H0 H1). lia.
Qed.

Lemma shuffle_from_spec {A} (i : nat) (array : list A) (w : World) :
  exists l,
    (shuffle_from i array w).1 = Ok l /\ l ≡ₚ array /\
    game (shuffle_from i array w).2 = game w /\
    random_source (shuffle_from i array w).2 = random_source w /\
    random_pos (shuffle_from i array w).2 = i + random_pos w.
Proof.
  revert array w; induction i as [|i IH]; intros array w.
  - by exists array.
  - rewrite shuffle_from_S. cbv zeta.
    destruct (array !! S i) as [k|] eqn:Hk.
    2: { destruct (IH array (consume w)) as (l & -> & Hl & -> & -> & ->).
         exists l. simpl. repeat split; [done|lia]. }
    destruct (array !! Z.to_nat _) as [aj|] eqn:Hj.
    2: { destruct (IH array (consume w)) as (l & -> & Hl & -> & -> & ->).
         exists l. simpl. repeat split; [done|lia]. }
    destruct (IH (<[Z.to_nat (randomInt 0 (Z.of_nat (S i))
                       (random_source w (random_pos w))) := k]>
                  (<[S i := aj]> array)) (consume w))
      as (l & -> & Hl & -> & -> & ->).
    exists l. simpl. repeat split; [|lia].
    rewrite Hl. by apply Permutation_insert_swap.
Qed.

Lemma shuffle_spec {A} (array : list A) (w : World) :
  exists l,
    (shuffle array w).1 = Ok l /\ l ≡ₚ array /\
    game (shuffle array w).2 = game w /\
    random_pos (shuffle array w).2 = length array - 1 + random_pos w.
Proof.
  unfold shuffle. destruct (length array <? 2) eqn:E.
  - apply Nat.ltb_lt in E. exists array. simpl. repeat split; [done|lia].
  - destruct (shuffle_from_spec (length array - 1) array w)
      as (l & H1 & H2 & H3 & _ & H4).
    by exists l.
Qed.

(** X3. [shuffle(array)] never throws; it returns a rearrangement of the
    array, draws one random number for every position but the first, and
    writes nothing else. *)
Theorem shuffle_rearranges {A} (array : list A) (w : World) :
  exists l,
    (shuffle array w).1 = Ok l /\ l ≡ₚ array /\
    game (shuffle array w).2 = game w /\
    random_pos (shuffle array w).2 = length array - 1 + random_pos w.
Proof. apply shuffle_spec. Qed.

(** The loop of [shuffle], entered at [S i] on [cur]: every element at a
    position up to [S i] still sits where [orig] has it or came down from a
    position beyond [S i], and the positions beyond [S i] are settled. *)
Lemma shuffle_from_moves {A} (orig : list A) (i : nat) :
  NoDup orig ->
  forall (cur : list A) (w : World) (l : list A),
  length cur = length orig -> S i < length orig ->
  (forall p x, p <= S i -> cur !! p = Some x ->
     exists q, orig !! q = Some x /\ (q = p \/ S i < q)) ->
  (forall p x, S i < p -> cur !! p = Some x -> orig !! p <> Some x) ->
  (shuffle_from (S i) cur w).1 = Ok l ->
  forall p x, l !! p = Some x -> orig !! p <> Some x.
Proof.
  intros Hnd. induction i as [|i IH]; intros cur w l Hlen Hi Hlow Hhigh;
    rewrite shuffle_from_S; cbv zeta;
    match goal with
    | |- context [cur !! S ?n] =>
        pose proof (shuffle_index n (random_source w (random_pos w))) as Hj;
        set (j := Z.to_nat _) in *;
        (destruct (lookup_lt_is_Some_2 cur (S n)) as [k Hk]; [lia|])
    end;
    (destruct (lookup_lt_is_Some_2 cur j) as [aj Haj]; [lia|]);
    rewrite Hk, Haj.
  - simpl. intros [= <-] p x Hp.
    assert (j = 0) as Hj1 by lia. rewrite Hj1 in *.
    destruct (decide (p = 0)) as [->|Hp0].
    + rewrite list_lookup_insert_eq in Hp by (rewrite length_insert; lia).
      injection Hp as <-.
      destruct (Hlow 1 k ltac:(lia) Hk) as (q & Hq & Hq').
      intros C. pose proof (NoDup_lookup _ _ _ _ Hnd Hq C). lia.
    + rewrite list_lookup_insert_ne in Hp by done.
      destruct (decide (p = 1)) as [->|Hp1].
      * rewrite list_lookup_insert_eq in Hp by lia. injection Hp as <-.
        destruct (Hlow 0 aj ltac:(lia) Haj) as (q & Hq & Hq').
        intros C. pose proof (NoDup_lookup _ _ _ _ Hnd Hq C). lia.
      * rewrite list_lookup_insert_ne in Hp by done.
        apply (Hhigh p x); [lia|done].
  - apply IH.
    + by rewrite !length_insert.
    + lia.
    + intros p x Hp Hx.
      destruct (decide (p = j)) as [->|Hpj].
      * rewrite list_lookup_insert_eq in Hx by (rewrite length_insert; lia).
        injection Hx as <-.
        destruct (Hlow (S (S i)) k ltac:(lia) Hk) as (q & Hq & Hq').
        exists q. split; [done|]. right. lia.
      * rewrite list_lookup_insert_ne in Hx by done.
        rewrite list_lookup_insert_ne in Hx by lia.
        destruct (Hlow p x ltac:(lia) Hx) as (q & Hq & Hq').
        exists q. split; [done|]. lia.
    + intros p x Hp Hx.
      rewrite list_lookup_insert_ne in Hx by lia.
      destruct (decide (p = S (S i))) as [->|Hpi].
      * rewrite list_lookup_insert_eq in Hx by lia. injection Hx as <-.
        destruct (Hlow j aj ltac:(lia) Haj) as (q & Hq & Hq').
        intros C. pose proof (NoDup_lookup _ _ _ _ Hnd Hq C). lia.
      * rewrite list_lookup_insert_ne in Hx by done.
        apply (Hhigh p x); [lia|done].
Qed.

(** X4. [shuffle] leaves no element where it was: on an array of two or more
    distinct elements, whatever [Math.random()] gives, every position holds
    another element afterwards (the exchange partner is drawn from the
    positions strictly below [i]). *)
Theorem shuffle_moves_every_element {A} (array l : list A) (w : World) :
  NoDup array -> 2 <= length array ->
  (shuffle array w).1 = Ok l ->
  forall p x, array !! p = Some x -> l !! p <> Some x.
Proof.
  intros Hnd Hlen. unfold shuffle.
  destruct (length array <? 2) eqn:E; [apply Nat.ltb_lt in E; lia|].
  destruct (length array) as [|[|n]] eqn:Hn; [lia..|].
  replace (S (S n) - 1) with (S n) by lia.
  intros Hl p x Hx C.
  revert Hx. eapply (shuffle_from_moves array n Hnd array w l); try done; try lia.
  - intros q y _ Hy. exists q. by split; [|left].
  - intros q y Hq Hy. apply lookup_lt_Some in Hy. lia.
Qed.

Lemma shuffle_moves_every_element_witness : [2; 3; 1] !! 0 <> Some 1.
Proof.
  apply (shuffle_moves_every_element [1; 2; 3] [2; 3; 1]
           (start day_kill_game zeros)).
  - apply NoDup_ListNoDup. repeat constructor; simpl; lia.
  - simpl. lia.
  - vm_compute. reflexivity.
  - reflexivity.
Defined.

(** ** Templates and white space *)

Lemma append_assoc (p q r : string) : (p +:+ q) +:+ r = p +:+ (q +:+ r).
Proof.
  induction p as [|a p IH]; [done|].
  change (String a ((p +:+ q) +:+ r) = String a (p +:+ (q +:+ r))).
  by rewrite IH.
Qed.

Lemma append_nil_r (p : string) : p +:+ "" = p.
Proof.
  induction p as [|a p IH]; [done|].
  change (String a (p +:+ "") = String a p). by rewrite IH.
Qed.

Lemma append_cons (a : ascii) (p q : string) :
  String a p +:+ q = String a (p +:+ q).
Proof. reflexivity. Qed.

Lemma append_nil_l (q : string) : "" +:+ q = q.
Proof. reflexivity. Qed.

Lemma regex_digits_cons (a : ascii) (s1 : string) :
  regex_digits (String a s1) =
  if Ascii.eqb a "%" then
    match s1 with
    | EmptyString => []
    | String c s2 =>
        if in_regex_class c then
          match s2 with
          | EmptyString => []
          | String d s3 =>
              if is_digit_char d then digit_value d :: regex_digits s3
              else regex_digits s1
          end
        else if is_digit_char c then digit_value c :: regex_digits s2
        else regex_digits s1
    end
  else regex_digits s1.
Proof. reflexivity. Qed.

Lemma plain_char_spec (c : ascii) :
  plain_char c = true ->
  Ascii.eqb c "%" = false /\ in_regex_class c = false /\
  is_digit_char c = false.
Proof.
  unfold plain_char. rewrite !andb_true_iff, !negb_true_iff. tauto.
Qed.

Lemma strip_prefix_Some (p s r : string) :
  strip_prefix p s = Some r <-> s = p +:+ r.
Proof.
  revert s; induction p as [|a p IH]; intros s.
  - simpl. rewrite append_nil_l. split; [by intros [= ->]|by intros ->].
  - destruct s as [|b s]; simpl; [by split|].
    rewrite append_cons. destruct (Ascii.eqb a b) eqn:E.
    + apply Ascii.eqb_eq in E as ->. rewrite IH.
      split; [by intros ->|by intros [= ->]].
    + split; [done|]. intros [= -> _]. by rewrite Ascii.eqb_refl in E.
Qed.

Lemma skip_one_Some (ps : list string) (s r : string) :
  skip_one ps s = Some r -> exists p, p ∈ ps /\ s = p +:+ r.
Proof.
  induction ps as [|p ps IH]; [done|]. simpl.
  destruct (strip_prefix p s) as [r'|] eqn:E.
  - intros [= ->]. exists p. split; [by left|]. by apply strip_prefix_Some.
  - intros H. destruct (IH H) as (p' & Hp' & Hs). exists p'.
    split; [by right|done].
Qed.

(** The bytes of white space are part of no placeholder, and every
    white-space character has a byte. *)
Lemma white_space_plain (p : string) :
  p ∈ white_space -> all_plain p = true /\ 1 <= String.length p.
Proof.
  intros Hp.
  assert (forallb (fun p => all_plain p && (1 <=? String.length p))
            white_space = true) as Hall by (vm_compute; reflexivity).
  rewrite forallb_forall in Hall. apply list_elem_of_In, Hall in Hp.
  apply andb_true_iff in Hp as [H1 H2]. by apply Nat.leb_le in H2.
Qed.

(** No white-space character starts with another one. *)
Lemma skip_white_space_app (p r : string) :
  p ∈ white_space -> skip_white_space (p +:+ r) = Some r.
Proof.
  unfold white_space. intros Hp.
  repeat (apply elem_of_cons in Hp as [->|Hp]; [reflexivity|]).
  by apply elem_of_nil in Hp.
Qed.

Lemma skip_white_space_Some (s r : string) :
  skip_white_space s = Some r ->
  exists p, p ∈ white_space /\ s = p +:+ r /\
    String.length r < String.length s.
Proof.
  intros H. apply skip_one_Some in H as (p & Hp & ->). exists p.
  split; [done|]. split; [done|].
  destruct (white_space_plain p Hp) as [_ Hlen].
  rewrite length_append. lia.
Qed.

Lemma trim_start_from_enough (fuel : nat) (s : string) :
  String.length s <= fuel -> trim_start_from fuel s = trim_start s.
Proof.
  unfold trim_start.
  assert (forall n s f, String.length s <= n -> n <= f ->
            trim_start_from f s = trim_start_from n s) as Hgen.
  { induction n as [|n IH]; intros t f Ht Hf.
    - destruct t; [|simpl in Ht; lia]. by destruct f.
    - destruct f as [|f]; [lia|]. simpl.
      destruct (skip_white_space t) as [r|] eqn:E; [|done].
      apply skip_white_space_Some in E as (_ & _ & _ & Hlt).
      apply IH; lia. }
  intros H. by apply Hgen.
Qed.

Lemma trim_start_eq (s : string) :
  trim_start s =
  match skip_white_space s with
  | Some rest => trim_start rest
  | None => s
  end.
Proof.
  unfold trim_start at 1. destruct s as [|c s]; [done|]. simpl String.length.
  simpl trim_start_from.
  destruct (skip_white_space (String c s)) as [r|] eqn:E; [|done].
  apply skip_white_space_Some in E as (_ & _ & _ & Hlt).
  apply trim_start_from_enough. simpl in Hlt. lia.
Qed.

(** An induction on the skips of [trim_start]. *)
Lemma trim_start_ind (P : string -> Prop) :
  (forall s, skip_white_space s = None -> P s) ->
  (forall p r, p ∈ white_space -> P r -> P (p +:+ r)) ->
  forall s, P s.
Proof.
  intros Hstop Hskip s.
  remember (String.length s) as n eqn:Hn.
  revert s Hn; induction n as [n IH] using lt_wf_ind; intros s ->.
  destruct (skip_white_space s) as [r|] eqn:E; [|by apply Hstop].
  apply skip_white_space_Some in E as (p & Hp & -> & Hlt).
  apply Hskip; [done|]. by apply (IH (String.length r)).
Qed.

Lemma regex_digits_plain_prefix (p r : string) :
  all_plain p = true -> regex_digits (p +:+ r) = regex_digits r.
Proof.
  induction p as [|a p IH]; [done|]. simpl all_plain.
  intros [Ha Hp]%andb_true_iff. apply plain_char_spec in Ha as (Ha & _).
  rewrite append_cons, regex_digits_cons, Ha. by apply IH.
Qed.

Lemma regex_digits_trim_start (s : string) :
  regex_digits (trim_start s) = regex_digits s.
Proof.
  induction s as [s Hs|p r Hp IH] using trim_start_ind.
  - by rewrite trim_start_eq, Hs.
  - rewrite trim_start_eq, skip_white_space_app, IH by done.
    symmetry. apply regex_digits_plain_prefix.
    by apply white_space_plain.
Qed.

(** One plain byte after a template adds no placeholder. *)
Lemma regex_digits_snoc_plain (c : ascii) (n : nat) :
  plain_char c = true ->
  forall s, String.length s <= n ->
  regex_digits (s +:+ String c "") = regex_digits s.
Proof.
  intros Hc. destruct (plain_char_spec c Hc) as (Hp & Hcl & Hd).
  assert (regex_digits (String c "") = []) as Hone by (simpl; by rewrite Hp).
  induction n as [n IH] using lt_wf_ind. intros s Hn.
  destruct s as [|a s1]; [done|].
  rewrite append_cons, !(regex_digits_cons a).
  destruct (Ascii.eqb a "%") eqn:Ea.
  2: { simpl in Hn. apply (IH (n - 1)); lia. }
  destruct s1 as [|b s2].
  { by rewrite append_nil_l, Hcl, Hd. }
  rewrite append_cons. destruct (in_regex_class b) eqn:Eb.
  - destruct s2 as [|d s3].
    + rewrite append_nil_l, Hd, (regex_digits_cons b).
      destruct (Ascii.eqb b "%"); [by rewrite Hcl, Hd|done].
    + rewrite append_cons. simpl in Hn. destruct (is_digit_char d) eqn:Ed.
      * f_equal. apply (IH (n - 3)); lia.
      * rewrite <- !append_cons. apply (IH (n - 1)); simpl; lia.
  - simpl in Hn. destruct (is_digit_char b) eqn:Eb2.
    + f_equal. apply (IH (n - 2)); lia.
    + rewrite <- !append_cons. apply (IH (n - 1)); simpl; lia.
Qed.

Lemma regex_digits_plain_suffix (q s : string) :
  all_plain q = true -> regex_digits (s +:+ q) = regex_digits s.
Proof.
  revert s; induction q as [|c q IH]; intros s; [by rewrite append_nil_r|].
  simpl all_plain. intros [Hc Hq]%andb_true_iff.
  change (s +:+ String c q) with (s +:+ (String c "" +:+ q)).
  rewrite <- append_assoc, IH by done.
  by apply (regex_digits_snoc_plain c (String.length s)).
Qed.

Lemma all_plain_app (p q : string) :
  all_plain p = true -> all_plain q = true -> all_plain (p +:+ q) = true.
Proof.
  induction p as [|a p IH]; [done|]. rewrite append_cons.
  simpl all_plain. intros [Ha Hp]%andb_true_iff Hq.
  by rewrite Ha, IH.
Qed.

(** A text of white space only has plain bytes only. *)
Lemma white_space_only_plain (s : string) :
  trim_start s = "" -> all_plain s = true.
Proof.
  induction s as [s Hs|p r Hp IH] using trim_start_ind.
  - rewrite trim_start_eq, Hs. by intros ->.
  - rewrite trim_start_eq, skip_white_space_app by done. intros Hr.
    apply all_plain_app; [by apply white_space_plain|by apply IH].
Qed.

Lemma white_space_only_app (x q : string) :
  trim_start x = "" -> trim_start q = "" -> trim_start (x +:+ q) = "".
Proof.
  intros Hx Hq. revert Hx.
  induction x as [s Hs|p r Hp IH] using trim_start_ind.
  - rewrite trim_start_eq, Hs. by intros ->.
  - rewrite trim_start_eq, skip_white_space_app by done. intros Hr.
    by rewrite append_assoc, trim_start_eq, skip_white_space_app, IH.
Qed.

Lemma trim_end_cons (c : ascii) (s : string) :
  trim_end (String c s) =
  if String.eqb (trim_start (String c s)) "" then ""
  else String c (trim_end s).
Proof. reflexivity. Qed.

(** What [trim_end] cuts off is white space only. *)
Lemma trim_end_split (s : string) :
  exists q, s = trim_end s +:+ q /\ trim_start q = "".
Proof.
  induction s as [|c s (q & Hs & Hq)]; [by exists ""|].
  rewrite trim_end_cons. destruct (String.eqb _ "") eqn:E.
  - apply String.eqb_eq in E. by exists (String c s).
  - exists q. by rewrite append_cons, <- Hs.
Qed.

Lemma regex_digits_trim_end (s : string) :
  regex_digits (trim_end s) = regex_digits s.
Proof.
  destruct (trim_end_split s) as (q & Hs & Hq). rewrite Hs at 2.
  symmetry. by apply regex_digits_plain_suffix, white_space_only_plain.
Qed.

Lemma regex_digits_trim (s : string) : regex_digits (trim s) = regex_digits s.
Proof. unfold trim. by rewrite regex_digits_trim_end, regex_digits_trim_start. Qed.

Lemma CalculateTributesInvolved_trim (s : string) :
  CalculateTributesInvolved (trim s) = CalculateTributesInvolved s.
Proof.
  unfold CalculateTributesInvolved, regex_match. by rewrite regex_digits_trim.
Qed.

Lemma trim_end_idemp (s : string) : trim_end (trim_end s) = trim_end s.
Proof.
  induction s as [|c s IH]; [done|]. rewrite trim_end_cons.
  destruct (String.eqb _ "") eqn:E; [done|].
  rewrite trim_end_cons, IH.
  destruct (String.eqb (trim_start (String c (trim_end s))) "") eqn:E2;
    [|done].
  apply String.eqb_eq in E2. apply String.eqb_neq in E. exfalso. apply E.
  destruct (trim_end_split s) as (q & Hs & Hq). rewrite Hs at 1.
  rewrite <- append_cons. by apply white_space_only_app.
Qed.

(** [trim_start] leaves a text that starts with no white space, and
    [trim_end] keeps it so. *)
Lemma skip_trim_start (s : string) : skip_white_space (trim_start s) = None.
Proof.
  induction s as [s Hs|p r Hp IH] using trim_start_ind.
  - by rewrite trim_start_eq, Hs.
  - by rewrite trim_start_eq, skip_white_space_app.
Qed.

Lemma skip_trim_end (s : string) :
  skip_white_space s = None -> skip_white_space (trim_end s) = None.
Proof.
  intros Hs. destruct (skip_white_space (trim_end s)) as [r|] eqn:E; [|done].
  apply skip_white_space_Some in E as (p & Hp & Ht & _).
  destruct (trim_end_split s) as (q & Hsplit & _).
  rewrite Ht, append_assoc in Hsplit.
  by rewrite Hsplit, skip_white_space_app in Hs.
Qed.

Lemma trim_idemp (s : string) : trim (trim s) = trim s.
Proof.
  unfold trim.
  assert (trim_start (trim_end (trim_start s)) = trim_end (trim_start s))
    as ->.
  { by rewrite trim_start_eq, skip_trim_end by apply skip_trim_start. }
  apply trim_end_idemp.
Qed.

(** ** The constructor of an event *)

Lemma max_ge_false (xs : list nat) (n : nat) :
  1 <= n -> max_ge xs n = false <-> Forall (fun x => x < n) xs.
Proof.
  intros Hn.
  assert (forall a, foldl Nat.max a xs < n <-> a < n /\ Forall (fun x => x < n) xs)
    as Hfold.
  { induction xs as [|x xs IH]; intros a; simpl.
    - split; [by intros H; split|by intros [H _]].
    - rewrite IH, Forall_cons, Nat.max_lub_lt_iff. tauto. }
  destruct xs as [|x xs]; [by split|].
  unfold max_ge. rewrite Nat.leb_gt, Hfold. split; [by intros [_ H]|].
  intros H. split; [lia|done].
Qed.

Lemma new_Event_Ok_iff (msg : string) (fatal killrs : list nat)
    (ty : string) :
  is_Ok (new_Event msg fatal killrs ty) = true <->
  trim msg <> "" /\
  1 <= CalculateTributesInvolved msg <= 9 /\
  Forall (fun i => i < CalculateTributesInvolved msg) fatal /\
  Forall (fun i => i < CalculateTributesInvolved msg) killrs.
Proof.
  unfold new_Event.
  destruct (String.length (trim msg) =? 0) eqn:E0.
  { apply Nat.eqb_eq in E0. destruct (trim msg); [|done].
    split; [done|]. by intros [? _]. }
  assert (trim msg <> "") as Hne.
  { intros C. rewrite C in E0. done. }
  destruct ((CalculateTributesInvolved msg <? 1)
            || (9 <? CalculateTributesInvolved msg)) eqn:E1.
  { split; [done|]. intros (_ & H & _).
    apply orb_true_iff in E1 as [E1|E1]; apply Nat.ltb_lt in E1; lia. }
  apply orb_false_elim in E1 as [E1 E2].
  apply Nat.ltb_ge in E1, E2.
  destruct (max_ge fatal _) eqn:E3.
  { split; [done|]. intros (_ & _ & H & _).
    apply max_ge_false in H; [congruence|done]. }
  destruct (max_ge killrs _) eqn:E4.
  { split; [done|]. intros (_ & _ & _ & H).
    apply max_ge_false in H; [congruence|done]. }
  apply max_ge_false in E3, E4; try done.
Qed.

(** X5. The constructor accepts exactly these arguments: a message that is
    not blank, one to nine participants, and fatalities and killers among
    the participants. *)
Theorem new_Event_accepts (msg : string) (fatal killrs : list nat)
    (ty : string) :
  is_Ok (new_Event msg fatal killrs ty) = true <->
  trim msg <> "" /\
  1 <= CalculateTributesInvolved msg <= 9 /\
  Forall (fun i => i < CalculateTributesInvolved msg) fatal /\
  Forall (fun i => i < CalculateTributesInvolved msg) killrs.
Proof. apply new_Event_Ok_iff. Qed.

Lemma new_Event_Ok_fields (msg : string) (fatal killrs : list nat)
    (ty : string) (e : Event) :
  new_Event msg fatal killrs ty = Ok e ->
  message e = trim msg /\ message e <> "" /\ trim (message e) = message e /\
  players_involved e = CalculateTributesInvolved (message e) /\
  1 <= players_involved e <= 9 /\
  Forall (fun i => i < players_involved e) (fatalities e) /\
  Forall (fun i => i < players_involved e) (killers e) /\
  enabled e = true /\ requirements_valid e.
Proof.
  intros H.
  assert (is_Ok (new_Event msg fatal killrs ty) = true) as Hok by by rewrite H.
  apply new_Event_Ok_iff in Hok as (Hne & Hp & Hf & Hk).
  unfold new_Event in H.
  destruct (String.length (trim msg) =? 0); [done|].
  destruct ((_ <? 1) || _); [done|].
  destruct (max_ge fatal _); [done|]. destruct (max_ge killrs _); [done|].
  injection H as <-. simpl.
  rewrite trim_idemp, CalculateTributesInvolved_trim.
  repeat split; try done; try lia; constructor.
Qed.

Lemma new_Event_Ok_args (msg : string) (fatal killrs : list nat)
    (ty : string) (e : Event) :
  new_Event msg fatal killrs ty = Ok e ->
  e = {| message := trim msg;
         players_involved := CalculateTributesInvolved msg;
         fatalities := fatal; killers := killrs; enabled := true;
         type := ty; requirements := [] |}.
Proof.
  unfold new_Event.
  destruct (String.length _ =? 0); [done|].
  destruct ((_ <? 1) || _); [done|].
  destruct (max_ge fatal _); [done|].
  destruct (max_ge killrs _); [done|].
  by intros [= <-].
Qed.

Lemma new_Event_built (msg : string) (fatal killrs : list nat)
    (ty : string) (e : Event) :
  new_Event msg fatal killrs ty = Ok e ->
  message e = trim msg /\ message e <> "" /\ trim (message e) = message e /\
  players_involved e = CalculateTributesInvolved (message e) /\
  1 <= players_involved e <= 9 /\
  fatalities e = fatal /\ killers e = killrs /\ type e = ty /\
  Forall (fun i => i < players_involved e) (fatalities e) /\
  Forall (fun i => i < players_involved e) (killers e) /\
  enabled e = true /\ requirements e = [].
Proof.
  intros He.
  destruct (new_Event_Ok_fields _ _ _ _ _ He)
    as (H1 & H2 & H3 & H4 & H5 & H6 & H7 & H8 & _).
  apply new_Event_Ok_args in He. rewrite He in *. simpl in *.
  by repeat (split; [done|]).
Qed.

(** X6. What the constructor builds: the message is the trimmed argument
    (all white space of ECMAScript is removed from both ends), not empty,
    and trimming it again changes nothing; the participant count is the one
    of the stored message and lies between one and nine; the fatalities,
    the killers and the type are the arguments, and every fatality and
    every killer is a participant; the event is enabled and has no
    requirements. *)
Theorem new_Event_well_formed (msg : string) (fatal killrs : list nat)
    (ty : string) (e : Event) :
  new_Event msg fatal killrs ty = Ok e ->
  message e = trim msg /\ message e <> "" /\ trim (message e) = message e /\
  players_involved e = CalculateTributesInvolved (message e) /\
  1 <= players_involved e <= 9 /\
  fatalities e = fatal /\ killers e = killrs /\ type e = ty /\
  Forall (fun i => i < players_involved e) (fatalities e) /\
  Forall (fun i => i < players_involved e) (killers e) /\
  enabled e = true /\ requirements e = [].
Proof. apply new_Event_built. Qed.

Lemma new_Event_well_formed_witness :
  message kill = trim (bytes [226; 128; 131] +:+ "%0 kills %1. ") /\
  message kill <> "" /\
  trim (message kill) = message kill /\
  players_involved kill = CalculateTributesInvolved (message kill) /\
  1 <= players_involved kill <= 9 /\
  fatalities kill = [1] /\ killers kill = [0] /\ type kill = "BUILTIN" /\
  Forall (fun i => i < players_involved kill) (fatalities kill) /\
  Forall (fun i => i < players_involved kill) (killers kill) /\
  enabled kill = true /\ requirements kill = [].
Proof.
  apply (new_Event_well_formed (bytes [226; 128; 131] +:+ "%0 kills %1. ")
           [1] [0] "BUILTIN").
  vm_compute. reflexivity.
Defined.

(** ** Requirements *)

Lemma same_requirement_eq (a b : TagRequirement) :
  same_requirement a b = true <-> a = b.
Proof.
  destruct a as [ta ia], b as [tb ib]. unfold same_requirement. simpl.
  rewrite andb_true_iff, !Nat.eqb_eq. split; [by intros [-> ->]|].
  by intros [= -> ->].
Qed.

Lemma existsb_same_requirement (r : TagRequirement) (l : list TagRequirement) :
  existsb (same_requirement r) l = true <-> r ∈ l.
Proof.
  rewrite existsb_exists. split.
  - intros (x & Hx & Hr). apply same_requirement_eq in Hr as ->.
    by apply list_elem_of_In.
  - intros H. exists r. split; [by apply list_elem_of_In|].
    by apply same_requirement_eq.
Qed.

(** X7. [require(tag, player_index)] throws when the index is no participant
    of the event; otherwise it returns the event with the requirement among
    its requirements, all earlier requirements in their order, and nothing
    else changed; a second identical call changes nothing. *)
Theorem require_adds_once (e : Event) (t : Tag) (idx : nat) :
  (players_involved e <= idx -> require e t idx = Throw InvalidRequirement) /\
  (idx < players_involved e ->
   exists e',
     require e t idx = Ok e' /\
     {| tag := t; player_index := idx |} ∈ requirements e' /\
     requirements e `prefix_of` requirements e' /\
     ({| tag := t; player_index := idx |} ∈ requirements e -> e' = e) /\
     (message e', players_involved e', fatalities e', killers e',
      enabled e', type e') =
     (message e, players_involved e, fatalities e, killers e,
      enabled e, type e) /\
     require e' t idx = Ok e').
Proof.
  unfold require. split.
  - intros H. apply Nat.leb_le in H. by rewrite H.
  - intros H. apply Nat.leb_gt in H. rewrite H.
    eexists. split; [done|]. simpl. rewrite H.
    destruct (existsb _ (requirements e)) eqn:E.
    + rewrite E. apply existsb_same_requirement in E.
      split; [done|]. split; [done|]. split; [by destruct e|]. split; [done|].
      by destruct e.
    + assert (existsb (same_requirement {| tag := t; player_index := idx |})
                (requirements e ++ [{| tag := t; player_index := idx |}])
              = true) as ->.
      { apply existsb_same_requirement, elem_of_app. right. by left. }
      split; [apply elem_of_app; right; by left|].
      split; [by apply prefix_app_r|].
      split; [|done].
      intros C. apply existsb_same_requirement in C. congruence.
Qed.

Lemma require_adds_once_witness :
  (players_involved kill <= 1 -> require kill 7 1 = Throw InvalidRequirement) /\
  (1 < players_involved kill ->
   exists e',
     require kill 7 1 = Ok e' /\
     {| tag := 7; player_index := 1 |} ∈ requirements e' /\
     requirements kill `prefix_of` requirements e' /\
     ({| tag := 7; player_index := 1 |} ∈ requirements kill -> e' = kill) /\
     (message e', players_involved e', fatalities e', killers e',
      enabled e', type e') =
     (message kill, players_involved kill, fatalities kill, killers kill,
      enabled kill, type kill) /\
     require e' 7 1 = Ok e').
Proof. apply (require_adds_once kill 7 1). Defined.

Lemma require_valid (e e' : Event) (t : Tag) (idx : nat) :
  requirements_valid e -> require e t idx = Ok e' -> requirements_valid e'.
Proof.
  intros [Hnd Hall]. unfold require.
  destruct (players_involved e <=? idx) eqn:E; [done|].
  apply Nat.leb_gt in E. intros [= <-]. unfold requirements_valid. simpl.
  destruct (existsb _ (requirements e)) eqn:Ex; [done|].
  split.
  - apply NoDup_app. split; [done|]. split; [|apply NoDup_singleton].
    intros r Hr Hr'. apply list_elem_of_singleton in Hr' as ->.
    apply existsb_same_requirement in Hr. congruence.
  - apply Forall_app. split; [done|]. by constructor.
Qed.

(** X8. [require] keeps the requirements of an event free of duplicates and
    on participants of the event. *)
Theorem require_keeps_valid (e e' : Event) (t : Tag) (idx : nat) :
  requirements_valid e -> require e t idx = Ok e' -> requirements_valid e'.
Proof. apply require_valid. Qed.

Lemma require_keeps_valid_witness :
  requirements_valid
    {| message := message kill; players_involved := 2;
       fatalities := [1]; killers := [0]; enabled := true;
       type := "BUILTIN";
       requirements := [{| tag := 7; player_index := 1 |}] |}.
Proof.
  apply (require_keeps_valid kill _ 7 1).
  - split; constructor.
  - reflexivity.
Defined.

(** ** Templates without a placeholder *)

(** X9. A template without [%] composes to itself, as one literal segment. *)
Theorem compose_plain_template (m : string) (n : nat)
    (players : list (option Tribute)) :
  (forall i, String.get i m <> Some "%"%char) ->
  ComposeEventMessage m n players = Ok [Lit m].
Proof.
  intros Hplain. unfold ComposeEventMessage. simpl.
  rewrite Nat.sub_0_r.
  destruct (scan_literal_spec m (String.length m) 0) as (_ & Hstop & _);
    [lia|].
  pose proof (scan_literal_le m 0 ltac:(lia)) as Hle.
  rewrite Nat.sub_0_r in Hle.
  set (j := scan_literal (String.length m) m 0) in *.
  assert (j = String.length m) as ->.
  { destruct (decide (j < String.length m)) as [Hlt|]; [|lia].
    by apply Hstop, Hplain in Hlt. }
  rewrite Nat.leb_refl. unfold flush. rewrite Nat.ltb_irrefl.
  unfold slice. by rewrite Nat.sub_0_r, substring_all.
Qed.

Lemma compose_plain_template_witness :
  ComposeEventMessage "Nothing happens." 0 [] = Ok [Lit "Nothing happens."].
Proof.
  apply compose_plain_template.
  intros i. do 17 (destruct i as [|i]; [discriminate|]). discriminate.
Defined.

(** ** Templates that the participant count covers *)

Lemma slice_from_0 (m : string) : slice_from m 0 = m.
Proof. unfold slice_from. by rewrite Nat.sub_0_r, substring_all. Qed.

Lemma slice_from_cons (m : string) (i : nat) (c : ascii) :
  String.get i m = Some c ->
  slice_from m i = String c (slice_from m (S i)).
Proof.
  unfold slice_from. revert i; induction m as [|a m IH]; intros i H.
  - by destruct i.
  - destruct i as [|i]; simpl in H.
    + injection H as ->. simpl. by rewrite Nat.sub_0_r.
    + simpl. apply IH in H. simpl in H. done.
Qed.

Lemma regex_digits_scan_literal (m : string) (fuel i : nat) :
  regex_digits (slice_from m (scan_literal fuel m i)) =
  regex_digits (slice_from m i).
Proof.
  revert i; induction fuel as [|fuel IH]; intros i; simpl; [done|].
  destruct (String.get i m) as [c|] eqn:Hc; [|done].
  destruct (Ascii.eqb c "%") eqn:E; [done|].
  rewrite IH, (slice_from_cons m i c Hc), (regex_digits_cons c). by rewrite E.
Qed.

Lemma digit_not_in_class (c : ascii) :
  is_digit_char c = true ->
  in_regex_class c = false /\ Ascii.eqb c "%" = false.
Proof.
  destruct c as [[] [] [] [] [] [] [] []]; vm_compute; intros H;
    try discriminate H; done.
Qed.

Lemma specifier_in_class (c : ascii) :
  is_specifier c = true ->
  Ascii.eqb c "%" = false /\
  in_regex_class c = negb (Ascii.eqb c "e" || Ascii.eqb c "w").
Proof.
  destruct c as [[] [] [] [] [] [] [] []]; vm_compute; intros H;
    try discriminate H; done.
Qed.

Lemma class_is_specifier (c : ascii) :
  in_regex_class c = true -> is_specifier c = true.
Proof.
  destruct c as [[] [] [] [] [] [] [] []]; vm_compute; intros H;
    try discriminate H; done.
Qed.

Lemma foldl_max_bound (ds : list nat) (a d : nat) :
  d ∈ ds -> d <= foldl Nat.max a ds.
Proof.
  assert (forall (l : list nat) b, b <= foldl Nat.max b l) as Hmono.
  { induction l as [|x xs IH]; intros b; simpl; [done|].
    etrans; [|apply IH]. lia. }
  revert a; induction ds as [|x xs IH]; intros a Hd; simpl.
  - by apply elem_of_nil in Hd.
  - apply elem_of_cons in Hd as [->|Hd]; [|by apply IH].
    etrans; [|apply Hmono]. lia.
Qed.

Lemma regex_digits_counted (m : string) :
  Forall (fun d => d < CalculateTributesInvolved m) (regex_digits m).
Proof.
  unfold CalculateTributesInvolved, regex_match.
  destruct (regex_digits m) as [|d ds] eqn:E; [constructor|].
  apply Forall_forall. intros x Hx.
  pose proof (foldl_max_bound (d :: ds) 0 x Hx). lia.
Qed.

Section Counted.
Variables (m : string) (n : nat) (players : list (option Tribute)).
Hypothesis Hcounted : placeholders_counted m = true.
Hypothesis Hplayers :
  forall idx, idx < n -> exists t, players !! idx = Some (Some t).

Lemma placeholder_counted_at (i : nat) :
  i < String.length m -> placeholder_counted m i = true.
Proof using Hcounted.
  intros Hi. unfold placeholders_counted in Hcounted.
  rewrite forallb_forall in Hcounted. apply Hcounted.
  apply in_seq. lia.
Qed.

(** The loop of the composer, entered at [i] where every placeholder that
    the regular expression finds from [i] on is below [n]. *)
Lemma compose_loop_counted (fuel prev i : nat) (composed : FormattedMessage) :
  i <= String.length m -> String.length m < fuel + i ->
  Forall (fun d => d < n) (regex_digits (slice_from m i)) ->
  exists segs, compose_loop fuel m n players prev i composed = Ok segs.
Proof using All.
  revert prev i composed.
  induction fuel as [|fuel IH]; intros prev i composed Hi Hfuel Hall; [lia|].
  simpl.
  pose proof (scan_literal_le m i Hi) as Hle.
  destruct (scan_literal_spec m (String.length m - i) i)
    as (Hge & Hstop & _); [lia|].
  rewrite <- (regex_digits_scan_literal m (String.length m - i) i) in Hall.
  set (j := scan_literal (String.length m - i) m i) in *.
  destruct (String.length m <=? j) eqn:E1; [by eexists|].
  apply Nat.leb_gt in E1. specialize (Hstop E1).
  destruct (String.length m <=? S j) eqn:E2; [by eexists|].
  apply Nat.leb_gt in E2.
  destruct (get_lt_Some m (S j) E2) as [ch Hch]. rewrite Hch.
  rewrite (slice_from_cons m j _ Hstop), (slice_from_cons m (S j) _ Hch),
    regex_digits_cons in Hall.
  change (Ascii.eqb "%" "%") with true in Hall. cbv iota in Hall.
  pose proof (placeholder_counted_at j E1) as Hj.
  unfold placeholder_counted in Hj. rewrite Hstop, Hch in Hj.
  change (Ascii.eqb "%" "%") with true in Hj. simpl in Hj.
  destruct (is_digit_char ch) eqn:Hdc.
  - (* [%d] *)
    destruct (digit_not_in_class ch Hdc) as [Hcl _].
    rewrite Hcl in Hall. apply Forall_cons in Hall as [Hd Hrest].
    unfold check_bounds. fold (digit_value ch).
    destruct (n <=? digit_value ch) eqn:E3; [apply Nat.leb_le in E3; lia|].
    destruct (Hplayers _ Hd) as [t ->]. simpl.
    destruct (String.length m <=? S (S j)) eqn:E4; [by eexists|].
    apply Nat.leb_gt in E4. apply IH; [lia|lia|done].
  - destruct (is_specifier ch) eqn:Hsp.
    + (* [%X] *)
      destruct (specifier_in_class ch Hsp) as [Hpc Hclass].
      destruct (String.get (S (S j)) m) as [d|] eqn:Hd; [|done].
      apply get_Some_lt in Hd as Hlt. simpl.
      rewrite (slice_from_cons m (S (S j)) _ Hd) in Hall.
      destruct (is_digit_char d) eqn:Hdd.
      * simpl in Hj. apply negb_true_iff in Hj.
        rewrite Hj in Hclass. simpl in Hclass. rewrite Hclass in Hall.
        apply Forall_cons in Hall as [Hb Hrest].
        unfold check_bounds. fold (digit_value d).
        destruct (n <=? digit_value d) eqn:E3; [apply Nat.leb_le in E3; lia|].
        destruct (Hplayers _ Hb) as [t ->]. simpl.
        destruct (specifier_text ch t).
        -- apply IH; [lia|lia|done].
        -- apply IH; [lia|lia|].
           rewrite (slice_from_cons m (S (S j)) _ Hd), regex_digits_cons.
           destruct (digit_not_in_class d Hdd) as [_ ->]. done.
      * apply IH; [lia|lia|].
        rewrite (slice_from_cons m (S (S j)) _ Hd).
        destruct (in_regex_class ch).
        -- by rewrite (regex_digits_cons ch), Hpc in Hall.
        -- by rewrite (regex_digits_cons ch), Hpc in Hall.
    + (* [default: continue] *)
      apply IH; [lia|lia|].
      rewrite (slice_from_cons m (S j) _ Hch).
      destruct (in_regex_class ch) eqn:Hcl.
      { apply class_is_specifier in Hcl. congruence. }
      done.
Qed.
End Counted.

(** X10. An event that the constructor accepted composes without an error,
    for any participants bound to all of its slots, when its template keeps
    to what the participant count takes for granted (no digit after [%e] or
    [%w], a character after every specifier letter). *)
Theorem constructed_event_composes (msg : string) (fatal killrs : list nat)
    (ty : string) (e : Event) (players : list (option Tribute)) :
  new_Event msg fatal killrs ty = Ok e ->
  placeholders_counted (message e) = true ->
  (forall idx, idx < players_involved e ->
     exists t, players !! idx = Some (Some t)) ->
  exists segs,
    ComposeEventMessage (message e) (players_involved e) players = Ok segs.
Proof.
  intros He Hcounted Hplayers.
  apply new_Event_Ok_fields in He as (_ & _ & _ & Hn & _).
  apply compose_loop_counted; try done; try lia.
  rewrite slice_from_0, Hn. apply regex_digits_counted.
Qed.

Lemma constructed_event_composes_witness :
  exists segs,
    ComposeEventMessage (message kill) (players_involved kill)
      [Some Ann; Some Kai] = Ok segs.
Proof.
  apply (constructed_event_composes "%0 kills %1." [1] [0] "BUILTIN").
  - reflexivity.
  - vm_compute. reflexivity.
  - intros [|[|idx]] H; simpl in *; [by eexists|by eexists|lia].
Defined.

(** ** Whom a message names *)

Lemma specifier_text_no_span (c : ascii) (t : Tribute) (text : Segment)
    (nm : NameSpan) :
  specifier_text c t = Some text -> text <> Span nm.
Proof.
  unfold specifier_text, pronoun.
  repeat (destruct (Ascii.eqb c _); [
    intros [= <-]; destruct (uses_pronouns t), (pronouns t), (plural t);
    discriminate|]).
  discriminate.
Qed.

Lemma names_participants_snoc_lit (n : nat) (players : list (option Tribute))
    (segs : FormattedMessage) (seg : Segment) :
  names_participants n players segs ->
  (forall nm, seg <> Span nm) ->
  names_participants n players (segs ++ [seg]).
Proof.
  intros H Hseg nm Hin. apply elem_of_app in Hin as [Hin|Hin]; [by apply H|].
  apply list_elem_of_singleton in Hin. by destruct (Hseg nm).
Qed.

Lemma names_participants_flush (m : string) (prev n : nat)
    (players : list (option Tribute)) (segs : FormattedMessage) :
  names_participants n players segs ->
  names_participants n players (flush m prev segs).
Proof.
  intros H. unfold flush. destruct (prev <? String.length m); [|done].
  by apply names_participants_snoc_lit.
Qed.

Lemma compose_loop_names (fuel : nat) (m : string) (n : nat)
    (players : list (option Tribute)) (prev i : nat)
    (composed segs : FormattedMessage) :
  names_participants n players composed ->
  compose_loop fuel m n players prev i composed = Ok segs ->
  names_participants n players segs.
Proof.
  revert prev i composed.
  induction fuel as [|fuel IH]; intros prev i composed Hinv; [done|].
  simpl.
  set (j := scan_literal (String.length m - i) m i).
  assert (names_participants n players (composed ++ [Lit (slice m prev j)]))
    as Hlit by by apply names_participants_snoc_lit.
  destruct (String.length m <=? j).
  { intros [= <-]. by apply names_participants_flush. }
  destruct (String.length m <=? S j).
  { intros [= <-]. by apply names_participants_flush. }
  destruct (String.get (S j) m) as [ch|]; [|by apply IH].
  destruct (is_digit_char ch).
  - unfold check_bounds.
    destruct (n <=? nat_of_ascii ch - char_zero) eqn:E; [done|].
    apply Nat.leb_gt in E.
    destruct (players !! (nat_of_ascii ch - char_zero)) as [[t|]|] eqn:Hp;
      simpl; try done.
    assert (names_participants n players
              ((composed ++ [Lit (slice m prev j)]) ++ [Span (name t)])) as Hsp.
    { intros nm Hin. apply elem_of_app in Hin as [Hin|Hin]; [by apply Hlit|].
      apply list_elem_of_singleton in Hin as [= ->]. by eexists _, t. }
    destruct (String.length m <=? S (S j)).
    { intros [= <-]. by apply names_participants_flush. }
    by apply IH.
  - destruct (is_specifier ch); [|by apply IH].
    destruct (String.get (S (S j)) m) as [d|]; simpl; [|done].
    destruct (is_digit_char d); [|by apply IH].
    unfold check_bounds.
    destruct (n <=? nat_of_ascii d - char_zero); [done|].
    destruct (mjoin (players !! (nat_of_ascii d - char_zero))) as [t|];
      [|done].
    destruct (specifier_text ch t) as [text|] eqn:Ht; [|by apply IH].
    apply IH. apply names_participants_snoc_lit; [done|].
    intros nm. by apply (specifier_text_no_span ch t).
Qed.

(** *** Name references come from plain placeholders *)

Lemma spans_app (a b : FormattedMessage) : spans (a ++ b) = spans a ++ spans b.
Proof.
  induction a as [|[| |] a IH]; simpl; [done| |f_equal|]; done.
Qed.

Lemma spans_flush (m : string) (prev : nat) (segs : FormattedMessage) :
  spans (flush m prev segs) = spans segs.
Proof.
  unfold flush. destruct (prev <? String.length m); [|done].
  rewrite spans_app. simpl. apply app_nil_r.
Qed.

Lemma slice_from_end (m : string) (i : nat) :
  String.get i m = None -> slice_from m i = "".
Proof.
  intros H. apply get_None_ge in H. unfold slice_from.
  replace (String.length m - i) with 0 by lia. apply substring_zero.
Qed.

Lemma percent_digits_plain (c : ascii) (s : string) :
  Ascii.eqb c "%" = false ->
  percent_digits (String c s) = percent_digits s.
Proof. intros H. destruct s as [|b s]; simpl; [done|]. by rewrite H. Qed.

Lemma percent_digits_digit (b : ascii) (s : string) :
  is_digit_char b = true ->
  percent_digits (String "%" (String b s)) = digit_value b :: percent_digits s.
Proof.
  intros H. change (percent_digits (String "%" (String b s)))
    with (if Ascii.eqb "%" "%" && is_digit_char b
          then digit_value b :: percent_digits (String b s)
          else percent_digits (String b s)).
  rewrite H. simpl. f_equal. apply percent_digits_plain.
  apply Ascii.eqb_neq. by apply digit_not_percent.
Qed.

Lemma percent_digits_other (b : ascii) (s : string) :
  is_digit_char b = false ->
  percent_digits (String "%" (String b s)) = percent_digits (String b s).
Proof.
  intros H. change (percent_digits (String "%" (String b s)))
    with (if Ascii.eqb "%" "%" && is_digit_char b
          then digit_value b :: percent_digits (String b s)
          else percent_digits (String b s)).
  by rewrite H.
Qed.

Lemma percent_digits_scan_literal (m : string) (fuel i : nat) :
  percent_digits (slice_from m (scan_literal fuel m i))
  = percent_digits (slice_from m i).
Proof.
  revert i; induction fuel as [|fuel IH]; intros i; simpl; [done|].
  destruct (String.get i m) as [c|] eqn:Hg; [|done].
  destruct (Ascii.eqb c "%") eqn:Hc; [done|].
  rewrite IH, (slice_from_cons m i c Hg). by rewrite percent_digits_plain.
Qed.

Lemma compose_loop_spans (fuel : nat) (m : string) (n : nat)
    (players : list (option Tribute)) (prev i : nat)
    (composed segs : FormattedMessage) :
  compose_loop fuel m n players prev i composed = Ok segs ->
  exists names,
    spans segs = spans composed ++ names /\
    Forall2 (names_slot n players) names (percent_digits (slice_from m i)).
Proof.
  revert prev i composed.
  induction fuel as [|fuel IH]; intros prev i composed; [done|].
  simpl.
  rewrite <- (percent_digits_scan_literal m (String.length m - i) i).
  destruct (scan_literal_spec m (String.length m - i) i) as (_ & Hj & _);
    [lia|].
  set (j := scan_literal (String.length m - i) m i) in *.
  assert (spans (composed ++ [Lit (slice m prev j)]) = spans composed)
    as Hlit by (rewrite spans_app; apply app_nil_r).
  destruct (String.length m <=? j) eqn:E1.
  { intros [= <-]. apply Nat.leb_le in E1. exists [].
    rewrite spans_flush, Hlit, app_nil_r. split; [done|].
    rewrite slice_from_end; [constructor|].
    destruct (String.get j m) eqn:Hg; [|done].
    apply get_Some_lt in Hg. lia. }
  apply Nat.leb_gt in E1. specialize (Hj E1).
  rewrite (slice_from_cons m j _ Hj).
  destruct (String.length m <=? S j) eqn:E2.
  { intros [= <-]. apply Nat.leb_le in E2. exists [].
    rewrite spans_flush, Hlit, app_nil_r. split; [done|].
    rewrite slice_from_end; [constructor|].
    destruct (String.get (S j) m) eqn:Hg; [|done].
    apply get_Some_lt in Hg. lia. }
  destruct (String.get (S j) m) as [ch|] eqn:Hch.
  2: { intros Hrun. apply IH in Hrun as (names & Hs & Hn).
       rewrite Hlit in Hs. exists names. split; [done|].
       rewrite slice_from_end in Hn |- * by done. exact Hn. }
  rewrite (slice_from_cons m (S j) _ Hch).
  destruct (is_digit_char ch) eqn:Hdig.
  - rewrite percent_digits_digit by done.
    unfold check_bounds.
    destruct (n <=? nat_of_ascii ch - char_zero) eqn:E; [done|].
    apply Nat.leb_gt in E.
    destruct (players !! (nat_of_ascii ch - char_zero)) as [[t|]|] eqn:Hp;
      simpl; try done.
    assert (names_slot n players (name t) (digit_value ch)) as Hslot
      by (split; [done|by exists t]).
    assert (spans ((composed ++ [Lit (slice m prev j)]) ++ [Span (name t)])
            = spans composed ++ [name t]) as Hsp
      by (by rewrite spans_app, Hlit).
    destruct (String.length m <=? S (S j)) eqn:E3.
    { intros [= <-]. apply Nat.leb_le in E3. exists [name t].
      rewrite spans_flush, Hsp. split; [done|].
      rewrite slice_from_end; [constructor; [done|constructor]|].
      destruct (String.get (S (S j)) m) eqn:Hg; [|done].
      apply get_Some_lt in Hg. lia. }
    intros Hrun. apply IH in Hrun as (names & Hs & Hn).
    exists (name t :: names). rewrite Hs, Hsp, <- app_assoc.
    split; [done|]. by constructor.
  - rewrite percent_digits_other by done.
    destruct (is_specifier ch) eqn:Hsp.
    2: { intros Hrun. apply IH in Hrun as (names & Hs & Hn).
         rewrite Hlit in Hs. exists names. split; [done|].
         by rewrite <- (slice_from_cons m (S j) _ Hch). }
    destruct (specifier_not_digit ch Hsp) as [_ Hper].
    rewrite percent_digits_plain by done.
    destruct (String.get (S (S j)) m) as [d|] eqn:Hd; simpl; [|done].
    destruct (is_digit_char d) eqn:Hdd.
    2: { intros Hrun. apply IH in Hrun as (names & Hs & Hn).
         rewrite Hlit in Hs. by exists names. }
    unfold check_bounds.
    destruct (n <=? nat_of_ascii d - char_zero); [done|].
    destruct (mjoin (players !! (nat_of_ascii d - char_zero))) as [t|];
      [|done].
    destruct (specifier_text ch t) as [text|] eqn:Ht.
    2: { intros Hrun. apply IH in Hrun as (names & Hs & Hn).
         rewrite Hlit in Hs. by exists names. }
    intros Hrun. apply IH in Hrun as (names & Hs & Hn).
    exists names. split.
    + rewrite Hs, spans_app, Hlit.
      assert (spans [text] = []) as ->; [|by rewrite app_nil_r].
      destruct text as [| nm |]; try done.
      by destruct (specifier_text_no_span ch t (Span nm) nm Ht).
    + rewrite (slice_from_cons m (S (S j)) _ Hd).
      rewrite percent_digits_plain; [done|].
      apply Ascii.eqb_neq. by apply digit_not_percent.
Qed.

Lemma compose_names (m : string) (n : nat)
    (players : list (option Tribute)) (segs : FormattedMessage) :
  ComposeEventMessage m n players = Ok segs ->
  names_participants n players segs /\
  Forall2 (names_slot n players) (spans segs) (percent_digits m).
Proof.
  intros Hrun. split.
  - revert Hrun. apply compose_loop_names.
    intros nm H. by apply elem_of_nil in H.
  - apply compose_loop_spans in Hrun as (names & Hs & Hn).
    simpl in Hs. by rewrite Hs, <- (slice_from_0 m).
Qed.

(** X11. A composed message names only participants of the event: every name
    reference in it is the name of a bound participant whose index is below
    the participant count. The name references of the message are, in
    order, those of the plain placeholders of the template, one for each
    digit that directly follows a [%]: a pronoun or suffix specifier
    produces no name reference. *)
Theorem compose_names_participants (m : string) (n : nat)
    (players : list (option Tribute)) (segs : FormattedMessage) :
  ComposeEventMessage m n players = Ok segs ->
  names_participants n players segs /\
  Forall2 (names_slot n players) (spans segs) (percent_digits m).
Proof. apply compose_names. Qed.

Lemma compose_names_participants_witness :
  names_participants 2 [Some Ann; Some Kai]
    [Lit ""; Span (name Kai); Lit " kills "; Lit "them"; Lit "."] /\
  Forall2 (names_slot 2 [Some Ann; Some Kai])
    (spans [Lit ""; Span (name Kai); Lit " kills "; Lit "them"; Lit "."])
    (percent_digits "%1 kills %A0.").
Proof.
  apply (compose_names_participants "%1 kills %A0."). reflexivity.
Defined.

#[global] Instance preserves_preorder (Inv : Game -> Prop) :
  PreOrder (preserves Inv).
Proof.
  split.
  - intros g H. exact H.
  - intros g1 g2 g3 H1 H2 H. by apply H2, H1.
Qed.

(** ** Every write of a call *)

(** A relation that every single write of [AdvanceGame] respects is
    respected by the call, whatever its outcome. *)
Section Writes.
Context (R : Game -> Game -> Prop) `{!PreOrder R}.
Hypothesis W_state : forall g v, R g (set_state v g).
Hypothesis W_title : forall g v, R g (set_game_title v g).
Hypothesis W_stage : forall g v, R g (set_stage v g).
Hypothesis W_days : forall g v, R g (set_days_passed v g).
Hypothesis W_nights : forall g v, R g (set_nights_passed v g).
Hypothesis W_feast : forall g v, R g (set_last_feast v g).
Hypothesis W_reset : forall g, R g (set_tributes_died [] g).
Hypothesis W_push :
  forall g,
    R g (set_rounds
           (rounds g ++ [{| game_events := []; died_this_round := [];
                            index := length (rounds g);
                            round_stage := stage g |}]) g).
Hypothesis W_roster :
  forall g l, l ≡ₚ tributes_alive g -> R g (set_tributes_alive l g).
Hypothesis W_death :
  forall g idx i ref t,
    alive_at g i = Some (ref, t) -> R g (record_death idx ref g).
Hypothesis W_kills :
  forall g ref n, R g (set_tributes (alter (add_kills n) ref (tributes g)) g).
Hypothesis W_event :
  forall g idx ge,
    R g (set_rounds
           (alter (fun r => set_round_events (game_events r ++ [ge]) r) idx
              (rounds g)) g).
Hypothesis W_events :
  forall g idx evs,
    evs ≡ₚ default [] (game_events <$> rounds g !! idx) ->
    R g (set_rounds (alter (set_round_events evs) idx (rounds g)) g).
Hypothesis W_filter :
  forall g,
    R g (set_tributes_alive
           (filter (fun t => is_alive g t = true) (tributes_alive g)) g).
Hypothesis W_buffer :
  forall g idx,
    R g (set_tributes_died
           (tributes_died g
            ++ default [] (died_this_round <$> rounds g !! idx)) g).

Lemma leaves_AdvanceGameStage : leaves R AdvanceGameStage.
Proof using R PreOrder0 W_days W_nights W_feast.
  unfold AdvanceGameStage. apply (leaves_bind R); [apply (leaves_get_game R)|].
  intros g. destruct (_ =? 0); [apply (leaves_ret R)|].
  assert (forall v (s : GameStage),
            leaves R (modify_game (set_days_passed v) >>> ret s)) as Hday.
  { intros v s. apply (leaves_bind R); [by apply (leaves_modify_game R)|].
    intros _. apply (leaves_ret R). }
  destruct (_ || _); [apply Hday|].
  destruct (stage_eqb _ _).
  - destruct (5 <=? _)%Z; [|apply Hday].
    apply (leaves_bind R); [apply (leaves_Math_random R)|]. intros r.
    match goal with |- context [if ?c then _ else _] => destruct c end;
      [apply Hday|].
    apply (leaves_bind R); [by apply (leaves_modify_game R)|].
    intros _. apply (leaves_ret R).
  - apply (leaves_bind R); [by apply (leaves_modify_game R)|].
    intros _. apply (leaves_ret R).
Qed.

Lemma leaves_CheckGameShouldEnd : leaves R CheckGameShouldEnd.
Proof using R PreOrder0 W_state.
  unfold CheckGameShouldEnd. apply (leaves_bind R); [apply (leaves_get_game R)|].
  intros g. destruct (_ || _); [|apply (leaves_ret R)].
  apply (leaves_bind R); [by apply (leaves_modify_game R)|].
  intros _. apply (leaves_ret R).
Qed.

Lemma leaves_DoRoundImpl (fuel : nat) : leaves R (DoRoundImpl fuel).
Proof using All.
  intros w. unfold DoRoundImpl. rewrite bind_get_game, !bind_modify_game.
  set (w1 := update (set_game_title _) w).
  set (w2 := update _ w1).
  assert (R (game w) (game w2)) as H2.
  { etrans; [apply (W_title (game w))|]. apply (W_push (game w1)). }
  etrans; [exact H2|]. clear H2.
  unfold bind at 1.
  destruct (shuffle_spec (tributes_alive (game w)) w2)
    as (shuffled & Hs & Hperm & Hgame & _).
  destruct (shuffle (tributes_alive (game w)) w2) as [o w3].
  change (o = Ok shuffled) in Hs. change (game w3 = game w2) in Hgame.
  subst o. rewrite <- Hgame.
  rewrite bind_modify_game.
  set (w4 := update _ w3).
  assert (R (game w3) (game w4)) as H4.
  { apply W_roster. by rewrite Hgame. }
  etrans; [exact H4|]. clear H4.
  destruct (length _ =? 0); [done|].
  unfold bind at 1.
  match goal with
  | |- context [round_loop ?a1 ?a2 ?a3 ?a4 ?a5 ?a6 ?a7 ?a8 w4] =>
      pose proof (leaves_round_loop R a3
                    (fun g0 i ref t => W_death g0 a3 i ref t)
                    W_kills (fun g0 ge => W_event g0 a3 ge)
                    a1 a2 a4 a5 a6 a7 a8 w4)
        as Hloop;
      destruct (round_loop a1 a2 a3 a4 a5 a6 a7 a8 w4) as [[[]|e'|] w5]
  end; simpl in Hloop; [|done..].
  etrans; [exact Hloop|]. clear Hloop.
  rewrite bind_get_game. unfold bind at 1.
  match goal with
  | |- context [shuffle ?l w5] =>
      destruct (shuffle_spec l w5) as (events & He & Hperm2 & Hgame2 & _);
      destruct (shuffle l w5) as [o w6]
  end.
  change (o = Ok events) in He. change (game w6 = game w5) in Hgame2.
  subst o. rewrite <- Hgame2.
  rewrite !bind_modify_game. simpl.
  etrans; [apply (W_events (game w6) (length (rounds (game w))) events);
           by rewrite Hgame2|].
  match goal with |- R ?a _ => etrans; [apply (W_filter a)|] end.
  match goal with
  | |- R ?a _ => apply (W_buffer a (length (rounds (game w))))
  end.
Qed.

Lemma leaves_DoRound (fuel : nat) : leaves R (DoRound fuel).
Proof using All.
  unfold DoRound. apply (leaves_bind R); [apply leaves_AdvanceGameStage|].
  intros s. apply (leaves_bind R); [by apply (leaves_modify_game R)|]. intros _.
  apply (leaves_bind R); [apply leaves_DoRoundImpl|]. intros _.
  apply (leaves_bind R); [apply leaves_CheckGameShouldEnd|]. intros ended.
  apply (leaves_bind R); [apply (leaves_get_game R)|]. intros g.
  destruct (_ && _); [by apply (leaves_modify_game R)|apply (leaves_ret R)].
Qed.

Lemma leaves_transition (fuel : nat) (g : Game) : leaves R (transition fuel g).
Proof using All.
  assert (forall t s,
            leaves R (modify_game (set_game_title t) >>>
                      modify_game (set_state s))) as Hstep.
  { intros t s. apply (leaves_bind R); [by apply (leaves_modify_game R)|].
    intros _. by apply (leaves_modify_game R). }
  unfold transition. destruct (state g); try apply Hstep.
  - apply (leaves_bind R); [by apply (leaves_modify_game R)|]. intros _.
    apply (leaves_throw R).
  - apply (leaves_bind R); [by apply (leaves_modify_game R)|]. intros _.
    apply (leaves_bind R); [by apply (leaves_modify_game R)|]. intros _.
    apply leaves_DoRound.
  - apply leaves_DoRound.
  - apply (leaves_ret R).
Qed.

Lemma leaves_AdvanceGame (fuel : nat) : leaves R (AdvanceGame fuel).
Proof using All.
  intros w. rewrite AdvanceGame_unfold.
  pose proof (leaves_transition fuel (game w) w) as H.
  by destruct (transition fuel (game w) w) as [[[]|e|] w'].
Qed.

Lemma leaves_advance_n (fuel n : nat) (w : World) :
  R (game w) (game (advance_n fuel n w)).
Proof using All.
  revert w; induction n as [|n IH]; intros w; simpl; [done|].
  etrans; [apply (leaves_AdvanceGame fuel w)|apply IH].
Qed.

End Writes.

(** ** What no call changes *)

Lemma map_alter_same {A B} (f : A -> B) (h : A -> A) (i : nat) (l : list A) :
  (forall x, f (h x) = f x) -> map f (alter h i l) = map f l.
Proof.
  intros Hf. revert i; induction l as [|x l IH]; intros [|i]; simpl;
    try done.
  - by rewrite Hf.
  - f_equal. apply IH.
Qed.

Lemma advance_n_configuration (fuel n : nat) (w : World) :
  configuration (game (advance_n fuel n w)) = configuration (game w).
Proof.
  apply (leaves_advance_n (same configuration)); try done.
  - intros g idx i ref t _. unfold same, configuration, record_death. simpl.
    by rewrite map_alter_same.
  - intros g ref k. unfold same, configuration. simpl.
    by rewrite map_alter_same.
Qed.

(** X12. No call of [AdvanceGame] changes what the game was set up with: the
    pools of events, the options, the number of tributes, and the name,
    pronouns and tags of each tribute. *)
Theorem calls_keep_configuration (fuel n : nat) (w : World) :
  configuration (game (advance_n fuel n w)) = configuration (game w).
Proof. apply advance_n_configuration. Qed.

(** ** What a call does to a tribute *)

#[global] Instance tributes_gain_preorder : PreOrder tributes_gain.
Proof.
  split.
  - intros g ref t Ht. exists t. by repeat split.
  - intros g1 g2 g3 H1 H2 ref t Ht.
    destruct (H1 ref t Ht) as (t2 & Ht2 & Hk2 & Hd2).
    destruct (H2 ref t2 Ht2) as (t3 & Ht3 & Hk3 & Hd3).
    exists t3. split; [done|]. split; [lia|]. auto.
Qed.

Lemma tributes_gain_same (g g' : Game) :
  tributes g' = tributes g -> tributes_gain g g'.
Proof. intros H ref t Ht. exists t. rewrite H. by repeat split. Qed.

Lemma tributes_gain_alter (g g' : Game) (f : Tribute -> Tribute) (ref0 : nat) :
  tributes g' = alter f ref0 (tributes g) ->
  (forall t, kills t <= kills (f t) /\
             (died_in_round t <> None -> died_in_round (f t) <> None)) ->
  tributes_gain g g'.
Proof.
  intros H Hf ref t Ht. rewrite H.
  destruct (decide (ref = ref0)) as [->|Hne].
  - exists (f t). rewrite list_lookup_alter_eq, Ht. split; [done|]. apply Hf.
  - exists t. rewrite list_lookup_alter_ne by done. by repeat split.
Qed.

Lemma calls_gain (fuel n : nat) (w : World) :
  tributes_gain (game w) (game (advance_n fuel n w)).
Proof.
  apply (leaves_advance_n tributes_gain);
    try (intros; by apply tributes_gain_same).
  - intros g idx i ref t _.
    apply (tributes_gain_alter _ _ (set_died_in_round idx) ref); [done|].
    intros t0. simpl. split; [lia|done].
  - intros g ref k.
    apply (tributes_gain_alter _ _ (add_kills k) ref); [done|].
    intros t0. simpl. split; [lia|done].
Qed.

(** X13. Through any number of calls, whatever their outcomes, a tribute
    keeps its place, its kill count never goes down, and a death record is
    never cleared. *)
Theorem tributes_only_gain (fuel n : nat) (w : World) (ref : nat)
    (t : Tribute) :
  tributes (game w) !! ref = Some t ->
  exists t',
    tributes (game (advance_n fuel n w)) !! ref = Some t' /\
    kills t <= kills t' /\
    (died_in_round t <> None -> died_in_round t' <> None).
Proof. apply calls_gain. Qed.

Lemma tributes_only_gain_witness :
  exists t',
    tributes (game second_cycle) !! 2 = Some t' /\
    kills Zed <= kills t' /\
    (died_in_round Zed <> None -> died_in_round t' <> None).
Proof.
  apply (tributes_only_gain 200 4 (start day_kill_game three_quarters) 2 Zed).
  reflexivity.
Defined.

(** ** The lists of the dead *)

Lemma is_alive_false (g : Game) (ref : nat) :
  is_alive g ref = false <->
  exists t r, tributes g !! ref = Some t /\ died_in_round t = Some r.
Proof.
  unfold is_alive. destruct (tributes g !! ref) as [t|].
  - destruct (died_in_round t) as [r|] eqn:E.
    + split; [by exists t, r|done].
    + split; [done|]. intros (t' & r & [= <-] & Hr). congruence.
  - split; [done|]. by intros (t & r & H & _).
Qed.

Lemma is_alive_false_gain (g g' : Game) (ref : nat) :
  tributes_gain g g' -> is_alive g ref = false -> is_alive g' ref = false.
Proof.
  intros Hgain. rewrite !is_alive_false. intros (t & r & Ht & Hr).
  destruct (Hgain ref t Ht) as (t' & Ht' & _ & Hd).
  destruct (died_in_round t') as [r'|] eqn:E; [by exists t', r'|].
  destruct Hd; congruence.
Qed.

Lemma listed_dead_ext (g g' : Game) :
  tributes_gain g g' ->
  (forall ref, ref ∈ tributes_died g' -> ref ∈ tributes_died g) ->
  (forall r', r' ∈ rounds g' ->
     exists r, r ∈ rounds g /\ died_this_round r' = died_this_round r) ->
  preserves listed_dead g g'.
Proof.
  intros Hgain Hdied Hrounds [H1 H2]. split.
  - intros ref Hin. apply (is_alive_false_gain g); auto.
  - intros r' ref Hr' Hin. destruct (Hrounds r' Hr') as (r & Hr & Heq).
    apply (is_alive_false_gain g); [done|].
    apply (H2 r); [done|]. by rewrite <- Heq.
Qed.

Lemma elem_of_alter_round (f : GameRound -> GameRound) (i : nat)
    (rs : list GameRound) (r' : GameRound) :
  (forall r, died_this_round (f r) = died_this_round r) ->
  r' ∈ alter f i rs ->
  exists r, r ∈ rs /\ died_this_round r' = died_this_round r.
Proof.
  intros Hf Hin. apply list_elem_of_lookup in Hin as [k Hk].
  destruct (decide (k = i)) as [->|Hne].
  - rewrite list_lookup_alter_eq in Hk.
    destruct (rs !! i) as [r|] eqn:Hr; [|done]. injection Hk as <-.
    exists r. split; [by eapply list_elem_of_lookup_2|apply Hf].
  - rewrite list_lookup_alter_ne in Hk by done.
    exists r'. split; [by eapply list_elem_of_lookup_2|done].
Qed.

Lemma calls_list_the_dead (fuel n : nat) (w : World) :
  listed_dead (game w) -> listed_dead (game (advance_n fuel n w)).
Proof.
  apply (leaves_advance_n (preserves listed_dead));
    try (intros; apply listed_dead_ext;
         [by apply tributes_gain_same|done|by eauto]).
  - (* the buffer is emptied *)
    intros g. apply listed_dead_ext; [by apply tributes_gain_same| |by eauto].
    intros ref Hin. by apply elem_of_nil in Hin.
  - (* a round is appended *)
    intros g [H1 H2]. split; [done|]. intros r ref Hr Hin.
    simpl in Hr. apply elem_of_app in Hr as [Hr|Hr]; [by apply (H2 r)|].
    apply list_elem_of_singleton in Hr as ->. by apply elem_of_nil in Hin.
  - (* a death *)
    intros g idx i ref t [_ Ht]%alive_at_Some [H1 H2].
    assert (tributes_gain g (record_death idx ref g)) as Hgain.
    { apply (tributes_gain_alter _ _ (set_died_in_round idx) ref); [done|].
      intros t0. simpl. split; [lia|done]. }
    assert (is_alive (record_death idx ref g) ref = false) as Hdead.
    { apply is_alive_false. exists (set_died_in_round idx t), idx.
      unfold record_death. simpl. by rewrite list_lookup_alter_eq, Ht. }
    split.
    + intros ref' Hin. apply (is_alive_false_gain g); [done|]. by apply H1.
    + intros r' ref' Hr' Hin. unfold record_death in Hr'. simpl in Hr'.
      apply list_elem_of_lookup in Hr' as [k Hk].
      destruct (decide (k = idx)) as [->|Hne].
      * rewrite list_lookup_alter_eq in Hk.
        destruct (rounds g !! idx) as [r|] eqn:Hr; [|done].
        injection Hk as <-. simpl in Hin.
        apply elem_of_app in Hin as [Hin|Hin].
        -- apply (is_alive_false_gain g); [done|].
           apply (H2 r); [by eapply list_elem_of_lookup_2|done].
        -- by apply list_elem_of_singleton in Hin as ->.
      * rewrite list_lookup_alter_ne in Hk by done.
        apply (is_alive_false_gain g); [done|].
        apply (H2 r'); [by eapply list_elem_of_lookup_2|done].
  - (* a kill *)
    intros g ref k. apply listed_dead_ext; [|done|by eauto].
    apply (tributes_gain_alter _ _ (add_kills k) ref); [done|].
    intros t0. simpl. split; [lia|done].
  - (* an event *)
    intros g idx ge. apply listed_dead_ext;
      [by apply tributes_gain_same|done|].
    intros r' Hr'. by apply elem_of_alter_round in Hr'.
  - (* the events of the round, shuffled *)
    intros g idx evs _. apply listed_dead_ext;
      [by apply tributes_gain_same|done|].
    intros r' Hr'. by apply elem_of_alter_round in Hr'.
  - (* the dead of the round join the buffer *)
    intros g idx [H1 H2]. split; [|done]. intros ref Hin. simpl in Hin.
    apply elem_of_app in Hin as [Hin|Hin]; [by apply H1|].
    destruct (rounds g !! idx) as [r|] eqn:Hr; simpl in Hin;
      [|by apply elem_of_nil in Hin].
    apply (H2 r); [by eapply list_elem_of_lookup_2|done].
Qed.

Lemma all_dead_elem_of (g : Game) (ref : nat) :
  ref ∈ all_dead g <-> is_alive g ref = false.
Proof.
  unfold all_dead. rewrite list_elem_of_filter, elem_of_seq. split.
  - by intros [H _].
  - intros H. split; [done|]. apply is_alive_false in H as (t & r & Ht & _).
    apply lookup_lt_Some in Ht. lia.
Qed.

(** X14. In a game played from the start, whoever a snapshot lists as dead,
    in its list of the dead or in the dead of one of its rounds, has a
    death record: every such tribute is among the dead of the final
    summary. *)
Theorem snapshot_lists_only_the_dead (opts : GameOptions)
    (trs : list Tribute) (events : EventList) (rate : Q)
    (source : nat -> Rand) (fuel n : nat) (snap : GameRenderState)
    (w' : World) :
  AdvanceGame fuel (advance_n fuel n
                      (start (new_Game opts trs events rate) source))
  = (Ok (inl snap), w') ->
  (forall ref, ref ∈ rs_tributes_died snap -> ref ∈ all_dead (game w')) /\
  (forall r ref, r ∈ rs_rounds snap -> ref ∈ died_this_round r ->
     ref ∈ all_dead (game w')).
Proof.
  intros Hcall.
  assert (listed_dead (game w')) as [H1 H2].
  { replace w' with (advance_n fuel (S n)
                       (start (new_Game opts trs events rate) source)).
    - apply calls_list_the_dead. split.
      + intros ref Hin. by apply elem_of_nil in Hin.
      + intros r ref Hin. by apply elem_of_nil in Hin.
    - assert (forall k w, advance_n fuel (S k) w
                          = (AdvanceGame fuel (advance_n fuel k w)).2) as Hsnoc.
      { induction k as [|k IH]; intros w; [done|]. simpl. by rewrite <- IH. }
      by rewrite Hsnoc, Hcall. }
  rewrite AdvanceGame_unfold in Hcall.
  destruct (transition fuel _ _) as [[[]|e|] w1]; try discriminate.
  injection Hcall as <- <-. simpl. split.
  - intros ref Hin. apply all_dead_elem_of.
    destruct (state (game w1)); try (by apply H1).
    by apply all_dead_elem_of.
  - intros r ref Hr Hin. apply all_dead_elem_of. by apply (H2 r).
Qed.

Lemma snapshot_lists_only_the_dead_witness :
  (forall ref,
     ref ∈ rs_tributes_died
             (snapshot ROUND_EVENTS (game (advance_n 200 1 second_cycle))) ->
     ref ∈ all_dead (game (advance_n 200 1 second_cycle))) /\
  (forall r ref,
     r ∈ rs_rounds
           (snapshot ROUND_EVENTS (game (advance_n 200 1 second_cycle))) ->
     ref ∈ died_this_round r ->
     ref ∈ all_dead (game (advance_n 200 1 second_cycle))).
Proof.
  apply (snapshot_lists_only_the_dead default_options [Ann; Kai; Zed]
           {| el_bloodbath := None; el_day := Some [kill]; el_night := None;
              el_feast := None; el_all := None |} (6 # 10)
           three_quarters 200 4).
  vm_compute. reflexivity.
Defined.

(** ** The roster *)

#[global] Instance roster_shrinks_preorder : PreOrder roster_shrinks.
Proof.
  split.
  - intros g. unfold roster_shrinks. done.
  - intros g1 g2 g3 H1 H2. unfold roster_shrinks in *. by etrans.
Qed.

Lemma calls_shrink_roster (fuel n : nat) (w : World) :
  roster_shrinks (game w) (game (advance_n fuel n w)).
Proof.
  apply (leaves_advance_n roster_shrinks); try (intros; by unfold roster_shrinks).
  - intros g l Hl. unfold roster_shrinks. simpl. by rewrite Hl.
  - intros g. unfold roster_shrinks. simpl.
    apply sublist_submseteq, sublist_filter.
Qed.

(** X15. The alive roster only loses members: after any number of calls,
    whatever their outcomes, and from any state of the game, the roster is
    drawn from the roster before them, each tribute at most as often as it
    was there. Hence a roster that named no tribute twice names none twice
    afterwards, and a roster of tributes of the game stays one. *)
Theorem roster_only_shrinks (fuel n : nat) (w : World) :
  tributes_alive (game (advance_n fuel n w)) ⊆+ tributes_alive (game w) /\
  (NoDup (tributes_alive (game w)) ->
   NoDup (tributes_alive (game (advance_n fuel n w)))) /\
  ((forall ref, ref ∈ tributes_alive (game w) ->
      ref < length (tributes (game w))) ->
   forall ref, ref ∈ tributes_alive (game (advance_n fuel n w)) ->
     ref < length (tributes (game (advance_n fuel n w)))).
Proof.
  pose proof (calls_shrink_roster fuel n w) as Hsub.
  unfold roster_shrinks in Hsub.
  split; [done|]. split.
  - intros Hnd. apply submseteq_Permutation in Hsub as [k Hk].
    rewrite Hk in Hnd. by apply NoDup_app in Hnd as [? _].
  - intros Hvalid ref Hin.
    pose proof (advance_n_configuration fuel n w) as Hc.
    unfold configuration in Hc. injection Hc as Hc _.
    apply (f_equal length) in Hc. rewrite !length_map in Hc.
    rewrite Hc. apply Hvalid. by apply (elem_of_submseteq _ _ _ Hin).
Qed.

Lemma roster_only_shrinks_witness :
  NoDup (tributes_alive (game second_cycle)).
Proof.
  apply (roster_only_shrinks 200 4 (start day_kill_game three_quarters)).
  apply (bool_decide_unpack _). vm_compute. exact I.
Defined.

(** ** The history of rounds *)

(** Whatever its outcome, [#DoRoundImpl] leaves a projection of the game as
    the appended round found it, when its later writes do. *)
Lemma DoRoundImpl_after_push {B} (proj : Game -> B) (fuel : nat) (w : World) :
  let idx := length (rounds (game w)) in
  (forall g v, proj (set_tributes_alive v g) = proj g) ->
  (forall g v, proj (set_tributes_died v g) = proj g) ->
  (forall g ref, proj (record_death idx ref g) = proj g) ->
  (forall g ref k,
     proj (set_tributes (alter (add_kills k) ref (tributes g)) g) = proj g) ->
  (forall g f,
     (forall r, (died_this_round (f r), index (f r), round_stage (f r))
                = (died_this_round r, index r, round_stage r)) ->
     proj (set_rounds (alter f idx (rounds g)) g) = proj g) ->
  proj (game (DoRoundImpl fuel w).2)
  = proj (set_rounds
            (rounds (game w)
             ++ [{| game_events := []; died_this_round := [];
                    index := idx; round_stage := stage (game w) |}])
            (set_game_title (round_title (game w)) (game w))).
Proof.
  intros idx Halive Hdied Hdeath Hkills Hround.
  unfold DoRoundImpl. rewrite bind_get_game, !bind_modify_game.
  match goal with
  | |- proj (game (?m ?w2).2) = _ =>
      transitivity (proj (game w2)); [|done]; generalize w2
  end.
  apply keeps_bind; [apply keeps_shuffle|]. intros shuffled.
  apply keeps_bind; [by apply keeps_modify_game|]. intros _.
  destruct (length _ =? 0); [keeps_step|].
  apply keeps_bind.
  { apply (leaves_round_loop (same proj)).
    - intros g i ref t _. apply Hdeath.
    - intros g ref k. apply Hkills.
    - intros g ge. by apply Hround. }
  intros _. apply keeps_bind; [keeps_step|]. intros g.
  apply keeps_bind; [apply keeps_shuffle|]. intros events.
  apply keeps_bind.
  { apply keeps_modify_game. intros g0. by apply Hround. }
  intros _. apply keeps_bind; [by apply keeps_modify_game|].
  intros _. by apply keeps_modify_game.
Qed.

Lemma DoRoundImpl_history (fuel : nat) (w : World) :
  exists r,
    rounds (game (DoRoundImpl fuel w).2) = rounds (game w) ++ [r] /\
    index r = length (rounds (game w)) /\
    round_stage r = stage (game w).
Proof.
  pose proof (DoRoundImpl_after_push
                (fun g => (take (length (rounds (game w))) (rounds g),
                           map (fun r => (index r, round_stage r)) (rounds g)))
                fuel w) as H.
  simpl in H. rewrite take_app_length, map_app in H. simpl in H.
  set (g' := game (DoRoundImpl fuel w).2) in *.
  assert (take (length (rounds (game w))) (rounds g') = rounds (game w) /\
          map (fun r => (index r, round_stage r)) (rounds g')
          = map (fun r => (index r, round_stage r)) (rounds (game w))
            ++ [(length (rounds (game w)), stage (game w))]) as [Htake Hmap].
  { assert (forall A B (a a' : A) (b b' : B), (a, b) = (a', b') ->
              a = a' /\ b = b') as Hpair by (by intros ? ? ? ? ? ? [= -> ->]).
    apply Hpair, H; try done.
    - intros g ref. unfold record_death. simpl.
      rewrite take_alter_ge by done. f_equal. by apply map_alter_same.
    - intros g f Hf. rewrite take_alter_ge by done. f_equal.
      apply map_alter_same. intros r. specialize (Hf r). congruence. }
  assert (length (rounds g') = S (length (rounds (game w)))) as Hlen.
  { apply (f_equal length) in Hmap.
    rewrite length_app, !length_map in Hmap. simpl in Hmap. lia. }
  destruct (lookup_lt_is_Some_2 (rounds g') (length (rounds (game w))))
    as [r Hr]; [lia|].
  exists r. split; [|split].
  - rewrite <- (take_drop (length (rounds (game w))) (rounds g')), Htake.
    f_equal. apply list_eq. intros [|i].
    + by rewrite lookup_drop, Nat.add_0_r, Hr.
    + rewrite lookup_drop. simpl. apply lookup_ge_None_2. lia.
  - apply (f_equal (fun l => l !! length (rounds (game w)))) in Hmap.
    rewrite list_lookup_fmap, Hr in Hmap. simpl in Hmap.
    rewrite lookup_app_r, length_map, Nat.sub_diag in Hmap
      by (rewrite length_map; lia).
    by injection Hmap as -> _.
  - apply (f_equal (fun l => l !! length (rounds (game w)))) in Hmap.
    rewrite list_lookup_fmap, Hr in Hmap. simpl in Hmap.
    rewrite lookup_app_r, length_map, Nat.sub_diag in Hmap
      by (rewrite length_map; lia).
    by injection Hmap as _ ->.
Qed.

Lemma DoRound_history (fuel : nat) (w w' : World) (o : Outcome unit) :
  DoRound fuel w = (o, w') ->
  exists r,
    rounds (game w') = rounds (game w) ++ [r] /\
    index r = length (rounds (game w)) /\
    round_stage r = stage (game w').
Proof.
  unfold DoRound. unfold bind at 1.
  destruct (AdvanceGameStage_spec w) as (s & w1 & -> & Hrounds & _).
  rewrite bind_modify_game. unfold bind at 1.
  destruct (DoRoundImpl_history fuel (update (set_stage s) w1))
    as (r & Hr & Hidx & Hst).
  pose proof (DoRoundImpl_core fuel (update (set_stage s) w1)) as Hcore.
  simpl in Hr, Hidx, Hst. rewrite Hrounds in Hr, Hidx.
  unfold core in Hcore. simpl in Hcore. injection Hcore as _ Hstage _ _.
  destruct (DoRoundImpl fuel (update (set_stage s) w1)) as [[[]|e|] w2];
    simpl in *; try (intros [= <- <-]; exists r; by rewrite Hstage).
  unfold bind at 1.
  destruct (CheckGameShouldEnd_spec w2) as (b & w3 & -> & Hproj & _).
  rewrite bind_get_game.
  pose proof (Hproj _ (fun g => (rounds g, stage g)) (fun _ _ => eq_refl))
    as Hw3.
  simpl in Hw3. injection Hw3 as H5 H6.
  intros Hend. exists r.
  destruct (negb b && _); injection Hend as <- <-; simpl;
    by rewrite ?H5, ?H6, ?Hstage.
Qed.

Lemma enter_round_rounds (w : World) :
  rounds (game (enter_round w)) = rounds (game w).
Proof. unfold enter_round. by destruct (state (game w)). Qed.

Lemma AdvanceGame_game (fuel : nat) (w : World) :
  game (AdvanceGame fuel w).2 = game (transition fuel (game w) w).2.
Proof.
  rewrite AdvanceGame_unfold.
  by destruct (transition fuel (game w) w) as [[[]|e|] w1].
Qed.

Lemma AdvanceGame_history (fuel : nat) (w : World) :
  (state (game w) = NEW_ROUND \/ state (game w) = IN_ROUND ->
   exists r,
     rounds (game (AdvanceGame fuel w).2) = rounds (game w) ++ [r] /\
     index r = length (rounds (game w)) /\
     round_stage r = stage (game (AdvanceGame fuel w).2)) /\
  (state (game w) <> NEW_ROUND -> state (game w) <> IN_ROUND ->
   rounds (game (AdvanceGame fuel w).2) = rounds (game w)).
Proof.
  rewrite AdvanceGame_game. split.
  - intros Hr. rewrite transition_round by done.
    destruct (DoRound fuel (enter_round w)) as [o w1] eqn:Hdo.
    destruct (DoRound_history fuel _ _ _ Hdo) as (r & H1 & H2 & H3).
    rewrite enter_round_rounds in H1, H2. by exists r.
  - intros Hn Hi.
    by destruct (transition_no_round fuel w Hn Hi)
      as (o & w2 & -> & _ & _ & ? & _).
Qed.

Lemma advance_n_S (fuel k : nat) (w : World) :
  advance_n fuel (S k) w = (AdvanceGame fuel (advance_n fuel k w)).2.
Proof.
  revert w; induction k as [|k IH]; intros w; [done|].
  simpl. by rewrite <- IH.
Qed.

(** X16. The rounds of a game are a history: a call in [NEW_ROUND] or
    [IN_ROUND] appends exactly one round, whatever its outcome, whose index
    is its position and whose stage is the stage the game is left in; every
    other call leaves the rounds alone; and no call ever touches or removes
    an earlier round. *)
Theorem rounds_are_a_history (fuel : nat) (w : World) :
  (state (game w) = NEW_ROUND \/ state (game w) = IN_ROUND ->
   exists r,
     rounds (game (AdvanceGame fuel w).2) = rounds (game w) ++ [r] /\
     index r = length (rounds (game w)) /\
     round_stage r = stage (game (AdvanceGame fuel w).2)) /\
  (state (game w) <> NEW_ROUND -> state (game w) <> IN_ROUND ->
   rounds (game (AdvanceGame fuel w).2) = rounds (game w)) /\
  (forall n,
     rounds (game w) `prefix_of` rounds (game (advance_n fuel n w)) /\
     length (rounds (game (advance_n fuel n w)))
     <= length (rounds (game w)) + n) /\
  (rounds_indexed (game w) ->
   forall n, rounds_indexed (game (advance_n fuel n w))).
Proof.
  destruct (AdvanceGame_history fuel w) as [Hround Hother].
  split; [done|]. split; [done|].
  assert (forall w0,
            rounds (game w0) `prefix_of` rounds (game (AdvanceGame fuel w0).2) /\
            length (rounds (game (AdvanceGame fuel w0).2))
            <= S (length (rounds (game w0))) /\
            (rounds_indexed (game w0) ->
             rounds_indexed (game (AdvanceGame fuel w0).2))) as Hcall.
  { intros w0. destruct (AdvanceGame_history fuel w0) as [H1 H2].
    destruct (decide (state (game w0) = NEW_ROUND
                      \/ state (game w0) = IN_ROUND)) as [Hr|Hr].
    - destruct (H1 Hr) as (r & Heq & Hidx & _). unfold rounds_indexed.
      rewrite Heq. split; [by apply prefix_app_r|].
      split; [rewrite length_app; simpl; lia|].
      intros Hind k r' Hk. apply lookup_app_Some in Hk as [Hk|[Hge Hk]].
      + by apply Hind.
      + destruct (k - length (rounds (game w0))) as [|j] eqn:E; [|done].
        injection Hk as <-. lia.
    - unfold rounds_indexed. rewrite H2 by tauto.
      split; [done|]. split; [lia|done]. }
  split.
  - induction n as [|n IH]; [simpl; split; [done|lia]|].
    rewrite advance_n_S. destruct IH as [IH1 IH2].
    destruct (Hcall (advance_n fuel n w)) as (H1 & H2 & _).
    split; [by etrans|lia].
  - intros Hind n. induction n as [|n IH]; [done|].
    rewrite advance_n_S. by apply Hcall.
Qed.

Lemma rounds_are_a_history_witness :
  rounds_indexed (game (advance_n 200 2 second_cycle)).
Proof.
  apply (rounds_are_a_history 200 second_cycle).
  intros [|[|[|[|k]]]] r; vm_compute; intros [= <-]; reflexivity.
Defined.

(** ** The transitions of the machine *)

Lemma CheckGameShouldEnd_eq (w : World) :
  CheckGameShouldEnd w =
  if (length (tributes_alive (game w)) <? 2) || all_won (game w)
  then (Ok true, update (set_state END_RESULTS) w)
  else (Ok false, w).
Proof.
  unfold CheckGameShouldEnd. rewrite bind_get_game.
  by destruct (_ || _).
Qed.

Lemma DoRound_state (fuel : nat) (w w' : World) :
  DoRound fuel w = (Ok tt, w') ->
  state (game w) = IN_ROUND ->
  state (game w') = state_after_round (game w').
Proof.
  unfold DoRound. unfold bind at 1.
  destruct (AdvanceGameStage_spec w) as (s & w1 & -> & _ & _ & Hst & _).
  rewrite bind_modify_game. unfold bind at 1.
  pose proof (DoRoundImpl_core fuel (update (set_stage s) w1)) as Hcore.
  destruct (DoRoundImpl fuel (update (set_stage s) w1)) as [[[]|e|] w2];
    try discriminate.
  unfold core in Hcore. simpl in Hcore. injection Hcore as _ _ _ Hstate.
  unfold bind at 1. rewrite CheckGameShouldEnd_eq.
  unfold state_after_round.
  destruct ((length (tributes_alive (game w2)) <? 2) || all_won (game w2))
    eqn:Hend.
  - rewrite bind_get_game. simpl.
    intros [= <-] _. simpl. by rewrite Hend.
  - rewrite bind_get_game. simpl.
    destruct (stage_eqb (stage (game w2)) NIGHT) eqn:Hnight.
    + intros [= <-] _. simpl. by rewrite Hend, Hnight.
    + intros [= <-] Hin. rewrite Hend, Hnight. congruence.
Qed.

(** X17. The transition table of the machine, for a call that returns a
    snapshot: the display kind is that of the state on entry; a call in
    [NEW_ROUND] or [IN_ROUND] simulates a round and ends in [END_RESULTS]
    when fewer than two tributes are left, else in [THE_FALLEN] after a
    night, else in [IN_ROUND]; every other state has one successor. *)
Theorem transition_table (fuel : nat) (w w' : World)
    (snap : GameRenderState) :
  AdvanceGame fuel w = (Ok (inl snap), w') ->
  rs_state snap = render_of (state (game w)) /\
  state (game w') =
    match state (game w) with
    | NEW_ROUND | IN_ROUND => state_after_round (game w')
    | s => next_state s
    end.
Proof.
  rewrite AdvanceGame_unfold.
  destruct (transition fuel (game w) w) as [[[]|e|] w1] eqn:Ht;
    try discriminate.
  intros [= <- <-]. split; [done|].
  destruct (decide (state (game w) = NEW_ROUND \/ state (game w) = IN_ROUND))
    as [Hr|Hr].
  - rewrite transition_round in Ht by done.
    apply DoRound_state in Ht.
    + by destruct Hr as [-> | ->].
    + unfold enter_round. by destruct Hr as [H|H]; rewrite H.
  - destruct (transition_no_round fuel w ltac:(tauto) ltac:(tauto))
      as (o & w2 & Ht2 & _ & Hnext & _).
    rewrite Ht in Ht2. injection Ht2 as <- <-. rewrite Hnext.
    destruct (state (game w)); tauto.
Qed.

Lemma transition_table_witness :
  rs_state (snapshot ROUND_EVENTS (game (advance_n 200 1 second_cycle)))
  = render_of (state (game second_cycle)) /\
  state (game (advance_n 200 1 second_cycle)) =
    match state (game second_cycle) with
    | NEW_ROUND | IN_ROUND =>
        state_after_round (game (advance_n 200 1 second_cycle))
    | s => next_state s
    end.
Proof.
  apply (transition_table 200 second_cycle). vm_compute. reflexivity.
Defined.

(** ** The end of a game *)

Lemma next_state_end (s : GameState) (n : nat) :
  is_end_state s = true ->
  is_end_state (Nat.iter n next_state s) = true /\
  (4 <= n -> Nat.iter n next_state s = END).
Proof.
  intros Hs. split.
  - induction n as [|n IH]; [done|]. simpl.
    by destruct (Nat.iter n next_state s).
  - intros Hn.
    assert (forall k, Nat.iter k next_state END = END) as Hfix.
    { induction k as [|k IH]; [done|]. simpl. by rewrite IH. }
    replace n with ((n - 4) + 4) by lia.
    rewrite Nat.iter_add.
    assert (Nat.iter 4 next_state s = END) as -> by (by destruct s).
    apply Hfix.
Qed.

Lemma end_state_call (fuel : nat) (w : World) :
  is_end_state (state (game w)) = true ->
  AdvanceGame fuel w
  = (Ok (inl (snapshot (render_of (state (game w)))
                (game (AdvanceGame fuel w).2))), (AdvanceGame fuel w).2) /\
  state (game (AdvanceGame fuel w).2) = next_state (state (game w)) /\
  (rounds (game (AdvanceGame fuel w).2), tributes (game (AdvanceGame fuel w).2),
   tributes_alive (game (AdvanceGame fuel w).2),
   tributes_died (game (AdvanceGame fuel w).2))
  = (rounds (game w), tributes (game w), tributes_alive (game w),
     tributes_died (game w)).
Proof.
  intros Hs. rewrite AdvanceGame_unfold.
  destruct (transition_no_round fuel w) as
    (o & w2 & -> & Ho & Hnext & H1 & _ & _ & H2 & H3 & H4).
  { intros C. by rewrite C in Hs. }
  { intros C. by rewrite C in Hs. }
  destruct Ho as [->|[_ Hd]]; [|by rewrite Hd in Hs].
  simpl. by rewrite Hnext, H1, H2, H3, H4.
Qed.

(** X18. The end of a game: from [END_RESULTS] on every call returns a
    snapshot and changes nothing of the rounds, the tributes, the roster
    and the buffer; the states follow the table, so that the fourth call
    leaves the machine in [END], where it stays; and from then on every
    snapshot is the game-over one and lists every tribute with a death
    record. *)
Theorem end_of_game (fuel : nat) (w : World) (n : nat) :
  is_end_state (state (game w)) = true ->
  let w' := advance_n fuel n w in
  state (game w') = Nat.iter n next_state (state (game w)) /\
  (4 <= n -> state (game w') = END) /\
  (rounds (game w'), tributes (game w'), tributes_alive (game w'),
   tributes_died (game w'))
  = (rounds (game w), tributes (game w), tributes_alive (game w),
     tributes_died (game w)) /\
  exists snap,
    (AdvanceGame fuel w').1 = Ok (inl snap) /\
    (4 <= n ->
     rs_state snap = GAME_OVER /\ rs_tributes_died snap = all_dead (game w)).
Proof.
  intros Hs w'.
  assert (state (game w') = Nat.iter n next_state (state (game w)) /\
          (rounds (game w'), tributes (game w'), tributes_alive (game w'),
           tributes_died (game w'))
          = (rounds (game w), tributes (game w), tributes_alive (game w),
             tributes_died (game w))) as [Hstate Hsame].
  { subst w'. induction n as [|n IH]; [done|].
    rewrite advance_n_S. destruct IH as [IH1 IH2].
    destruct (end_state_call fuel (advance_n fuel n w)) as (_ & H1 & H2).
    { rewrite IH1. by apply next_state_end. }
    simpl. by rewrite H1, H2, IH1. }
  destruct (next_state_end (state (game w)) n Hs) as [Hend H4].
  split; [done|]. split; [intros Hn; by rewrite Hstate, H4|].
  split; [done|].
  destruct (end_state_call fuel w') as (Hcall & Hnext & Hkeep).
  { by rewrite Hstate. }
  eexists. split; [by rewrite Hcall|]. intros Hn.
  rewrite Hstate, (H4 Hn) in *. simpl. rewrite Hnext. simpl.
  split; [done|].
  unfold all_dead, is_alive.
  injection Hkeep as _ -> _ _. by injection Hsame as _ -> _ _.
Qed.

Lemma end_of_game_witness :
  state (game (advance_n 200 5 (advance_n 200 1 second_cycle))) = END.
Proof.
  apply (end_of_game 200 (advance_n 200 1 second_cycle) 5);
    [vm_compute; reflexivity|lia].
Defined.

(** ** The order of the stages *)

Lemma AdvanceGameStage_feast (w w1 : World) :
  AdvanceGameStage w = (Ok FEAST, w1) ->
  last_feast (game w1) = length (rounds (game w)).
Proof.
  unfold AdvanceGameStage. rewrite bind_get_game.
  destruct (length (rounds (game w)) =? 0); [done|].
  destruct (_ || _); [by rewrite bind_modify_game|].
  destruct (stage_eqb _ _); [|by rewrite bind_modify_game].
  destruct (5 <=? _)%Z; [|by rewrite bind_modify_game].
  unfold bind at 1, Math_random.
  match goal with |- context [if ?c then _ else _] => destruct c end;
    rewrite bind_modify_game; [done|].
  by intros [= <-].
Qed.

Lemma stage_order_step (ss : list GameStage) (st s : GameStage)
    (lf lf1 : nat) :
  stage_order ss st lf ->
  (s <> FEAST -> lf1 = lf) ->
  (s = FEAST -> lf1 = length ss) ->
  (ss = [] -> s = BLOODBATH) ->
  (ss <> [] ->
     match st with
     | FEAST | BLOODBATH => s = DAY
     | DAY => s = NIGHT
     | NIGHT =>
         s = DAY \/
         (s = FEAST /\ (5 <= Z.of_nat (length ss) - Z.of_nat lf)%Z)
     end) ->
  stage_order (ss ++ [s]) s lf1.
Proof.
  intros (Hfirst & Hnext & Hlast & Hfeast & Hapart) Hlf Hlf' Hnil Hcons.
  assert (forall k, ss !! k = Some FEAST -> 5 <= k <= lf1) as Hold.
  { intros k Hk. destruct (Hfeast k Hk) as [H5 Hle]. split; [done|].
    destruct (decide (s = FEAST)) as [->|Hs]; [|by rewrite Hlf].
    rewrite Hlf' by done. apply lookup_lt_Some in Hk. lia. }
  assert (s = FEAST -> ss <> [] /\ lf + 5 <= length ss) as Hnew.
  { intros ->. destruct ss as [|a ss']; [by specialize (Hnil eq_refl)|].
    split; [done|]. specialize (Hcons ltac:(done)).
    destruct st; try done. destruct Hcons as [|[_ H5]]; [done|]. lia. }
  unfold stage_order. rewrite last_snoc.
  split; [|split; [|split; [done|split]]].
  - intros a Ha. destruct ss as [|b ss'].
    + injection Ha as <-. by apply Hnil.
    + by apply Hfirst.
  - intros k a b Ha Hb.
    apply lookup_app_Some in Hb as [Hb|[Hge Hb]].
    + apply (Hnext k); [|done].
      apply lookup_app_Some in Ha as [Ha|[Hge _]]; [done|].
      apply lookup_lt_Some in Hb. lia.
    + destruct (S k - length ss) as [|j] eqn:E; [|done].
      injection Hb as <-.
      assert (ss <> []) as Hne by (intros ->; simpl in *; lia).
      specialize (Hcons Hne). specialize (Hlast Hne).
      rewrite last_lookup in Hlast.
      replace (pred (length ss)) with k in Hlast by lia.
      rewrite lookup_app_l in Ha by lia.
      rewrite Hlast in Ha. injection Ha as <-.
      destruct st; simpl; tauto.
  - intros k Hk. apply lookup_app_Some in Hk as [Hk|[Hge Hk]]; [by apply Hold|].
    destruct (k - length ss) as [|j] eqn:E; [|done].
    injection Hk as Hs.
    destruct (Hnew Hs) as [_ H5]. rewrite (Hlf' Hs). lia.
  - intros j k Hjk Hj Hk.
    apply lookup_app_Some in Hk as [Hk|[Hge Hk]].
    + apply (Hapart j k); [done| |done].
      apply lookup_app_Some in Hj as [Hj|[Hge _]]; [done|].
      apply lookup_lt_Some in Hk. lia.
    + destruct (k - length ss) as [|i] eqn:E; [|done].
      injection Hk as Hs. destruct (Hnew Hs) as [_ H5].
      rewrite lookup_app_l in Hj by lia.
      destruct (Hfeast j Hj). lia.
Qed.

Lemma stage_order_AdvanceGame (fuel : nat) (w : World) :
  stage_order (stages_of (game w)) (stage (game w)) (last_feast (game w)) ->
  stage_order (stages_of (game (AdvanceGame fuel w).2))
    (stage (game (AdvanceGame fuel w).2))
    (last_feast (game (AdvanceGame fuel w).2)).
Proof.
  intros Hinv. rewrite AdvanceGame_game.
  destruct (decide (state (game w) = NEW_ROUND \/ state (game w) = IN_ROUND))
    as [Hr|Hr].
  - rewrite transition_round by done.
    assert (Hent : stages_of (game (enter_round w)) = stages_of (game w) /\
                   stage (game (enter_round w)) = stage (game w) /\
                   last_feast (game (enter_round w)) = last_feast (game w)).
    { unfold enter_round. by destruct (state (game w)). }
    destruct Hent as (He1 & He2 & He3).
    destruct (AdvanceGameStage_spec (enter_round w))
      as (s & w1 & Hs & Hrounds & _ & _ & _ & Hlf & Hnil & Hcons).
    destruct (DoRound fuel (enter_round w)) as [o w2] eqn:Hdo.
    destruct (DoRound_stages fuel _ _ _ _ _ Hs Hdo) as (H1 & H2 & H3).
    unfold stages_of. simpl. rewrite H1, H2, H3, Hrounds.
    fold (stages_of (game (enter_round w))). rewrite He1.
    assert (length (stages_of (game w))
            = length (rounds (game (enter_round w)))) as Hlen.
    { rewrite <- He1. unfold stages_of. by rewrite length_map. }
    apply (stage_order_step _ (stage (game w)) _ (last_feast (game w))).
    + exact Hinv.
    + intros Hne. rewrite Hlf by done. exact He3.
    + intros ->. rewrite Hlen. by apply AdvanceGameStage_feast.
    + intros Hss. apply Hnil. unfold stages_of in He1, Hss.
      rewrite <- He1 in Hss. by apply map_eq_nil in Hss.
    + intros Hss. rewrite <- He2, <- He3, Hlen.
      apply Hcons. intros Hnil'. apply Hss.
      unfold stages_of in *. by rewrite <- He1, Hnil'.
  - destruct (transition_no_round fuel w ltac:(tauto) ltac:(tauto))
      as (o & w2 & -> & _ & _ & H1 & H2 & H3 & _).
    unfold stages_of in *. simpl. by rewrite H1, H2, H3.
Qed.

(** X19. The stages of a game played from the start, after any number of
    calls and whatever their outcomes: the first round is the bloodbath;
    a day follows the bloodbath and every feast, a night follows every
    day, and a day or a feast follows every night; no feast comes before
    round 5, and two feasts are at least five rounds apart. *)
Theorem stages_in_order (opts : GameOptions) (trs : list Tribute)
    (events : EventList) (rate : Q) (source : nat -> Rand) (fuel n : nat) :
  let ss := stages_of (game (advance_n fuel n
                               (start (new_Game opts trs events rate) source))) in
  (forall a, ss !! 0 = Some a -> a = BLOODBATH) /\
  (forall k a b, ss !! k = Some a -> ss !! S k = Some b -> follows a b) /\
  (forall k, ss !! k = Some FEAST -> 5 <= k) /\
  (forall j k, j < k -> ss !! j = Some FEAST -> ss !! k = Some FEAST ->
     j + 5 <= k).
Proof.
  intros ss.
  assert (forall w,
            stage_order (stages_of (game w)) (stage (game w))
              (last_feast (game w)) ->
            stage_order (stages_of (game (advance_n fuel n w)))
              (stage (game (advance_n fuel n w)))
              (last_feast (game (advance_n fuel n w)))) as Hcalls.
  { induction n as [|k IH]; intros w Hw; [done|].
    simpl. by apply IH, stage_order_AdvanceGame. }
  destruct (Hcalls (start (new_Game opts trs events rate) source))
    as (H1 & H2 & _ & H4 & H5).
  { by repeat split. }
  repeat split; try done. intros k Hk. by destruct (H4 k Hk).
Qed.

(** ** The required number of fatalities *)

Lemma clamp_bounds (x lo hi : Q) :
  (lo <= hi)%Q -> (lo <= clamp x lo hi)%Q /\ (clamp x lo hi <= hi)%Q.
Proof. intros H. destruct (clamp_between x lo hi H) as (H1 & H2 & _). done. Qed.

Lemma required_fatalities_of_bounds (opts : GameOptions) (count : nat) :
  match required_fatalities_of opts count with
  | None =>
      required_fatalities_mode opts = Disable \/
      opt_required_fatalities opts = NotFinite
  | Some t =>
      (0 <= t)%Q /\
      match required_fatalities_mode opts, opt_required_fatalities opts with
      | Percent, Finite v =>
          exists z, t = inject_Z z /\ (0 <= z <= Z.of_nat count)%Z
      | Absolute, Finite v =>
          ((0 <= v)%Q -> (t == v)%Q) /\ ((v <= 0)%Q -> (t == 0)%Q)
      | _, _ => False
      end
  end.
Proof.
  unfold required_fatalities_of.
  destruct (required_fatalities_mode opts); [by left| |];
    destruct (opt_required_fatalities opts) as [v|]; try (by right).
  - destruct (clamp_bounds v 0 100) as [H0 H100]; [done|].
    set (c := clamp v 0 100) in *.
    assert (0 <= c / 100)%Q as Hlo.
    { apply Qle_shift_div_l; [done|]. by rewrite Qmult_0_l. }
    assert (c / 100 <= inject_Z 1)%Q as Hhi.
    { apply Qle_shift_div_r; [done|]. by rewrite Qmult_1_l. }
    destruct (round64_bounds (c / 100) 1 Hlo Hhi ltac:(done)) as [Hy0 Hy1].
    set (y := round64 (c / 100)) in *.
    destruct (array_length_bounds count) as (k & -> & Hk & Hk32).
    assert (k < 2 ^ 53)%Z as Hsmall.
    { assert (2 ^ 32 < 2 ^ 53)%Z by done. lia. }
    assert (0 <= inject_Z k)%Q as Hc.
    { change 0%Q with (inject_Z 0). rewrite <- Zle_Qle. lia. }
    assert (0 <= y * inject_Z k)%Q as Hp0 by by apply Qmult_le_0_compat.
    assert (y * inject_Z k <= inject_Z k)%Q as Hp1.
    { rewrite <- (Qmult_1_l (inject_Z k)) at 2.
      by apply Qmult_le_compat_r. }
    destruct (round64_bounds (y * inject_Z k) k Hp0 Hp1 Hsmall) as [Hr0 Hr1].
    assert (0 <= Qceiling (round64 (y * inject_Z k)) <= Z.of_nat count)%Z
      as Hz.
    { split.
      - change 0%Z with (Qceiling 0). by apply Qceiling_resp_le.
      - etrans; [|apply Hk].
        etrans; [apply Qceiling_resp_le, Hr1|]. by rewrite Qceiling_Z. }
    split.
    + change 0%Q with (inject_Z 0). rewrite <- Zle_Qle. lia.
    + by eexists.
  - destruct (Qle_bool v 0) eqn:E.
    + apply Qle_bool_iff in E. split; [done|]. split; [|done].
      intros Hv. by apply Qle_antisym.
    + assert (0 < v)%Q as Hv.
      { apply Qnot_le_lt. intros C. apply Qle_bool_iff in C. congruence. }
      split; [by apply Qlt_le_weak|]. split; [done|].
      intros C. exfalso. by apply (Qlt_not_le 0 v).
Qed.

(** X20. The required number of fatalities that the constructor computes is
    never negative; under [Percent] it is a whole number between zero and
    the number of tributes, under [Absolute] it is the option itself or
    zero, and it is left undefined under [Disable] and for an option that
    is not a finite number. *)
Theorem required_fatalities_of_range (opts : GameOptions) (count : nat) :
  match required_fatalities_of opts count with
  | None =>
      required_fatalities_mode opts = Disable \/
      opt_required_fatalities opts = NotFinite
  | Some t =>
      (0 <= t)%Q /\
      match required_fatalities_mode opts, opt_required_fatalities opts with
      | Percent, Finite v =>
          exists z, t = inject_Z z /\ (0 <= z <= Z.of_nat count)%Z
      | Absolute, Finite v =>
          ((0 <= v)%Q -> (t == v)%Q) /\ ((v <= 0)%Q -> (t == 0)%Q)
      | _, _ => False
      end
  end.
Proof. apply required_fatalities_of_bounds. Qed.

(** ** The event that a draw accepts *)

Lemma requirements_hold_true (reqs : list TagRequirement) (cur : nat)
    (w w' : World) :
  requirements_hold reqs cur w = (Ok true, w') ->
  w' = w /\
  forall r, r ∈ reqs ->
    exists ref t,
      alive_at (game w) (cur + player_index r) = Some (ref, t) /\
      has t (tag r) = true.
Proof.
  induction reqs as [|r reqs IH]; simpl.
  - intros [= <-]. split; [done|]. intros r Hr. by apply elem_of_nil in Hr.
  - rewrite bind_get_game.
    destruct (alive_at (game w) _) as [[ref t]|] eqn:Hat; [|done].
    destruct (has t (tag r)) eqn:Hhas; [|done].
    intros H. destruct (IH H) as [-> Hrest]. split; [done|].
    intros r' Hr'. apply elem_of_cons in Hr' as [->|Hr']; [|by apply Hrest].
    by exists ref, t.
Qed.

Lemma RequirementsSatisfied_true (e : Event) (cur left died : nat)
    (w w' : World) :
  RequirementsSatisfied e cur left died w = (Ok true, w') ->
  game w' = game w /\ players_involved e <= left /\
  quota_met (game w) died e /\ requirements_met (game w) cur e.
Proof.
  intros Hrun.
  pose proof (leaves_RequirementsSatisfied (same (fun g => g)) e cur left died w)
    as Hgame.
  rewrite Hrun in Hgame. split; [exact Hgame|]. clear Hgame.
  revert Hrun. unfold RequirementsSatisfied. rewrite bind_get_game.
  destruct (left <? players_involved e) eqn:Hfit; [done|].
  apply Nat.ltb_ge in Hfit. split; [done|]. revert Hrun.
  destruct (truthy (required_fatalities (game w))) eqn:Htruthy.
  - destruct (required_fatalities (game w)) as [target|] eqn:Hreq; [|done].
    change (default 0%Q (Some target)) with target.
    destruct (Qltb _ target && _) eqn:E1; [by rewrite bind_ret|].
    destruct (Qle_bool target _ && _) eqn:E2; [by rewrite bind_ret|].
    rewrite bind_ret. intros [-> Hreqs]%requirements_hold_true.
    split; [|done]. intros target' Ht' _.
    assert (target' = target) as -> by congruence. split.
    + intros Hnil. rewrite Hnil in E1. simpl in E1.
      rewrite andb_true_r in E1.
      apply Qnot_lt_le. intros C. apply Qltb_lt in C. congruence.
    + intros Hcons.
      assert ((length (fatalities e) =? 0) = false) as Hlen
        by (by destruct (fatalities e)).
      rewrite Hlen in E2. simpl in E2. rewrite andb_true_r in E2.
      apply Qnot_le_lt. intros C. apply Qle_bool_iff in C. congruence.
  - assert (quota_met (game w) died e) as Hquota.
    { intros target Hreq Hnz. rewrite Hreq in Htruthy.
      apply truthy_Some in Hnz. congruence. }
    destruct (negb _).
    + unfold bind at 1 2, Math_random, ret.
      destruct (Qltb _ _); [done|].
      intros [_ Hreqs]%requirements_hold_true. done.
    + rewrite bind_ret. by intros [-> Hreqs]%requirements_hold_true.
Qed.

Lemma draw_event_Some (fuel : nat) (pool : list Event)
    (cur left died tries : nat) (w w' : World) (e : Event) :
  draw_event fuel pool cur left died tries w = (Ok (Some e), w') ->
  game w' = game w /\ e ∈ pool /\ players_involved e <= left /\
  quota_met (game w) died e /\ requirements_met (game w) cur e.
Proof.
  revert tries w; induction fuel as [|fuel IH]; intros tries w; simpl;
    [done|].
  destruct (_ <? tries); [done|].
  unfold bind at 1, Math_random.
  destruct (at_index pool _) as [e0|] eqn:He; [|done].
  apply at_index_elem_of in He.
  unfold bind at 1.
  match goal with
  | |- context [RequirementsSatisfied e0 cur left died ?w1] =>
      pose proof (leaves_RequirementsSatisfied (same (fun g => g))
                    e0 cur left died w1) as Hgame;
      destruct (RequirementsSatisfied e0 cur left died w1)
        as [[[|]|err|] w2] eqn:Hrs
  end; try done.
  - intros [= <- <-].
    apply RequirementsSatisfied_true in Hrs as (Hg & Hfit & Hq & Hr).
    done.
  - intros Hrec. apply IH in Hrec as (Hg & Hrest).
    unfold same in Hgame. simpl in Hgame. rewrite Hgame in Hg, Hrest.
    done.
Qed.

(** X21. An event that the draw loop accepts, whatever the random source
    gave: it is one of the pool; it fits the roster slots that are left;
    with a required number of fatalities other than zero it has a fatality
    exactly while that number is not reached; every tag it requires is
    carried by the participant it asks it of; and the draw has written
    nothing to the game. *)
Theorem draw_event_accepted (fuel : nat) (pool : list Event)
    (cur left died tries : nat) (w w' : World) (e : Event) :
  draw_event fuel pool cur left died tries w = (Ok (Some e), w') ->
  game w' = game w /\ e ∈ pool /\ players_involved e <= left /\
  quota_met (game w) died e /\ requirements_met (game w) cur e.
Proof. apply draw_event_Some. Qed.

Lemma draw_event_accepted_witness :
  game (draw_event 200 [kill; rest] 0 2 0 0
          (start (quota_game (quota Absolute 1)) zeros)).2
  = quota_game (quota Absolute 1) /\
  kill ∈ [kill; rest] /\ players_involved kill <= 2 /\
  quota_met (quota_game (quota Absolute 1)) 0 kill /\
  requirements_met (quota_game (quota Absolute 1)) 0 kill.
Proof.
  apply (draw_event_accepted 200 [kill; rest] 0 2 0 0
           (start (quota_game (quota Absolute 1)) zeros)).
  vm_compute. reflexivity.
Defined.

(** ** Tags of a tribute *)

Lemma has_elem_of (tr : Tribute) (t : Tag) : has tr t = true <-> t ∈ tags tr.
Proof.
  unfold has. rewrite existsb_exists. split.
  - intros (x & Hx & ->%Nat.eqb_eq). by apply list_elem_of_In.
  - intros H. exists t. split; [by apply list_elem_of_In|apply Nat.eqb_refl].
Qed.

(** X22. [tribute.tag(t)] gives the tribute the tag and nothing else: after
    it the tribute has [t], has every other tag exactly if it had it
    before, lists no tag twice if it did not before, keeps its other
    fields, and a second call changes nothing. *)
Theorem Tribute_tag_adds_once (t : Tag) (tr : Tribute) :
  has (Tribute_tag t tr) t = true /\
  (forall u, u <> t -> has (Tribute_tag t tr) u = has tr u) /\
  (NoDup (tags tr) -> NoDup (tags (Tribute_tag t tr))) /\
  tags tr `prefix_of` tags (Tribute_tag t tr) /\
  Tribute_tag t (Tribute_tag t tr) = Tribute_tag t tr /\
  (raw_name (Tribute_tag t tr), name (Tribute_tag t tr),
   pronouns (Tribute_tag t tr), uses_pronouns (Tribute_tag t tr),
   plural (Tribute_tag t tr), kills (Tribute_tag t tr),
   died_in_round (Tribute_tag t tr))
  = (raw_name tr, name tr, pronouns tr, uses_pronouns tr, plural tr,
     kills tr, died_in_round tr).
Proof.
  unfold Tribute_tag. destruct (has tr t) eqn:E.
  - rewrite E. repeat split; done.
  - assert (has {| raw_name := raw_name tr; name := name tr;
                   pronouns := pronouns tr;
                   uses_pronouns := uses_pronouns tr; plural := plural tr;
                   kills := kills tr; died_in_round := died_in_round tr;
                   tags := tags tr ++ [t] |} t = true) as Hhas.
    { apply has_elem_of. simpl. apply elem_of_app. right. by left. }
    rewrite Hhas. split; [done|]. split; [|split; [|split; [|done]]].
    + intros u Hu. apply eq_true_iff_eq. rewrite !has_elem_of. simpl.
      rewrite elem_of_app, list_elem_of_singleton. tauto.
    + intros Hnd. simpl. apply NoDup_app. split; [done|].
      split; [|apply NoDup_singleton].
      intros x Hx ->%list_elem_of_singleton.
      apply has_elem_of in Hx. congruence.
    + by apply prefix_app_r.
Qed.

(** ** The registry of tags *)

Lemma has_name_spec (s : Tags) (name : string) (t : Tag) :
  has_name s name t = true <-> Tag_name s t = Some name.
Proof.
  unfold has_name. destruct (Tag_name s t) as [n|]; [|done].
  rewrite String.eqb_eq. split; [by intros ->|by intros [= ->]].
Qed.

Lemma find_app_None {A} (f : A -> bool) (l : list A) (x : A) :
  find f l = None -> f x = true -> find f (l ++ [x]) = Some x.
Proof.
  induction l as [|y l IH]; simpl; intros Hl Hx; [by rewrite Hx|].
  destruct (f y); [done|]. by apply IH.
Qed.

Lemma find_ext {A} (f g : A -> bool) (l : list A) :
  (forall x, x ∈ l -> f x = g x) -> find f l = find g l.
Proof.
  induction l as [|y l IH]; simpl; intros H; [done|].
  rewrite (H y) by by left. destruct (g y); [done|].
  apply IH. intros x Hx. apply H. by right.
Qed.

Lemma Tag_name_new (s : Tags) (name : string) (u : Tag) :
  u < next_id s -> Tag_name (new_Tag name s).2 u = Tag_name s u.
Proof. intros Hu. unfold Tag_name. simpl. by apply lookup_app_l. Qed.

Lemma new_Tag_valid (s : Tags) (name : string) :
  registry_valid s ->
  (forall t, t ∈ registered_tags s -> Tag_name s t <> Some name) ->
  registry_valid (new_Tag name s).2.
Proof.
  intros (Hnd & Hlt & Hnames) Hfresh. unfold registry_valid. simpl.
  rewrite Forall_forall in Hlt.
  split; [|split].
  - apply NoDup_app. split; [done|]. split; [|apply NoDup_singleton].
    intros x Hx ->%list_elem_of_singleton. specialize (Hlt _ Hx). lia.
  - apply Forall_app. split.
    + apply Forall_forall. intros x Hx. specialize (Hlt _ Hx).
      unfold next_id in *. simpl. rewrite length_app. simpl. lia.
    + constructor; [|done]. unfold next_id. simpl.
      rewrite length_app. simpl. lia.
  - rewrite map_app. simpl.
    assert (map (Tag_name (new_Tag name s).2) (registered_tags s)
            = map (Tag_name s) (registered_tags s)) as Hmap.
    { apply map_ext_in. intros x Hx%list_elem_of_In.
      apply Tag_name_new. by apply Hlt. }
    simpl in Hmap. rewrite Hmap.
    assert (Tag_name (new_Tag name s).2 (next_id s) = Some name) as Hnew.
    { unfold Tag_name, next_id. simpl.
      by rewrite lookup_app_r, Nat.sub_diag. }
    simpl in Hnew. rewrite Hnew.
    apply NoDup_app. split; [done|]. split; [|apply NoDup_singleton].
    intros x Hx ->%list_elem_of_singleton.
    apply list_elem_of_fmap in Hx as (t & Ht & Hin).
    by apply (Hfresh t).
Qed.

Lemma Tag_for_spec (name : string) (s : Tags) :
  registry_valid s ->
  let t := (Tag_for name s).1 in
  let s' := (Tag_for name s).2 in
  t ∈ registered_tags s' /\ Tag_name s' t = Some name /\
  ((exists u, u ∈ registered_tags s /\ Tag_name s u = Some name) -> s' = s) /\
  ((forall u, u ∈ registered_tags s -> Tag_name s u <> Some name) ->
   t = next_id s /\
   registered_tags s' = registered_tags s ++ [t] /\
   tag_names s' = tag_names s ++ [name]) /\
  registered_tags s `prefix_of` registered_tags s' /\
  (forall u, u < next_id s -> Tag_name s' u = Tag_name s u) /\
  Tag_for name s' = (t, s') /\
  registry_valid s'.
Proof.
  intros Hvalid. unfold Tag_for.
  destruct (find (has_name s name) (registered_tags s)) as [t|] eqn:Hfind.
  - simpl. rewrite Hfind. apply find_some in Hfind as [Hin Hname].
    apply list_elem_of_In in Hin. apply has_name_spec in Hname.
    split; [done|]. split; [done|]. split; [done|].
    split; [intros Hno; by destruct (Hno t Hin)|].
    by repeat (split; [done|]).
  - assert (forall t, t ∈ registered_tags s -> Tag_name s t <> Some name)
      as Hfresh.
    { intros t Hin Hname. apply has_name_spec in Hname.
      apply list_elem_of_In in Hin.
      by rewrite (find_none _ _ Hfind t Hin) in Hname. }
    destruct Hvalid as (Hnd & Hlt & Hnames).
    assert (Tag_name (new_Tag name s).2 (next_id s) = Some name) as Hnew.
    { unfold Tag_name, next_id. simpl.
      by rewrite lookup_app_r, Nat.sub_diag. }
    split; [simpl; apply elem_of_app; right; by left|].
    split; [done|].
    split; [intros (u & Hu & Hname); by destruct (Hfresh u Hu)|].
    split; [done|].
    split; [by apply prefix_app_r|].
    split; [intros u Hu; by apply Tag_name_new|].
    split; [|by apply new_Tag_valid].
    assert (find (has_name (new_Tag name s).2 name)
              (registered_tags s ++ [next_id s]) = Some (next_id s)) as Hf.
    { apply find_app_None; [|by apply has_name_spec].
      rewrite <- Hfind. apply find_ext. intros x Hx. unfold has_name.
      rewrite Tag_name_new; [done|].
      rewrite Forall_forall in Hlt. by apply Hlt. }
    simpl in *. by rewrite Hf.
Qed.

(** X23. [Tag.for(name)] gets or creates: it returns a registered tag of that
    name; if there is a registered tag of that name, nothing changes; if
    there is none, the tag returned is a new one, and it is the one tag
    that the call adds, at the end of the registry, under that name; it
    leaves every earlier tag and its name as they were; a second call
    returns the same tag and changes nothing; and it keeps the registry
    valid (no tag twice, no name twice). *)
Theorem Tag_for_gets_or_creates (name : string) (s : Tags) :
  registry_valid s ->
  let t := (Tag_for name s).1 in
  let s' := (Tag_for name s).2 in
  t ∈ registered_tags s' /\ Tag_name s' t = Some name /\
  ((exists u, u ∈ registered_tags s /\ Tag_name s u = Some name) -> s' = s) /\
  ((forall u, u ∈ registered_tags s -> Tag_name s u <> Some name) ->
   t = next_id s /\
   registered_tags s' = registered_tags s ++ [t] /\
   tag_names s' = tag_names s ++ [name]) /\
  registered_tags s `prefix_of` registered_tags s' /\
  (forall u, u < next_id s -> Tag_name s' u = Tag_name s u) /\
  Tag_for name s' = (t, s') /\
  registry_valid s'.
Proof. apply Tag_for_spec. Qed.

Lemma Tag_for_gets_or_creates_witness :
  let s := {| tag_names := ["career"]; registered_tags := [0] |} in
  let t := (Tag_for "medic" s).1 in
  let s' := (Tag_for "medic" s).2 in
  t ∈ registered_tags s' /\ Tag_name s' t = Some "medic" /\
  ((exists u, u ∈ registered_tags s /\ Tag_name s u = Some "medic") -> s' = s) /\
  ((forall u, u ∈ registered_tags s -> Tag_name s u <> Some "medic") ->
   t = next_id s /\
   registered_tags s' = registered_tags s ++ [t] /\
   tag_names s' = tag_names s ++ ["medic"]) /\
  registered_tags s `prefix_of` registered_tags s' /\
  (forall u, u < next_id s -> Tag_name s' u = Tag_name s u) /\
  Tag_for "medic" s' = (t, s') /\
  registry_valid s'.
Proof.
  apply (Tag_for_gets_or_creates "medic"
           {| tag_names := ["career"]; registered_tags := [0] |}).
  split; [|split]; simpl.
  - apply NoDup_singleton.
  - constructor; [vm_compute; lia|constructor].
  - apply NoDup_singleton.
Defined.

(** X24. The setter of a tag's name throws exactly when some registered tag
    has the new name already, the tag itself included, so that a tag cannot
    be renamed to its own name; when it does not throw, only that tag's
    name changes and the registry stays valid. *)
Theorem set_name_checks_the_registry (t : Tag) (name : string) (s : Tags) :
  registry_valid s -> t < next_id s ->
  (set_name t name s = None <->
   exists u, u ∈ registered_tags s /\ Tag_name s u = Some name) /\
  (t ∈ registered_tags s -> Tag_name s t = Some name ->
   set_name t name s = None) /\
  (forall s', set_name t name s = Some s' ->
     Tag_name s' t = Some name /\
     (forall u, u <> t -> Tag_name s' u = Tag_name s u) /\
     registered_tags s' = registered_tags s /\
     registry_valid s').
Proof.
  intros (Hnd & Hlt & Hnames) Ht.
  assert (set_name t name s = None <->
          exists u, u ∈ registered_tags s /\ Tag_name s u = Some name)
    as Hthrows.
  { unfold set_name.
    destruct (existsb (has_name s name) (registered_tags s)) eqn:E.
    - apply existsb_exists in E as (u & Hu & Hname).
      split; [|done]. intros _. exists u.
      split; [by apply list_elem_of_In|by apply has_name_spec].
    - split; [done|]. intros (u & Hu & Hname).
      assert (existsb (has_name s name) (registered_tags s) = true) as C.
      { apply existsb_exists. exists u.
        split; [by apply list_elem_of_In|by apply has_name_spec]. }
      congruence. }
  split; [done|]. split.
  { intros Hin Hname. apply Hthrows. by exists t. }
  intros s' Hset.
  assert (forall u, u ∈ registered_tags s -> Tag_name s u <> Some name)
    as Hfresh.
  { intros u Hu Hname.
    assert (set_name t name s = None) as C by (apply Hthrows; by exists u).
    congruence. }
  unfold set_name in Hset.
  destruct (existsb _ _); [done|]. injection Hset as <-.
  assert (Tag_name {| tag_names := <[t:=name]> (tag_names s);
                      registered_tags := registered_tags s |} t = Some name)
    as Hnew.
  { unfold Tag_name. simpl. by apply list_lookup_insert_eq. }
  assert (forall u, u <> t ->
            Tag_name {| tag_names := <[t:=name]> (tag_names s);
                        registered_tags := registered_tags s |} u
            = Tag_name s u) as Hother.
  { intros u Hu. unfold Tag_name. simpl. by apply list_lookup_insert_ne. }
  split; [done|]. split; [done|]. split; [done|].
  unfold registry_valid, next_id. simpl. rewrite length_insert.
  split; [done|]. split; [done|].
  apply NoDup_alt. intros i j x Hi Hj.
  rewrite list_lookup_fmap in Hi, Hj.
  destruct (registered_tags s !! i) as [a|] eqn:Ha; [|done].
  destruct (registered_tags s !! j) as [b|] eqn:Hb; [|done].
  simpl in Hi, Hj. injection Hi as Hi. injection Hj as Hj.
  assert (a ∈ registered_tags s) as Hain by by eapply list_elem_of_lookup_2.
  assert (b ∈ registered_tags s) as Hbin by by eapply list_elem_of_lookup_2.
  destruct (decide (a = t)) as [->|Hat], (decide (b = t)) as [->|Hbt].
  - by apply (NoDup_lookup _ i j t Hnd).
  - rewrite Hnew in Hi. rewrite Hother in Hj by done.
    subst x. by destruct (Hfresh b Hbin).
  - rewrite Hnew in Hj. rewrite Hother in Hi by done.
    subst x. by destruct (Hfresh a Hain).
  - rewrite Hother in Hi, Hj by done.
    apply (NoDup_lookup _ i j x Hnames);
      rewrite list_lookup_fmap; [by rewrite Ha; simpl; f_equal
                                |by rewrite Hb; simpl; f_equal].
Qed.

Lemma set_name_checks_the_registry_witness :
  set_name 0 "career" {| tag_names := ["career"]; registered_tags := [0] |}
  = None.
Proof.
  apply (set_name_checks_the_registry 0 "career"
           {| tag_names := ["career"]; registered_tags := [0] |}).
  - split; [|split]; simpl.
    + apply NoDup_singleton.
    + constructor; [vm_compute; lia|constructor].
    + apply NoDup_singleton.
  - vm_compute. lia.
  - by left.
  - reflexivity.
Defined.

(** ** The slots of the roster *)

Lemma alive_at_bound (g : Game) (i : nat) :
  slot_bound g i <-> exists ref t, alive_at g i = Some (ref, t).
Proof.
  unfold slot_bound, alive_at. split.
  - intros (ref & Hi & Hlt). rewrite Hi. simpl.
    destruct (lookup_lt_is_Some_2 (tributes g) ref Hlt) as [t Ht].
    exists ref, t. by rewrite Ht.
  - intros (ref & t & H).
    destruct (tributes_alive g !! i) as [ref'|]; simpl in H; [|done].
    destruct (tributes g !! ref') as [t'|] eqn:Ht; simpl in H; [|done].
    injection H as -> ->. exists ref. split; [done|].
    by apply lookup_lt_Some in Ht.
Qed.

Lemma alive_at_None (g : Game) (i : nat) :
  alive_at g i = None -> ~ slot_bound g i.
Proof.
  intros H [ref [t Ht]]%alive_at_bound. congruence.
Qed.

Lemma slot_bound_frame (idx : nat) (g g' : Game) (i : nat) :
  frame idx g' = frame idx g -> slot_bound g i -> slot_bound g' i.
Proof.
  unfold frame, slot_bound. intros [= Ha Ht _ _]. by rewrite Ha, Ht.
Qed.

Lemma slot_bound_roster (g : Game) (i : nat) :
  Forall (fun ref => ref < length (tributes g)) (tributes_alive g) ->
  i < length (tributes_alive g) -> slot_bound g i.
Proof.
  intros Hall Hi.
  destruct (lookup_lt_is_Some_2 _ _ Hi) as [ref Href].
  exists ref. split; [done|].
  rewrite Forall_forall in Hall. apply Hall.
  by eapply list_elem_of_lookup_2.
Qed.

Lemma events_of_alter (idx : nat) (f : GameRound -> GameRound) (g : Game) :
  events_of idx (set_rounds (alter f idx (rounds g)) g)
  = default [] ((fun r => game_events (f r)) <$> rounds g !! idx).
Proof.
  unfold events_of. simpl. rewrite list_lookup_alter_eq.
  by destruct (rounds g !! idx).
Qed.

Lemma frame_loop_writes (idx : nat) :
  (forall g i ref t,
     alive_at g i = Some (ref, t) ->
     same (frame idx) g (record_death idx ref g)) /\
  (forall g ref n,
     same (frame idx) g
       (set_tributes (alter (add_kills n) ref (tributes g)) g)).
Proof.
  split.
  - intros g i ref t _. unfold same, frame, record_death, events_of. simpl.
    rewrite list_lookup_alter_eq, !length_alter.
    by destruct (rounds g !! idx).
  - intros g ref n. unfold same, frame. simpl. by rewrite length_alter.
Qed.

(** ** The steps of a round, one by one *)

Lemma handle_fatalities_frame (idx cur : nat) (fs : list nat) (n : Z)
    (died : nat) (w : World) :
  frame idx (game (handle_fatalities idx cur fs n died w).2)
  = frame idx (game w).
Proof.
  apply (leaves_handle_fatalities (same (frame idx)) idx).
  apply frame_loop_writes.
Qed.

Lemma handle_fatalities_throws (idx cur : nat) (fs : list nat) (n : Z)
    (died : nat) (w : World) (err : Error) :
  (handle_fatalities idx cur fs n died w).1 = Throw err ->
  ~ Forall (fun f => slot_bound (game w) (cur + f)) fs.
Proof.
  revert n died w; induction fs as [|f fs IH]; intros n died w; simpl;
    [done|].
  rewrite bind_get_game.
  destruct (alive_at (game w) (cur + f)) as [[ref t]|] eqn:Hat.
  - rewrite bind_modify_game. intros Hrun Hall.
    apply Forall_cons in Hall as [_ Hall].
    apply IH in Hrun. apply Hrun.
    eapply Forall_impl; [exact Hall|]. intros x.
    apply (slot_bound_frame idx). simpl.
    by apply (proj1 (frame_loop_writes idx) _ _ _ _ Hat).
  - intros _ Hall. apply Forall_cons in Hall as [Hf _].
    by apply alive_at_None in Hat.
Qed.

Lemma credit_killers_frame (idx cur : nat) (ks : list nat) (n : nat)
    (w : World) :
  frame idx (game (credit_killers cur ks n w).2) = frame idx (game w).
Proof.
  apply (leaves_credit_killers (same (frame idx))).
  apply frame_loop_writes.
Qed.

Lemma credit_killers_throws (idx cur : nat) (ks : list nat) (n : nat)
    (w : World) (err : Error) :
  (credit_killers cur ks n w).1 = Throw err ->
  ~ Forall (fun k => slot_bound (game w) (cur + k)) ks.
Proof.
  revert w; induction ks as [|k ks IH]; intros w; simpl; [done|].
  rewrite bind_get_game.
  destruct (alive_at (game w) (cur + k)) as [[ref t]|] eqn:Hat.
  - rewrite bind_modify_game. intros Hrun Hall.
    apply Forall_cons in Hall as [_ Hall].
    apply IH in Hrun. apply Hrun.
    eapply Forall_impl; [exact Hall|]. intros x.
    apply (slot_bound_frame idx). simpl.
    apply (proj2 (frame_loop_writes idx)).
  - intros _ Hall. apply Forall_cons in Hall as [Hf _].
    by apply alive_at_None in Hat.
Qed.

Lemma requirements_hold_throws (reqs : list TagRequirement) (cur : nat)
    (w : World) (err : Error) :
  (requirements_hold reqs cur w).1 = Throw err ->
  exists q, q ∈ reqs /\ ~ slot_bound (game w) (cur + player_index q).
Proof.
  induction reqs as [|r reqs IH]; simpl; [done|].
  rewrite bind_get_game.
  destruct (alive_at (game w) _) as [[ref t]|] eqn:Hat.
  - destruct (has t (tag r)); [|done].
    intros (q & Hq & Hb)%IH. exists q. split; [by right|done].
  - intros _. exists r. split; [by left|]. by apply alive_at_None.
Qed.

Lemma RequirementsSatisfied_throws (e : Event) (cur left died : nat)
    (w : World) (err : Error) :
  (RequirementsSatisfied e cur left died w).1 = Throw err ->
  players_involved e <= left /\
  exists q, q ∈ requirements e /\ ~ slot_bound (game w) (cur + player_index q).
Proof.
  unfold RequirementsSatisfied. rewrite bind_get_game.
  destruct (left <? players_involved e) eqn:Hfit; [done|].
  apply Nat.ltb_ge in Hfit. intros Hrun. split; [done|]. revert Hrun.
  destruct (truthy _).
  - destruct (_ && _); [by rewrite bind_ret|].
    destruct (_ && _); rewrite bind_ret; [done|].
    apply requirements_hold_throws.
  - destruct (negb _).
    + unfold bind at 1 2, Math_random, ret. destruct (Qltb _ _); [done|].
      apply (requirements_hold_throws _ _ (consume w)).
    + rewrite bind_ret. apply requirements_hold_throws.
Qed.

Lemma at_index_randomInt {A} (l : list A) (r : Rand) :
  l <> [] -> is_Some (at_index l (randomInt 0 (Z.of_nat (length l)) r)).
Proof.
  intros Hl. unfold at_index.
  assert (0 < length l) as Hlen by (destruct l; [done|simpl; lia]).
  unfold randomInt. destruct (rand_value_range r) as [H0 H1].
  pose proof (Qfloor_scaled (rand_value r) (Z.of_nat (length l) - 0) H0 H1
                ltac:(lia)) as Hj.
  destruct (_ <? 0)%Z eqn:E; [apply Z.ltb_lt in E; lia|].
  apply lookup_lt_is_Some_2. lia.
Qed.

Lemma draw_event_throws (fuel : nat) (pool : list Event)
    (cur left died tries : nat) (w : World) (err : Error) :
  (draw_event fuel pool cur left died tries w).1 = Throw err ->
  pool = [] \/
  exists e, e ∈ pool /\ players_involved e <= left /\
    exists q, q ∈ requirements e /\
              ~ slot_bound (game w) (cur + player_index q).
Proof.
  revert tries w; induction fuel as [|fuel IH]; intros tries w; simpl;
    [done|].
  destruct (_ <? tries); [done|].
  unfold bind at 1, Math_random.
  destruct (at_index pool _) as [e0|] eqn:He.
  2: { intros _. left. destruct pool as [|e pool]; [done|].
       destruct (at_index_randomInt (e :: pool)
                   (random_source w (random_pos w)) ltac:(done)) as [x Hx].
       congruence. }
  apply at_index_elem_of in He.
  unfold bind at 1.
  match goal with
  | |- context [RequirementsSatisfied e0 cur left died ?w1] =>
      pose proof (RequirementsSatisfied_throws e0 cur left died w1) as Hthrow;
      pose proof (leaves_RequirementsSatisfied (same (fun g => g))
                    e0 cur left died w1) as Hgame;
      destruct (RequirementsSatisfied e0 cur left died w1)
        as [[[|]|err'|] w2]
  end; try done.
  - intros Hrec. apply IH in Hrec as [Hnil|(e & He' & Hfit & q & Hq & Hb)];
      [by left|].
    right. exists e. split; [done|]. split; [done|]. exists q.
    split; [done|]. unfold same in Hgame. simpl in Hgame.
    unfold slot_bound in *. by rewrite <- Hgame.
  - intros _. right. destruct (Hthrow err' eq_refl) as (Hfit & q & Hq & Hb).
    exists e0. split; [done|]. split; [done|]. by exists q.
Qed.

Lemma new_GameEvent_run (e : Event) (involved : list (option TributeRef))
    (w : World) :
  (new_GameEvent e involved w).2 = w /\
  (forall ge, (new_GameEvent e involved w).1 = Ok ge ->
     ge_event ge = e /\ ge_players_involved ge = involved) /\
  (forall err, (new_GameEvent e involved w).1 = Throw err ->
     Forall (fun d => d < players_involved e) (regex_digits (message e)) ->
     placeholders_counted (message e) = true ->
     ~ forall i, i < players_involved e ->
         exists ref t, involved !! i = Some (Some ref) /\
                       tributes (game w) !! ref = Some t).
Proof.
  unfold new_GameEvent. rewrite bind_get_game.
  destruct (ComposeEventMessage _ _ _) as [msg|err|] eqn:Hc; simpl.
  - split; [done|]. split; [|done]. by intros ge [= <-].
  - split; [done|]. split; [done|]. intros err' _ Hdigits Hcounted Hbound.
    destruct (compose_loop_counted (message e) (players_involved e)
                (map (fun o => ref ← o; tributes (game w) !! ref) involved)
                Hcounted) with (fuel := S (String.length (message e)))
                               (prev := 0) (i := 0)
                               (composed := @nil Segment)
      as [segs Hsegs]; try lia.
    + intros i Hi. destruct (Hbound i Hi) as (ref & t & Hinv & Ht).
      exists t. rewrite list_lookup_fmap, Hinv. simpl. by rewrite Ht.
    + by rewrite slice_from_0.
    + unfold ComposeEventMessage in Hc. congruence.
  - by apply ComposeEventMessage_returns in Hc.
Qed.

(** ** The loop of a round *)

Lemma lookup_window {A} (l : list A) (cur p : nat) :
  cur + p <= length l ->
  map (fun i => l !! i) (seq cur p) = map Some (take p (drop cur l)).
Proof.
  revert cur; induction p as [|p IH]; intros cur H; simpl.
  - done.
  - destruct (lookup_lt_is_Some_2 l cur) as [x Hx]; [lia|].
    rewrite Hx, (drop_S _ _ _ Hx). simpl. f_equal. apply IH. lia.
Qed.

Lemma events_of_push (idx : nat) (ge : GameEvent) (g : Game) :
  idx < length (rounds g) ->
  events_of idx
    (set_rounds
       (alter (fun r => set_round_events (game_events r ++ [ge]) r) idx
          (rounds g)) g)
  = events_of idx g ++ [ge].
Proof.
  intros Hidx. rewrite events_of_alter. unfold events_of.
  destruct (lookup_lt_is_Some_2 _ _ Hidx) as [r ->]. done.
Qed.

Lemma participants_app (l k : list GameEvent) :
  participants (l ++ k) = participants l ++ participants k.
Proof. unfold participants. by rewrite bind_app. Qed.

Lemma participants_singleton (ge : GameEvent) :
  participants [ge] = ge_players_involved ge.
Proof. unfold participants. simpl. by rewrite app_nil_r. Qed.

(** The loop of the round at [idx], entered at the roster slot [cur] with
    [left] slots to go. Whatever its outcome, it leaves the roster and the
    number of tributes and of rounds as they were, and the events it
    records come from the pool and take consecutive windows of the roster,
    from [cur] on. It throws only for a pool or a roster that is not
    sound. *)
Lemma round_loop_run (dfuel fuel idx : nat) (pool : list Event)
    (left : nat) (n : Z) (cur died : nat) (w w' : World) (o : Outcome unit) :
  round_loop dfuel fuel idx pool left n cur died w = (o, w') ->
  idx < length (rounds (game w)) ->
  cur + left = length (tributes_alive (game w)) ->
  (tributes_alive (game w'), length (tributes (game w')),
   length (rounds (game w')))
  = (tributes_alive (game w), length (tributes (game w)),
     length (rounds (game w))) /\
  exists evs k,
    events_of idx (game w') = events_of idx (game w) ++ evs /\
    k <= left /\
    participants evs
    = map Some (take k (drop cur (tributes_alive (game w)))) /\
    Forall (drawn_from pool) evs /\
    (forall err, o = Throw err ->
       pool <> [] -> Forall event_sound pool ->
       Forall (fun ref => ref < length (tributes (game w)))
         (tributes_alive (game w)) ->
       False).
Proof.
  revert left n cur died w.
  induction fuel as [|fuel IH]; intros left n cur died w; simpl.
  { intros [= <- <-] _ _. split; [done|]. exists [], 0.
    rewrite app_nil_r, take_0. by repeat (split; [done || lia|]). }
  destruct (left =? 0).
  { intros [= <- <-] _ _. split; [done|]. exists [], 0.
    rewrite app_nil_r, take_0. by repeat (split; [done || lia|]). }
  unfold bind at 1.
  pose proof (draw_event_throws dfuel pool cur left died 0 w) as Hdthrow.
  destruct (draw_event dfuel pool cur left died 0 w)
    as [[[e|]|err|] w1] eqn:Hdraw.
  2: { intros [= <- <-] _ _. split.
       { pose proof (leaves_draw_event (same (fun g => g)) dfuel pool cur
                       left died 0 w) as Hg.
         rewrite Hdraw in Hg. unfold same in Hg. simpl in Hg. by rewrite Hg. }
       pose proof (leaves_draw_event (same (fun g => g)) dfuel pool cur
                     left died 0 w) as Hg.
       rewrite Hdraw in Hg. unfold same in Hg. simpl in Hg. rewrite Hg.
       exists [], 0. rewrite app_nil_r, take_0.
       by repeat (split; [done || lia|]). }
  2: { intros [= <- <-] Hidx Hlen.
       pose proof (leaves_draw_event (same (fun g => g)) dfuel pool cur
                     left died 0 w) as Hg.
       rewrite Hdraw in Hg. unfold same in Hg. simpl in Hg. rewrite Hg.
       split; [done|].
       exists [], 0. rewrite app_nil_r, take_0.
       split; [done|]. split; [lia|]. split; [done|]. split; [done|].
       intros err' _ Hne Hsound Hroster.
       destruct (Hdthrow err eq_refl)
         as [Hnil|(e & He & Hfit & q & Hq & Hb)]; [done|].
       apply Hb. apply slot_bound_roster; [done|].
       rewrite Forall_forall in Hsound.
       destruct (Hsound e He) as (_ & _ & _ & _ & _ & Hreqs).
       rewrite Forall_forall in Hreqs. specialize (Hreqs q Hq). lia. }
  2: { intros [= <- <-] _ _.
       pose proof (leaves_draw_event (same (fun g => g)) dfuel pool cur
                     left died 0 w) as Hg.
       rewrite Hdraw in Hg. unfold same in Hg. simpl in Hg. rewrite Hg.
       split; [done|].
       exists [], 0. rewrite app_nil_r, take_0.
       by repeat (split; [done || lia|]). }
  (* an event is drawn *)
  clear Hdthrow.
  apply draw_event_Some in Hdraw as (Hg1 & He & Hfit & _ & _).
  intros Hrun Hidx Hlen.
  rewrite <- Hg1 in Hidx, Hlen |- *.
  set (A := tributes_alive (game w1)) in *.
  set (p := players_involved e) in *.
  revert Hrun. unfold bind at 1.
  pose proof (handle_fatalities_frame idx cur (fatalities e) n died w1) as F2.
  pose proof (handle_fatalities_throws idx cur (fatalities e) n died w1)
    as T2.
  destruct (handle_fatalities idx cur (fatalities e) n died w1)
    as [[[n' died']|err|] w2]; simpl in F2, T2.
  2: { intros [= <- <-]. unfold frame in F2. injection F2 as Fa Ft Fr Fe.
       split; [by rewrite Fa, Ft, Fr|].
       exists [], 0. rewrite app_nil_r, take_0, Fe.
       split; [done|]. split; [lia|]. split; [done|]. split; [done|].
       intros err' _ Hne Hsound Hroster. apply (T2 err eq_refl).
       rewrite Forall_forall in Hsound.
       destruct (Hsound e He) as (_ & _ & _ & Hfat & _).
       eapply Forall_impl; [exact Hfat|]. intros f Hf. simpl in Hf.
       apply slot_bound_roster; [done|]. fold A. fold p in Hf. lia. }
  2: { intros [= <- <-]. unfold frame in F2. injection F2 as Fa Ft Fr Fe.
       split; [by rewrite Fa, Ft, Fr|].
       exists [], 0. rewrite app_nil_r, take_0, Fe.
       by repeat (split; [done || lia|]). }
  unfold bind at 1.
  pose proof (credit_killers_frame idx cur (killers e)
                (length (fatalities e)) w2) as F3.
  pose proof (credit_killers_throws idx cur (killers e)
                (length (fatalities e)) w2) as T3.
  destruct (credit_killers cur (killers e) (length (fatalities e)) w2)
    as [[[]|err|] w3]; simpl in F3, T3.
  2: { intros [= <- <-]. rewrite F2 in F3.
       unfold frame in F3. injection F3 as Fa Ft Fr Fe.
       split; [by rewrite Fa, Ft, Fr|].
       exists [], 0. rewrite app_nil_r, take_0, Fe.
       split; [done|]. split; [lia|]. split; [done|]. split; [done|].
       intros err' _ Hne Hsound Hroster. apply (T3 err eq_refl).
       rewrite Forall_forall in Hsound.
       destruct (Hsound e He) as (_ & _ & _ & _ & Hkil & _).
       eapply Forall_impl; [exact Hkil|]. intros k Hk. simpl in Hk.
       apply (slot_bound_frame idx (game w1)); [done|].
       apply slot_bound_roster; [done|]. fold A. fold p in Hk. lia. }
  2: { intros [= <- <-]. rewrite F2 in F3.
       unfold frame in F3. injection F3 as Fa Ft Fr Fe.
       split; [by rewrite Fa, Ft, Fr|].
       exists [], 0. rewrite app_nil_r, take_0, Fe.
       by repeat (split; [done || lia|]). }
  rewrite F2 in F3. unfold frame in F3. injection F3 as Fa Ft Fr Fe.
  rewrite bind_get_game, Fa. fold A. fold p.
  rewrite (lookup_window A cur p) by lia.
  unfold bind at 1.
  destruct (new_GameEvent_run e (map Some (take p (drop cur A))) w3)
    as (Hw4 & Hge & T4).
  destruct (new_GameEvent e (map Some (take p (drop cur A))) w3)
    as [[ge|err|] w4]; simpl in Hw4, Hge, T4; subst w4.
  2: { intros [= <- <-]. split; [by rewrite Fa, Ft, Fr|].
       exists [], 0. rewrite app_nil_r, take_0, Fe.
       split; [done|]. split; [lia|]. split; [done|]. split; [done|].
       intros err' _ Hne Hsound Hroster.
       rewrite Forall_forall in Hsound.
       destruct (Hsound e He) as (_ & Hdig & Hcnt & _).
       apply (T4 err eq_refl Hdig Hcnt). intros i Hi. fold p in Hi.
       destruct (lookup_lt_is_Some_2 (take p (drop cur A)) i) as [ref Href].
       { rewrite length_take, length_drop. lia. }
       assert (ref ∈ A) as Hin.
       { apply list_elem_of_lookup_2 in Href.
         apply (elem_of_submseteq _ _ _ Href).
         etrans; [apply submseteq_take|apply submseteq_drop]. }
       rewrite Forall_forall in Hroster. specialize (Hroster ref Hin).
       rewrite <- Ft in Hroster.
       destruct (lookup_lt_is_Some_2 _ _ Hroster) as [t Ht].
       exists ref, t. by rewrite list_lookup_fmap, Href. }
  2: { intros [= <- <-]. split; [by rewrite Fa, Ft, Fr|].
       exists [], 0. rewrite app_nil_r, take_0, Fe.
       by repeat (split; [done || lia|]). }
  destruct (Hge ge eq_refl) as [Hev Hinv].
  rewrite bind_modify_game.
  set (w5 := update _ w3).
  assert (tributes_alive (game w5) = A /\
          length (tributes (game w5)) = length (tributes (game w1)) /\
          length (rounds (game w5)) = length (rounds (game w1)) /\
          events_of idx (game w5) = events_of idx (game w1) ++ [ge])
    as (Ga & Gt & Gr & Ge).
  { subst w5. simpl. rewrite events_of_push by lia.
    rewrite length_alter. by rewrite Fa, Ft, Fr, Fe. }
  assert (drawn_from pool ge) as Hdrawn.
  { split; [by rewrite Hev|].
    rewrite Hinv, Hev, length_map, length_take, length_drop. fold p. lia. }
  destruct (n' <? 2)%Z.
  { intros [= <- <-]. split; [by rewrite Ga, Gt, Gr|].
    exists [ge], p. rewrite Ge, participants_singleton, Hinv.
    split; [done|]. split; [done|]. split; [done|].
    split; [by constructor|done]. }
  intros Hrec.
  apply IH in Hrec as (Hf & evs & k & Hevs & Hk & Hpart & Hall & Hsafe);
    [|lia|rewrite Ga; lia].
  rewrite Ga, Gt, Gr in Hf. split; [done|].
  exists (ge :: evs), (p + k).
  rewrite Hevs, Ge, <- app_assoc. split; [done|]. split; [lia|].
  split; [|split; [by constructor|]].
  - change (ge :: evs) with ([ge] ++ evs).
    rewrite participants_app, participants_singleton, Hinv, Hpart, Ga.
    rewrite <- map_app. f_equal.
    rewrite <- (take_take_drop (drop cur A) p k). f_equal.
    by rewrite drop_drop.
  - intros err Ho Hne Hsound Hroster. apply (Hsafe err Ho Hne Hsound).
    by rewrite Ga, Gt.
Qed.

(** ** One round, from the roster to the recorded events *)

Lemma stage_pool_pool_of (g : Game) :
  stage_pool g = pool_of (event_list g) (stage g).
Proof. done. Qed.

Lemma DoRoundImpl_run (fuel : nat) (w w' : World) (o : Outcome unit) :
  DoRoundImpl fuel w = (o, w') ->
  exists A evs k,
    A ≡ₚ tributes_alive (game w) /\
    events_of (length (rounds (game w))) (game w') ≡ₚ evs /\
    participants evs = map Some (take k A) /\
    Forall (drawn_from (stage_pool (game w))) evs /\
    (forall err, o = Throw err ->
       Forall event_sound (stage_pool (game w)) ->
       Forall (fun ref => ref < length (tributes (game w)))
         (tributes_alive (game w)) ->
       False).
Proof.
  unfold DoRoundImpl. rewrite bind_get_game, !bind_modify_game.
  fold (stage_pool (game w)).
  set (idx := length (rounds (game w))).
  set (w2 := update _ (update _ w)).
  unfold bind at 1.
  destruct (shuffle_spec (tributes_alive (game w)) w2)
    as (A & Hs & Hperm & Hgame & _).
  destruct (shuffle (tributes_alive (game w)) w2) as [o3 w3].
  change (o3 = Ok A) in Hs. change (game w3 = game w2) in Hgame. subst o3.
  rewrite bind_modify_game.
  set (w4 := update (set_tributes_alive A) w3).
  assert (tributes_alive (game w4) = A /\
          tributes (game w4) = tributes (game w) /\
          length (rounds (game w4)) = S idx /\
          events_of idx (game w4) = []) as (Ga & Gt & Gr & Ge).
  { subst w4. unfold events_of. simpl. rewrite Hgame. subst w2. simpl.
    rewrite length_app, (lookup_app_r _ _ idx), Nat.sub_diag by done.
    simpl. repeat split; try done. subst idx. lia. }
  destruct (length (stage_pool (game w)) =? 0) eqn:Hpool.
  { intros [= <- <-]. exists A, [], 0. rewrite Ge, take_0.
    by repeat (split; [done|]). }
  assert (stage_pool (game w) <> []) as Hne.
  { intros C. by rewrite C in Hpool. }
  unfold bind at 1.
  destruct (round_loop fuel fuel idx (stage_pool (game w))
              (length (tributes_alive (game w)))
              (Z.of_nat (length (tributes_alive (game w)))) 0 0 w4)
    as [o5 w5] eqn:Hloop.
  apply round_loop_run in Hloop
    as (Hf & evs & k & Hevs & Hk & Hpart & Hall & Hsafe);
    [|lia|rewrite Ga; simpl; by rewrite Hperm].
  rewrite Ge in Hevs. rewrite Ga in Hpart. simpl in Hevs.
  rewrite drop_0 in Hpart.
  injection Hf as Fa Ft Fr.
  change (length (rounds (game w5)) = length (rounds (game w4))) in Fr.
  assert (forall err, o5 = Throw err ->
            Forall event_sound (stage_pool (game w)) ->
            Forall (fun ref => ref < length (tributes (game w)))
              (tributes_alive (game w)) -> False) as Hsafe'.
  { intros err Ho Hsound Hroster. apply (Hsafe err Ho Hne Hsound).
    rewrite Ga, Gt. by rewrite Hperm. }
  destruct o5 as [[]|err|].
  2: { intros [= <- <-]. exists A, evs, k. rewrite Hevs.
       by repeat (split; [done|]). }
  2: { intros [= <- <-]. exists A, evs, k. rewrite Hevs.
       by repeat (split; [done|]). }
  rewrite bind_get_game. unfold bind at 1.
  fold (events_of idx (game w5)).
  destruct (shuffle_spec (events_of idx (game w5)) w5)
    as (events & He & Hperm2 & Hgame2 & _).
  destruct (shuffle (events_of idx (game w5)) w5) as [o6 w6].
  change (o6 = Ok events) in He. change (game w6 = game w5) in Hgame2.
  subst o6. rewrite !bind_modify_game.
  intros [= <- <-]. exists A, evs, k.
  split; [done|]. split; [|by repeat (split; [done|])].
  unfold events_of at 1. simpl. rewrite list_lookup_alter_eq, Hgame2.
  destruct (lookup_lt_is_Some_2 (rounds (game w5)) idx) as [r Hr]; [lia|].
  rewrite Hr. simpl. by rewrite Hperm2, Hevs.
Qed.

Lemma DoRound_run (fuel : nat) (w w' : World) (o : Outcome unit) :
  DoRound fuel w = (o, w') ->
  exists A evs k,
    A ≡ₚ tributes_alive (game w) /\
    events_of (length (rounds (game w))) (game w') ≡ₚ evs /\
    participants evs = map Some (take k A) /\
    Forall (drawn_from (pool_of (event_list (game w)) (stage (game w')))) evs /\
    (forall err, o = Throw err ->
       Forall event_sound (all_pools (game w)) ->
       Forall (fun ref => ref < length (tributes (game w)))
         (tributes_alive (game w)) ->
       False).
Proof.
  intros Hdo.
  destruct (AdvanceGameStage_spec w) as (s & w1 & Hs & Hrounds & _).
  pose proof (DoRound_stages fuel _ _ _ _ _ Hs Hdo) as (_ & Hstage & _).
  pose proof (keeps_AdvanceGameStage w) as Hk1.
  pose proof (keeps_tributes_AdvanceGameStage w) as Hk2.
  rewrite Hs in Hk1, Hk2. unfold same in Hk1, Hk2. simpl in Hk1, Hk2.
  injection Hk1 as Hel _. injection Hk2 as Htr Hal.
  revert Hdo. unfold DoRound. unfold bind at 1. rewrite Hs.
  rewrite bind_modify_game. unfold bind at 1.
  destruct (DoRoundImpl fuel (update (set_stage s) w1)) as [o2 w2] eqn:Himpl.
  apply DoRoundImpl_run in Himpl
    as (A & evs & k & Hperm & Hevs & Hpart & Hall & Hsafe).
  rewrite stage_pool_pool_of in Hall, Hsafe.
  simpl in Hperm, Hevs, Hall, Hsafe.
  rewrite Hrounds in Hevs. rewrite Hal in Hperm, Hsafe.
  rewrite Hel in Hall, Hsafe. rewrite Htr in Hsafe.
  assert (forall err, o2 = Throw err ->
            Forall event_sound (all_pools (game w)) ->
            Forall (fun ref => ref < length (tributes (game w)))
              (tributes_alive (game w)) -> False) as Hsafe'.
  { intros err Ho Hsound Hroster. apply (Hsafe err Ho); [|done].
    rewrite Forall_forall in Hsound |- *. intros e He. apply Hsound.
    unfold all_pools. rewrite !elem_of_app. destruct s; simpl in He; auto. }
  destruct o2 as [[]|err|].
  2: { intros [= <- <-]. exists A, evs, k. rewrite Hstage.
       by repeat (split; [done|]). }
  2: { intros [= <- <-]. exists A, evs, k. rewrite Hstage.
       by repeat (split; [done|]). }
  unfold bind at 1. rewrite CheckGameShouldEnd_eq.
  intros Hend.
  assert (o = Ok tt /\ rounds (game w') = rounds (game w2)) as [-> Hr'].
  { destruct (_ || _); rewrite bind_get_game in Hend; simpl in Hend.
    - by injection Hend as <- <-.
    - destruct (stage_eqb _ _); by injection Hend as <- <-. }
  exists A, evs, k. rewrite Hstage.
  split; [done|]. split; [|by repeat (split; [done|])].
  unfold events_of in *. by rewrite Hr'.
Qed.

(** ** Every round of a game *)

Lemma round_ok_ext (g g' : Game) (r : GameRound) :
  configuration g' = configuration g -> round_ok g r -> round_ok g' r.
Proof.
  unfold configuration. intros [= Ht Hel _ _ _ _] (H1 & H2 & H3).
  apply (f_equal length) in Ht. rewrite !length_map in Ht.
  unfold round_ok. by rewrite Ht, Hel.
Qed.

Lemma AdvanceGame_configuration (fuel : nat) (w : World) :
  configuration (game (AdvanceGame fuel w).2) = configuration (game w).
Proof. apply (advance_n_configuration fuel 1 w). Qed.

Lemma game_ok_AdvanceGame (fuel : nat) (w : World) :
  game_ok (game w) -> game_ok (game (AdvanceGame fuel w).2).
Proof.
  intros (Hnd & Hvalid & Hrounds).
  pose proof (AdvanceGame_configuration fuel w) as Hconf.
  pose proof (calls_shrink_roster fuel 1 w) as Hsub.
  change (advance_n fuel 1 w) with (AdvanceGame fuel w).2 in Hsub.
  unfold roster_shrinks in Hsub.
  assert (length (tributes (game (AdvanceGame fuel w).2))
          = length (tributes (game w))) as Hlen.
  { unfold configuration in Hconf. injection Hconf as Ht _.
    apply (f_equal length) in Ht. by rewrite !length_map in Ht. }
  split; [|split].
  - apply submseteq_Permutation in Hsub as [l Hl].
    rewrite Hl in Hnd. by apply NoDup_app in Hnd as [? _].
  - rewrite Forall_forall in Hvalid |- *. intros ref Hin. rewrite Hlen.
    apply Hvalid. by apply (elem_of_submseteq _ _ _ Hin).
  - destruct (AdvanceGame_history fuel w) as [Hround Hother].
    destruct (decide (state (game w) = NEW_ROUND
                      \/ state (game w) = IN_ROUND)) as [Hr|Hr].
    2: { rewrite Hother by tauto. eapply Forall_impl; [exact Hrounds|].
         intros r. by apply round_ok_ext. }
    destruct (Hround Hr) as (r & Heq & Hidx & Hst). rewrite Heq.
    apply Forall_app. split.
    { eapply Forall_impl; [exact Hrounds|]. intros r0. by apply round_ok_ext. }
    constructor; [|done].
    assert (events_of (length (rounds (game w)))
              (game (AdvanceGame fuel w).2) = game_events r) as Hev.
    { unfold events_of. by rewrite Heq, lookup_app_r, Nat.sub_diag. }
    revert Hev Hst Hlen Hconf. rewrite AdvanceGame_game.
    rewrite transition_round by done.
    destruct (DoRound fuel (enter_round w)) as [o w1] eqn:Hdo.
    apply DoRound_run in Hdo
      as (A & evs & k & Hperm & Hevs & Hpart & Hall & _).
    rewrite enter_round_rounds in Hevs.
    assert (tributes_alive (game (enter_round w)) = tributes_alive (game w) /\
            event_list (game (enter_round w)) = event_list (game w))
      as [Ha Hel].
    { unfold enter_round. by destruct (state (game w)). }
    rewrite Ha in Hperm. rewrite Hel in Hall. simpl.
    intros Hev Hst Hlen Hconf. rewrite Hev in Hevs.
    assert (participants (game_events r) ≡ₚ map Some (take k A)) as Hp.
    { rewrite <- Hpart. unfold participants. by rewrite Hevs. }
    assert (NoDup A) as HndA by by rewrite Hperm.
    split; [|split].
    + rewrite Hp. apply (NoDup_fmap_2 Some).
      apply (sublist_NoDup (take k A) A); [done|apply sublist_take].
    + rewrite Hp. apply Forall_forall. intros x Hx.
      apply list_elem_of_fmap in Hx as (ref & -> & Hin).
      exists ref. split; [done|].
      assert (ref ∈ tributes_alive (game w)) as Hin'.
      { rewrite <- Hperm. apply (elem_of_submseteq _ _ _ Hin).
        apply submseteq_take. }
      rewrite Hlen. rewrite Forall_forall in Hvalid. by apply Hvalid.
    + rewrite Hevs. rewrite Hst.
      unfold configuration in Hconf. injection Hconf as _ -> _ _ _ _.
      done.
Qed.

Lemma game_ok_new_Game (opts : GameOptions) (trs : list Tribute)
    (events : EventList) (rate : Q) :
  game_ok (new_Game opts trs events rate).
Proof.
  split; [apply NoDup_seq|]. split; [|done].
  apply Forall_forall. intros ref Hin. apply elem_of_seq in Hin. simpl. lia.
Qed.

Lemma game_ok_advance_n (fuel n : nat) (w : World) :
  game_ok (game w) -> game_ok (game (advance_n fuel n w)).
Proof.
  revert w; induction n as [|n IH]; intros w Hw; [done|].
  simpl. by apply IH, game_ok_AdvanceGame.
Qed.

Lemma pool_of_AddEvents (l : EventList) (s : GameStage) (e : Event) :
  e ∈ pool_of (AddEvents l) s ->
  enabled e = true /\
  (e ∈ default [] (el_all l) \/
   e ∈ default [] (match s with
                   | BLOODBATH => el_bloodbath l
                   | DAY => el_day l
                   | NIGHT => el_night l
                   | FEAST => el_feast l
                   end)).
Proof.
  unfold AddEvents, enabled_of.
  destruct s; simpl; rewrite elem_of_app, !list_elem_of_filter; tauto.
Qed.

Lemma rounds_pick_once (fuel n : nat) (w : World) (r : GameRound) :
  game_ok (game w) ->
  r ∈ rounds (game (advance_n fuel n w)) ->
  NoDup (participants (game_events r)) /\
  (forall o, o ∈ participants (game_events r) ->
     exists ref, o = Some ref /\ ref < length (tributes (game w))) /\
  (forall ge, ge ∈ game_events r ->
     length (ge_players_involved ge) = players_involved (ge_event ge) /\
     ge_event ge ∈ pool_of (event_list (game w)) (round_stage r) /\
     forall events, event_list (game w) = AddEvents events ->
       enabled (ge_event ge) = true /\
       (ge_event ge ∈ default [] (el_all events) \/
        ge_event ge ∈ default [] (match round_stage r with
                                  | BLOODBATH => el_bloodbath events
                                  | DAY => el_day events
                                  | NIGHT => el_night events
                                  | FEAST => el_feast events
                                  end))).
Proof.
  intros Hok Hr.
  pose proof (game_ok_advance_n fuel n w Hok) as (_ & _ & Hrounds).
  pose proof (advance_n_configuration fuel n w) as Hconf.
  unfold configuration in Hconf.
  injection Hconf as Ht Hel _ _ _ _.
  apply (f_equal length) in Ht. rewrite !length_map in Ht.
  rewrite Forall_forall in Hrounds.
  destruct (Hrounds r Hr) as (H1 & H2 & H3).
  rewrite Ht in H2. rewrite Hel in H3.
  split; [done|]. split.
  - rewrite Forall_forall in H2. exact H2.
  - intros ge Hge. rewrite Forall_forall in H3.
    destruct (H3 ge Hge) as [Hin Hlen]. split; [done|]. split; [done|].
    intros events Hev. rewrite Hev in Hin. by apply pool_of_AddEvents.
Qed.

(** X25. Every tribute is picked at most once in a round, provided the
    roster names no tribute twice. From any state of the game whose roster
    names tributes of the game, none twice, and whose recorded rounds are
    as [round_ok] says (a game that has just been built from distinct
    tributes is one), after any number of calls and whatever their
    outcomes, each round's events take pairwise disjoint windows of the
    roster: no participant occurs twice among the participants of the
    round, every participant is a tribute of the game, every event has a
    participant for each of its slots, and every event is in the pool of the
    stage of the round; where the pools are those that the constructor makes
    of the configured lists, it is an enabled event of the list configured
    for the stage of the round, or of the list for all stages. *)
Theorem every_tribute_is_picked_once (fuel n : nat) (w : World)
    (r : GameRound) :
  game_ok (game w) ->
  r ∈ rounds (game (advance_n fuel n w)) ->
  NoDup (participants (game_events r)) /\
  (forall o, o ∈ participants (game_events r) ->
     exists ref, o = Some ref /\ ref < length (tributes (game w))) /\
  (forall ge, ge ∈ game_events r ->
     length (ge_players_involved ge) = players_involved (ge_event ge) /\
     ge_event ge ∈ pool_of (event_list (game w)) (round_stage r) /\
     forall events, event_list (game w) = AddEvents events ->
       enabled (ge_event ge) = true /\
       (ge_event ge ∈ default [] (el_all events) \/
        ge_event ge ∈ default [] (match round_stage r with
                                  | BLOODBATH => el_bloodbath events
                                  | DAY => el_day events
                                  | NIGHT => el_night events
                                  | FEAST => el_feast events
                                  end))).
Proof. apply rounds_pick_once. Qed.

Lemma every_tribute_is_picked_once_witness :
  NoDup (participants
           (game_events
              {| game_events :=
                   [{| ge_event := kill;
                       ge_players_involved := [Some 1; Some 2];
                       ge_message :=
                         [Lit ""; Span {| value := "Kai" |}; Lit " kills ";
                          Span {| value := "Zed" |}; Lit "."] |}];
                 died_this_round := [2]; index := 1; round_stage := DAY |})).
Proof.
  apply (every_tribute_is_picked_once 200 4
           (start day_kill_game three_quarters)).
  - split; [|split].
    + apply (bool_decide_unpack _). vm_compute. exact I.
    + vm_compute. repeat constructor.
    + vm_compute. constructor.
  - vm_compute. right. left.
Defined.

(** The condition on the roster is needed. With one tribute in two places
    of the roster, the first round of the game lets that tribute kill
    itself. *)
Lemma twice_in_the_roster_picks_twice :
  rounds (game (advance_n 200 1 (start twice_in_the_roster three_quarters)))
  = [{| game_events :=
          [{| ge_event := kill;
              ge_players_involved := [Some 0; Some 0];
              ge_message :=
                [Lit ""; Span {| value := "Ann" |}; Lit " kills ";
                 Span {| value := "Ann" |}; Lit "."] |}];
        died_this_round := [0]; index := 0; round_stage := BLOODBATH |}].
Proof. vm_compute. reflexivity. Qed.

(** ** Games that never fail *)

Lemma constructed_event_sound (msg : string) (fatal killrs : list nat)
    (ty : string) (e : Event) :
  new_Event msg fatal killrs ty = Ok e ->
  placeholders_counted (message e) = true ->
  event_sound e.
Proof.
  intros He Hcounted.
  apply new_Event_Ok_fields in He
    as (_ & _ & _ & Hn & Hp & Hf & Hk & _ & _ & Hreq).
  unfold event_sound. split; [lia|]. split; [|by repeat (split; [done|])].
  rewrite Hn. apply regex_digits_counted.
Qed.

Lemma require_sound (e e' : Event) (t : Tag) (idx : nat) :
  event_sound e -> require e t idx = Ok e' -> event_sound e'.
Proof.
  intros (H1 & H2 & H3 & H4 & H5 & H6). unfold require.
  destruct (players_involved e <=? idx) eqn:E; [done|].
  apply Nat.leb_gt in E. intros [= <-]. unfold event_sound. simpl.
  repeat (split; [done|]).
  destruct (existsb _ _); [done|]. apply Forall_app. split; [done|].
  by constructor.
Qed.

Lemma DoRound_state_any (fuel : nat) (w w' : World) (o : Outcome unit) :
  DoRound fuel w = (o, w') ->
  state (game w') = state (game w) \/
  state (game w') = END_RESULTS \/
  state (game w') = THE_FALLEN.
Proof.
  unfold DoRound. unfold bind at 1.
  destruct (AdvanceGameStage_spec w) as (s & w1 & -> & _ & _ & Hst & _).
  rewrite bind_modify_game. unfold bind at 1.
  pose proof (DoRoundImpl_core fuel (update (set_stage s) w1)) as Hcore.
  destruct (DoRoundImpl fuel (update (set_stage s) w1)) as [[[]|e|] w2];
    unfold core in Hcore; simpl in Hcore; injection Hcore as _ _ _ Hstate;
    try (intros [= _ <-]; left; congruence).
  unfold bind at 1. rewrite CheckGameShouldEnd_eq.
  destruct (_ || _); rewrite !bind_get_game; simpl.
  - intros [= _ <-]. right. by left.
  - destruct (stage_eqb _ _); simpl; intros [= _ <-]; simpl;
      [right; by right|left; congruence].
Qed.

Lemma AdvanceGame_not_DEAD (fuel : nat) (w : World) :
  state (game w) <> DEAD -> state (game (AdvanceGame fuel w).2) <> DEAD.
Proof.
  intros Hd. rewrite AdvanceGame_game.
  destruct (decide (state (game w) = NEW_ROUND \/ state (game w) = IN_ROUND))
    as [Hr|Hr].
  - rewrite transition_round by done.
    assert (state (game (enter_round w)) = IN_ROUND) as Hin.
    { unfold enter_round. by destruct Hr as [H|H]; rewrite H. }
    destruct (DoRound fuel (enter_round w)) as [o w'] eqn:Hrun.
    destruct (DoRound_state_any _ _ _ _ Hrun) as [H|[H|H]];
      simpl; rewrite H; [by rewrite Hin|done|done].
  - destruct (transition_no_round fuel w ltac:(tauto) ltac:(tauto))
      as (o & w2 & -> & _ & Hnext & _).
    simpl. rewrite Hnext. by destruct (state (game w)).
Qed.

Lemma all_pools_configuration (g g' : Game) :
  configuration g' = configuration g -> all_pools g' = all_pools g.
Proof.
  unfold configuration, all_pools. by intros [= _ -> _ _ _ _].
Qed.

Lemma game_sound_AdvanceGame (fuel : nat) (w : World) :
  game_sound (game w) -> game_sound (game (AdvanceGame fuel w).2).
Proof.
  intros (Hd & Hok & Hpools). split; [by apply AdvanceGame_not_DEAD|].
  split; [by apply game_ok_AdvanceGame|].
  by rewrite (all_pools_configuration _ _ (AdvanceGame_configuration fuel w)).
Qed.

Lemma game_sound_advance_n (fuel n : nat) (w : World) :
  game_sound (game w) -> game_sound (game (advance_n fuel n w)).
Proof.
  revert w; induction n as [|n IH]; intros w Hw; [done|].
  simpl. by apply IH, game_sound_AdvanceGame.
Qed.

Lemma AdvanceGame_no_error (fuel : nat) (w : World) (err : Error) :
  game_sound (game w) -> (AdvanceGame fuel w).1 <> Ok (inr err).
Proof.
  intros (Hd & (_ & Hvalid & _) & Hpools). rewrite AdvanceGame_unfold.
  destruct (transition fuel (game w) w) as [[[]|e|] w1] eqn:Ht; try done.
  exfalso.
  destruct (decide (state (game w) = NEW_ROUND \/ state (game w) = IN_ROUND))
    as [Hr|Hr].
  - rewrite transition_round in Ht by done.
    apply DoRound_run in Ht as (A & evs & k & _ & _ & _ & _ & Hsafe).
    assert (all_pools (game (enter_round w)) = all_pools (game w) /\
            tributes_alive (game (enter_round w)) = tributes_alive (game w) /\
            tributes (game (enter_round w)) = tributes (game w))
      as (H1 & H2 & H3).
    { unfold enter_round. by destruct (state (game w)). }
    apply (Hsafe e eq_refl); by rewrite ?H1, ?H2, ?H3.
  - destruct (transition_no_round fuel w ltac:(tauto) ltac:(tauto))
      as (o & w2 & Ht2 & [->|[_ Hdead]] & _); [|done].
    rewrite Ht in Ht2. discriminate.
Qed.

(** X26. A game never fails on sound events. In a game played from the
    start whose enabled events are all sound (the template, the
    fatalities, the killers and the tag requirements refer to participants
    of the event, in the placeholder forms that the participant count
    knows), no call of [AdvanceGame] ever returns an error, whatever the
    random source gives; and with a budget of turns above the size of the
    roster and the cap of the draw loop every call returns a snapshot. *)
Theorem sound_games_never_fail (opts : GameOptions) (trs : list Tribute)
    (events : EventList) (rate : Q) (source : nat -> Rand) (fuel n : nat) :
  Forall event_sound (all_pools (new_Game opts trs events rate)) ->
  let w := advance_n fuel n (start (new_Game opts trs events rate) source) in
  (forall err, (AdvanceGame fuel w).1 <> Ok (inr err)) /\
  (attempt_cap (all_pools (new_Game opts trs events rate)) + 1 < fuel ->
   length trs < fuel ->
   exists snap, (AdvanceGame fuel w).1 = Ok (inl snap)).
Proof.
  intros Hpools w.
  assert (game_sound (game w)) as Hsound.
  { apply game_sound_advance_n. split; [done|].
    split; [apply game_ok_new_Game|done]. }
  split; [intros err; by apply AdvanceGame_no_error|].
  intros Hcap Hlen.
  pose proof (advance_n_configuration fuel n
                (start (new_Game opts trs events rate) source)) as Hconf.
  fold w in Hconf.
  pose proof (all_pools_configuration _ _ Hconf) as Hall. simpl in Hall.
  pose proof (calls_shrink_roster fuel n
                (start (new_Game opts trs events rate) source)) as Hsub.
  fold w in Hsub. unfold roster_shrinks in Hsub. simpl in Hsub.
  apply submseteq_length in Hsub. rewrite length_seq in Hsub.
  pose proof (AdvanceGame_returns fuel w) as Hret.
  destruct (AdvanceGame fuel w).1 as [[snap|err]| |] eqn:Hrun.
  - by exists snap.
  - by destruct (AdvanceGame_no_error fuel w err Hsound).
  - exfalso. revert Hrun. rewrite AdvanceGame_unfold.
    by destruct (transition fuel (game w) w) as [[[]|e0|] w1].
  - exfalso. apply Hret; [|by rewrite Hall|lia|done].
    rewrite Hall. eapply Forall_impl; [exact Hpools|].
    by intros ev (H1 & _).
Qed.

Lemma sound_games_never_fail_witness :
  exists snap,
    (AdvanceGame 200 (advance_n 200 4 (start day_kill_game three_quarters))).1
    = Ok (inl snap).
Proof.
  apply (sound_games_never_fail default_options [Ann; Kai; Zed]
           {| el_bloodbath := None; el_day := Some [kill]; el_night := None;
              el_feast := None; el_all := None |} (6 # 10)
           three_quarters 200 4).
  - constructor; [|constructor]. vm_compute.
    repeat (split; [repeat constructor|]). repeat constructor.
  - vm_compute. lia.
  - vm_compute. lia.
Defined.

(** ** Loading a configuration *)

Lemma get_set_list (key key' : EventListKey) (l : list Event)
    (into : EventList) :
  get_list key' (set_list key l into)
  = if decide (key' = key) then Some l else get_list key' into.
Proof. by destruct key, key'. Qed.

Lemma set_list_same (key : EventListKey) (l : list Event) (into : EventList) :
  get_list key into = Some l -> set_list key l into = into.
Proof. destruct into, key; simpl; by intros ->. Qed.

#[local] Instance registry_grows_preorder : PreOrder registry_grows.
Proof.
  split.
  - intros s. by split.
  - intros s1 s2 s3 [H1 H2] [H3 H4]. split; by etrans.
Qed.

#[local] Instance store_grows_preorder : PreOrder store_grows.
Proof.
  split.
  - intros st. by split.
  - intros s1 s2 s3 [H1 H2] [H3 H4]. split; [|by etrans].
    intros key. etrans; [apply H1|apply H3].
Qed.

Lemma Tag_for_grows (name : string) (s : Tags) :
  registry_grows s (Tag_for name s).2.
Proof.
  unfold Tag_for. destruct (find _ _); [done|].
  split; simpl; by apply prefix_app_r.
Qed.

Lemma require_each_grows (reqs : list StoredTagRequirement) (event : Event)
    (s : Tags) :
  registry_grows s (require_each reqs event s).2.
Proof.
  revert event s; induction reqs as [|t reqs IH]; intros event s; [done|].
  simpl. pose proof (Tag_for_grows (req_name t) s) as Hg.
  destruct (Tag_for (req_name t) s) as [tg s1]. simpl in Hg.
  destruct (require event tg (req_player_index t)) as [event'| |]; [|done..].
  etrans; [exact Hg|apply IH].
Qed.

(** The loops of [LoadEvents], for any loader that pushes one event: [R]
    relates the registry before and after, [P] holds of a stored event, the
    registry and the event loaded from it. *)
Section Loading.
Context {T : Type} (lists : StoredLists T).
Context (equal : Tags -> T -> Event -> bool).
Context (loader : T -> list Event -> Tags -> Outcome (list Event) * Tags).
Context (R : Tags -> Tags -> Prop) `{!PreOrder R}.
Context (P : T -> Tags -> Event -> Prop).

Hypothesis loader_spec : forall key t l s,
  in_file lists key t ->
  R s (loader t l s).2 /\
  forall l', (loader t l s).1 = Ok l' ->
    exists e, l' = l ++ [e] /\ P t (loader t l s).2 e.
Hypothesis P_mono : forall t s s' e, P t s e -> R s s' -> P t s' e.

Lemma load_each_run (key : EventListKey) (es : list T) (st : Store) :
  (forall t, t ∈ es -> in_file lists key t) ->
  R (store_tags st) (store_tags (load_each loader key es st).2) /\
  (forall key', key' <> key ->
     get_list key' (store_into (load_each loader key es st).2)
     = get_list key' (store_into st)) /\
  exists added,
    default [] (get_list key (store_into (load_each loader key es st).2))
    = default [] (get_list key (store_into st)) ++ added /\
    Forall (fun e => exists t, t ∈ es /\
              P t (store_tags (load_each loader key es st).2) e) added.
Proof.
  revert st; induction es as [|t es IH]; intros st Hfile.
  { simpl. split; [done|]. split; [done|]. exists [].
    by rewrite app_nil_r. }
  simpl.
  destruct (loader_spec key t (default [] (get_list key (store_into st)))
              (store_tags st)) as [Hr Hpush]; [apply Hfile; by left|].
  destruct (loader t (default [] (get_list key (store_into st)))
              (store_tags st)) as [[pushed|err|] s'] eqn:Hl; simpl in *.
  - destruct (Hpush pushed eq_refl) as (e & -> & He).
    set (st1 := {| store_into := set_list key _ (store_into st);
                   store_tags := s' |}).
    destruct (IH st1) as (Hr1 & Hother & added & Hadded & Hall).
    { intros u Hu. apply Hfile. by right. }
    split; [by etrans|]. split.
    + intros key' Hne. rewrite Hother by done. unfold st1. simpl.
      rewrite get_set_list. by destruct (decide _).
    + exists (e :: added). split.
      * rewrite Hadded. unfold st1. simpl. rewrite get_set_list.
        destruct (decide _); [|done]. simpl. by rewrite <- app_assoc.
      * constructor.
        -- exists t. split; [by left|]. by apply (P_mono t s').
        -- eapply Forall_impl; [exact Hall|].
           intros e' (u & Hu & HP). exists u. split; [by right|done].
  - split; [done|]. split; [done|]. exists []. by rewrite app_nil_r.
  - split; [done|]. split; [done|]. exists []. by rewrite app_nil_r.
Qed.

Lemma load_key_run (key : EventListKey) (st : Store) :
  R (store_tags st) (store_tags (load_key lists equal loader key st).2) /\
  (forall key', key' <> key ->
     get_list key' (store_into (load_key lists equal loader key st).2)
     = get_list key' (store_into st)) /\
  exists added,
    get_list key (store_into (load_key lists equal loader key st).2)
    = Some (default [] (get_list key (store_into st)) ++ added) /\
    Forall (fun e => exists t, in_file lists key t /\
              P t (store_tags (load_key lists equal loader key st).2) e)
      added.
Proof.
  unfold load_key.
  set (st0 := {| store_into := set_list key _ (store_into st);
                 store_tags := store_tags st |}).
  assert (get_list key (store_into st0)
          = Some (default [] (get_list key (store_into st)))) as Hkey.
  { unfold st0. simpl. rewrite get_set_list. by destruct (decide _). }
  assert (forall key', key' <> key ->
            get_list key' (store_into st0) = get_list key' (store_into st))
    as Hother0.
  { intros key' Hne. unfold st0. simpl. rewrite get_set_list.
    by destruct (decide _). }
  destruct (get_stored key lists) as [l|] eqn:Hl.
  - set (fresh := filter _ l).
    destruct (load_each_run key fresh st0)
      as (Hr & Hother & added & Hadded & Hall).
    { intros t Ht. exists l. split; [done|].
      unfold fresh in Ht. by apply list_elem_of_filter in Ht as [_ Ht]. }
    split; [done|]. split.
    { intros key' Hne. rewrite Hother by done. by apply Hother0. }
    exists added. split.
    + rewrite Hkey in Hadded. simpl in Hadded.
      assert (forall es st1, is_Some (get_list key (store_into st1)) ->
                is_Some (get_list key
                  (store_into (load_each loader key es st1).2))) as Hsome.
      { clear. induction es as [|t es IH]; intros st1 H1; [done|]. simpl.
        destruct (loader _ _ _) as [[pushed|err|] s']; [|done..].
        apply IH. simpl. rewrite get_set_list.
        by destruct (decide _). }
      destruct (Hsome fresh st0) as [x Hx]; [by rewrite Hkey|].
      rewrite Hx in Hadded. simpl in Hadded. by rewrite Hx, Hadded.
    + eapply Forall_impl; [exact Hall|].
      intros e (t & Ht & HP). exists t. split; [|done]. exists l.
      split; [done|]. unfold fresh in Ht.
      by apply list_elem_of_filter in Ht as [_ Ht].
  - simpl. split; [done|]. split; [done|]. exists [].
    by rewrite app_nil_r.
Qed.

Lemma load_keys_run (keys : list EventListKey) (st : Store) :
  R (store_tags st) (store_tags (load_keys lists equal loader keys st).2) /\
  forall key, exists added,
    default [] (get_list key
                  (store_into (load_keys lists equal loader keys st).2))
    = default [] (get_list key (store_into st)) ++ added /\
    Forall (fun e => exists t, in_file lists key t /\
              P t (store_tags (load_keys lists equal loader keys st).2) e)
      added.
Proof.
  revert st; induction keys as [|k keys IH]; intros st.
  { simpl. split; [done|]. intros key. exists []. by rewrite app_nil_r. }
  simpl.
  destruct (load_key_run k st) as (Hr & Hother & added & Hadded & Hall).
  destruct (load_key lists equal loader k st) as [[[]|err|] st1] eqn:Hk;
    simpl in *.
  - destruct (IH st1) as [Hr1 Hrest]. split; [by etrans|].
    intros key. destruct (Hrest key) as (added1 & Hadded1 & Hall1).
    destruct (decide (key = k)) as [->|Hne].
    + exists (added ++ added1). split.
      * rewrite Hadded1, Hadded. simpl. by rewrite app_assoc.
      * apply Forall_app. split; [|done].
        eapply Forall_impl; [exact Hall|].
        intros e (t & Ht & HP). exists t. split; [done|].
        by apply (P_mono t (store_tags st1)).
    + exists added1. split; [|done]. by rewrite Hadded1, Hother.
  - split; [done|]. intros key. destruct (decide (key = k)) as [->|Hne].
    + exists added. split; [by rewrite Hadded|done].
    + exists []. by rewrite Hother, app_nil_r.
  - split; [done|]. intros key. destruct (decide (key = k)) as [->|Hne].
    + exists added. split; [by rewrite Hadded|done].
    + exists []. by rewrite Hother, app_nil_r.
Qed.

End Loading.

(** ** What the loaders push *)

Lemma Tag_name_grows (s s' : Tags) (t : Tag) (n : string) :
  registry_grows s s' -> Tag_name s t = Some n -> Tag_name s' t = Some n.
Proof.
  intros [Hn _] H. unfold Tag_name in *.
  by eapply prefix_lookup_Some.
Qed.

Lemma registered_grows (s s' : Tags) (t : Tag) :
  registry_grows s s' -> t ∈ registered_tags s -> t ∈ registered_tags s'.
Proof.
  intros [_ [k ->]] H. apply elem_of_app. by left.
Qed.

Lemma registers_preorder (names : string -> Prop) :
  PreOrder (registers names).
Proof.
  split.
  - intros s. split; [done|]. intros t Ht. by left.
  - intros s1 s2 s3 [G1 H1] [G2 H2]. split; [by etrans|].
    intros t Ht. destruct (H2 t Ht) as [Ht2|(n & Hn & Hname)].
    + destruct (H1 t Ht2) as [Ht1|(n & Hn & Hname)]; [by left|].
      right. exists n. split; [done|]. by apply (Tag_name_grows s2).
    + right. by exists n.
Qed.

Lemma registers_weaken (names names' : string -> Prop) (s s' : Tags) :
  (forall n, names n -> names' n) ->
  registers names s s' -> registers names' s s'.
Proof.
  intros Hsub [G H]. split; [done|]. intros t Ht.
  destruct (H t Ht) as [?|(n & Hn & Hname)]; [by left|].
  right. exists n. split; [by apply Hsub|done].
Qed.

Lemma Tag_for_registers (name : string) (s : Tags) :
  registers (fun n => n = name) s (Tag_for name s).2 /\
  (Tag_for name s).1 ∈ registered_tags (Tag_for name s).2 /\
  Tag_name (Tag_for name s).2 (Tag_for name s).1 = Some name.
Proof.
  pose proof (Tag_for_grows name s) as Hg. unfold Tag_for in *.
  destruct (find (has_name s name) (registered_tags s)) as [t|] eqn:Hfind.
  - apply find_some in Hfind as [Hin Hname].
    apply list_elem_of_In in Hin. apply has_name_spec in Hname.
    split; [|done]. split; [done|]. intros u Hu. by left.
  - assert (Tag_name (new_Tag name s).2 (next_id s) = Some name) as Hnew.
    { unfold Tag_name, next_id. simpl.
      by rewrite lookup_app_r, Nat.sub_diag. }
    split; [|split; [|done]].
    + split; [done|]. simpl. intros u [Hu| ->%list_elem_of_singleton]%elem_of_app;
        [by left|]. right. by exists name.
    + simpl. apply elem_of_app. right. by left.
Qed.

Lemma well_formed_set_enabled (b : bool) (e : Event) :
  well_formed e -> well_formed (set_enabled b e).
Proof. done. Qed.

Lemma require_fields (e e' : Event) (t : Tag) (idx : nat) :
  require e t idx = Ok e' ->
  (message e', players_involved e', fatalities e', killers e', enabled e',
   type e') = (message e, players_involved e, fatalities e, killers e,
               enabled e, type e) /\
  idx < players_involved e /\
  (requirements e' = requirements e /\
   (exists r, r ∈ requirements e /\ tag r = t /\ player_index r = idx) \/
   requirements e' = requirements e ++ [{| tag := t; player_index := idx |}]).
Proof.
  unfold require. destruct (players_involved e <=? idx) eqn:E; [done|].
  apply Nat.leb_gt in E. intros [= <-]. simpl. split; [done|].
  split; [done|].
  destruct (existsb _ (requirements e)) eqn:Ex; [|by right].
  left. split; [done|]. apply existsb_exists in Ex as (r & Hr & Hsame).
  apply same_requirement_eq in Hsame. exists r.
  split; [by apply list_elem_of_In|]. by rewrite <- Hsame.
Qed.

Lemma require_each_spec (reqs : list StoredTagRequirement) (event : Event)
    (s : Tags) :
  registers (fun n => exists sr, sr ∈ reqs /\ req_name sr = n) s
    (require_each reqs event s).2 /\
  forall e', (require_each reqs event s).1 = Ok e' ->
    (message e', players_involved e', fatalities e', killers e', enabled e',
     type e') = (message event, players_involved event, fatalities event,
                 killers event, enabled event, type event) /\
    (requirements_valid event -> requirements_valid e') /\
    Forall (fun r => r ∈ requirements event \/
              (tag r ∈ registered_tags (require_each reqs event s).2 /\
               exists sr, sr ∈ reqs /\
                 Tag_name (require_each reqs event s).2 (tag r)
                 = Some (req_name sr) /\
                 player_index r = req_player_index sr)) (requirements e') /\
    (forall r, r ∈ requirements event -> r ∈ requirements e') /\
    forall sr, sr ∈ reqs ->
      exists r, r ∈ requirements e' /\
        Tag_name (require_each reqs event s).2 (tag r) = Some (req_name sr) /\
        player_index r = req_player_index sr.
Proof.
  revert event s; induction reqs as [|t reqs IH]; intros event s.
  { simpl. split; [apply registers_preorder|]. intros e' [= <-].
    split; [done|]. split; [done|]. split.
    - apply Forall_forall. intros r Hr. by left.
    - split; [done|]. intros sr Hsr. by apply elem_of_nil in Hsr. }
  simpl.
  destruct (Tag_for_registers (req_name t) s) as (Hreg & Hin & Hname).
  destruct (Tag_for (req_name t) s) as [tg s1]. simpl in Hreg, Hin, Hname.
  assert (registers (fun n => exists sr, sr ∈ t :: reqs /\ req_name sr = n)
            s s1) as Hreg1.
  { eapply registers_weaken; [|exact Hreg]. intros n ->. exists t.
    split; [by left|done]. }
  destruct (require event tg (req_player_index t)) as [event1|err|] eqn:Hq;
    [|by split..].
  apply require_fields in Hq as Hfields. destruct Hfields as (Hf & Hidx & Hrq).
  destruct (IH event1 s1) as (Hreg2 & Hok).
  set (s2 := (require_each reqs event1 s1).2) in *.
  pose proof (registers_preorder
                (fun n => exists sr, sr ∈ t :: reqs /\ req_name sr = n)) as Hpre.
  assert (registers (fun n => exists sr, sr ∈ t :: reqs /\ req_name sr = n)
            s s2) as Hreg3.
  { etrans; [exact Hreg1|]. eapply registers_weaken; [|exact Hreg2].
    intros n (sr & Hsr & Hn). exists sr. split; [by right|done]. }
  split; [done|]. intros e' He'.
  destruct (Hok e' He') as (Hf' & Hvalid & Hall & Hkeep & Hreqs).
  assert ({| tag := tg; player_index := req_player_index t |}
            ∈ requirements event1 \/
          exists r, r ∈ requirements event /\ tag r = tg /\
                    player_index r = req_player_index t) as Hnew.
  { destruct Hrq as [(_ & r & Hr)|Hrq]; [right; by exists r|left].
    rewrite Hrq. apply elem_of_app. right. by left. }
  assert (forall r, r ∈ requirements event -> r ∈ requirements event1)
    as Hkeep1.
  { intros r Hr. destruct Hrq as [[-> _]| ->]; [done|].
    apply elem_of_app. by left. }
  split; [congruence|]. split; [|split; [|split]].
  - intros Hv. apply Hvalid.
    by apply (require_valid event event1 tg (req_player_index t) Hv).
  - eapply Forall_impl; [exact Hall|]. intros r [Hr|(Hr & sr & Hsr & H1 & H2)].
    + destruct Hrq as [[Hsame _]|Hrq].
      * left. by rewrite <- Hsame.
      * rewrite Hrq in Hr.
        apply elem_of_app in Hr as [Hr| ->%list_elem_of_singleton];
          [by left|right]. simpl. split.
        -- by apply (registered_grows s1 s2 _ (proj1 Hreg2)).
        -- exists t. split; [by left|]. split; [|done].
           by apply (Tag_name_grows s1 s2 _ _ (proj1 Hreg2)).
    + right. split; [done|]. exists sr. split; [by right|done].
  - intros r Hr. by apply Hkeep, Hkeep1.
  - intros sr [->|Hsr]%elem_of_cons; [|by apply Hreqs].
    assert (Tag_name s2 tg = Some (req_name t)) as Hname2.
    { by apply (Tag_name_grows s1 s2 _ _ (proj1 Hreg2)). }
    destruct Hnew as [Hr|(r & Hr & Ht & Hi)].
    + exists {| tag := tg; player_index := req_player_index t |}.
      split; [by apply Hkeep|done].
    + exists r. split; [by apply Hkeep, Hkeep1|]. by rewrite Ht.
Qed.

Lemma V1_LoadEvent_spec (names : string -> Prop) (stored : StoredEvent)
    (l : list Event) (s : Tags) :
  (forall sr, sr ∈ tag_requirements stored -> names (req_name sr)) ->
  registers names s (V1_LoadEvent stored l s).2 /\
  forall l', (V1_LoadEvent stored l s).1 = Ok l' ->
    exists e, l' = l ++ [e] /\
      loaded_from stored (V1_LoadEvent stored l s).2 e.
Proof.
  intros Hnames. unfold V1_LoadEvent.
  destruct (new_Event _ _ _ _) as [event|err|] eqn:Hnew;
    [|split; [apply registers_preorder|done]..].
  apply new_Event_Ok_fields in Hnew as Hf.
  destruct Hf as (Hm & Hne & Htrim & Hn & Hp & Hfat & Hkil & _ & Hreq).
  assert (fatalities event = stored_fatalities stored /\
          killers event = stored_killers stored /\
          type event = stored_type stored /\
          requirements event = []) as (Hfa & Hki & Hty & Hnil).
  { unfold new_Event in Hnew.
    destruct (String.length _ =? 0); [done|].
    destruct ((_ <? 1) || _); [done|].
    destruct (max_ge (stored_fatalities stored) _); [done|].
    destruct (max_ge (stored_killers stored) _); [done|].
    by injection Hnew as <-. }
  set (event0 := set_enabled _ event).
  destruct (require_each_spec (tag_requirements stored) event0 s)
    as (Hreg & Hok).
  assert (registers names s
            (require_each (tag_requirements stored) event0 s).2) as Hreg'.
  { eapply registers_weaken; [|exact Hreg].
    intros n (sr & Hsr & <-). by apply Hnames. }
  destruct (require_each (tag_requirements stored) event0 s)
    as [[e'|err|] s'] eqn:Hrun; simpl in *; [|by split..].
  split; [done|]. intros l' [= <-]. exists e'. split; [done|].
  destruct (Hok e' eq_refl) as (Hfields & Hvalid & Hall & _ & Hreqs).
  injection Hfields as Hm' Hp' Hf' Hk' He' Ht'.
  unfold loaded_from, well_formed.
  rewrite Hm', Hp', Hf', Hk', He', Ht'.
  split; [by repeat (split; [done|]); apply Hvalid|].
  repeat (split; [done|]). split; [|done].
  eapply Forall_impl; [exact Hall|]. intros r [Hr|Hr]; [|done].
  simpl in Hr.   rewrite Hnil in Hr. by apply elem_of_nil in Hr.
Qed.

Lemma Legacy_LoadEvent_spec (stored : LegacyStoredEvent) (l : list Event)
    (s : Tags) :
  (Legacy_LoadEvent stored l s).2 = s /\
  forall l', (Legacy_LoadEvent stored l s).1 = Ok l' ->
    exists e, l' = l ++ [e] /\ well_formed e /\
      enabled e = legacy_enabled stored.
Proof.
  unfold Legacy_LoadEvent.
  destruct (new_Event _ _ _ _) as [event|err|] eqn:Hnew; [|by split..].
  split; [done|]. intros l' [= <-]. eexists. split; [done|].
  apply new_Event_Ok_fields in Hnew
    as (Hm & Hne & Htrim & Hn & Hp & Hfat & Hkil & _ & Hreq).
  split; [|done]. apply well_formed_set_enabled.
  by repeat (split; [done|]).
Qed.

(** ** [Load] *)

Lemma LoadTags_V1 (tags : list StoredTag) (s : Tags) :
  LoadTags tags V1_TagExists V1_LoadTag s = s.
Proof.
  unfold LoadTags.
  assert (filter (fun t => V1_TagExists t = false) tags = []) as ->; [|done].
  induction tags as [|t tags IH]; [done|].
  rewrite filter_cons. by destruct (decide _).
Qed.

Lemma get_clear_lists (key : EventListKey) (into : EventList) :
  get_list key (clear_lists into) = Some [].
Proof. by destruct key. Qed.

Lemma V1_LoadEvents_run (events : StoredLists StoredEvent) (st : Store) :
  registers (required_names events) (store_tags st)
    (store_tags (LoadEvents events V1_EventsEqual V1_LoadEvent st).2) /\
  forall key, exists added,
    default [] (get_list key
      (store_into (LoadEvents events V1_EventsEqual V1_LoadEvent st).2))
    = default [] (get_list key (store_into st)) ++ added /\
    Forall (fun e => exists stored, in_file events key stored /\
              loaded_from stored
                (store_tags
                   (LoadEvents events V1_EventsEqual V1_LoadEvent st).2) e)
      added.
Proof.
  pose proof (registers_preorder (required_names events)) as Hpre.
  apply (load_keys_run events V1_EventsEqual V1_LoadEvent
           (registers (required_names events)) loaded_from).
  - intros key t l s Hfile. apply V1_LoadEvent_spec.
    intros sr Hsr. by exists key, t, sr.
  - intros t s s' e (Hw & Hm & Hf & Hk & Hty & Hen & Hall & Hreqs) [Hg _].
    unfold loaded_from. repeat (split; [done|]). split.
    + eapply Forall_impl; [exact Hall|].
      intros r (Hr & sr & Hsr & Hname & Hidx).
      split; [by apply (registered_grows s)|]. exists sr.
      split; [done|]. split; [by apply (Tag_name_grows s)|done].
    + intros sr Hsr. destruct (Hreqs sr Hsr) as (r & Hr & Hname & Hidx).
      exists r. split; [done|]. split; [by apply (Tag_name_grows s)|done].
Qed.

Lemma Legacy_LoadEvents_run (lists : StoredLists LegacyStoredEvent)
    (st : Store) :
  store_tags (LoadEvents lists Legacy_EventsEqual Legacy_LoadEvent st).2
  = store_tags st /\
  forall key, exists added,
    default [] (get_list key
      (store_into (LoadEvents lists Legacy_EventsEqual Legacy_LoadEvent st).2))
    = default [] (get_list key (store_into st)) ++ added /\
    Forall well_formed added.
Proof.
  destruct (load_keys_run lists Legacy_EventsEqual Legacy_LoadEvent
              eq (fun _ _ e => well_formed e)) with (keys := list_keys)
              (st := st) as [Heq Hkeys].
  - intros key t l s _.
    destruct (Legacy_LoadEvent_spec t l s) as [Hs Hpush].
    split; [done|]. intros l' Hl'.
    destruct (Hpush l' Hl') as (e & -> & Hw & _). by exists e.
  - done.
  - split; [done|]. intros key.
    destruct (Hkeys key) as (added & Hadded & Hall). exists added.
    split; [done|]. eapply Forall_impl; [exact Hall|].
    by intros e (_ & _ & He).
Qed.

Lemma Load_appends (configuration : MaybeConfig) (from_local_storage : bool)
    (st : Store) :
  registry_grows (store_tags st)
    (store_tags (Load configuration false from_local_storage st).2) /\
  forall key, exists added,
    default [] (get_list key
      (store_into (Load configuration false from_local_storage st).2))
    = default [] (get_list key (store_into st)) ++ added /\
    Forall well_formed added.
Proof.
  destruct configuration as [lists|events tags|]; simpl.
  - destruct (Legacy_LoadEvents_run lists st) as [Hs Hkeys].
    destruct (LoadEvents lists _ _ st) as [o st']. simpl in *.
    by rewrite Hs.
  - rewrite LoadTags_V1.
    assert ({| store_into := store_into st; store_tags := store_tags st |}
            = st) as -> by by destruct st.
    destruct (V1_LoadEvents_run events st) as [[Hg _] Hkeys].
    destruct (LoadEvents events _ _ st) as [o st']. simpl in *.
    split; [done|]. intros key.
    destruct (Hkeys key) as (added & Hadded & Hall). exists added.
    split; [done|]. eapply Forall_impl; [exact Hall|].
    by intros e (stored & _ & Hw & _).
  - split; [by destruct from_local_storage|]. intros key. exists [].
    rewrite app_nil_r. by destruct from_local_storage.
Qed.

(** X27. Loading a configuration without [overwrite] only appends: whatever
    the configuration is, and whether the load returns or throws, every
    list of [into] starts with the events that it held, every tag object
    keeps its name, the registered tags stay registered, and every event
    that was added is well formed (a trimmed message that is not empty,
    one to nine participants, counted from the message, fatalities,
    killers and requirements among them, no requirement twice). *)
Theorem Load_only_appends (configuration : MaybeConfig)
    (from_local_storage : bool) (st : Store) :
  registry_grows (store_tags st)
    (store_tags (Load configuration false from_local_storage st).2) /\
  forall key, exists added,
    default [] (get_list key
      (store_into (Load configuration false from_local_storage st).2))
    = default [] (get_list key (store_into st)) ++ added /\
    Forall well_formed added.
Proof. apply Load_appends. Qed.

Lemma V1_Load_run (events : StoredLists StoredEvent) (tags : list StoredTag)
    (overwrite from_local_storage : bool) (st : Store) :
  Load (V1Config events tags) overwrite from_local_storage st
  = Load (V1Config events []) overwrite from_local_storage st /\
  (forall key, exists added,
     default [] (get_list key
       (store_into
          (Load (V1Config events tags) overwrite from_local_storage st).2))
     = (if overwrite then []
        else default [] (get_list key (store_into st))) ++ added /\
     Forall (fun e => exists stored, in_file events key stored /\
               loaded_from stored
                 (store_tags
                    (Load (V1Config events tags) overwrite
                       from_local_storage st).2) e) added) /\
  forall t,
    t ∈ registered_tags
          (store_tags
             (Load (V1Config events tags) overwrite from_local_storage st).2)
    ->
    (overwrite = false /\ t ∈ registered_tags (store_tags st)) \/
    exists n, required_names events n /\
      Tag_name
        (store_tags
           (Load (V1Config events tags) overwrite from_local_storage st).2) t
      = Some n.
Proof.
  split; [simpl; by rewrite !LoadTags_V1|].
  simpl. rewrite LoadTags_V1.
  set (st0 := {| store_into := store_into (if overwrite then _ else st);
                 store_tags := store_tags (if overwrite then _ else st) |}).
  destruct (V1_LoadEvents_run events st0) as [[Hg Hreg] Hkeys].
  destruct (LoadEvents events _ _ st0) as [o st'] eqn:Hrun. simpl in *.
  split.
  - intros key. destruct (Hkeys key) as (added & Hadded & Hall).
    exists added. split; [|done]. rewrite Hadded. unfold st0.
    destruct overwrite; simpl; [|done]. by rewrite get_clear_lists.
  - intros t Ht. destruct (Hreg t Ht) as [H0|H0]; [|by right].
    left. unfold st0 in H0. destruct overwrite; simpl in H0; [|done].
    by apply elem_of_nil in H0.
Qed.

(** X28. What a configuration of version 1 loads. The list [tags] of the
    file plays no part: [TagExists] holds of every stored tag, so that
    [LoadTags] loads none. Every list of [into] is afterwards what it held
    (nothing, with [overwrite]) followed by events made from stored events
    of the same list of the file: well formed, with the trimmed message,
    the fatalities, the killers and the type of the stored event, disabled
    if the stored event is or if its type is [BIG LANG], and with the
    stored requirements, on registered tags of the stored names. And every
    registered tag was registered before (without [overwrite]) or has the
    name of a requirement of a stored event. This holds whether the load
    returns or throws. *)
Theorem V1_Load_adds_stored_events (events : StoredLists StoredEvent)
    (tags : list StoredTag) (overwrite from_local_storage : bool)
    (st : Store) :
  Load (V1Config events tags) overwrite from_local_storage st
  = Load (V1Config events []) overwrite from_local_storage st /\
  (forall key, exists added,
     default [] (get_list key
       (store_into
          (Load (V1Config events tags) overwrite from_local_storage st).2))
     = (if overwrite then []
        else default [] (get_list key (store_into st))) ++ added /\
     Forall (fun e => exists stored, in_file events key stored /\
               loaded_from stored
                 (store_tags
                    (Load (V1Config events tags) overwrite
                       from_local_storage st).2) e) added) /\
  forall t,
    t ∈ registered_tags
          (store_tags
             (Load (V1Config events tags) overwrite from_local_storage st).2)
    ->
    (overwrite = false /\ t ∈ registered_tags (store_tags st)) \/
    exists n, required_names events n /\
      Tag_name
        (store_tags
           (Load (V1Config events tags) overwrite from_local_storage st).2) t
      = Some n.
Proof. apply V1_Load_run. Qed.

(** ** Saving, and loading what was saved *)

Lemma store_requirement_equal (s : Tags) (r : TagRequirement)
    (sr : StoredTagRequirement) :
  store_requirement s r = Some sr ->
  has_name s (req_name sr) (tag r) && (req_player_index sr =? player_index r)
  = true.
Proof.
  unfold store_requirement. destruct (Tag_name s (tag r)) as [n|] eqn:Hn;
    [|done]. simpl. intros [= <-]. simpl.
  rewrite Nat.eqb_refl, andb_true_r. by apply has_name_spec.
Qed.

Lemma store_event_equal (s : Tags) (e : Event) (se : StoredEvent) :
  store_event s e = Some se -> V1_EventsEqual s se e = true.
Proof.
  unfold store_event.
  destruct (mapM (store_requirement s) (requirements e)) as [reqs|] eqn:Hm;
    [|done]. simpl. intros [= <-]. unfold V1_EventsEqual. simpl.
  rewrite String.eqb_refl. simpl. apply mapM_Some in Hm.
  unfold ArraysEqual. rewrite (Forall2_length _ _ _ Hm), Nat.eqb_refl. simpl.
  induction Hm as [|r sr rs srs Hr Hrs IH]; [done|]. simpl.
  by rewrite (store_requirement_equal s r sr Hr).
Qed.

Lemma stored_events_exist (s : Tags) (l : list Event) (sl : list StoredEvent) :
  mapM (store_event s) l = Some sl ->
  filter (fun se => EventExists l se (V1_EventsEqual s) = false) sl = [].
Proof.
  intros Hm. apply mapM_Some in Hm.
  assert (Forall (fun se => EventExists l se (V1_EventsEqual s) = true) sl)
    as Hall.
  { apply Forall_forall. intros se Hse.
    apply list_elem_of_lookup in Hse as [i Hi].
    destruct (Forall2_lookup_r _ _ _ _ _ Hm Hi) as (e & He & Hstore).
    apply existsb_exists. exists e. split.
    - apply list_elem_of_In. by eapply list_elem_of_lookup_2.
    - by apply store_event_equal. }
  clear Hm. induction Hall as [|se sl Hse Hall IH]; [done|].
  rewrite filter_cons. destruct (decide _) as [C|_]; [congruence|done].
Qed.

Lemma load_key_saved (events : StoredLists StoredEvent) (key : EventListKey)
    (st : Store) (l : list Event) :
  get_list key (store_into st) = Some l ->
  get_stored key events = mapM (store_event (store_tags st)) l ->
  is_Some (get_stored key events) ->
  load_key events V1_EventsEqual V1_LoadEvent key st = (Ok tt, st).
Proof.
  intros Hl Hs [sl Hsl]. unfold load_key. rewrite Hl. simpl.
  rewrite (set_list_same key l _ Hl), Hsl.
  rewrite Hsl in Hs. symmetry in Hs.
  rewrite (stored_events_exist _ _ _ Hs). simpl. by destruct st.
Qed.

Lemma SaveEvents_Some (into : EventList) (s : Tags)
    (events : StoredLists StoredEvent) :
  SaveEvents into s = Some events ->
  forall key, exists l,
    get_list key into = Some l /\
    get_stored key events = mapM (store_event s) l /\
    is_Some (get_stored key events).
Proof.
  destruct into as [lb ld ln lf la]. unfold SaveEvents. simpl.
  destruct ld as [l1|]; [|done]. simpl.
  destruct (mapM (store_event s) l1) as [s1|] eqn:M1; [|done]. simpl.
  destruct la as [l2|]; [|done]. simpl.
  destruct (mapM (store_event s) l2) as [s2|] eqn:M2; [|done]. simpl.
  destruct lf as [l3|]; [|done]. simpl.
  destruct (mapM (store_event s) l3) as [s3|] eqn:M3; [|done]. simpl.
  destruct ln as [l4|]; [|done]. simpl.
  destruct (mapM (store_event s) l4) as [s4|] eqn:M4; [|done]. simpl.
  destruct lb as [l5|]; [|done]. simpl.
  destruct (mapM (store_event s) l5) as [s5|] eqn:M5; [|done]. simpl.
  intros [= <-] key.
  destruct key; [exists l5|exists l1|exists l4|exists l3|exists l2]; simpl;
    by repeat split.
Qed.

Lemma Load_saved (into : EventList) (s : Tags) (configuration : MaybeConfig)
    (from_local_storage : bool) :
  Save into s = Some configuration ->
  Load configuration false from_local_storage
    {| store_into := into; store_tags := s |}
  = (Finished (Ok tt), {| store_into := into; store_tags := s |}).
Proof.
  unfold Save. destruct (SaveEvents into s) as [events|] eqn:He; [|done].
  simpl. destruct (SaveTags s) as [tags|]; [|done]. simpl. intros [= <-].
  simpl. rewrite LoadTags_V1. unfold LoadEvents, list_keys. simpl.
  pose proof (SaveEvents_Some _ _ _ He) as Hkeys.
  set (st := {| store_into := into; store_tags := s |}).
  assert (forall key,
            load_key events V1_EventsEqual V1_LoadEvent key st = (Ok tt, st))
    as Hkey.
  { intros key. destruct (Hkeys key) as (l & H1 & H2 & H3).
    by apply (load_key_saved events key st l). }
  by rewrite !Hkey.
Qed.

(** X29. Loading what was saved adds nothing: when [Save] returns a
    configuration for the lists [into] (every list is there), loading that
    configuration into the same lists without [overwrite] returns and
    leaves the lists and the tags exactly as they were, since every stored
    event is found equal to the event it was made from. *)
Theorem Load_saved_adds_nothing (into : EventList) (s : Tags)
    (configuration : MaybeConfig) (from_local_storage : bool) :
  Save into s = Some configuration ->
  Load configuration false from_local_storage
    {| store_into := into; store_tags := s |}
  = (Finished (Ok tt), {| store_into := into; store_tags := s |}).
Proof. apply Load_saved. Qed.

Lemma Load_saved_adds_nothing_witness :
  Load (V1Config career_file [{| stored_name := "career" |}]) false false
    {| store_into := career_lists; store_tags := career_registry |}
  = (Finished (Ok tt),
     {| store_into := career_lists; store_tags := career_registry |}).
Proof.
  apply (Load_saved_adds_nothing career_lists career_registry). reflexivity.
Defined.

(** ** Saving what was loaded *)

Lemma store_requirement_grows (s s' : Tags) (r : TagRequirement)
    (sr : StoredTagRequirement) :
  registry_grows s s' ->
  store_requirement s r = Some sr -> store_requirement s' r = Some sr.
Proof.
  intros Hg. unfold store_requirement.
  destruct (Tag_name s (tag r)) as [n|] eqn:Hn; [|done].
  by rewrite (Tag_name_grows s s' _ _ Hg Hn).
Qed.

Lemma store_event_grows (s s' : Tags) (e : Event) (se : StoredEvent) :
  registry_grows s s' ->
  store_event s e = Some se -> store_event s' e = Some se.
Proof.
  intros Hg. unfold store_event.
  destruct (mapM (store_requirement s) (requirements e)) as [reqs|] eqn:Hm;
    [|done].
  apply mapM_Some in Hm.
  assert (mapM (store_requirement s') (requirements e) = Some reqs) as ->;
    [|done].
  apply mapM_Some. eapply Forall2_impl; [exact Hm|].
  intros r sr. by apply store_requirement_grows.
Qed.

Lemma require_each_exact (reqs : list StoredTagRequirement) (event : Event)
    (s : Tags) (stored : list StoredTagRequirement) :
  Forall2 (fun r sr => store_requirement s r = Some sr)
    (requirements event) stored ->
  NoDup (stored ++ reqs) ->
  Forall (fun sr => req_player_index sr < players_involved event) reqs ->
  exists e' s',
    require_each reqs event s = (Ok e', s') /\
    registry_grows s s' /\
    (message e', players_involved e', fatalities e', killers e', enabled e',
     type e') = (message event, players_involved event, fatalities event,
                 killers event, enabled event, type event) /\
    Forall2 (fun r sr => store_requirement s' r = Some sr)
      (requirements e') (stored ++ reqs).
Proof.
  revert event s stored; induction reqs as [|t reqs IH];
    intros event s stored Hst Hnd Hidx.
  { exists event, s. rewrite app_nil_r. by repeat (split; [done|]). }
  simpl.
  destruct (Tag_for_registers (req_name t) s) as ([Hg _] & _ & Hname).
  destruct (Tag_for (req_name t) s) as [tg s1]. simpl in Hg, Hname.
  apply Forall_cons in Hidx as [Hi Hidx].
  set (r := {| tag := tg; player_index := req_player_index t |}).
  assert (store_requirement s1 r = Some t) as Hr.
  { unfold store_requirement, r. simpl. rewrite Hname. simpl.
    by destruct t. }
  assert (existsb (same_requirement r) (requirements event) = false) as Hnew.
  { destruct (existsb _ _) eqn:Ex; [|done]. exfalso.
    apply existsb_exists in Ex as (r' & Hin & Hsame).
    apply same_requirement_eq in Hsame. subst r'.
    apply list_elem_of_In, list_elem_of_lookup in Hin as [i Hi'].
    destruct (Forall2_lookup_l _ _ _ _ _ Hst Hi') as (sr & Hsr & Hstore).
    apply (store_requirement_grows s s1) in Hstore; [|done].
    assert (sr = t) as -> by congruence.
    apply NoDup_app in Hnd as (_ & Hnd & _).
    apply (Hnd t); [by eapply list_elem_of_lookup_2|by left]. }
  unfold require. apply Nat.leb_gt in Hi as Hle. rewrite Hle.
  fold r. rewrite Hnew.
  set (event1 := {| message := message event; players_involved := _ |}).
  destruct (IH event1 s1 (stored ++ [t])) as (e' & s2 & Hrun & Hg2 & Hf & Hall).
  - simpl. apply Forall2_app; [|by constructor].
    eapply Forall2_impl; [exact Hst|].
    intros r' sr. by apply store_requirement_grows.
  - by rewrite <- app_assoc.
  - done.
  - exists e', s2. rewrite <- app_assoc in Hall.
    split; [done|]. split; [by etrans|]. by split.
Qed.

Lemma V1_LoadEvent_exact (stored : StoredEvent) (l : list Event) (s : Tags) :
  reloadable stored ->
  exists e s',
    V1_LoadEvent stored l s = (Ok (l ++ [e]), s') /\
    registry_grows s s' /\ store_event s' e = Some stored.
Proof.
  intros (Htrim & Hok & Hbig & Hidx & Hnd). unfold V1_LoadEvent.
  destruct (new_Event _ _ _ _) as [event|err|] eqn:Hnew; [|done..].
  apply new_Event_Ok_args in Hnew. rewrite Htrim in Hnew.
  set (event0 := set_enabled _ event).
  destruct (require_each_exact (tag_requirements stored) event0 s [])
    as (e' & s' & Hrun & Hg & Hf & Hall).
  { unfold event0. rewrite Hnew. simpl. constructor. }
  { done. }
  { unfold event0. rewrite Hnew. by simpl. }
  rewrite Hrun. exists e', s'. split; [done|]. split; [done|].
  unfold store_event. apply mapM_Some in Hall. simpl in Hall.
  rewrite Hall. simpl.
  unfold event0 in Hf. rewrite Hnew in Hf. simpl in Hf.
  injection Hf as -> _ -> -> -> ->.
  assert (stored_enabled stored
          && negb (String.eqb (stored_type stored) "BIG LANG")
          = stored_enabled stored) as ->.
  { destruct (String.eqb _ _) eqn:E; [|apply andb_true_r].
    apply String.eqb_eq in E. by rewrite (Hbig E). }
  by destruct stored.
Qed.

Lemma load_each_exact (key : EventListKey) (sl : list StoredEvent)
    (st : Store) (l0 : list Event) (sl0 : list StoredEvent) :
  get_list key (store_into st) = Some l0 ->
  Forall2 (fun e se => store_event (store_tags st) e = Some se) l0 sl0 ->
  Forall reloadable sl ->
  exists st',
    load_each V1_LoadEvent key sl st = (Ok tt, st') /\
    registry_grows (store_tags st) (store_tags st') /\
    (forall key', key' <> key ->
       get_list key' (store_into st') = get_list key' (store_into st)) /\
    exists l', get_list key (store_into st') = Some l' /\
      Forall2 (fun e se => store_event (store_tags st') e = Some se)
        l' (sl0 ++ sl).
Proof.
  revert st l0 sl0; induction sl as [|se sl IH]; intros st l0 sl0 Hl Hst Hre.
  { exists st. rewrite app_nil_r. split; [done|]. split; [done|].
    split; [done|]. by exists l0. }
  apply Forall_cons in Hre as [Hse Hre]. simpl. rewrite Hl. simpl.
  destruct (V1_LoadEvent_exact se l0 (store_tags st) Hse)
    as (e & s' & -> & Hg & He).
  set (st1 := {| store_into := set_list key (l0 ++ [e]) (store_into st);
                 store_tags := s' |}).
  destruct (IH st1 (l0 ++ [e]) (sl0 ++ [se]))
    as (st' & Hrun & Hg' & Hother & l' & Hl' & Hall).
  - unfold st1. simpl. rewrite get_set_list. by destruct (decide _).
  - apply Forall2_app; [|by constructor].
    eapply Forall2_impl; [exact Hst|].
    intros e0 se0. by apply store_event_grows.
  - done.
  - exists st'. split; [done|]. split; [by etrans|]. split.
    + intros key' Hne. rewrite Hother by done. unfold st1. simpl.
      rewrite get_set_list. by destruct (decide _).
    + exists l'. by rewrite <- app_assoc in Hall.
Qed.

Lemma load_key_exact (events : StoredLists StoredEvent) (key : EventListKey)
    (st : Store) (sl : list StoredEvent) :
  get_stored key events = Some sl ->
  get_list key (store_into st) = Some [] ->
  Forall reloadable sl ->
  exists st',
    load_key events V1_EventsEqual V1_LoadEvent key st = (Ok tt, st') /\
    registry_grows (store_tags st) (store_tags st') /\
    (forall key', key' <> key ->
       get_list key' (store_into st') = get_list key' (store_into st)) /\
    exists l', get_list key (store_into st') = Some l' /\
      Forall2 (fun e se => store_event (store_tags st') e = Some se) l' sl.
Proof.
  intros Hsl Hl Hre. unfold load_key. rewrite Hl, Hsl. simpl.
  rewrite (set_list_same key [] _ Hl).
  assert (filter (fun e : StoredEvent => false = false) sl = sl) as ->.
  { clear. induction sl as [|se sl IH]; [done|].
    rewrite filter_cons. destruct (decide _); [|done]. by rewrite IH. }
  assert ({| store_into := store_into st; store_tags := store_tags st |}
          = st) as -> by by destruct st.
  destruct (load_each_exact key sl st [] [] Hl) as (st' & H); [constructor|done|].
  by exists st'.
Qed.

Lemma load_keys_exact (events : StoredLists StoredEvent)
    (keys : list EventListKey) (st : Store) :
  NoDup keys ->
  (forall key, key ∈ keys -> get_list key (store_into st) = Some []) ->
  (forall key, is_Some (get_stored key events)) ->
  (forall key stored, in_file events key stored -> reloadable stored) ->
  exists st',
    load_keys events V1_EventsEqual V1_LoadEvent keys st = (Ok tt, st') /\
    registry_grows (store_tags st) (store_tags st') /\
    (forall key, key ∉ keys ->
       get_list key (store_into st') = get_list key (store_into st)) /\
    forall key, key ∈ keys ->
      exists l' sl, get_stored key events = Some sl /\
        get_list key (store_into st') = Some l' /\
        Forall2 (fun e se => store_event (store_tags st') e = Some se) l' sl.
Proof.
  intros Hnd Hempty Hsome Hre. revert st Hempty.
  induction keys as [|k keys IH]; intros st Hempty.
  { exists st. split; [done|]. split; [done|]. split; [done|].
    intros key Hkey. by apply elem_of_nil in Hkey. }
  apply NoDup_cons in Hnd as [Hk Hnd]. simpl.
  destruct (Hsome k) as [sl Hsl].
  destruct (load_key_exact events k st sl Hsl)
    as (st1 & -> & Hg1 & Hother1 & l1 & Hl1 & Hall1).
  { apply Hempty. by left. }
  { apply Forall_forall. intros se Hse. apply (Hre k). by exists sl. }
  destruct (IH Hnd st1) as (st2 & Hrun & Hg2 & Hother2 & Hkeys).
  { intros key Hkey. rewrite Hother1; [apply Hempty; by right|].
    by intros ->. }
  exists st2. split; [done|]. split; [by etrans|]. split.
  - intros key Hkey. apply not_elem_of_cons in Hkey as [Hne Hkey].
    by rewrite Hother2, Hother1.
  - intros key [->|Hkey]%elem_of_cons; [|by apply Hkeys].
    exists l1, sl. split; [done|]. split; [by rewrite Hother2|].
    eapply Forall2_impl; [exact Hall1|].
    intros e se. by apply store_event_grows.
Qed.

Lemma Load_then_Save (events : StoredLists StoredEvent)
    (tags : list StoredTag) (from_local_storage : bool) (st : Store) :
  (forall key, is_Some (get_stored key events)) ->
  (forall key stored, in_file events key stored -> reloadable stored) ->
  exists st' tags',
    Load (V1Config events tags) true from_local_storage st
    = (Finished (Ok tt), st') /\
    Save (store_into st') (store_tags st') = Some (V1Config events tags') /\
    forall tg, tg ∈ tags' -> required_names events (stored_name tg).
Proof.
  intros Hsome Hre.
  destruct (V1_Load_run events tags true from_local_storage st)
    as (_ & _ & Hreg).
  revert Hreg. simpl. rewrite LoadTags_V1.
  set (st0 := {| store_into := clear_lists (store_into st);
                 store_tags := _ |}).
  destruct (load_keys_exact events list_keys st0)
    as (st' & Hrun & _ & _ & Hkeys); [| |done|done|].
  { by apply (bool_decide_unpack _). }
  { intros key _. apply get_clear_lists. }
  unfold LoadEvents. rewrite Hrun. simpl. intros Hreg.
  assert (exists tags', SaveTags (store_tags st') = Some tags' /\
            forall tg, tg ∈ tags' -> required_names events (stored_name tg))
    as (tags' & Htags & Hnames).
  { unfold SaveTags.
    destruct (mapM _ (registered_tags (store_tags st'))) as [tags'|] eqn:Hm.
    - exists tags'. split; [done|]. intros tg Htg.
      apply mapM_Some in Hm.
      apply list_elem_of_lookup in Htg as [i Hi].
      destruct (Forall2_lookup_r _ _ _ _ _ Hm Hi) as (t & Ht & Hname).
      destruct (Hreg t) as [[C _]|(n & Hn & Hnm)];
        [by eapply list_elem_of_lookup_2|done|].
      rewrite Hnm in Hname. simpl in Hname. by injection Hname as <-.
    - exfalso. apply mapM_None in Hm.
      apply Exists_exists in Hm as (t & Ht & Hnone).
      destruct (Hreg t Ht) as [[C _]|(n & Hn & Hnm)]; [done|].
      by rewrite Hnm in Hnone. }
  exists st', tags'. split; [done|]. split; [|done].
  unfold Save. rewrite Htags.
  assert (SaveEvents (store_into st') (store_tags st') = Some events) as ->;
    [|done].
  unfold SaveEvents.
  assert (forall key, get_list key (store_into st')
                      ≫= mapM (store_event (store_tags st'))
                      = get_stored key events) as Hget.
  { intros key. destruct (Hkeys key) as (l' & sl & -> & -> & Hall).
    { unfold list_keys. destruct key; repeat constructor. }
    simpl. by apply mapM_Some. }
  rewrite !Hget. destruct events as [eb ed en ef ea]. simpl.
  destruct (Hsome key_day) as [? H1], (Hsome key_all) as [? H2],
    (Hsome key_feast) as [? H3], (Hsome key_night) as [? H4],
    (Hsome key_bloodbath) as [? H5].
  simpl in *. by subst.
Qed.

(** X30. Saving after a load with [overwrite] gives the file back. When a
    configuration of version 1 has all five lists and every stored event
    is one that [Save] could have written (a trimmed message that the
    constructor accepts with the stored fatalities and killers, disabled if
    of type [BIG LANG], requirements on participants and none twice), the
    load returns, whatever [into] and the registry held, and [Save] then
    returns the same lists of stored events, with the tags that the
    requirements name. *)
Theorem Save_gives_the_loaded_file_back (events : StoredLists StoredEvent)
    (tags : list StoredTag) (from_local_storage : bool) (st : Store) :
  (forall key, is_Some (get_stored key events)) ->
  (forall key stored, in_file events key stored -> reloadable stored) ->
  exists st' tags',
    Load (V1Config events tags) true from_local_storage st
    = (Finished (Ok tt), st') /\
    Save (store_into st') (store_tags st') = Some (V1Config events tags') /\
    forall tg, tg ∈ tags' -> required_names events (stored_name tg).
Proof. apply Load_then_Save. Qed.

Lemma Save_gives_the_loaded_file_back_witness :
  exists st' tags',
    Load (V1Config career_file []) true false
      {| store_into := career_lists; store_tags := career_registry |}
    = (Finished (Ok tt), st') /\
    Save (store_into st') (store_tags st')
    = Some (V1Config career_file tags') /\
    forall tg, tg ∈ tags' -> required_names career_file (stored_name tg).
Proof.
  apply (Save_gives_the_loaded_file_back career_file [] false
           {| store_into := career_lists; store_tags := career_registry |}).
  - intros key. destruct key; by eexists.
  - intros key stored (l & Hl & Hin).
    destruct key; simpl in Hl; injection Hl as <-;
      try (by apply elem_of_nil in Hin).
    apply list_elem_of_singleton in Hin as ->. unfold reloadable.
    split; [vm_compute; reflexivity|]. split; [vm_compute; reflexivity|].
    split; [done|]. split; [|apply NoDup_singleton].
    constructor; [vm_compute; lia|constructor].
Defined.
